(** * FERAT expansion checker: a shallow embedding and its properties

    The development follows the C sources of [ferat-tools]:
    - [common.h]    literal and variable encoding,
    - [arraylist.c] growable arrays with sorted insertion and binary search,
    - [sorting.c]   the iterative in-place quicksort,
    - [parsing.c]   the lexical primitives,
    - [qbf.c]       the QBF parser and the matrix sort,
    - [check.c]     the per-clause expansion check,
    - [hashtable.c] the open-addressing hash table,
    - [expansion.c] the reader of expansion files.

    Unsigned 32-bit values are integers of [Z] whose wrap-around is written
    with [u32]; arrays are lists read and written by index; hash tables keyed
    by [hash_fnv1a] of a variable (an injective map on 64-bit words: an xor
    followed by a multiplication by an odd constant) are finite maps keyed by
    the variable.  A failed [assert] and a call of [fatal_parse_error] end the
    run; both are results of the [Outcome] type. *)

From Stdlib Require Import ZArith Lia String Ascii.
From Stdlib Require Floats.SpecFloat.
From stdpp Require Import base tactics option list sorting gmap sets.

Local Open Scope Z_scope.

(** ** Machine integers and the literal encoding ([common.h]) *)

Definition u32 (x : Z) : Z := x mod 2 ^ 32.

Definition VARIABLE_MIN : Z := 1.
Definition VARIABLE_MAX : Z := 2 ^ 31 - 1.
Definition INT32_MAX : Z := 2 ^ 31 - 1.
Definition INT32_MIN : Z := - 2 ^ 31.
Definition UINT32_MAX : Z := 2 ^ 32 - 1.
Definition EXIT_PARSING_FAILURE : Z := 80.

Definition LITSIGNBIT (lit : Z) : Z := Z.land lit 1.
Definition LIT2VAR (lit : Z) : Z := Z.shiftr lit 1.
Definition VAR2LIT (var signb : Z) : Z := Z.lor (u32 (Z.shiftl var 1)) signb.
Definition LIT_NEG (lit : Z) : Z := Z.lxor lit 1.
(** [SIGNED_LIT2LIT] takes an [int32_t]: [abs] of it, and its top bit as sign. *)
Definition SIGNED_LIT2LIT (s_lit : Z) : Z :=
  VAR2LIT (Z.abs s_lit) (Z.shiftr (u32 s_lit) 31).

(** ** Results of a run *)

Inductive Outcome (A : Type) : Type :=
| Ok (a : A)
| AssertFail            (* an [assert] of the source does not hold *)
| Fatal (code : Z)      (* [fatal_parse_error]: the process exits with [code] *)
| Timeout.              (* the fuel of a modelled loop ran out *)
Arguments Ok {A} a.
Arguments AssertFail {A}.
Arguments Fatal {A} code.
Arguments Timeout {A}.

#[global] Instance Outcome_ret : MRet Outcome := fun A a => Ok a.
#[global] Instance Outcome_bind : MBind Outcome := fun A B f m =>
  match m with
  | Ok a => f a
  | AssertFail => AssertFail
  | Fatal c => Fatal c
  | Timeout => Timeout
  end.

Definition assert (b : bool) : Outcome unit :=
  if b then Ok tt else AssertFail.

(** ** Array lists ([arraylist.h], [arraylist.c], [varstruct.h])

    An array list is the list of its [size] stored elements, index 0 first;
    the capacity and the reallocation are not modelled. *)

Definition rd (values : list Z) (i : Z) : Z := nth (Z.to_nat i) values 0.

Definition al_get {A} (al : list A) (index : Z) : Outcome A :=
  match al !! Z.to_nat index with
  | Some x => Ok x
  | None => AssertFail
  end.

Definition al_append {A} (al : list A) (element : A) : list A := al ++ [element].

Definition al_pop {A} (al : list A) : Outcome (A * list A) :=
  match last al with
  | Some x => Ok (x, removelast al)
  | None => AssertFail
  end.

(** [VARSTRUCT_INSERT]: the tail from [index] on moves up by one. *)
Definition al_insert (al : list Z) (element : Z) (index : Z) : list Z :=
  take (Z.to_nat index) al ++ element :: drop (Z.to_nat index) al.

Fixpoint insert_sorted_index (al : list Z) (element : Z) (i : Z) : Z :=
  match al with
  | [] => i
  | x :: al' => if x <? element then insert_sorted_index al' element (i + 1) else i
  end.

Definition al_insert_sorted (al : list Z) (element : Z) : list Z :=
  al_insert al element (insert_sorted_index al element 0).

(** [VARSTRUCT_REMOVE] with [num = 1]. *)
Definition al_remove (al : list Z) (index : Z) : Outcome (list Z) :=
  _ ← assert (index <? Z.of_nat (length al));
  Ok (take (Z.to_nat index) al ++ drop (S (Z.to_nat index)) al).

(** The loop of [binary_search_index]; it returns the index found or -1.
    [size] is a [uint32_t], and [low], [mid] and [high] stay within
    [0 .. size - 1] ([mid + 1] within [0 .. size]), so the unsigned
    arithmetic of the loop is exact. *)
Fixpoint binary_search_loop (fuel : nat) (al : list Z) (element : Z)
    (low high : Z) : Outcome Z :=
  if high <? low then Ok (-1) else
  match fuel with
  | O => Timeout
  | S fuel =>
      let mid := low + (high - low) / 2 in
      let other_element := rd al mid in
      if element =? other_element then Ok mid
      else if other_element <? element then
        binary_search_loop fuel al element (mid + 1) high
      else if mid =? 0 then Ok (-1)
      else binary_search_loop fuel al element low (mid - 1)
  end.

Definition al_binary_search_index (al : list Z) (element : Z) : Outcome Z :=
  let size := Z.of_nat (length al) in
  if size <? 1 then Ok (-1)
  else binary_search_loop (S (length al)) al element 0 (size - 1).

Definition al_binary_search_contains (al : list Z) (element : Z) : Outcome bool :=
  idx ← al_binary_search_index al element;
  Ok (negb (idx =? -1)).

(** ** The quicksort of [sorting.c] *)

(** [SWAP_PTR_VALUES (tmp, values + i, values + j)] *)
Definition swap (values : list Z) (i j : Z) : list Z :=
  let tmp := rd values i in
  <[Z.to_nat j := tmp]> (<[Z.to_nat i := rd values j]> values).

Section sorting.
(** A [struct Partial] is a function with its context.  The function of
    the matrix sort writes to the formula behind its context (the table of
    free variables already warned about), so a call returns the new
    context next to the key. *)
Context {Ctx : Type}.
Variable partial : Ctx → Z → Z * Ctx.

(** The [for] loop of the partition, at index [j], with [n] rounds left. *)
Fixpoint partition_loop (n : nat) (central : Z) (j i : Z)
    (values : list Z) (c : Ctx) : Z * list Z * Ctx :=
  match n with
  | O => (i, values, c)
  | S n =>
      let '(k, c) := partial c (rd values j) in
      if central <? k then partition_loop n central (j + 1) i values c
      else
        let i := i + 1 in
        partition_loop n central (j + 1) i (swap values i j) c
  end.

(** One round of the [while] loop. *)
Definition quickort_round (stack values : list Z) (c : Ctx)
    : Outcome (list Z * list Z * Ctx) :=
  '(high, stack) ← al_pop stack;
  '(low, stack) ← al_pop stack;
  let '(central, c) := partial c (rd values high) in
  let '(i, values, c) :=
    partition_loop (Z.to_nat (high - low)) central low (low - 1) values c in
  let values := if i + 1 <? high then swap values (i + 1) high else values in
  let pivot := u32 (i + 1) in
  let stack :=
    if u32 (low + 1) <? pivot
    then al_append (al_append stack low) (u32 (pivot - 1)) else stack in
  let stack :=
    if pivot <? u32 (high - 1)
    then al_append (al_append stack (u32 (pivot + 1))) high else stack in
  Ok (stack, values, c).

Fixpoint quickort_loop (fuel : nat) (stack values : list Z) (c : Ctx)
    : Outcome (list Z * list Z * Ctx) :=
  match stack with
  | [] => Ok (stack, values, c)
  | _ :: _ =>
      match fuel with
      | O => Timeout
      | S fuel =>
          '(stack, values, c) ← quickort_round stack values c;
          quickort_loop fuel stack values c
      end
  end.

(** [size] is the number of elements of [values]; every round takes one
    range of at least two positions off the stack and leaves ranges that
    cover at least one position less, so [size] rounds are enough when the
    stack is empty on entry, as it is at each call site. *)
Definition iterative_inplace_quickort (stack values : list Z) (size : Z) (c : Ctx)
    : Outcome (list Z * list Z * Ctx) :=
  if size <? 2 then Ok (stack, values, c)
  else
    let stack := al_append stack 0 in
    let stack := al_append stack (u32 (size - 1)) in
    quickort_loop (Z.to_nat size) stack values c.
End sorting.

(** [sort_identity] of [sorting.h]; its context is [NULL]. *)
Definition sort_identity (context : unit) (value : Z) : Z * unit := (value, context).

(** ** Lexical primitives ([parsing.h], [parsing.c]) *)

Inductive ParseState : Type :=
| PARSE_STATE_NONE
| PARSE_STATE_PROBLEM
| PARSE_STATE_COMMENT
| PARSE_STATE_QUANTIFIER
| PARSE_STATE_CLAUSE
| PARSE_STATE_PLAIN_COMMENT
| PARSE_STATE_MAPPING_COMMENT
| PARSE_STATE_ORIGIN_COMMENT.

(** What [parse_warning] prints, by call site. *)
Inductive Warning : Type :=
| WarnExpectedZero             (* "Expected '0' delimiter, not ..." *)
| WarnDuplicateVar (var : Z)   (* "Found duplicate variable %u in prefix, ..." *)
| WarnSameQuantifier           (* "Two quantifiers of same type in a row" *)
| WarnNumClauses (expected received : Z)
| WarnMaxVar (expected actual : Z)
| WarnOriginsShort (origins yielded : Z).  (* "... Falling back to iterative search mode" *)

(** The [gzFile] of a parser is the list of bytes not read yet.  [gzread] of
    one byte at the end of the input stores nothing, and only after such a
    read does [gzeof] hold.  [warnings] is what the parser has printed
    through [parse_warning]. *)
Record Parser : Type := mkParser {
  stream : list ascii;
  eof : bool;
  silent : bool;
  line : Z;
  col : Z;
  prev : ascii;
  la : ascii;
  state : ParseState;
  warnings : list Warning
}.

Definition set_state (p : Parser) (s : ParseState) : Parser :=
  mkParser (stream p) (eof p) (silent p) (line p) (col p) (prev p) (la p) s (warnings p).

Definition parse_warning (p : Parser) (w : Warning) : Parser :=
  if silent p then p
  else mkParser (stream p) (eof p) (silent p) (line p) (col p) (prev p) (la p)
         (state p) (warnings p ++ [w]).

Definition newline : ascii := "010"%char.

Definition read_one_char (p : Parser) : Parser :=
  let prev' := la p in
  let col' := if Ascii.eqb prev' newline then 0 else col p in
  let line' := if Ascii.eqb prev' newline then u32 (line p + 1) else line p in
  let col' := u32 (col' + 1) in
  match stream p with
  | c :: rest => mkParser rest (eof p) (silent p) line' col' prev' c (state p) (warnings p)
  | [] => mkParser [] true (silent p) line' col' prev' (la p) (state p) (warnings p)
  end.

(** space, tab, vertical tab, carriage return *)
Definition is_white (c : ascii) : bool :=
  Ascii.eqb c " "%char || Ascii.eqb c "009"%char || Ascii.eqb c "011"%char
  || Ascii.eqb c "013"%char.

(** A round that goes on reads a byte or finds the end of the input; the
    fuel of the loops below counts these. *)
Definition reads_left (p : Parser) : nat :=
  (length (stream p) + (if eof p then 0 else 1))%nat.

Fixpoint skip_white_loop (fuel : nat) (p : Parser) (num_read : Z) : Outcome (Z * Parser) :=
  if is_white (la p) then
    if eof p then Ok (num_read, p)
    else
      match fuel with
      | O => Timeout
      | S fuel => skip_white_loop fuel (read_one_char p) (u32 (num_read + 1))
      end
  else Ok (num_read, p).

Definition skip_white (p : Parser) : Outcome (Z * Parser) :=
  skip_white_loop (reads_left p) p 0.

Fixpoint expect_word_loop (fuel : nat) (p : Parser) (al : list ascii)
    : Outcome (list ascii * Parser) :=
  if is_white (la p) || Ascii.eqb (la p) newline then Ok (al, p)
  else if eof p then Ok (al, p)
  else
    match fuel with
    | O => Timeout
    | S fuel => expect_word_loop fuel (read_one_char p) (al_append al (la p))
    end.

(** [al8_to_str] ends the bytes with a NUL; a C string stops at its first NUL. *)
Fixpoint c_str (bytes : list ascii) : list ascii :=
  match bytes with
  | [] => []
  | c :: rest => if Ascii.eqb c "000"%char then [] else c :: c_str rest
  end.

Definition expect_word (p : Parser) : Outcome (list ascii * Parser) :=
  '(_, p) ← skip_white p;
  '(al, p) ← expect_word_loop (reads_left p) p [];
  Ok (c_str al, p).

Definition digit_of (c : ascii) : option Z :=
  if Ascii.eqb c "0"%char then Some 0
  else if Ascii.eqb c "1"%char then Some 1
  else if Ascii.eqb c "2"%char then Some 2
  else if Ascii.eqb c "3"%char then Some 3
  else if Ascii.eqb c "4"%char then Some 4
  else if Ascii.eqb c "5"%char then Some 5
  else if Ascii.eqb c "6"%char then Some 6
  else if Ascii.eqb c "7"%char then Some 7
  else if Ascii.eqb c "8"%char then Some 8
  else if Ascii.eqb c "9"%char then Some 9
  else None.

Fixpoint expect_number_loop (fuel : nat) (p : Parser) (num : Z) : Outcome (Z * Parser) :=
  if eof p then Ok (num, p)
  else
    match digit_of (la p) with
    | None => Ok (num, p)
    | Some d =>
        match fuel with
        | O => Timeout
        | S fuel => expect_number_loop fuel (read_one_char p) (u32 (num * 10 + d))
        end
    end.

Definition expect_number (p : Parser) (expect_positive : bool) : Outcome (Z * Parser) :=
  '(_, p) ← skip_white p;
  let is_neg := Ascii.eqb (la p) "-"%char in
  p ← (if is_neg then
         if expect_positive then Fatal EXIT_PARSING_FAILURE else Ok (read_one_char p)
       else Ok p);
  '(num, p) ← expect_number_loop (reads_left p) p 0;
  Ok (if is_neg then - num else num, p).

Definition expect_number_literal (p : Parser) (literal : Z) : Outcome (Z * Parser) :=
  '(num, p) ← expect_number p false;
  if negb (num =? literal) then Fatal EXIT_PARSING_FAILURE else Ok (num, p).

Definition expect_variable (p : Parser) (accept_zero : bool) : Outcome (Z * Parser) :=
  '(var, p) ← expect_number p true;
  _ ← assert ((VARIABLE_MIN <=? var) || ((var =? 0) && accept_zero));
  _ ← assert (var <=? VARIABLE_MAX);
  Ok (u32 var, p).

Definition expect_literal (p : Parser) (accept_zero : bool) : Outcome (Z * Parser) :=
  '(num, p) ← expect_number p false;
  _ ← assert (num <=? INT32_MAX);
  _ ← assert (INT32_MIN <=? num);
  let lit := SIGNED_LIT2LIT num in
  _ ← assert ((VARIABLE_MIN <=? LIT2VAR lit) || ((LIT2VAR lit =? 0) && accept_zero));
  _ ← assert (LIT2VAR lit <=? VARIABLE_MAX);
  Ok (lit, p).

(** The loop of [expect_variable_list] and of [expect_literal_list]; [item]
    is [expect_variable] or [expect_literal].  The result holds the list and
    [got_zero]. *)
Fixpoint expect_list_loop (item : Parser → bool → Outcome (Z * Parser))
    (fuel : nat) (p : Parser) (al : list Z) : Outcome (list Z * bool * Parser) :=
  if eof p || Ascii.eqb (la p) newline then Ok (al, false, p)
  else
    match fuel with
    | O => Timeout
    | S fuel =>
        '(x, p) ← item p true;
        if x =? 0 then Ok (al, true, p)
        else expect_list_loop item fuel p (al_append al x)
    end.

Definition expect_variable_list (p : Parser) : Outcome (list Z * Parser) :=
  '(al, got_zero, p) ← expect_list_loop expect_variable (S (reads_left p)) p [];
  Ok (al, if got_zero : bool then p else parse_warning p WarnExpectedZero).

Definition expect_literal_list (p : Parser) : Outcome (list Z * Parser) :=
  '(al, got_zero, p) ← expect_list_loop expect_literal (S (reads_left p)) p [];
  Ok (al, if got_zero : bool then p else parse_warning p WarnExpectedZero).

Definition handle_newline (p : Parser) : Outcome (bool * Parser) :=
  '(_, p) ← skip_white p;
  if negb (Ascii.eqb (la p) newline) then Ok (false, p)
  else Ok (true, set_state (read_one_char p) PARSE_STATE_NONE).

(** A parser as [qbf_parse] and [expansion_parse_preamble] set it up, after
    their first [read_one_char]. *)
Definition parser_init (input : string) (silent : bool) : Parser :=
  read_one_char
    (mkParser (list_ascii_of_string input) false silent 1 1 "000"%char "000"%char
       PARSE_STATE_NONE []).

(** ** QBF formulas ([qbf.h], [qbf.c]) *)

Inductive QuantType : Type :=
| QUANT_TYPE_NONE
| QUANT_TYPE_EXISTENTIAL
| QUANT_TYPE_UNIVERSAL.

#[global] Instance QuantType_eq_dec : EqDecision QuantType.
Proof. solve_decision. Defined.

(** A quantifier block; [num_vars] is the length of [variables]. *)
Record Quantifier : Type := mkQuantifier {
  type : QuantType;
  ordering : Z;
  variables : list Z
}.

(** A clause is its literals; [num_literals] is their number. *)
Abbreviation QBFClause := (list Z) (only parsing).
Abbreviation ExpClause := (list Z) (only parsing).

(** [prefix_mapping] holds, for a bound variable, a pointer to its block.
    Through this table the code reads the fields [type] and [ordering] only,
    which are written once when the block is allocated; the table of the
    model holds the block as it is when the variable is entered. *)
Record QBF : Type := mkQBF {
  max_var : Z;
  num_alternations : Z;
  prefix_mapping : gmap Z Quantifier;
  warned_free : gset Z;
  prefix : list Quantifier;
  matrix : list QBFClause
}.

Definition qbf_new : QBF := mkQBF 0 0 ∅ ∅ [] [].

Definition set_warned_free (qbf : QBF) (w : gset Z) : QBF :=
  mkQBF (max_var qbf) (num_alternations qbf) (prefix_mapping qbf) w (prefix qbf)
    (matrix qbf).

Definition set_matrix (qbf : QBF) (m : list QBFClause) : QBF :=
  mkQBF (max_var qbf) (num_alternations qbf) (prefix_mapping qbf) (warned_free qbf)
    (prefix qbf) m.

(** The warning is printed once for a variable; [warned_free] records it. *)
Definition qbf_warn_free (qbf : QBF) (var : Z) : QBF :=
  if decide (var ∈ warned_free qbf) then qbf
  else set_warned_free qbf ({[var]} ∪ warned_free qbf).

Definition qbf_get_quant_ordering_from_index_partial (qbf : QBF) (lit : Z) : Z * QBF :=
  match prefix_mapping qbf !! LIT2VAR lit with
  | None => (0, qbf_warn_free qbf (LIT2VAR lit))
  | Some quant => (ordering quant, qbf)
  end.

(** The loop of [qbf_sort_clauses_in_matrix] over the clauses of the matrix;
    the sorted clauses are collected in place of the old ones. *)
Fixpoint sort_clauses_loop (stack : list Z) (clauses : list QBFClause) (qbf : QBF)
    : Outcome (list Z * list QBFClause * QBF) :=
  match clauses with
  | [] => Ok (stack, [], qbf)
  | clause :: rest =>
      '(stack, lits, qbf) ←
        iterative_inplace_quickort qbf_get_quant_ordering_from_index_partial
          stack clause (Z.of_nat (length clause)) qbf;
      '(stack, rest, qbf) ← sort_clauses_loop stack rest qbf;
      Ok (stack, lits :: rest, qbf)
  end.

Definition qbf_sort_clauses_in_matrix (qbf : QBF) : Outcome QBF :=
  '(_, m, qbf) ← sort_clauses_loop [] (matrix qbf) qbf;
  Ok (set_matrix qbf m).

(** *** The parser

    The local variables of [qbf_parse] that live across rounds. *)
Record QBFParse : Type := mkQBFParse {
  parsed_problem : bool;
  saw_quantifier : bool;
  last_is_existential : bool;
  is_existential : bool;
  qbf_p_max_var : Z;      (* [p_max_var] *)
  qbf_p_num_clauses : Z;  (* [p_num_clauses] *)
  quantifier_index : Z;
  num_clauses : Z;
  not_exists_ch : ascii
}.

(** The loop over the variables of a quantifier line.  [i] is the index into
    [quantifier_variables] and into the block, [num_vars] the field of the
    block, [written] the entries of the block written so far (indices below
    [i]).  A round moves [i] up or [num_vars] down, so twice the length of
    the list bounds the rounds. *)
Fixpoint quantifier_loop (fuel : nat) (quantifier_variables : list Z)
    (qtype : QuantType) (qordering : Z) (i num_vars : Z) (written : list Z)
    (parser : Parser) (qbf : QBF) : Outcome (Z * list Z * Parser * QBF) :=
  if negb (i <? Z.of_nat (length quantifier_variables)) then
    Ok (num_vars, written, parser, qbf)
  else
    match fuel with
    | O => Timeout
    | S fuel =>
        qbf_var ← al_get quantifier_variables i;
        match prefix_mapping qbf !! qbf_var with
        | Some _ =>
            let parser := parse_warning parser (WarnDuplicateVar qbf_var) in
            let num_vars := u32 (num_vars - 1) in
            if num_vars =? 0 then Ok (num_vars, written, parser, qbf)
            else
              quantifier_loop fuel quantifier_variables qtype qordering i num_vars
                written parser qbf
        | None =>
            let written := written ++ [qbf_var] in
            let quantifier := mkQuantifier qtype qordering written in
            let qbf :=
              mkQBF (if max_var qbf <? qbf_var then qbf_var else max_var qbf)
                (num_alternations qbf)
                (<[qbf_var := quantifier]> (prefix_mapping qbf))
                (warned_free qbf) (prefix qbf) (matrix qbf) in
            quantifier_loop fuel quantifier_variables qtype qordering (i + 1) num_vars
              written parser qbf
        end
    end.

(** The case [PARSE_STATE_QUANTIFIER], after [expect_variable_list]. *)
Definition qbf_parse_quantifier (quantifier_variables : list Z) (parser : Parser)
    (qbf : QBF) (st : QBFParse) : Outcome (Parser * QBF * QBFParse) :=
  let qtype :=
    if is_existential st then QUANT_TYPE_EXISTENTIAL else QUANT_TYPE_UNIVERSAL in
  let size := Z.of_nat (length quantifier_variables) in
  let qordering := quantifier_index st in
  '(num_vars, written, parser, qbf) ←
    quantifier_loop (2 * length quantifier_variables + 1) quantifier_variables
      qtype qordering 0 size [] parser qbf;
  let st' saw last :=
    mkQBFParse (parsed_problem st) saw last (is_existential st) (qbf_p_max_var st)
      (qbf_p_num_clauses st) (u32 (quantifier_index st + 1)) (num_clauses st)
      (not_exists_ch st) in
  if num_vars =? 0 then
    (* the block is freed *)
    Ok (set_state parser PARSE_STATE_NONE, qbf,
        st' (saw_quantifier st) (last_is_existential st))
  else
    let alternates :=
      saw_quantifier st
      && negb (Bool.eqb (last_is_existential st) (is_existential st)) in
    let same :=
      saw_quantifier st && Bool.eqb (last_is_existential st) (is_existential st) in
    let parser := if same then parse_warning parser WarnSameQuantifier else parser in
    let qbf :=
      mkQBF (max_var qbf)
        (if alternates then u32 (num_alternations qbf + 1) else num_alternations qbf)
        (prefix_mapping qbf) (warned_free qbf)
        (al_append (prefix qbf) (mkQuantifier qtype qordering written))
        (matrix qbf) in
    Ok (set_state parser PARSE_STATE_NONE, qbf, st' true (is_existential st)).

(** The case [PARSE_STATE_CLAUSE], after [expect_literal_list]. *)
Definition qbf_parse_clause (clause_literals : list Z) (parser : Parser) (qbf : QBF)
    (st : QBFParse) : Parser * QBF * QBFParse :=
  let max_var' :=
    fold_left (fun m lit => if m <? LIT2VAR lit then LIT2VAR lit else m)
      clause_literals (max_var qbf) in
  (set_state parser PARSE_STATE_NONE,
   mkQBF max_var' (num_alternations qbf) (prefix_mapping qbf) (warned_free qbf)
     (prefix qbf) (al_append (matrix qbf) clause_literals),
   mkQBFParse (parsed_problem st) (saw_quantifier st) (last_is_existential st)
     (is_existential st) (qbf_p_max_var st) (qbf_p_num_clauses st) (quantifier_index st)
     (u32 (num_clauses st + 1)) (not_exists_ch st)).

(** The case [PARSE_STATE_PROBLEM]. *)
Definition qbf_parse_problem (parser : Parser) (st : QBFParse)
    : Outcome (Parser * QBFParse) :=
  if parsed_problem st then Fatal EXIT_PARSING_FAILURE
  else
    '(word, parser) ← expect_word parser;
    if negb (bool_decide (word = list_ascii_of_string "cnf"))
    then Fatal EXIT_PARSING_FAILURE
    else
      '(n1, parser) ← expect_number parser true;
      '(n2, parser) ← expect_number parser true;
      '(_, parser) ← expect_number_literal parser 0;
      Ok (set_state parser PARSE_STATE_NONE,
          mkQBFParse true (saw_quantifier st) (last_is_existential st)
            (is_existential st) (u32 n1) (u32 n2) (quantifier_index st)
            (num_clauses st) (not_exists_ch st)).

(** The case [PARSE_STATE_NONE]: dispatch on the first byte of a line. *)
Definition qbf_parse_none (parser : Parser) (st : QBFParse)
    : Outcome (Parser * QBFParse) :=
  let c := la parser in
  let enter s :=
    '(_, p) ← skip_white (set_state parser s);
    Ok (read_one_char p) in
  let quant ex :=
    mkQBFParse (parsed_problem st) (saw_quantifier st) (last_is_existential st) ex
      (qbf_p_max_var st) (qbf_p_num_clauses st) (quantifier_index st) (num_clauses st) c in
  if Ascii.eqb c "p"%char then p ← enter PARSE_STATE_PROBLEM; Ok (p, st)
  else if Ascii.eqb c "c"%char then p ← enter PARSE_STATE_COMMENT; Ok (p, st)
  else if Ascii.eqb c "e"%char then p ← enter PARSE_STATE_QUANTIFIER; Ok (p, quant true)
  else if Ascii.eqb c "a"%char then p ← enter PARSE_STATE_QUANTIFIER; Ok (p, quant false)
  else Ok (set_state parser PARSE_STATE_CLAUSE, st).

(** One round of the [while] loop of [qbf_parse]. *)
Definition qbf_parse_round (parser : Parser) (qbf : QBF) (st : QBFParse)
    : Outcome (Parser * QBF * QBFParse) :=
  '(nl, parser) ← handle_newline parser;
  if nl : bool then Ok (parser, qbf, st)
  else
    match state parser with
    | PARSE_STATE_NONE =>
        '(parser, st) ← qbf_parse_none parser st; Ok (parser, qbf, st)
    | PARSE_STATE_PROBLEM =>
        '(parser, st) ← qbf_parse_problem parser st; Ok (parser, qbf, st)
    | PARSE_STATE_COMMENT =>
        '(_, parser) ← skip_white parser; Ok (read_one_char parser, qbf, st)
    | PARSE_STATE_CLAUSE =>
        '(clause_literals, parser) ← expect_literal_list parser;
        Ok (qbf_parse_clause clause_literals parser qbf st)
    | PARSE_STATE_QUANTIFIER =>
        if negb (is_existential st) && negb (Ascii.eqb (not_exists_ch st) "a"%char)
        then Fatal EXIT_PARSING_FAILURE
        else
          '(quantifier_variables, parser) ← expect_variable_list parser;
          qbf_parse_quantifier quantifier_variables parser qbf st
    | _ => Fatal EXIT_PARSING_FAILURE
    end.

Fixpoint qbf_parse_loop (fuel : nat) (parser : Parser) (qbf : QBF) (st : QBFParse)
    : Outcome (Parser * QBF * QBFParse) :=
  if eof parser then Ok (parser, qbf, st)
  else
    match fuel with
    | O => Timeout
    | S fuel =>
        '(parser, qbf, st) ← qbf_parse_round parser qbf st;
        qbf_parse_loop fuel parser qbf st
    end.

(** [qbf_parse] on the bytes [input]; [fuel] bounds the rounds of the
    main loop, which need not end (a line that starts with a byte no list
    accepts is read as an empty clause over and over). *)
Definition qbf_parse (fuel : nat) (input : string) (qbf : QBF) (silent : bool)
    : Outcome (Parser * QBF) :=
  let parser := parser_init input silent in
  let st := mkQBFParse false false false false 0 0 0 0 "000"%char in
  '(parser, qbf, st) ← qbf_parse_loop fuel parser qbf st;
  if negb (parsed_problem st) then Fatal EXIT_PARSING_FAILURE
  else
    let parser :=
      if negb (num_clauses st =? qbf_p_num_clauses st)
      then parse_warning parser (WarnNumClauses (qbf_p_num_clauses st) (num_clauses st))
      else parser in
    if negb (max_var qbf =? qbf_p_max_var st) then
      Ok (parse_warning parser (WarnMaxVar (qbf_p_max_var st) (max_var qbf)),
          mkQBF (if max_var qbf <? qbf_p_max_var st then qbf_p_max_var st else max_var qbf)
            (num_alternations qbf) (prefix_mapping qbf) (warned_free qbf)
            (prefix qbf) (matrix qbf))
    else Ok (parser, qbf).

(** ** Expansions ([expansion.h], [expansion.c]) *)

(** [num_annotation_literals] is the length of [annotation]. *)
Record ExpVarMapping : Type := mkExpVarMapping {
  qbf_var : Z;
  exp_var : Z;
  annotation : list Z
}.

(** [clause_origins] is [None] for the [NULL] pointer.  [clauses] stands for
    the bytes the parser has not read yet: the clauses that
    [expansion_yield_clause] will read off them, in order. *)
Record Expansion : Type := mkExpansion {
  parser : Parser;
  p_max_var : Z;
  p_num_clauses : Z;
  num_clauses_yielded : Z;
  clause_origins : option (list Z);
  exp_var_mapping_keys : list Z;
  exp_var_mappings : gmap Z ExpVarMapping;
  clauses : list ExpClause
}.

Definition expansion_yield_clause (expansion : Expansion)
    : option ExpClause * Expansion :=
  match clauses expansion with
  | [] => (None, expansion)
  | exp_clause :: rest =>
      (Some exp_clause,
       mkExpansion (parser expansion) (p_max_var expansion) (p_num_clauses expansion)
         (u32 (num_clauses_yielded expansion + 1)) (clause_origins expansion)
         (exp_var_mapping_keys expansion) (exp_var_mappings expansion) rest)
  end.

(** ** The checker ([check.h], [check.c]) *)

Inductive FERATCheckResultType : Type :=
| FERAT_CHECK_RESULT_INCORRECT_LITERALS
| FERAT_CHECK_RESULT_INCORRECT_ANNOTATION.

Record FERATCheckResult : Type := mkFERATCheckResult {
  types : list FERATCheckResultType;
  clause_indices : list Z;
  num_results : Z
}.

Definition ferat_check_result_new : FERATCheckResult := mkFERATCheckResult [] [] 0.

Definition ferat_insert_check_result (result : FERATCheckResult)
    (type : FERATCheckResultType) (clause_index : Z) : FERATCheckResult :=
  mkFERATCheckResult (al_append (types result) type)
    (al_append (clause_indices result) clause_index)
    (u32 (num_results result + 1)).

(** *** The existential-literal test *)

(** The first loop: every expansion literal, mapped to the formula, is a
    literal of the clause. *)
Fixpoint origin_lits_loop (exp_lits : list Z) (qbf_clause : QBFClause)
    (expansion : Expansion) : Outcome bool :=
  match exp_lits with
  | [] => Ok true
  | exp_lit :: rest =>
      match exp_var_mappings expansion !! LIT2VAR exp_lit with
      | None => AssertFail  (* assert(result.ok) *)
      | Some mapping =>
          let qbf_lit := VAR2LIT (qbf_var mapping) (LITSIGNBIT exp_lit) in
          if existsb (Z.eqb qbf_lit) qbf_clause
          then origin_lits_loop rest qbf_clause expansion
          else Ok false
      end
  end.

(** The second loop counts the literals of the clause that are existential
    or free.  The count is at most [num_literals], a [uint32_t], so it does
    not wrap. *)
Fixpoint count_exist_loop (qbf_lits : list Z) (qbf : QBF) (num_exist_qbf_lits : Z)
    : Z * QBF :=
  match qbf_lits with
  | [] => (num_exist_qbf_lits, qbf)
  | lit :: rest =>
      let var := LIT2VAR lit in
      match prefix_mapping qbf !! var with
      | Some quant =>
          if decide (type quant = QUANT_TYPE_EXISTENTIAL)
          then count_exist_loop rest qbf (num_exist_qbf_lits + 1)
          else count_exist_loop rest qbf num_exist_qbf_lits
      | None =>
          count_exist_loop rest (qbf_warn_free qbf var) (num_exist_qbf_lits + 1)
      end
  end.

Definition ferat_test_expansion_origin_in_QBF (qbf_clause : QBFClause)
    (exp_clause : ExpClause) (qbf : QBF) (expansion : Expansion)
    : Outcome (bool * QBF) :=
  found ← origin_lits_loop exp_clause qbf_clause expansion;
  if negb found then Ok (false, qbf)
  else
    let '(num_exist_qbf_lits, qbf) := count_exist_loop qbf_clause qbf 0 in
    Ok (Z.of_nat (length exp_clause) =? num_exist_qbf_lits, qbf).

(** *** The annotation test *)

(** The loop over the variables of one universal block. *)
Fixpoint quant_vars_loop (vars : list Z) (qbf_clause : QBFClause) (U V : list Z)
    (num_universal_vars_so_far : Z) : list Z * list Z * Z :=
  match vars with
  | [] => (U, V, num_universal_vars_so_far)
  | quant_qbf_var :: rest =>
      let num := num_universal_vars_so_far + 1 in
      match find (fun lit => quant_qbf_var =? LIT2VAR lit) qbf_clause with
      | Some lit =>
          quant_vars_loop rest qbf_clause (al_insert_sorted U (LIT_NEG lit)) V num
      | None =>
          let V := al_insert_sorted V (VAR2LIT quant_qbf_var 0) in
          let V := al_insert_sorted V (VAR2LIT quant_qbf_var 1) in
          quant_vars_loop rest qbf_clause U V num
      end
  end.

(** The loop over the blocks [j], [j + 1], ... with [n] blocks to go. *)
Fixpoint quant_blocks_loop (n : nat) (j : Z) (qbf : QBF) (qbf_clause : QBFClause)
    (U V : list Z) (num : Z) : Outcome (list Z * list Z * Z) :=
  match n with
  | O => Ok (U, V, num)
  | S n =>
      quant ← al_get (prefix qbf) j;
      if decide (type quant = QUANT_TYPE_UNIVERSAL) then
        let '(U, V, num) := quant_vars_loop (variables quant) qbf_clause U V num in
        quant_blocks_loop n (j + 1) qbf qbf_clause U V num
      else quant_blocks_loop n (j + 1) qbf qbf_clause U V num
  end.

Fixpoint annotation_subset_loop (annotation : list Z) (U V : list Z) : Outcome bool :=
  match annotation with
  | [] => Ok true
  | lit :: rest =>
      in_V ← al_binary_search_contains V lit;
      if in_V : bool then annotation_subset_loop rest U V
      else
        in_U ← al_binary_search_contains U lit;
        if in_U : bool then annotation_subset_loop rest U V else Ok false
  end.

(** [while ((idx = allit_binary_search_index (V, lit)) >= 0) allit_remove (V, idx)] *)
Fixpoint remove_all_loop (fuel : nat) (V : list Z) (lit : Z) : Outcome (list Z) :=
  idx ← al_binary_search_index V lit;
  if 0 <=? idx then
    match fuel with
    | O => Timeout
    | S fuel => V ← al_remove V idx; remove_all_loop fuel V lit
    end
  else Ok V.

Fixpoint annotation_remove_loop (annotation : list Z) (V : list Z) : Outcome (list Z) :=
  match annotation with
  | [] => Ok V
  | a :: rest =>
      V ← remove_all_loop (length V) V (LIT_NEG a);
      annotation_remove_loop rest V
  end.

(** The loop over the expansion literals. *)
Fixpoint annotations_loop (exp_lits : list Z) (qbf_clause : QBFClause)
    (U V : list Z) (qbf : QBF) (expansion : Expansion)
    (last_quant_idx num_universal_vars_so_far : Z)
    : Outcome (bool * list Z * list Z * QBF) :=
  match exp_lits with
  | [] => Ok (true, U, V, qbf)
  | exp_lit :: rest =>
      match exp_var_mappings expansion !! LIT2VAR exp_lit with
      | None => AssertFail  (* assert(result.ok) *)
      | Some exp_var_mapping =>
          match prefix_mapping qbf !! qbf_var exp_var_mapping with
          | None =>
              let qbf := qbf_warn_free qbf (qbf_var exp_var_mapping) in
              if negb (Z.of_nat (length (annotation exp_var_mapping)) =? 0)
              then Ok (false, U, V, qbf)
              else
                annotations_loop rest qbf_clause U V qbf expansion last_quant_idx
                  num_universal_vars_so_far
          | Some quant =>
              let curr_quant_idx := ordering quant in
              '(U, V, num) ←
                quant_blocks_loop (Z.to_nat (curr_quant_idx - last_quant_idx))
                  last_quant_idx qbf qbf_clause U V num_universal_vars_so_far;
              if negb (Z.of_nat (length (annotation exp_var_mapping)) =? num)
              then Ok (false, U, V, qbf)
              else
                subset ← annotation_subset_loop (annotation exp_var_mapping) U V;
                if negb subset then Ok (false, U, V, qbf)
                else
                  V ← annotation_remove_loop (annotation exp_var_mapping) V;
                  annotations_loop rest qbf_clause U V qbf expansion curr_quant_idx num
          end
      end
  end.

(** [U] and [V] are the lists allocated by [ferat_check]; their sizes are
    set to 0 first. *)
Definition ferat_check_annotations_against_expansion (qbf_clause : QBFClause)
    (exp_clause : ExpClause) (U V : list Z) (qbf : QBF) (expansion : Expansion)
    : Outcome (bool * list Z * list Z * QBF) :=
  annotations_loop exp_clause qbf_clause [] [] qbf expansion 0 0.

(** *** Checking one expansion clause *)

Definition drop_origins (expansion : Expansion) (w : Warning) : Expansion :=
  mkExpansion (parse_warning (parser expansion) w) (p_max_var expansion)
    (p_num_clauses expansion) (num_clauses_yielded expansion) None
    (exp_var_mapping_keys expansion) (exp_var_mappings expansion) (clauses expansion).

(** The choice of the candidate at the label [loop_over_matrix_start], for
    the loop counter [i]: the flag [has_origins] after it, the expansion and
    the candidate clause. *)
Definition select_candidate (i : Z) (has_origins : bool) (exp_clause_index : Z)
    (expansion : Expansion) (qbf : QBF) : Outcome (bool * Expansion * QBFClause) :=
  if has_origins then
    match clause_origins expansion with
    | None => AssertFail  (* the flag is set only while the list is there *)
    | Some origins =>
        if Z.of_nat (length origins) <=? i then
          let expansion :=
            drop_origins expansion
              (WarnOriginsShort (Z.of_nat (length origins)) exp_clause_index) in
          (* goto loop_over_matrix_start, now with has_origins = false *)
          qbf_clause ← al_get (matrix qbf) i;
          Ok (false, expansion, qbf_clause)
        else
          matrix_idx ← al_get origins exp_clause_index;
          if Z.of_nat (length (matrix qbf)) <=? matrix_idx
          then Fatal EXIT_PARSING_FAILURE
          else
            qbf_clause ← al_get (matrix qbf) matrix_idx;
            Ok (true, expansion, qbf_clause)
    end
  else
    qbf_clause ← al_get (matrix qbf) i;
    Ok (false, expansion, qbf_clause).

(** The [for] loop over the matrix, at counter [i] with [n] rounds to go.
    The first component of the result tells whether the function returned
    from inside the loop (a candidate passed both tests); the second is
    [found_matching_clause]. *)
Fixpoint matrix_loop (n : nat) (i : Z) (has_origins found_matching_clause : bool)
    (exp_clause : ExpClause) (exp_clause_index : Z) (U V : list Z)
    (expansion : Expansion) (qbf : QBF)
    : Outcome (bool * bool * list Z * list Z * Expansion * QBF) :=
  match n with
  | O => Ok (false, found_matching_clause, U, V, expansion, qbf)
  | S n =>
      '(has_origins, expansion, qbf_clause) ←
        select_candidate i has_origins exp_clause_index expansion qbf;
      '(passed, qbf) ←
        ferat_test_expansion_origin_in_QBF qbf_clause exp_clause qbf expansion;
      if passed : bool then
        '(correct, U, V, qbf) ←
          ferat_check_annotations_against_expansion qbf_clause exp_clause U V qbf
            expansion;
        if correct : bool then Ok (true, true, U, V, expansion, qbf)
        else if has_origins : bool then Ok (false, true, U, V, expansion, qbf)
        else matrix_loop n (i + 1) has_origins true exp_clause exp_clause_index U V
               expansion qbf
      else if has_origins : bool
      then Ok (false, found_matching_clause, U, V, expansion, qbf)
      else matrix_loop n (i + 1) has_origins found_matching_clause exp_clause
             exp_clause_index U V expansion qbf
  end.

Definition ferat_check_expansion_clause (exp_clause : ExpClause)
    (exp_clause_index : Z) (U V : list Z) (expansion : Expansion) (qbf : QBF)
    (result : FERATCheckResult)
    : Outcome (list Z * list Z * Expansion * QBF * FERATCheckResult) :=
  let has_origins := bool_decide (clause_origins expansion ≠ None) in
  '(returned, found_matching_clause, U, V, expansion, qbf) ←
    matrix_loop (length (matrix qbf)) 0 has_origins false exp_clause
      exp_clause_index U V expansion qbf;
  if returned : bool then Ok (U, V, expansion, qbf, result)
  else if found_matching_clause : bool then
    Ok (U, V, expansion, qbf,
        ferat_insert_check_result result FERAT_CHECK_RESULT_INCORRECT_ANNOTATION
          exp_clause_index)
  else
    Ok (U, V, expansion, qbf,
        ferat_insert_check_result result FERAT_CHECK_RESULT_INCORRECT_LITERALS
          exp_clause_index).

(** *** The check of an expansion *)

(** The loop of [ferat_check] at counter [i]; [n] bounds the clauses still
    to be yielded. *)
Fixpoint ferat_check_loop (n : nat) (i : Z) (stack U V : list Z)
    (expansion : Expansion) (qbf : QBF) (result : FERATCheckResult)
    : Outcome (Z * Expansion * QBF * FERATCheckResult) :=
  match expansion_yield_clause expansion with
  | (None, expansion) => Ok (i, expansion, qbf, result)
  | (Some exp_clause, expansion) =>
      match n with
      | O => Timeout
      | S n =>
          '(stack, lits, _) ←
            iterative_inplace_quickort sort_identity stack exp_clause
              (Z.of_nat (length exp_clause)) tt;
          '(U, V, expansion, qbf, result) ←
            ferat_check_expansion_clause lits i U V expansion qbf result;
          ferat_check_loop n (u32 (i + 1)) stack U V expansion qbf result
      end
  end.

Definition ferat_check (result : FERATCheckResult) (qbf : QBF) (expansion : Expansion)
    : Outcome (bool * FERATCheckResult * QBF * Expansion) :=
  '(i, expansion, qbf, result) ←
    ferat_check_loop (length (clauses expansion)) 0 [] [] [] expansion qbf result;
  let expansion :=
    if negb (i =? p_num_clauses expansion) then
      mkExpansion
        (parse_warning (parser expansion) (WarnNumClauses (p_num_clauses expansion) i))
        (p_max_var expansion) (p_num_clauses expansion)
        (num_clauses_yielded expansion) (clause_origins expansion)
        (exp_var_mapping_keys expansion) (exp_var_mappings expansion)
        (clauses expansion)
    else expansion in
  Ok (num_results result =? 0, result, qbf, expansion).

(** ** Predicates used by the proofs

    *** Ranges of the quicksort

    [seg_perm lo hi a a'] says that [a'] rearranges [a] within the index
    range [lo .. hi] and agrees with it elsewhere. *)

Definition seg_perm (lo hi : Z) (a a' : list Z) : Prop :=
  length a' = length a ∧ a' ≡ₚ a ∧
  (∀ k, 0 ≤ k → k < lo ∨ hi < k → rd a' k = rd a k) ∧
  (∀ k, lo ≤ k ≤ hi → ∃ k', lo ≤ k' ≤ hi ∧ rd a' k = rd a k').

(** The stack of the quicksort holds index ranges, the top one last. *)

Fixpoint stack_of (segs : list (Z * Z)) : list Z :=
  match segs with
  | [] => []
  | s :: r => al_append (al_append (stack_of r) s.1) s.2
  end.

Definition seg_ok (n : Z) (s : Z * Z) : Prop := 0 ≤ s.1 ∧ s.1 < s.2 ∧ s.2 < n.

Definition seg_disjoint (s t : Z * Z) : Prop := s.2 < t.1 ∨ t.2 < s.1.

Definition seg_covers (i j : Z) (s : Z * Z) : Prop := s.1 ≤ i ∧ j ≤ s.2.

Fixpoint segs_disjoint (segs : list (Z * Z)) : Prop :=
  match segs with
  | [] => True
  | s :: r => Forall (seg_disjoint s) r ∧ segs_disjoint r
  end.

Fixpoint segs_size (segs : list (Z * Z)) : Z :=
  match segs with
  | [] => 0
  | s :: r => (s.2 - s.1) + segs_size r
  end.

Definition sorted_but (key : Z → Z) (segs : list (Z * Z)) (a : list Z) : Prop :=
  ∀ i j, 0 ≤ i → i < j → j < Z.of_nat (length a) →
    key (rd a i) ≤ key (rd a j) ∨ Exists (seg_covers i j) segs.

Definition new_segs (lo hi p : Z) : list (Z * Z) :=
  (if p <? hi - 1 then [(p + 1, hi)] else [])
  ++ (if lo + 1 <? p then [(lo, p - 1)] else []).

(** *** Formulas up to the warnings printed

    The checker and the matrix sort write to a formula only through
    [qbf_warn_free]; [erase_warned] forgets that table. *)

Definition erase_warned (qbf : QBF) : QBF := set_warned_free qbf ∅.

(** The quantifier ordering of the variable of a literal, 0 for a free
    variable. *)
Definition quant_ord (qbf : QBF) (lit : Z) : Z :=
  match prefix_mapping qbf !! LIT2VAR lit with
  | Some quant => ordering quant
  | None => 0
  end.

Definition adjacent_nondecreasing (key : Z → Z) (l : list Z) : Prop :=
  ∀ (i : nat) x y, l !! i = Some x → l !! S i = Some y → key x ≤ key y.

Definition pairwise_nondecreasing (key : Z → Z) (l : list Z) : Prop :=
  ∀ (i j : nat) x y, (i < j)%nat → l !! i = Some x → l !! j = Some y → key x ≤ key y.

(** Example formulas: [∃ 1 2 . (2 ∨ 1)], as [qbf_parse] reads it from
    ["p cnf 2 1\ne 1 2 0\n2 1 0\n"]. *)
Definition block_e12 : Quantifier := mkQuantifier QUANT_TYPE_EXISTENTIAL 0 [1; 2].
Definition qbf_e12 : QBF :=
  mkQBF 2 0 (<[1 := block_e12]> (<[2 := block_e12]> ∅)) ∅ [block_e12] [[4; 2]].

(** *** The existential-literal test, in the words of the specification *)

(** The variable of [lit] is existentially quantified, or free. *)
Definition exist_or_free (qbf : QBF) (lit : Z) : bool :=
  match prefix_mapping qbf !! LIT2VAR lit with
  | None => true
  | Some quant => bool_decide (type quant = QUANT_TYPE_EXISTENTIAL)
  end.

Definition num_exist_or_free (qbf : QBF) (Q : list Z) : Z :=
  Z.of_nat (length (filter (λ lit, exist_or_free qbf lit) Q)).

(** Every literal of [E] has a record, and its image is a literal of [Q]. *)
Definition lits_found (Q E : list Z) (expansion : Expansion) : bool :=
  forallb (λ e,
    match exp_var_mappings expansion !! LIT2VAR e with
    | Some m => existsb (Z.eqb (VAR2LIT (qbf_var m) (LITSIGNBIT e))) Q
    | None => false
    end) E.

Definition all_mapped (E : list Z) (expansion : Expansion) : Prop :=
  ∀ e, e ∈ E → is_Some (exp_var_mappings expansion !! LIT2VAR e).

(** An expansion for the example formula [qbf_e12]: the variables 1 and 2
    stand for the variables 1 and 2, with no annotation. *)
Definition exp_e12 : Expansion :=
  mkExpansion (mkParser [] true true 1 1 "000"%char "000"%char PARSE_STATE_CLAUSE [])
    2 1 0 None [1; 2]
    (<[1 := mkExpVarMapping 1 1 []]> (<[2 := mkExpVarMapping 2 2 []]> ∅))
    [[4; 2]].

(** *** The annotation test, in the words of the specification

    The test keeps two sets of universal literals.  For a universal variable
    [u] of a block left of the bound variable: when [u] occurs in [Q], [U]
    takes the negation of literals of [Q] on [u] ([pick] tells which); when it
    does not, [V] takes both polarities of [u]. *)

Definition lits_on (u : Z) (Q : list Z) : list Z := filter (λ L, LIT2VAR L = u) Q.

(** each literal of [Q] on [u], or the first one only *)
Definition pick_each (u : Z) (Q : list Z) : list Z := lits_on u Q.
Definition pick_first (u : Z) (Q : list Z) : list Z := take 1 (lits_on u Q).

Definition num_universal_vars (blocks : list Quantifier) : Z :=
  foldr (λ B n,
    (if decide (type B = QUANT_TYPE_UNIVERSAL)
     then Z.of_nat (length (variables B)) else 0) + n) 0 blocks.

(** The number of universal variables in the blocks at the positions below
    [k] of the prefix. *)
Definition universals_before (qbf : QBF) (k : Z) : Z :=
  num_universal_vars (take (Z.to_nat k) (prefix qbf)).

(** The blocks at the positions [last], ..., [curr - 1] of the prefix. *)
Definition blocks_between (qbf : QBF) (last curr : Z) : list Quantifier :=
  take (Z.to_nat (curr - last)) (drop (Z.to_nat last) (prefix qbf)).

Section annotation_spec.
Variable pick : Z → list Z → list Z.

Definition spec_add_var (Q : list Z) (UV : gset Z * gset Z) (u : Z)
    : gset Z * gset Z :=
  match lits_on u Q with
  | [] => (UV.1, {[VAR2LIT u 0]} ∪ {[VAR2LIT u 1]} ∪ UV.2)
  | _ :: _ => (list_to_set (LIT_NEG <$> pick u Q) ∪ UV.1, UV.2)
  end.

Definition spec_add_block (Q : list Z) (UV : gset Z * gset Z) (B : Quantifier)
    : gset Z * gset Z :=
  if decide (type B = QUANT_TYPE_UNIVERSAL)
  then foldl (spec_add_var Q) UV (variables B)
  else UV.

(** The expansion literals are taken in order.  A literal whose variable
    is bound must have as many annotation literals as there are universal
    variables left of its block, all of them in [U ∪ V]; the negations of
    its annotation then leave [V].  A literal whose variable is free must
    have no annotation. *)
Fixpoint annotation_spec (E Q : list Z) (U V : gset Z) (qbf : QBF)
    (expansion : Expansion) (last : Z) : bool :=
  match E with
  | [] => true
  | e :: rest =>
      match exp_var_mappings expansion !! LIT2VAR e with
      | None => false
      | Some m =>
          match prefix_mapping qbf !! qbf_var m with
          | None =>
              bool_decide (annotation m = [])
              && annotation_spec rest Q U V qbf expansion last
          | Some quant =>
              let UV :=
                foldl (spec_add_block Q) (U, V)
                  (blocks_between qbf last (ordering quant)) in
              (Z.of_nat (length (annotation m))
               =? universals_before qbf (ordering quant))
              && forallb (λ a, bool_decide (a ∈ UV.1 ∪ UV.2)) (annotation m)
              && annotation_spec rest Q UV.1
                   (UV.2 ∖ list_to_set (LIT_NEG <$> annotation m)) qbf expansion
                   (ordering quant)
          end
      end
  end.
End annotation_spec.

(** The quantifier ordering of the variable an expansion literal stands
    for, 0 when that variable is free. *)
Definition exp_quant_ord (qbf : QBF) (expansion : Expansion) (e : Z) : Z :=
  match exp_var_mappings expansion !! LIT2VAR e with
  | Some m =>
      match prefix_mapping qbf !! qbf_var m with
      | Some quant => ordering quant
      | None => 0
      end
  | None => 0
  end.

(** The block of a bound variable is at the position [ordering] of the
    prefix; the annotation test reads the blocks below that position. *)
Definition wf_prefix (qbf : QBF) : Prop :=
  ∀ v quant, prefix_mapping qbf !! v = Some quant →
    0 ≤ ordering quant ≤ Z.of_nat (length (prefix qbf)).

(** Example: [∀ 1 ∃ 2 . (1 ∨ ¬1 ∨ 2)], and an expansion whose variable 1
    stands for 2 under the annotation [1]. *)
Definition block_a1 : Quantifier := mkQuantifier QUANT_TYPE_UNIVERSAL 0 [1].
Definition block_e2 : Quantifier := mkQuantifier QUANT_TYPE_EXISTENTIAL 1 [2].
Definition qbf_taut : QBF :=
  mkQBF 2 1 (<[1 := block_a1]> (<[2 := block_e2]> ∅)) ∅ [block_a1; block_e2]
    [[2; 3; 4]].
Definition exp_taut : Expansion :=
  mkExpansion (mkParser [] true true 1 1 "000"%char "000"%char PARSE_STATE_CLAUSE [])
    1 1 0 None [1] (<[1 := mkExpVarMapping 2 1 [2]]> ∅) [[2]].

(** *** Verdicts on a candidate clause

    A matrix clause passes a test for an expansion clause when the test
    returns true on it. *)





(** [result'] is [result] with one failure more. *)
Definition appends_failure (result result' : FERATCheckResult)
    (kind : FERATCheckResultType) (clause_index : Z) : Prop :=
  types result' = types result ++ [kind] ∧
  clause_indices result' = clause_indices result ++ [clause_index] ∧
  num_results result' = u32 (num_results result + 1).


(** The expansion read from the same file without its origin line. *)
Definition without_origins (expansion : Expansion) : Expansion :=
  mkExpansion (parser expansion) (p_max_var expansion) (p_num_clauses expansion)
    (num_clauses_yielded expansion) None (exp_var_mapping_keys expansion)
    (exp_var_mappings expansion) (clauses expansion).


(** *** Candidate selection with an origin list

    The check of an expansion clause against the one candidate [Q]. *)
Definition check_sole_candidate (Q exp_clause : list Z) (exp_clause_index : Z)
    (U V : list Z) (expansion : Expansion) (qbf : QBF) (result : FERATCheckResult)
    : Outcome (list Z * list Z * Expansion * QBF * FERATCheckResult) :=
  '(passed, qbf) ← ferat_test_expansion_origin_in_QBF Q exp_clause qbf expansion;
  if passed : bool then
    '(correct, U, V, qbf) ←
      ferat_check_annotations_against_expansion Q exp_clause U V qbf expansion;
    if correct : bool then Ok (U, V, expansion, qbf, result)
    else
      Ok (U, V, expansion, qbf,
          ferat_insert_check_result result FERAT_CHECK_RESULT_INCORRECT_ANNOTATION
            exp_clause_index)
  else
    Ok (U, V, expansion, qbf,
        ferat_insert_check_result result FERAT_CHECK_RESULT_INCORRECT_LITERALS
          exp_clause_index).


(** The expansion [exp_e12] with a second copy of its clause and an origin
    list that names the origin of the first clause only. *)
Definition exp_e12_short_origins : Expansion :=
  mkExpansion (parser exp_e12) 2 2 0 (Some [0]) [1; 2] (exp_var_mappings exp_e12)
    [[4; 2]; [4; 2]].

(** *** Quantifier lines *)

Definition lines (ls : list string) : string :=
  fold_right (λ l rest, String.append l (String newline rest)) EmptyString ls.

(** [∃ 1] followed by a line [a 1 2 0], whose first variable is bound. *)
Definition dup_input : string := lines ["p cnf 2 0"; "e 1 0"; "a 1 2 0"]%string.

Definition qbf_e1 : QBF :=
  mkQBF 1 0 (<[1 := mkQuantifier QUANT_TYPE_EXISTENTIAL 0 [1]]> ∅) ∅
    [mkQuantifier QUANT_TYPE_EXISTENTIAL 0 [1]] [].

Definition st_a : QBFParse := mkQBFParse true true true false 2 0 1 0 "a"%char.

(** *** Verdicts with and without an origin list *)










(** The expansion [exp_e12] with the one clause [(3)], whose variable has
    no mapping record. *)
Definition exp_e12_unmapped : Expansion :=
  mkExpansion (parser exp_e12) 2 1 0 None [1; 2] (exp_var_mappings exp_e12) [[6]].

(** ** Array lists: linear search ([arraylist.c]) *)

(** The loop of [_index] at index [i]: the first index that holds
    [element], or -1. *)
Fixpoint al_index_loop (al : list Z) (element : Z) (i : Z) : Z :=
  match al with
  | [] => -1
  | other_element :: rest =>
      if element =? other_element then i else al_index_loop rest element (i + 1)
  end.

Definition al_index (al : list Z) (element : Z) : Z := al_index_loop al element 0.

Definition al_contains (al : list Z) (element : Z) : bool :=
  negb (al_index al element =? -1).

(** ** Hash tables ([hashtable.h], [hashtable.c]) *)

Definition u64 (x : Z) : Z := x mod 2 ^ 64.

(** [(0x811C9DC5 ^ v) * 0x01000193] on [uint64_t] *)
Definition hash_fnv1a (v : Z) : Z := u64 (Z.lxor 0x811C9DC5 v * 0x01000193).

(** ** The text in front of a parser *)

(** The bytes a parser has still to deal with: its look-ahead byte and the
    bytes of the stream behind it; none once the end of the input was hit. *)
Definition pending (p : Parser) : list ascii :=
  if eof p then [] else la p :: stream p.

Definition is_digit (c : ascii) : bool :=
  match digit_of c with Some _ => true | None => false end.

(** The number a run of decimal digits stands for. *)
Definition decimal_value (ds : list ascii) : Z :=
  fold_left (λ acc c, acc * 10 + default 0 (digit_of c)) ds 0.

(** An integer token: whether it has a minus sign, and its digits. *)
Definition token_text (t : bool * list ascii) : list ascii :=
  (if t.1 then ["-"%char] else []) ++ t.2.

Definition token_value (t : bool * list ascii) : Z :=
  if t.1 then - decimal_value t.2 else decimal_value t.2.

(** A line of tokens, a blank behind each, closed by ["0"] and a newline. *)
Definition token_line (ts : list (bool * list ascii)) : list ascii :=
  flat_map (λ t, token_text t ++ [" "%char]) ts ++ ["0"%char; newline].

(** A token of a variable or literal list: digits that stand for a value in
    [1 .. VARIABLE_MAX]. *)
Definition token_ok (t : bool * list ascii) : Prop :=
  t.2 ≠ [] ∧ Forall (λ c, is_digit c = true) t.2 ∧
  1 ≤ decimal_value t.2 ≤ VARIABLE_MAX.

(** The line ["-1 20 0"]. *)
Definition line_m1_20 : string := lines ["-1 20 0"%string].

(** ** The prefix of a formula *)



Definition quant_type_of (is_existential : bool) : QuantType :=
  if is_existential then QUANT_TYPE_EXISTENTIAL else QUANT_TYPE_UNIVERSAL.

(** Whether a byte is none of those a line of a QBF file may start with
    and none the lexer takes. *)
Definition stray (c : ascii) : bool :=
  negb (is_white c) && negb (Ascii.eqb c newline) && negb (is_digit c)
  && negb (Ascii.eqb c "-"%char) && negb (Ascii.eqb c "p"%char)
  && negb (Ascii.eqb c "c"%char) && negb (Ascii.eqb c "e"%char)
  && negb (Ascii.eqb c "a"%char).

(** ** The failures of a check *)



(** ** The hash table ([hashtable.h], [hashtable.c])

    A table has [num_slots] slots; slot [idx] keeps its key and its value in
    [buffer] at [KEY idx] and [VAL idx], and its occupied flag as bit
    [FLAGBIT idx] of the word [FLAGWORD idx] of [flags].  [ht_new] and
    [chsize] allocate [2 * num_slots] elements and [num_slots] flag words;
    a failed allocation is not modelled.  [cmp_fn] is always
    [cmp_identity].  Indices and counters are [size_t], of 64 bits.  With
    [num_slots = 0] the C code divides by zero; the properties below are
    about tables with at least one slot. *)

Record HashTable : Type := mkHashTable {
  num_slots : Z;
  num_stored : Z;
  buffer : list Z;
  flags : list Z;
}.

(** [Result], with [value.uimax] for the value. *)
Record Result : Type := mkResult {
  value : Z;
  ok : bool;
}.

Definition HASHTABLE_DEFAULT_NUM_SLOTS : Z := Z.shiftl 1 12.
Definition HASHTABLE_GROWTH_FACTOR : Z := 2.
(** [0.8] as a [double]: [0x3FE999999999999A]. *)
Definition HASHTABLE_LOAD_FACTOR_LIMIT : SpecFloat.spec_float :=
  SpecFloat.S754_finite false 7205759403792794 (-53).

Definition cmp_identity (k l : Z) : bool := k =? l.

Definition KEY (idx : Z) : Z := u64 (Z.shiftl idx 1).
Definition VAL (idx : Z) : Z := u64 (KEY idx + 1).
Definition IDX (ht : HashTable) (hash : Z) : Z := hash mod num_slots ht.
Definition FLAGWORD (idx : Z) : Z := idx / 32.
Definition FLAGBIT (idx : Z) : Z := idx mod 32.

Definition OCCUPIED_ (flags : list Z) (idx : Z) : bool :=
  negb (Z.land (Z.shiftr (rd flags (FLAGWORD idx)) (FLAGBIT idx)) 1 =? 0).
Definition OCCUPIED (ht : HashTable) (idx : Z) : bool := OCCUPIED_ (flags ht) idx.

(** [flags[FLAGWORD(idx)] |= (1 << FLAGBIT(idx))]; the [int] on the right is
    converted to [flags_t]. *)
Definition MARK_OCCUPIED (flags : list Z) (idx : Z) : list Z :=
  <[Z.to_nat (FLAGWORD idx) :=
      Z.lor (rd flags (FLAGWORD idx)) (u32 (Z.shiftl 1 (FLAGBIT idx)))]> flags.


(** [(float)n] of a [size_t], and the promotion of a [float] to [double];
    binary32 has 24 digits and the exponent bound 128, binary64 has 53 and
    1024. *)
Definition float_of_size (n : Z) : SpecFloat.spec_float :=
  SpecFloat.binary_normalize 24 128 n 0 false.

Definition double_of_float (x : SpecFloat.spec_float) : SpecFloat.spec_float :=
  match x with
  | SpecFloat.S754_finite s m e =>
      SpecFloat.binary_normalize 53 1024 (SpecFloat.cond_Zopp s (Zpos m)) e false
  | _ => x
  end.

(** [HTLOADFACTOR(ht) >= HASHTABLE_LOAD_FACTOR_LIMIT]: the quotient is taken
    in [float], the comparison in [double]. *)
Definition load_limit (stored slots : Z) : bool :=
  SpecFloat.SFleb HASHTABLE_LOAD_FACTOR_LIMIT
    (double_of_float
       (SpecFloat.SFdiv 24 128 (float_of_size stored) (float_of_size slots))).

Definition HTLOADFACTOR_limit (ht : HashTable) : bool :=
  load_limit (num_stored ht) (num_slots ht).

(** The loop of [hashidx_openaddr]: its body runs [num_slots + 1] times. *)
Fixpoint hashidx_openaddr_loop (i : nat) (ht : HashTable) (key index : Z)
    : bool * Z :=
  if OCCUPIED ht index && cmp_identity (rd (buffer ht) (KEY index)) key
  then (true, index)
  else
    match i with
    | O => (false, 0)
    | S i => hashidx_openaddr_loop i ht key (IDX ht (u64 (index + 1)))
    end.

Definition hashidx_openaddr (ht : HashTable) (key : Z) : bool * Z :=
  hashidx_openaddr_loop (Z.to_nat (num_slots ht)) ht key (IDX ht key).

Definition ht_new (num_slots : Z) : HashTable :=
  mkHashTable num_slots 0
    (replicate (Z.to_nat (2 * num_slots)) 0) (replicate (Z.to_nat num_slots) 0).

(** [memset] of the first [n] elements to 0. *)
Definition zero_fill (n : Z) (l : list Z) : list Z :=
  replicate (Z.to_nat n) 0 ++ drop (Z.to_nat n) l.

(** [FLAG_SIZE(cap) / sizeof(flags_t)]: the number of flag words of [cap]
    slots. *)
Definition FLAG_WORDS (cap : Z) : Z := 1 + (if 0 <? cap then cap - 1 else 0) / 32.

Definition ht_clear (ht : HashTable) : HashTable :=
  mkHashTable (num_slots ht) 0
    (zero_fill (2 * num_slots ht) (buffer ht))
    (zero_fill (FLAG_WORDS (num_slots ht)) (flags ht)).

(** [while (OCCUPIED(ht, idx)) idx = IDX(ht, idx + 1);] *)
Fixpoint ht_insert_probe (fuel : nat) (ht : HashTable) (idx : Z) : Outcome Z :=
  match fuel with
  | O => Timeout
  | S fuel =>
      if OCCUPIED ht idx then ht_insert_probe fuel ht (IDX ht (u64 (idx + 1)))
      else Ok idx
  end.

(** The end of [ht_insert]: the slot [idx] takes the key and the value. *)
Definition ht_store (ht : HashTable) (idx key value : Z) : HashTable :=
  mkHashTable (num_slots ht) (u64 (num_stored ht + 1))
    (<[Z.to_nat (VAL idx) := value]> (<[Z.to_nat (KEY idx) := key]> (buffer ht)))
    (MARK_OCCUPIED (flags ht) idx).

(** The loop of [chsize] over the old slots, from slot [i] on; [insert] is
    [ht_insert]. *)
Fixpoint chsize_loop (insert : HashTable → Z → Z → Outcome HashTable)
    (old_flags old_buffer : list Z) (n : nat) (i : Z) (ht : HashTable)
    : Outcome HashTable :=
  match n with
  | O => Ok ht
  | S n =>
      ht ← (if OCCUPIED_ old_flags i
            then insert ht (rd old_buffer (KEY i)) (rd old_buffer (VAL i))
            else Ok ht);
      chsize_loop insert old_flags old_buffer n (u64 (i + 1)) ht
  end.

Definition chsize (insert : HashTable → Z → Z → Outcome HashTable)
    (ht : HashTable) (new_num_slots : Z) : Outcome HashTable :=
  chsize_loop insert (flags ht) (buffer ht) (Z.to_nat (num_slots ht)) 0
    (ht_new new_num_slots).

Fixpoint ht_insert (fuel : nat) (ht : HashTable) (key value : Z)
    : Outcome HashTable :=
  match fuel with
  | O => Timeout
  | S fuel =>
      ht ← (if HTLOADFACTOR_limit ht
            then chsize (ht_insert fuel) ht
                   (u64 (num_slots ht * HASHTABLE_GROWTH_FACTOR))
            else Ok ht);
      idx ← ht_insert_probe fuel ht (IDX ht key);
      Ok (ht_store ht idx key value)
  end.

Definition ht_get (ht : HashTable) (key : Z) : Result :=
  let '(found_key, idx) := hashidx_openaddr ht key in
  if found_key && OCCUPIED ht idx
  then mkResult (rd (buffer ht) (VAL idx)) true
  else mkResult 0 false.


(** *** What a table holds *)

(** The key and the value of a slot, if it is occupied. *)
Definition ht_slot (ht : HashTable) (idx : Z) : option (Z * Z) :=
  if OCCUPIED ht idx
  then Some (rd (buffer ht) (KEY idx), rd (buffer ht) (VAL idx))
  else None.

(** The test of [hashidx_openaddr]: the slot is occupied and holds [key]. *)
Definition ht_holds (ht : HashTable) (key idx : Z) : bool :=
  OCCUPIED ht idx && cmp_identity (rd (buffer ht) (KEY idx)) key.

(** The pairs of the occupied slots, in slot order. *)
Definition ht_entries (ht : HashTable) : list (Z * Z) :=
  omap (ht_slot ht) (seqZ 0 (num_slots ht)).

Definition ht_map (ht : HashTable) : gmap Z Z := list_to_map (ht_entries ht).

(** The shape of a table made by [ht_new] and kept by the operations: the
    two arrays have the allocated lengths, and [num_stored] counts the
    occupied slots. *)
Definition ht_wf (ht : HashTable) : Prop :=
  0 < num_slots ht < 2 ^ 63 ∧
  Z.of_nat (length (buffer ht)) = 2 * num_slots ht ∧
  Z.of_nat (length (flags ht)) = num_slots ht ∧
  num_stored ht = Z.of_nat (length (ht_entries ht)).

(** A table without a key in two slots. *)
Definition ht_ok (ht : HashTable) : Prop :=
  ht_wf ht ∧ NoDup (ht_entries ht).*1.

(** The slot probed [j] steps behind the home slot of [key]. *)
Definition ht_probe (ht : HashTable) (key : Z) (j : Z) : Z :=
  IDX ht (IDX ht key + j).

(** No gap between the home slot of a key and the slot that holds it: what
    insertions alone keep (a removal can open a gap). *)
Definition ht_chained (ht : HashTable) : Prop :=
  ∀ key value j, 0 ≤ j < num_slots ht →
    ht_slot ht (ht_probe ht key j) = Some (key, value) →
    ∀ j', 0 ≤ j' < j → OCCUPIED ht (ht_probe ht key j') = true.

Definition result_of (r : option Z) : Result :=
  match r with
  | Some v => mkResult v true
  | None => mkResult 0 false
  end.

(** A table of four slots with the keys 5 and 9, both of the home slot 1. *)
Definition ht_two : HashTable := ht_store (ht_store (ht_new 4) 1 5 50) 2 9 90.

(** [(float)s] of a [size_t] that is not 0, as an integer: [s] rounded to 24
    binary digits, to nearest and to even on a tie. *)
Definition size_round (s : Z) : Z :=
  let k := Z.log2 s - 23 in
  if k <=? 0 then s
  else
    let q := s / 2 ^ k in
    let rem := s mod 2 ^ k in
    if (2 ^ k <? 2 * rem) || ((2 ^ k =? 2 * rem) && Z.odd q)
    then (q + 1) * 2 ^ k else q * 2 ^ k.

(** ** The text of a QDIMACS file *)

(** The header [p cnf <dv> <dc>]; [dv] and [dc] are the digits of the two
    numbers. *)
Definition header_line (dv dc : list ascii) : list ascii :=
  list_ascii_of_string "p cnf " ++ dv ++ " "%char :: dc ++ [newline].

(** A quantifier line: [e] or [a], a blank and the variables. *)
Definition quantifier_line (b : bool * list (bool * list ascii)) : list ascii :=
  (if b.1 then "e"%char else "a"%char) :: " "%char :: token_line b.2.

(** A file: the header, the quantifier lines, the clause lines. *)
Definition qdimacs (dv dc : list ascii) (bs : list (bool * list (bool * list ascii)))
    (cs : list (list (bool * list ascii))) : list ascii :=
  header_line dv dc ++ flat_map quantifier_line bs ++ flat_map token_line cs.

(** The variables of a quantifier line and the literals of a clause line. *)
Definition block_vars (b : bool * list (bool * list ascii)) : list Z :=
  map (λ t, decimal_value t.2) b.2.

Definition clause_lits (c : list (bool * list ascii)) : list Z :=
  map (λ t, SIGNED_LIT2LIT (token_value t)) c.

(** The block of the [i]-th quantifier line. *)
Definition block_of (i : nat) (b : bool * list (bool * list ascii)) : Quantifier :=
  mkQuantifier (quant_type_of b.1) (Z.of_nat i) (block_vars b).

(** The number of changes of the quantifier type along the lines; [last] is
    the type of the line before, if there is one. *)
Fixpoint alternations (last : option bool) (bs : list bool) : Z :=
  match bs with
  | [] => 0
  | b :: bs =>
      (match last with
       | Some l => if Bool.eqb l b then 0 else 1
       | None => 0
       end) + alternations (Some b) bs
  end.

(** A quantifier line of a well-formed file: variables in [1 .. VARIABLE_MAX]
    without a sign, at least one and fewer than [2 ^ 32]. *)
Definition block_ok (b : bool * list (bool * list ascii)) : Prop :=
  b.2 ≠ [] ∧ Forall (λ t, token_ok t ∧ t.1 = false) b.2 ∧
  Z.of_nat (length b.2) < 2 ^ 32.

Definition digits_ok (ds : list ascii) : Prop :=
  ds ≠ [] ∧ Forall (λ c, is_digit c = true) ds.

(** The file of the prefix [e 1 2 0], [a 3 0] and the clauses [1 -3 0],
    [-2 3 0]. *)
Definition tok (neg : bool) (s : string) : bool * list ascii :=
  (neg, list_ascii_of_string s).

Definition qdimacs_two : list ascii :=
  qdimacs (list_ascii_of_string "3") (list_ascii_of_string "2")
    [(true, [tok false "1"; tok false "2"]); (false, [tok false "3"])]
    [[tok false "1"; tok true "3"]; [tok true "2"; tok false "3"]].

(** ** Reading an expansion file ([expansion.c])

    The expansion as [expansion_parse_preamble] fills it and as
    [expansion_yield_clause] reads its clauses off the parser.
    [exp_var_mappings] is the hash table of [hashtable.c]; its values are
    the addresses of the [ExpVarMapping] records.  [malloc] is modelled by
    [heap]: the record allocated [k]-th (from 0) has the address [k + 1], so
    that no address is [NULL]; a failed allocation is not modelled.
    [printed] is what [expansion_parse_preamble] has printed through
    [parse_warning] at its own call sites (the [warnings] of the parser keep
    those of [parsing.c]). *)

Module ExpFile.

Inductive PreambleWarning : Type :=
| WarnOriginZero                  (* "Expected '0' delimiter, not %u" *)
| WarnNoOrigins                   (* "No clause origin mapping comment ... found. ..." *)
| WarnExpMaxVar (expected actual : Z).

Record Expansion : Type := mkExpansion {
  parser : Parser;
  p_max_var : Z;
  p_num_clauses : Z;
  num_clauses_yielded : Z;
  clause_origins : option (list Z);
  exp_var_mapping_keys : list Z;
  exp_var_mappings : HashTable;
  heap : list ExpVarMapping;
  printed : list PreambleWarning
}.

Definition ARRAYLIST_CLAUSE_ORIGINS_DEFAULT_CAP : Z := Z.shiftl 1 15.
Definition ARRAYLIST_EXP_VAR_MAPPING_KEYS_DEFAULT_CAP : Z := Z.shiftl 1 10.
Definition HASHTABLE_EXP_VAR_MAPPING_KEYS_DEFAULT_CAP : Z := Z.shiftl 1 8.

(** [expansion_new] leaves the parser and the two numbers of the header
    as [malloc] gave them: they are arguments here. *)
Definition expansion_new (parser : Parser) (p_max_var p_num_clauses : Z) : Expansion :=
  mkExpansion parser p_max_var p_num_clauses 0 (Some []) []
    (ht_new HASHTABLE_EXP_VAR_MAPPING_KEYS_DEFAULT_CAP) [] [].

Definition set_parser (expansion : Expansion) (parser : Parser) : Expansion :=
  mkExpansion parser (p_max_var expansion) (p_num_clauses expansion)
    (num_clauses_yielded expansion) (clause_origins expansion)
    (exp_var_mapping_keys expansion) (exp_var_mappings expansion) (heap expansion)
    (printed expansion).

(** [parse_warning] at a call site of [expansion_parse_preamble]. *)
Definition preamble_warning (expansion : Expansion) (w : PreambleWarning) : Expansion :=
  if silent (parser expansion) then expansion
  else
    mkExpansion (parser expansion) (p_max_var expansion) (p_num_clauses expansion)
      (num_clauses_yielded expansion) (clause_origins expansion)
      (exp_var_mapping_keys expansion) (exp_var_mappings expansion) (heap expansion)
      (printed expansion ++ [w]).

(** [state == PARSE_STATE_CLAUSE] *)
Definition in_clause_state (p : Parser) : bool :=
  match state p with
  | PARSE_STATE_CLAUSE => true
  | _ => false
  end.

(** The local variables of [expansion_parse_preamble]. *)
Record Preamble : Type := mkPreamble {
  parsed_problem : bool;
  parsed_origin_mapping : bool;
  max_var : Z
}.

(** The [for] loop of the case [PARSE_STATE_MAPPING_COMMENT], from the index
    [i] on, with [n] rounds to go; [fuel] is for [ht_insert].  The sizes
    of the lists are [uint32_t], so the [size_t] index does not wrap. *)
Fixpoint mapping_loop (fuel : nat) (n : nat) (i : Z)
    (expansion_variables qbf_variables annotation_literals : list Z)
    (expansion : Expansion) (max_var : Z) : Outcome (Expansion * Z) :=
  match n with
  | O => Ok (expansion, max_var)
  | S n =>
      exp_var ← al_get expansion_variables i;
      let max_var := if max_var <? exp_var then exp_var else max_var in
      qbf_var ← al_get qbf_variables i;
      let mapping := mkExpVarMapping qbf_var exp_var annotation_literals in
      let address := Z.of_nat (length (heap expansion)) + 1 in
      ht ← ht_insert fuel (exp_var_mappings expansion) (hash_fnv1a exp_var) address;
      mapping_loop fuel n (i + 1) expansion_variables qbf_variables annotation_literals
        (mkExpansion (parser expansion) (p_max_var expansion) (p_num_clauses expansion)
           (num_clauses_yielded expansion) (clause_origins expansion)
           (al_append (exp_var_mapping_keys expansion) exp_var) ht
           (heap expansion ++ [mapping]) (printed expansion))
        max_var
  end.

(** The case [PARSE_STATE_MAPPING_COMMENT]. *)
Definition preamble_mapping (fuel : nat) (p : Parser) (expansion : Expansion)
    (loc : Preamble) : Outcome (Expansion * Preamble) :=
  '(expansion_variables, p) ← expect_variable_list p;
  '(qbf_variables, p) ← expect_variable_list p;
  if negb (bool_decide (length qbf_variables = length expansion_variables))
  then Fatal EXIT_PARSING_FAILURE
  else
    '(annotation_literals, p) ← expect_literal_list p;
    '(expansion, max_var) ←
      mapping_loop fuel (length qbf_variables) 0 expansion_variables qbf_variables
        annotation_literals expansion (max_var loc);
    Ok (set_parser expansion (set_state p PARSE_STATE_NONE),
        mkPreamble (parsed_problem loc) (parsed_origin_mapping loc) max_var).

(** The [while] loop of the case [PARSE_STATE_ORIGIN_COMMENT]; the result
    holds the origins and [got_zero]. *)
Fixpoint origin_loop (fuel : nat) (p : Parser) (origins : list Z)
    : Outcome (list Z * bool * Parser) :=
  if eof p || Ascii.eqb (la p) newline then Ok (origins, false, p)
  else
    match fuel with
    | O => Timeout
    | S fuel =>
        '(num, p) ← expect_number p true;
        _ ← assert (num <=? UINT32_MAX);
        let origin := u32 num in
        if origin =? 0 then Ok (origins, true, p)
        else origin_loop fuel p (al_append origins (u32 (origin - 1)))
    end.

(** The case [PARSE_STATE_ORIGIN_COMMENT].  [clause_origins] is not [NULL]
    here: [expansion_parse_preamble] asserts so when it starts, and only
    sets it to [NULL] after its loop. *)
Definition preamble_origin (p : Parser) (expansion : Expansion) (loc : Preamble)
    : Outcome (Expansion * Preamble) :=
  '(origins, got_zero, p) ←
    origin_loop (S (reads_left p)) p (default [] (clause_origins expansion));
  let expansion :=
    mkExpansion p (p_max_var expansion) (p_num_clauses expansion)
      (num_clauses_yielded expansion) (Some origins)
      (exp_var_mapping_keys expansion) (exp_var_mappings expansion)
      (heap expansion) (printed expansion) in
  let expansion :=
    if got_zero : bool then expansion
    else preamble_warning expansion WarnOriginZero in
  Ok (set_parser expansion (set_state p PARSE_STATE_NONE),
      mkPreamble (parsed_problem loc) true (max_var loc)).

(** The case [PARSE_STATE_PROBLEM]. *)
Definition preamble_problem (p : Parser) (expansion : Expansion) (loc : Preamble)
    : Outcome (Expansion * Preamble) :=
  if parsed_problem loc then Fatal EXIT_PARSING_FAILURE
  else
    '(word, p) ← expect_word p;
    if negb (bool_decide (word = list_ascii_of_string "cnf"))
    then Fatal EXIT_PARSING_FAILURE
    else
      '(n1, p) ← expect_number p true;
      '(n2, p) ← expect_number p true;
      Ok (mkExpansion (set_state p PARSE_STATE_NONE) (u32 n1) (u32 n2)
            (num_clauses_yielded expansion) (clause_origins expansion)
            (exp_var_mapping_keys expansion) (exp_var_mappings expansion)
            (heap expansion) (printed expansion),
          mkPreamble true (parsed_origin_mapping loc) (max_var loc)).

(** The case [PARSE_STATE_NONE]: dispatch on the first byte of a line. *)
Definition preamble_none (p : Parser) : Outcome Parser :=
  let enter s :=
    '(_, p) ← skip_white (set_state p s);
    Ok (read_one_char p) in
  if Ascii.eqb (la p) "c"%char then enter PARSE_STATE_COMMENT
  else if Ascii.eqb (la p) "p"%char then enter PARSE_STATE_PROBLEM
  else Ok (set_state p PARSE_STATE_CLAUSE).

(** The case [PARSE_STATE_COMMENT]: the word after the [c]. *)
Definition preamble_comment (p : Parser) : Outcome Parser :=
  '(word, p) ← expect_word p;
  Ok (set_state p
        (if bool_decide (word = list_ascii_of_string "x")
         then PARSE_STATE_MAPPING_COMMENT
         else if bool_decide (word = list_ascii_of_string "o")
         then PARSE_STATE_ORIGIN_COMMENT
         else PARSE_STATE_PLAIN_COMMENT)).

(** One round of the [while] loop of [expansion_parse_preamble]. *)
Definition preamble_round (fuel : nat) (expansion : Expansion) (loc : Preamble)
    : Outcome (Expansion * Preamble) :=
  '(nl, p) ← handle_newline (parser expansion);
  if nl : bool then Ok (set_parser expansion p, loc)
  else
    match state p with
    | PARSE_STATE_NONE =>
        p ← preamble_none p; Ok (set_parser expansion p, loc)
    | PARSE_STATE_PROBLEM => preamble_problem p expansion loc
    | PARSE_STATE_COMMENT =>
        p ← preamble_comment p; Ok (set_parser expansion p, loc)
    | PARSE_STATE_PLAIN_COMMENT => Ok (set_parser expansion (read_one_char p), loc)
    | PARSE_STATE_MAPPING_COMMENT => preamble_mapping fuel p expansion loc
    | PARSE_STATE_ORIGIN_COMMENT => preamble_origin p expansion loc
    | _ => Fatal EXIT_PARSING_FAILURE
    end.

(** The loop runs at most [fuel] rounds, each with [ht_fuel] for
    [ht_insert]. *)
Fixpoint preamble_loop (fuel ht_fuel : nat) (expansion : Expansion) (loc : Preamble)
    : Outcome (Expansion * Preamble) :=
  if eof (parser expansion) || in_clause_state (parser expansion)
  then Ok (expansion, loc)
  else
    match fuel with
    | O => Timeout
    | S fuel =>
        '(expansion, loc) ← preamble_round ht_fuel expansion loc;
        preamble_loop fuel ht_fuel expansion loc
    end.

(** [expansion_parse_preamble] on the bytes [input]; [fuel] bounds the
    rounds of the main loop, and the steps of each [ht_insert]. *)
Definition expansion_parse_preamble (fuel : nat) (input : string)
    (expansion : Expansion) (silent : bool) : Outcome Expansion :=
  _ ← assert (bool_decide (is_Some (clause_origins expansion)));
  let expansion := set_parser expansion (parser_init input silent) in
  '(expansion, loc) ←
    preamble_loop fuel fuel expansion (mkPreamble false false VARIABLE_MIN);
  let expansion :=
    if negb (parsed_origin_mapping loc) then
      let expansion := preamble_warning expansion WarnNoOrigins in
      mkExpansion (parser expansion) (p_max_var expansion) (p_num_clauses expansion)
        (num_clauses_yielded expansion) None
        (exp_var_mapping_keys expansion) (exp_var_mappings expansion)
        (heap expansion) (printed expansion)
    else expansion in
  if negb (parsed_problem loc) then Fatal EXIT_PARSING_FAILURE
  else if negb (max_var loc =? p_max_var expansion) then
    let expansion :=
      preamble_warning expansion (WarnExpMaxVar (p_max_var expansion) (max_var loc)) in
    Ok (mkExpansion (parser expansion)
          (if p_max_var expansion <? max_var loc then max_var loc
           else p_max_var expansion)
          (p_num_clauses expansion) (num_clauses_yielded expansion)
          (clause_origins expansion) (exp_var_mapping_keys expansion)
          (exp_var_mappings expansion) (heap expansion) (printed expansion))
  else Ok expansion.

(** [do if (parser->eof) return NULL; while (handle_newline(parser));]: the
    result is [false] for the [return]. *)
Fixpoint yield_newlines (fuel : nat) (p : Parser) : Outcome (bool * Parser) :=
  if eof p then Ok (false, p)
  else
    match fuel with
    | O => Timeout
    | S fuel =>
        '(nl, p) ← handle_newline p;
        if nl : bool then yield_newlines fuel p else Ok (true, p)
    end.

(** [expansion_yield_clause]: [None] is the [NULL] pointer. *)
Definition expansion_yield_clause (expansion : Expansion)
    : Outcome (option ExpClause * Expansion) :=
  _ ← assert (in_clause_state (parser expansion));
  '(go, p) ← yield_newlines (S (reads_left (parser expansion))) (parser expansion);
  if negb go then Ok (None, set_parser expansion p)
  else
    '(clause_literals, p) ← expect_literal_list (set_state p PARSE_STATE_CLAUSE);
    Ok (Some clause_literals,
        mkExpansion p (p_max_var expansion) (p_num_clauses expansion)
          (u32 (num_clauses_yielded expansion + 1)) (clause_origins expansion)
          (exp_var_mapping_keys expansion) (exp_var_mappings expansion)
          (heap expansion) (printed expansion)).

End ExpFile.

(** *** The text of an expansion file *)

(** A list of numbers up to its [0], without the end of the line. *)
Definition list_text (ts : list (bool * list ascii)) : list ascii :=
  flat_map (λ t, token_text t ++ [" "%char]) ts ++ ["0"%char].

(** A mapping comment [c x <expansion variables> 0 <QBF variables> 0
    <annotation> 0]. *)
Definition mapping_line
    (m : list (bool * list ascii) * list (bool * list ascii) * list (bool * list ascii))
    : list ascii :=
  list_ascii_of_string "c x " ++ list_text m.1.1 ++ " "%char :: list_text m.1.2
  ++ " "%char :: token_line m.2.

(** The origin comment [c o <origins> 0]. *)
Definition origin_line (os : list (bool * list ascii)) : list ascii :=
  list_ascii_of_string "c o " ++ token_line os.

(** A file: the header, the mapping comments, the origin comment if there
    is one, the clause lines. *)
Definition expansion_text (dv dc : list ascii)
    (ms : list (list (bool * list ascii) * list (bool * list ascii)
                * list (bool * list ascii)))
    (os : option (list (bool * list ascii))) (cs : list (list (bool * list ascii)))
    : list ascii :=
  header_line dv dc ++ flat_map mapping_line ms ++ from_option origin_line [] os
  ++ flat_map token_line cs.

Definition unsigned_ok (ts : list (bool * list ascii)) : Prop :=
  Forall (λ t, token_ok t ∧ t.1 = false) ts.

Definition mapping_ok
    (m : list (bool * list ascii) * list (bool * list ascii) * list (bool * list ascii))
    : Prop :=
  unsigned_ok m.1.1 ∧ unsigned_ok m.1.2 ∧ length m.1.1 = length m.1.2 ∧
  Forall token_ok m.2.

(** The expansion variables and the QBF variables of a mapping comment. *)
Definition mapping_exp_vars
    (m : list (bool * list ascii) * list (bool * list ascii) * list (bool * list ascii))
    : list Z :=
  map (λ t, decimal_value t.2) m.1.1.

Definition mapping_qbf_vars
    (m : list (bool * list ascii) * list (bool * list ascii) * list (bool * list ascii))
    : list Z :=
  map (λ t, decimal_value t.2) m.1.2.

(** The mappings of a mapping comment: one for each expansion variable,
    with the QBF variable at the same place and the annotation of the line. *)
Definition line_mappings
    (m : list (bool * list ascii) * list (bool * list ascii) * list (bool * list ascii))
    : list ExpVarMapping :=
  zip_with (λ ev qv, mkExpVarMapping qv ev (clause_lits m.2))
    (mapping_exp_vars m) (mapping_qbf_vars m).

(** What the mapping comments keep: the keys are the expansion variables of
    the records in the order of their allocation, and the table holds under
    the hash of each the address of its record, and nothing else. *)
Definition exp_table_ok (e : ExpFile.Expansion) : Prop :=
  let ht := ExpFile.exp_var_mappings e in
  ht_ok ht ∧
  num_slots ht ≤ Z.max 256 (4 * num_stored ht) ∧
  num_stored ht = Z.of_nat (length (ExpFile.heap e)) ∧
  ExpFile.exp_var_mapping_keys e = exp_var <$> ExpFile.heap e ∧
  Forall (λ v, 0 ≤ v < 2 ^ 64) (ExpFile.exp_var_mapping_keys e) ∧
  (∀ k mp, ExpFile.heap e !! k = Some mp →
     ht_map ht !! hash_fnv1a (exp_var mp) = Some (Z.of_nat k + 1)) ∧
  (∀ key, (∀ mp, mp ∈ ExpFile.heap e → key ≠ hash_fnv1a (exp_var mp)) →
     ht_map ht !! key = None).

(** The file with the header [p cnf 4 2], the mappings of 3 and 4 to the
    variable 1 under [-2] and [2], the origins [1 1] and two clauses. *)
Definition expansion_two : list ascii :=
  expansion_text (list_ascii_of_string "4") (list_ascii_of_string "2")
    [([tok false "3"], [tok false "1"], [tok true "2"]);
     ([tok false "4"], [tok false "1"], [tok false "2"])]
    (Some [tok false "1"; tok false "1"])
    [[tok false "3"]; [tok false "4"]].

(** * Properties *)

(** ** Machine integers *)

Lemma u32_small (x : Z) : 0 ≤ x < 2 ^ 32 → u32 x = x.
Proof. intros H. unfold u32. by apply Z.mod_small. Qed.

(** ** Array lists *)

Lemma al_pop_append {A} (al : list A) (x : A) : al_pop (al_append al x) = Ok (x, al).
Proof.
  unfold al_pop, al_append. rewrite last_snoc.
  by rewrite removelast_last.
Qed.

Lemma rd_lookup (a : list Z) (i : Z) :
  0 ≤ i < Z.of_nat (length a) → a !! Z.to_nat i = Some (rd a i).
Proof.
  intros H. unfold rd. rewrite nth_lookup.
  destruct (lookup_lt_is_Some_2 a (Z.to_nat i)) as [x Hx]; [lia|].
  by rewrite Hx.
Qed.

Lemma rd_insert_eq (a : list Z) (i x : Z) :
  0 ≤ i < Z.of_nat (length a) → rd (<[Z.to_nat i := x]> a) i = x.
Proof.
  intros H. unfold rd. rewrite nth_lookup, list_lookup_insert_eq; [done|lia].
Qed.

Lemma rd_insert_ne (a : list Z) (i k x : Z) :
  0 ≤ i → 0 ≤ k → i ≠ k → rd (<[Z.to_nat i := x]> a) k = rd a k.
Proof.
  intros Hi Hk Hne. unfold rd. rewrite !nth_lookup, list_lookup_insert_ne; [done|lia].
Qed.

Lemma swap_length (a : list Z) (i j : Z) : length (swap a i j) = length a.
Proof. unfold swap. by rewrite !length_insert. Qed.

Lemma rd_swap (a : list Z) (i j k : Z) :
  0 ≤ i < Z.of_nat (length a) → 0 ≤ j < Z.of_nat (length a) → 0 ≤ k →
  rd (swap a i j) k
  = if k =? j then rd a i else if k =? i then rd a j else rd a k.
Proof.
  intros Hi Hj Hk. unfold swap.
  destruct (Z.eqb_spec k j) as [->|Hkj].
  { rewrite rd_insert_eq; [done|]. rewrite length_insert. lia. }
  rewrite rd_insert_ne by lia.
  destruct (Z.eqb_spec k i) as [->|Hki].
  { by rewrite rd_insert_eq. }
  by rewrite rd_insert_ne by lia.
Qed.

Lemma swap_Permutation (a : list Z) (i j : Z) :
  0 ≤ i < Z.of_nat (length a) → 0 ≤ j < Z.of_nat (length a) → swap a i j ≡ₚ a.
Proof.
  intros Hi Hj. unfold swap.
  apply Permutation_insert_swap; by apply rd_lookup.
Qed.

(** ** The quicksort *)


Lemma seg_perm_refl lo hi a : seg_perm lo hi a a.
Proof. repeat split; eauto. Qed.

Lemma seg_perm_trans lo hi a b c :
  seg_perm lo hi a b → seg_perm lo hi b c → seg_perm lo hi a c.
Proof.
  intros (Hl1 & Hp1 & Ho1 & Hi1) (Hl2 & Hp2 & Ho2 & Hi2). repeat split.
  - congruence.
  - by rewrite Hp2.
  - intros k Hk Hout. rewrite Ho2, Ho1; auto.
  - intros k Hk. destruct (Hi2 k Hk) as (k1 & Hk1 & ->).
    destruct (Hi1 k1 Hk1) as (k2 & Hk2 & ->). eauto.
Qed.

Lemma seg_perm_swap lo hi a i j :
  0 ≤ lo → hi < Z.of_nat (length a) → lo ≤ i ≤ hi → lo ≤ j ≤ hi →
  seg_perm lo hi a (swap a i j).
Proof.
  intros Hlo Hhi Hi Hj. repeat split.
  - apply swap_length.
  - apply swap_Permutation; lia.
  - intros k Hk Hout. rewrite rd_swap by lia.
    destruct (Z.eqb_spec k j); [lia|]. destruct (Z.eqb_spec k i); [lia|]. done.
  - intros k Hk. rewrite rd_swap by lia.
    destruct (Z.eqb_spec k j); [eauto|]. destruct (Z.eqb_spec k i); eauto.
Qed.

Lemma seg_perm_widen lo hi lo' hi' a a' :
  lo' ≤ lo → hi ≤ hi' → 0 ≤ lo' → seg_perm lo hi a a' → seg_perm lo' hi' a a'.
Proof.
  intros Hlo Hhi H0 (Hl & Hp & Ho & Hi). repeat split; auto.
  - intros k Hk Hout. apply Ho; lia.
  - intros k Hk. destruct (decide (lo ≤ k ≤ hi)) as [Hin|Hout].
    + destruct (Hi k Hin) as (k' & Hk' & ->). exists k'. split; [lia|done].
    + exists k. split; [done|]. apply Ho; lia.
Qed.

Section sorting_facts.
Context {Ctx : Type}.
Variable partial : Ctx → Z → Z * Ctx.
Variable CInv : Ctx → Prop.
Variable key : Z → Z.
Hypothesis partial_key : ∀ c x, CInv c → (partial c x).1 = key x.
Hypothesis partial_inv : ∀ c x, CInv c → CInv (partial c x).2.

Lemma partition_loop_spec (m : nat) :
  ∀ central j i a c lo hi,
    CInv c → 0 ≤ lo → hi < Z.of_nat (length a) → lo ≤ j →
    j + Z.of_nat m = hi → lo - 1 ≤ i < j →
    (∀ k, lo ≤ k ≤ i → key (rd a k) ≤ central) →
    (∀ k, i < k < j → central < key (rd a k)) →
    ∃ i' a' c',
      partition_loop partial m central j i a c = (i', a', c') ∧
      CInv c' ∧ lo - 1 ≤ i' < hi ∧ seg_perm lo (hi - 1) a a' ∧
      (∀ k, lo ≤ k ≤ i' → key (rd a' k) ≤ central) ∧
      (∀ k, i' < k < hi → central < key (rd a' k)).
Proof.
  induction m as [|m IH]; intros central j i a c lo hi Hc Hlo Hhi Hj Hm Hi Hle Hgt.
  - simpl. exists i, a, c.
    split; [done|]. split; [done|]. split; [lia|].
    split; [apply seg_perm_refl|]. split; [done|].
    intros k Hk. apply Hgt. lia.
  - simpl. pose proof (partial_key c (rd a j) Hc) as Hk.
    pose proof (partial_inv c (rd a j) Hc) as Hc1.
    destruct (partial c (rd a j)) as [kj c1]. simpl in Hk, Hc1. subst kj.
    destruct (Z.ltb_spec central (key (rd a j))) as [Hlt|Hge].
    + apply (IH central (j + 1) i a c1 lo hi); auto; try lia.
      intros k Hk. destruct (decide (k = j)) as [->|]; [done|]. apply Hgt. lia.
    + destruct (IH central (j + 1) (i + 1) (swap a (i + 1) j) c1 lo hi)
        as (i' & a' & c' & Heq & Hc' & Hi' & Hperm & Hle' & Hgt'); auto; try lia.
      * rewrite swap_length. lia.
      * intros k Hk. rewrite rd_swap by lia.
        destruct (Z.eqb_spec k j) as [->|Hkj].
        { destruct (decide (i + 1 = j)) as [->|]; [done|]. lia. }
        destruct (Z.eqb_spec k (i + 1)) as [->|Hki]; [done|].
        apply Hle. lia.
      * intros k Hk. rewrite rd_swap by lia.
        destruct (Z.eqb_spec k j) as [->|Hkj].
        { apply Hgt. lia. }
        destruct (Z.eqb_spec k (i + 1)) as [->|Hki]; [lia|].
        apply Hgt. lia.
      * exists i', a', c'.
        split; [done|]. split; [done|]. split; [lia|].
        split; [|by split].
        eapply seg_perm_trans; [|exact Hperm].
        apply seg_perm_swap; lia.
Qed.
End sorting_facts.



Lemma new_segs_size lo hi p : lo ≤ p ≤ hi → lo < hi → segs_size (new_segs lo hi p) < hi - lo.
Proof.
  intros. unfold new_segs.
  destruct (Z.ltb_spec p (hi - 1)), (Z.ltb_spec (lo + 1) p); simpl; lia.
Qed.

Lemma segs_size_app s1 s2 : segs_size (s1 ++ s2) = segs_size s1 + segs_size s2.
Proof. induction s1 as [|s r IH]; simpl; [done|]. rewrite IH. lia. Qed.

Lemma segs_disjoint_new lo hi p segs :
  lo ≤ p ≤ hi → Forall (seg_disjoint (lo, hi)) segs → segs_disjoint segs →
  segs_disjoint (new_segs lo hi p ++ segs).
Proof.
  intros Hp Hd Hs.
  assert (Hsub : ∀ x y, lo ≤ x → y ≤ hi → Forall (seg_disjoint (x, y)) segs).
  { intros x y Hx Hy. eapply Forall_impl; [exact Hd|].
    intros t. unfold seg_disjoint. simpl. lia. }
  unfold new_segs.
  destruct (Z.ltb_spec p (hi - 1)), (Z.ltb_spec (lo + 1) p); simpl;
    repeat split; auto;
    repeat (apply Forall_cons; split); try apply Hsub; try lia;
    unfold seg_disjoint; simpl; lia.
Qed.

Section sorting_rounds.
Context {Ctx : Type}.
Variable partial : Ctx → Z → Z * Ctx.
Variable CInv : Ctx → Prop.
Variable key : Z → Z.
Hypothesis partial_key : ∀ c x, CInv c → (partial c x).1 = key x.
Hypothesis partial_inv : ∀ c x, CInv c → CInv (partial c x).2.

Lemma quickort_round_spec lo hi segs a c :
  Z.of_nat (length a) < 2 ^ 32 →
  seg_ok (Z.of_nat (length a)) (lo, hi) →
  Forall (seg_disjoint (lo, hi)) segs →
  sorted_but key ((lo, hi) :: segs) a →
  CInv c →
  ∃ p a' c',
    quickort_round partial (stack_of ((lo, hi) :: segs)) a c
    = Ok (stack_of (new_segs lo hi p ++ segs), a', c') ∧
    lo ≤ p ≤ hi ∧ length a' = length a ∧ a' ≡ₚ a ∧
    sorted_but key (new_segs lo hi p ++ segs) a' ∧ CInv c'.
Proof.
  intros Hn (Hlo0 & Hlohi & Hhin) Hdisj Hsorted Hc. simpl in Hlo0, Hlohi, Hhin.
  unfold quickort_round. simpl stack_of.
  rewrite al_pop_append. simpl. rewrite al_pop_append. simpl.
  pose proof (partial_key c (rd a hi) Hc) as Hk.
  pose proof (partial_inv c (rd a hi) Hc) as Hc0.
  destruct (partial c (rd a hi)) as [central c0]. simpl in Hk, Hc0. subst central.
  destruct (partition_loop_spec partial CInv key partial_key partial_inv
              (Z.to_nat (hi - lo)) (key (rd a hi)) lo (lo - 1) a c0 lo hi)
    as (i' & a1 & c1 & Heq & Hc1 & Hi' & Hperm & Hle & Hgt); auto; try lia.
  rewrite Heq.
  set (p := i' + 1).
  set (a2 := if p <? hi then swap a1 p hi else a1).
  assert (Hlen1 : length a1 = length a) by apply Hperm.
  assert (Hhi1 : rd a1 hi = rd a hi).
  { destruct Hperm as (_ & _ & Ho & _). apply Ho; lia. }
  assert (Hperm2 : seg_perm lo hi a a2).
  { eapply seg_perm_trans.
    - eapply (seg_perm_widen lo (hi - 1) lo hi); [lia|lia|lia|exact Hperm].
    - subst a2. destruct (Z.ltb_spec p hi).
      + apply seg_perm_swap; lia.
      + apply seg_perm_refl. }
  assert (Hpiv : key (rd a2 p) = key (rd a hi)).
  { subst a2. destruct (Z.ltb_spec p hi).
    - rewrite rd_swap by lia. rewrite Z.eqb_refl.
      destruct (Z.eqb_spec p hi); [lia|]. by rewrite Hhi1.
    - assert (p = hi) as -> by lia. by rewrite Hhi1. }
  assert (Hleft : ∀ k, lo ≤ k < p → key (rd a2 k) ≤ key (rd a hi)).
  { intros k Hk. subst a2. destruct (Z.ltb_spec p hi).
    - rewrite rd_swap by lia.
      destruct (Z.eqb_spec k hi); [lia|]. destruct (Z.eqb_spec k p); [lia|].
      apply Hle. lia.
    - apply Hle. lia. }
  assert (Hright : ∀ k, p < k ≤ hi → key (rd a hi) < key (rd a2 k)).
  { intros k Hk. subst a2. destruct (Z.ltb_spec p hi); [|lia].
    rewrite rd_swap by lia.
    destruct (Z.eqb_spec k hi) as [->|].
    - apply Hgt. lia.
    - destruct (Z.eqb_spec k p); [lia|]. apply Hgt. lia. }
  exists p, a2, c1.
  split.
  { f_equal. f_equal. f_equal.
    rewrite (u32_small p) by lia. rewrite (u32_small (lo + 1)) by lia.
    rewrite (u32_small (hi - 1)) by lia. unfold new_segs.
    destruct (Z.ltb_spec (lo + 1) p), (Z.ltb_spec p (hi - 1)); simpl;
      rewrite ?u32_small by lia; done. }
  split; [lia|].
  split; [apply Hperm2|]. split; [apply Hperm2|]. split; [|done].
  destruct Hperm2 as (Hlen2 & _ & Hout & Hin).
  intros i j Hi Hij Hj. rewrite Hlen2 in Hj.
  destruct (decide (lo ≤ i ≤ hi)) as [Hiin|Hiout];
    destruct (decide (lo ≤ j ≤ hi)) as [Hjin|Hjout].
  - (* both in the range *)
    destruct (decide (j < p)) as [Hjp|Hjp].
    { right. apply Exists_app. left. unfold new_segs. apply Exists_app. right.
      destruct (Z.ltb_spec (lo + 1) p); [|lia].
      apply Exists_cons_hd. unfold seg_covers. simpl. lia. }
    destruct (decide (p < i)) as [Hpi|Hpi].
    { right. apply Exists_app. left. unfold new_segs. apply Exists_app. left.
      destruct (Z.ltb_spec p (hi - 1)); [|lia].
      apply Exists_cons_hd. unfold seg_covers. simpl. lia. }
    left.
    assert (key (rd a2 i) ≤ key (rd a hi)).
    { destruct (decide (i = p)) as [->|]; [lia|]. apply Hleft. lia. }
    assert (key (rd a hi) ≤ key (rd a2 j)).
    { destruct (decide (j = p)) as [->|]; [lia|].
      assert (key (rd a hi) < key (rd a2 j)); [apply Hright|]; lia. }
    lia.
  - (* i in the range, j above it *)
    destruct (Hin i Hiin) as (i0 & Hi0 & ->). rewrite (Hout j) by lia.
    destruct (Hsorted i0 j) as [?|Hex]; [lia|lia|lia|by left|].
    apply Exists_cons in Hex as [Hcov|Hex].
    { unfold seg_covers in Hcov. simpl in Hcov. lia. }
    exfalso. apply Exists_exists in Hex as (s & Hs & Hcov).
    rewrite Forall_forall in Hdisj. specialize (Hdisj s Hs).
    unfold seg_covers in Hcov. unfold seg_disjoint in Hdisj. simpl in Hdisj. lia.
  - (* i below the range, j in it *)
    destruct (Hin j Hjin) as (j0 & Hj0 & ->). rewrite (Hout i) by lia.
    destruct (Hsorted i j0) as [?|Hex]; [lia|lia|lia|by left|].
    apply Exists_cons in Hex as [Hcov|Hex].
    { unfold seg_covers in Hcov. simpl in Hcov. lia. }
    exfalso. apply Exists_exists in Hex as (s & Hs & Hcov).
    rewrite Forall_forall in Hdisj. specialize (Hdisj s Hs).
    unfold seg_covers in Hcov. unfold seg_disjoint in Hdisj. simpl in Hdisj. lia.
  - (* both outside *)
    rewrite (Hout i), (Hout j) by lia.
    destruct (Hsorted i j) as [?|Hex]; [lia|lia|lia|by left|].
    apply Exists_cons in Hex as [Hcov|Hex].
    { unfold seg_covers in Hcov. simpl in Hcov. lia. }
    right. apply Exists_app. by right.
Qed.
End sorting_rounds.

Lemma segs_size_nonneg n segs : Forall (seg_ok n) segs → 0 ≤ segs_size segs.
Proof.
  induction 1 as [|s r Hs _ IH]; simpl; [done|].
  destruct Hs as (? & ? & ?). lia.
Qed.

Lemma new_segs_ok n lo hi p :
  seg_ok n (lo, hi) → lo ≤ p ≤ hi → Forall (seg_ok n) (new_segs lo hi p).
Proof.
  intros (H0 & H1 & H2) Hp. simpl in *. unfold new_segs.
  destruct (Z.ltb_spec p (hi - 1)), (Z.ltb_spec (lo + 1) p); simpl;
    repeat (apply Forall_cons; split); try apply Forall_nil;
    unfold seg_ok; simpl; lia.
Qed.

Section sorting_loop.
Context {Ctx : Type}.
Variable partial : Ctx → Z → Z * Ctx.
Variable CInv : Ctx → Prop.
Variable key : Z → Z.
Hypothesis partial_key : ∀ c x, CInv c → (partial c x).1 = key x.
Hypothesis partial_inv : ∀ c x, CInv c → CInv (partial c x).2.

Lemma quickort_loop_S fuel stack a c :
  stack ≠ [] →
  quickort_loop partial (S fuel) stack a c
  = '(stack, a, c) ← quickort_round partial stack a c;
    quickort_loop partial fuel stack a c.
Proof. by destruct stack. Qed.

Lemma quickort_loop_spec (fuel : nat) :
  ∀ segs a c,
    Z.of_nat (length a) < 2 ^ 32 →
    Forall (seg_ok (Z.of_nat (length a))) segs →
    segs_disjoint segs →
    sorted_but key segs a →
    CInv c →
    segs_size segs ≤ Z.of_nat fuel →
    ∃ a' c',
      quickort_loop partial fuel (stack_of segs) a c = Ok ([], a', c') ∧
      a' ≡ₚ a ∧ sorted_but key [] a' ∧ CInv c'.
Proof.
  induction fuel as [|fuel IH]; intros segs a c Hn Hok Hdis Hsorted Hc Hfuel.
  - destruct segs as [|[lo hi] r].
    + exists a, c. by repeat split.
    + apply Forall_cons in Hok as [(? & ? & ?) Hr].
      pose proof (segs_size_nonneg _ _ Hr). simpl in *. lia.
  - destruct segs as [|[lo hi] r].
    + exists a, c. by repeat split.
    + apply Forall_cons in Hok as [Hs Hr]. destruct Hdis as [Hd Hdr].
      destruct (quickort_round_spec partial CInv key partial_key partial_inv
                  lo hi r a c) as (p & a1 & c1 & Heq & Hp & Hlen & Hperm & Hso & Hc1);
        auto.
      rewrite quickort_loop_S.
      2:{ simpl. unfold al_append. by destruct (stack_of r). }
      rewrite Heq. simpl.
      destruct (IH (new_segs lo hi p ++ r) a1 c1) as (a' & c' & Heq' & Hperm' & Hso' & Hc');
        auto.
      * by rewrite Hlen.
      * rewrite Hlen. apply Forall_app. split; [|done].
        by apply new_segs_ok.
      * by apply segs_disjoint_new.
      * rewrite segs_size_app.
        destruct Hs as (? & ? & ?). simpl in *.
        pose proof (new_segs_size lo hi p Hp). lia.
      * exists a', c'. split; [done|]. split; [|done]. by rewrite Hperm'.
Qed.

Lemma iterative_inplace_quickort_spec a c :
  Z.of_nat (length a) < 2 ^ 32 → CInv c →
  ∃ a' c',
    iterative_inplace_quickort partial [] a (Z.of_nat (length a)) c
    = Ok ([], a', c') ∧
    a' ≡ₚ a ∧ sorted_but key [] a' ∧ CInv c'.
Proof.
  intros Hn Hc. unfold iterative_inplace_quickort.
  destruct (Z.ltb_spec (Z.of_nat (length a)) 2) as [Hlt|Hge].
  - exists a, c. split; [done|]. split; [done|]. split; [|done].
    intros i j Hi Hij Hj. lia.
  - rewrite u32_small by lia.
    change (al_append (al_append [] 0) (Z.of_nat (length a) - 1))
      with (stack_of [(0, Z.of_nat (length a) - 1)]).
    apply quickort_loop_spec; [done| | | |done|].
    + constructor; [|constructor]. unfold seg_ok. simpl. lia.
    + simpl. split; [constructor|done].
    + intros i j Hi Hij Hj. right. apply Exists_cons_hd.
      unfold seg_covers. simpl. lia.
    + simpl. lia.
Qed.
End sorting_loop.

(** ** The two sorts of the checker *)

Lemma sorted_but_pairwise key (l : list Z) :
  sorted_but key [] l → pairwise_nondecreasing key l.
Proof.
  intros Hs i j x y Hij Hx Hy.
  pose proof (lookup_lt_Some _ _ _ Hx). pose proof (lookup_lt_Some _ _ _ Hy).
  destruct (Hs (Z.of_nat i) (Z.of_nat j)) as [Hle|Hex]; [lia|lia|lia| |].
  - unfold rd in Hle. rewrite !Nat2Z.id, !nth_lookup, Hx, Hy in Hle. done.
  - by apply Exists_nil in Hex.
Qed.

Lemma pairwise_adjacent key (l : list Z) :
  pairwise_nondecreasing key l → adjacent_nondecreasing key l.
Proof. intros H i x y Hx Hy. apply (H i (S i)); auto. Qed.

Lemma swap_same (a : list Z) (j : Z) :
  0 ≤ j < Z.of_nat (length a) → swap a j j = a.
Proof.
  intros Hj. unfold swap. rewrite list_insert_insert_eq.
  apply list_insert_id. by apply rd_lookup.
Qed.

Section sorting_ties.
Context {Ctx : Type}.
Variable partial : Ctx → Z → Z * Ctx.
Variable CInv : Ctx → Prop.
Variable key : Z → Z.
Hypothesis partial_key : ∀ c x, CInv c → (partial c x).1 = key x.
Hypothesis partial_inv : ∀ c x, CInv c → CInv (partial c x).2.

(** When no key in the range exceeds the pivot's, each round of the
    partition swaps a position with itself. *)
Lemma partition_loop_ties (m : nat) :
  ∀ central j i a c,
    CInv c → i + 1 = j → 0 ≤ j → j + Z.of_nat m ≤ Z.of_nat (length a) →
    (∀ k, j ≤ k < j + Z.of_nat m → key (rd a k) ≤ central) →
    ∃ c', partition_loop partial m central j i a c = (i + Z.of_nat m, a, c')
          ∧ CInv c'.
Proof.
  induction m as [|m IH]; intros central j i a c Hc Hij Hj Hlen Hle.
  - simpl. exists c. split; [|done]. do 2 f_equal. lia.
  - simpl. pose proof (partial_key c (rd a j) Hc) as Hk.
    pose proof (partial_inv c (rd a j) Hc) as Hc1.
    destruct (partial c (rd a j)) as [kj c1]. simpl in Hk, Hc1. subst kj.
    destruct (Z.ltb_spec central (key (rd a j))) as [Hlt|Hge].
    { specialize (Hle j). lia. }
    rewrite Hij, swap_same by lia.
    destruct (IH central (j + 1) j a c1) as (c' & Heq & Hc'); auto; try lia.
    { intros k Hk. apply Hle. lia. }
    exists c'. split; [|done]. rewrite Heq. do 2 f_equal. lia.
Qed.

Lemma quickort_loop_ties (fuel : nat) :
  ∀ lo hi a c κ,
    CInv c → Z.of_nat (length a) < 2 ^ 32 →
    0 ≤ lo → lo < hi → hi < Z.of_nat (length a) →
    hi - lo ≤ Z.of_nat fuel →
    (∀ k, 0 ≤ k < Z.of_nat (length a) → key (rd a k) = κ) →
    ∃ c', quickort_loop partial fuel (stack_of [(lo, hi)]) a c = Ok ([], a, c')
          ∧ CInv c'.
Proof.
  induction fuel as [|fuel IH]; intros lo hi a c κ Hc Hn Hlo Hlohi Hhi Hfuel Hκ;
    [lia|].
  rewrite quickort_loop_S by done.
  unfold quickort_round. simpl stack_of.
  rewrite (al_pop_append (al_append [] lo) hi). simpl.
  pose proof (partial_key c (rd a hi) Hc) as Hk.
  pose proof (partial_inv c (rd a hi) Hc) as Hc0.
  destruct (partial c (rd a hi)) as [central c0]. simpl in Hk, Hc0. subst central.
  destruct (partition_loop_ties (Z.to_nat (hi - lo)) (key (rd a hi)) lo (lo - 1) a c0)
    as (c1 & Heq & Hc1); auto; try lia.
  { intros k Hk. rewrite !Hκ by lia. done. }
  rewrite Heq. rewrite Z2Nat.id by lia.
  replace (lo - 1 + (hi - lo) + 1) with hi by lia.
  rewrite (Z.ltb_irrefl hi), (u32_small hi), (u32_small (lo + 1)),
    (u32_small (hi - 1)) by lia.
  rewrite (proj2 (Z.ltb_ge hi (hi - 1))) by lia.
  destruct (Z.ltb_spec (lo + 1) hi) as [Hlt|Hge].
  - change (al_append (al_append [] lo) (hi - 1)) with (stack_of [(lo, hi - 1)]).
    apply (IH lo (hi - 1) a c1 κ); auto; lia.
  - destruct fuel; simpl; eauto.
Qed.

Lemma iterative_inplace_quickort_ties a c κ :
  Z.of_nat (length a) < 2 ^ 32 → CInv c →
  (∀ x, x ∈ a → key x = κ) →
  ∃ c', iterative_inplace_quickort partial [] a (Z.of_nat (length a)) c
        = Ok ([], a, c') ∧ CInv c'.
Proof.
  intros Hn Hc Hκ. unfold iterative_inplace_quickort.
  destruct (Z.ltb_spec (Z.of_nat (length a)) 2) as [Hlt|Hge]; [eauto|].
  rewrite u32_small by lia.
  change (al_append (al_append [] 0) (Z.of_nat (length a) - 1))
    with (stack_of [(0, Z.of_nat (length a) - 1)]).
  apply (quickort_loop_ties _ _ _ _ _ κ); auto; try lia.
  intros k Hk. apply Hκ. apply list_elem_of_lookup. exists (Z.to_nat k).
  by apply rd_lookup.
Qed.
End sorting_ties.

(** The projection of the matrix sort returns [quant_ord] and keeps the
    formula but for the warnings. *)
Lemma erase_warned_warn_free qbf var :
  erase_warned (qbf_warn_free qbf var) = erase_warned qbf.
Proof. unfold qbf_warn_free. by destruct (decide _). Qed.

Lemma erase_warned_prefix_mapping q1 q2 :
  erase_warned q1 = erase_warned q2 → prefix_mapping q1 = prefix_mapping q2.
Proof. intros H. by apply (f_equal prefix_mapping) in H. Qed.

Lemma quant_ord_erase q1 q2 lit :
  erase_warned q1 = erase_warned q2 → quant_ord q1 lit = quant_ord q2 lit.
Proof. intros H. unfold quant_ord. by rewrite (erase_warned_prefix_mapping _ _ H). Qed.

Lemma partial_quant_ord qbf0 c lit :
  erase_warned c = erase_warned qbf0 →
  (qbf_get_quant_ordering_from_index_partial c lit).1 = quant_ord qbf0 lit.
Proof.
  intros H. rewrite <- (quant_ord_erase _ _ lit H).
  unfold qbf_get_quant_ordering_from_index_partial, quant_ord.
  by destruct (prefix_mapping c !! LIT2VAR lit).
Qed.

Lemma partial_erase qbf0 c lit :
  erase_warned c = erase_warned qbf0 →
  erase_warned (qbf_get_quant_ordering_from_index_partial c lit).2 = erase_warned qbf0.
Proof.
  intros H. unfold qbf_get_quant_ordering_from_index_partial.
  destruct (prefix_mapping c !! LIT2VAR lit); simpl; [done|].
  by rewrite erase_warned_warn_free.
Qed.

Lemma sort_clauses_loop_spec qbf0 (clauses : list (list Z)) :
  ∀ qbf,
    Forall (λ Q, Z.of_nat (length Q) < 2 ^ 32) clauses →
    erase_warned qbf = erase_warned qbf0 →
    ∃ m qbf',
      sort_clauses_loop [] clauses qbf = Ok ([], m, qbf') ∧
      erase_warned qbf' = erase_warned qbf0 ∧
      Forall2 (λ Q Q' : list Z,
                 Q' ≡ₚ Q ∧ pairwise_nondecreasing (quant_ord qbf0) Q' ∧
                 ((∀ x y, x ∈ Q → y ∈ Q → quant_ord qbf0 x = quant_ord qbf0 y) →
                  Q' = Q))
        clauses m.
Proof.
  induction clauses as [|Q rest IH]; intros qbf Hlen Hq.
  - exists [], qbf. by repeat split.
  - apply Forall_cons in Hlen as [HQ Hrest]. simpl.
    destruct (iterative_inplace_quickort_spec
                qbf_get_quant_ordering_from_index_partial
                (λ c, erase_warned c = erase_warned qbf0) (quant_ord qbf0)
                (partial_quant_ord qbf0) (partial_erase qbf0) Q qbf HQ Hq)
      as (Q' & qbf1 & Heq & Hperm & Hsorted & Hq1).
    rewrite Heq. simpl.
    destruct (IH qbf1 Hrest Hq1) as (m & qbf2 & Heq2 & Hq2 & Hall).
    rewrite Heq2. simpl. exists (Q' :: m), qbf2.
    split; [done|]. split; [done|]. constructor; [|done].
    split; [done|]. split; [by apply sorted_but_pairwise|].
    intros Hties.
    destruct Q as [|x0 Q0]; [by apply Permutation_nil_r in Hperm|].
    destruct (iterative_inplace_quickort_ties
                qbf_get_quant_ordering_from_index_partial
                (λ c, erase_warned c = erase_warned qbf0) (quant_ord qbf0)
                (partial_quant_ord qbf0) (partial_erase qbf0) (x0 :: Q0) qbf
                (quant_ord qbf0 x0) HQ Hq) as (c' & Heq' & _).
    { intros x Hx. apply Hties; [done|]. by left. }
    congruence.
Qed.

Lemma qbf_sort_clauses_in_matrix_spec qbf :
  Forall (λ Q, Z.of_nat (length Q) < 2 ^ 32) (matrix qbf) →
  ∃ qbf',
    qbf_sort_clauses_in_matrix qbf = Ok qbf' ∧
    prefix_mapping qbf' = prefix_mapping qbf ∧ prefix qbf' = prefix qbf ∧
    Forall2 (λ Q Q' : list Z,
               Q' ≡ₚ Q ∧ pairwise_nondecreasing (quant_ord qbf) Q' ∧
               ((∀ x y, x ∈ Q → y ∈ Q → quant_ord qbf x = quant_ord qbf y) →
                Q' = Q))
      (matrix qbf) (matrix qbf').
Proof.
  intros Hlen. unfold qbf_sort_clauses_in_matrix.
  destruct (sort_clauses_loop_spec qbf (matrix qbf) qbf Hlen eq_refl)
    as (m & qbf1 & Heq & Hq1 & Hall).
  rewrite Heq. simpl. exists (set_matrix qbf1 m).
  split; [done|]. simpl.
  split; [by apply (f_equal prefix_mapping) in Hq1|].
  split; [by apply (f_equal prefix) in Hq1|]. done.
Qed.

Lemma sort_identity_spec (exp_clause : list Z) :
  Z.of_nat (length exp_clause) < 2 ^ 32 →
  ∃ lits,
    iterative_inplace_quickort sort_identity [] exp_clause
      (Z.of_nat (length exp_clause)) tt = Ok ([], lits, tt) ∧
    lits ≡ₚ exp_clause ∧ pairwise_nondecreasing id lits.
Proof.
  intros Hlen.
  destruct (iterative_inplace_quickort_spec sort_identity (λ _, True) id
              (λ _ _ _, eq_refl) (λ _ _ _, I) exp_clause tt Hlen I)
    as (lits & [] & Heq & Hperm & Hsorted & _).
  exists lits. split; [done|]. split; [done|]. by apply sorted_but_pairwise.
Qed.

(** C7: after [qbf_sort_clauses_in_matrix] every matrix clause is a
    permutation of its old literals in which adjacent literals are
    non-decreasing in the quantifier ordering of their variables (0 for a free
    variable); after the sort of [ferat_check], with the identity projection,
    the literals of an expansion clause are non-decreasing in their
    encoding.  Clauses have fewer than 2^32 literals ([num_literals] is a
    [uint32_t]). *)
Theorem sorts_order_clauses (qbf : QBF) (exp_clause : list Z) :
  Forall (λ Q, Z.of_nat (length Q) < 2 ^ 32) (matrix qbf) →
  Z.of_nat (length exp_clause) < 2 ^ 32 →
  (∃ qbf',
     qbf_sort_clauses_in_matrix qbf = Ok qbf' ∧
     prefix_mapping qbf' = prefix_mapping qbf ∧ prefix qbf' = prefix qbf ∧
     Forall2 (λ Q Q' : list Z,
                Q' ≡ₚ Q ∧ adjacent_nondecreasing (quant_ord qbf) Q')
       (matrix qbf) (matrix qbf')) ∧
  (∃ lits,
     iterative_inplace_quickort sort_identity [] exp_clause
       (Z.of_nat (length exp_clause)) tt = Ok ([], lits, tt) ∧
     lits ≡ₚ exp_clause ∧ adjacent_nondecreasing id lits).
Proof.
  intros Hm He. split.
  - destruct (qbf_sort_clauses_in_matrix_spec qbf Hm) as (qbf' & Heq & Hpm & Hp & Hall).
    exists qbf'. split; [done|]. split; [done|]. split; [done|].
    eapply Forall2_impl; [exact Hall|]. simpl.
    intros Q Q' (Hperm & Hsorted & _). split; [done|]. by apply pairwise_adjacent.
  - destruct (sort_identity_spec exp_clause He) as (lits & Heq & Hperm & Hsorted).
    exists lits. split; [done|]. split; [done|]. by apply pairwise_adjacent.
Qed.

Lemma sorts_order_clauses_witness :
  (∃ qbf',
     qbf_sort_clauses_in_matrix qbf_e12 = Ok qbf' ∧
     prefix_mapping qbf' = prefix_mapping qbf_e12 ∧ prefix qbf' = prefix qbf_e12 ∧
     Forall2 (λ Q Q' : list Z,
                Q' ≡ₚ Q ∧ adjacent_nondecreasing (quant_ord qbf_e12) Q')
       (matrix qbf_e12) (matrix qbf')) ∧
  (∃ lits,
     iterative_inplace_quickort sort_identity [] [7; 3; 9; 3; 1]
       (Z.of_nat (length [7; 3; 9; 3; 1])) tt = Ok ([], lits, tt) ∧
     lits ≡ₚ [7; 3; 9; 3; 1] ∧ adjacent_nondecreasing id lits).
Proof.
  apply (sorts_order_clauses qbf_e12 [7; 3; 9; 3; 1]).
  - simpl. repeat constructor.
  - simpl. lia.
Defined.

Example quickort_identity_example :
  iterative_inplace_quickort sort_identity [] [7; 3; 9; 3; 1] 5 tt
  = Ok ([], [1; 3; 3; 7; 9], tt).
Proof. reflexivity. Qed.

(** C8, as stated, fails: the clause [(2 ∨ 1)] under [∃ 1 2] keeps its
    order, the literal of 2 before the literal of 1, though both variables
    have the same quantifier ordering. *)
Lemma matrix_sort_ties_counterexample :
  ∃ qbf',
    qbf_sort_clauses_in_matrix qbf_e12 = Ok qbf' ∧
    matrix qbf' = [[4; 2]] ∧
    quant_ord qbf_e12 4 = quant_ord qbf_e12 2 ∧ ¬ (4 ≤ 2).
Proof.
  eexists. split; [vm_compute; reflexivity|].
  split; [reflexivity|]. split; [reflexivity|]. lia.
Qed.

(** C8, amended: the key of the matrix sort is the quantifier ordering
    alone.  After the sort every clause is a permutation of its old literals
    in which a literal never precedes one of smaller quantifier ordering;
    literals of equal ordering are not put in order of their value: a clause
    whose literals all have one ordering is left as it was. *)
Theorem matrix_sort_key_is_ordering (qbf : QBF) :
  Forall (λ Q, Z.of_nat (length Q) < 2 ^ 32) (matrix qbf) →
  ∃ qbf',
    qbf_sort_clauses_in_matrix qbf = Ok qbf' ∧
    Forall2 (λ Q Q' : list Z,
               Q' ≡ₚ Q ∧ pairwise_nondecreasing (quant_ord qbf) Q' ∧
               ((∀ x y, x ∈ Q → y ∈ Q → quant_ord qbf x = quant_ord qbf y) →
                Q' = Q))
      (matrix qbf) (matrix qbf').
Proof.
  intros Hm.
  destruct (qbf_sort_clauses_in_matrix_spec qbf Hm) as (qbf' & Heq & _ & _ & Hall).
  by exists qbf'.
Qed.

Lemma matrix_sort_key_is_ordering_witness :
  ∃ qbf',
    qbf_sort_clauses_in_matrix qbf_e12 = Ok qbf' ∧
    Forall2 (λ Q Q' : list Z,
               Q' ≡ₚ Q ∧ pairwise_nondecreasing (quant_ord qbf_e12) Q' ∧
               ((∀ x y, x ∈ Q → y ∈ Q → quant_ord qbf_e12 x = quant_ord qbf_e12 y) →
                Q' = Q))
      (matrix qbf_e12) (matrix qbf').
Proof.
  apply (matrix_sort_key_is_ordering qbf_e12). simpl. repeat constructor.
Defined.

(** ** The lexical primitives *)

Lemma reads_left_read_one_char p :
  eof p = false → S (reads_left (read_one_char p)) = reads_left p.
Proof.
  intros He. unfold reads_left, read_one_char.
  destruct (stream p) as [|c rest]; simpl; rewrite ?He; simpl; lia.
Qed.

Lemma reads_left_pos p : eof p = false → (0 < reads_left p)%nat.
Proof. intros He. unfold reads_left. rewrite He. lia. Qed.

Lemma skip_white_loop_total (fuel : nat) :
  ∀ p num_read,
    (reads_left p ≤ fuel)%nat →
    ∃ n p', skip_white_loop fuel p num_read = Ok (n, p') ∧
            (reads_left p' ≤ reads_left p)%nat.
Proof.
  induction fuel as [|fuel IH]; intros p num_read Hfuel.
  - simpl. destruct (is_white (la p)); [|eauto].
    destruct (eof p) eqn:He; [eauto|].
    pose proof (reads_left_pos p He). lia.
  - simpl. destruct (is_white (la p)); [|eauto].
    destruct (eof p) eqn:He; [eauto|].
    pose proof (reads_left_read_one_char p He) as Hr.
    destruct (IH (read_one_char p) (u32 (num_read + 1))) as (n & p' & Heq & Hle); [lia|].
    exists n, p'. split; [done|lia].
Qed.

Lemma skip_white_total p :
  ∃ n p', skip_white p = Ok (n, p') ∧ (reads_left p' ≤ reads_left p)%nat.
Proof. apply skip_white_loop_total. lia. Qed.

Lemma expect_number_loop_total (fuel : nat) :
  ∀ p num,
    (reads_left p ≤ fuel)%nat →
    ∃ n p', expect_number_loop fuel p num = Ok (n, p').
Proof.
  induction fuel as [|fuel IH]; intros p num Hfuel.
  - simpl. destruct (eof p) eqn:He; [eauto|].
    pose proof (reads_left_pos p He). lia.
  - simpl. destruct (eof p) eqn:He; [eauto|].
    destruct (digit_of (la p)); [|eauto].
    pose proof (reads_left_read_one_char p He) as Hr.
    apply IH. lia.
Qed.

Lemma expect_number_loop_no_digit fuel p :
  digit_of (la p) = None → expect_number_loop fuel p 0 = Ok (0, p).
Proof.
  intros Hd. destruct fuel; simpl; rewrite Hd; by destruct (eof p).
Qed.

Lemma ascii_eqb_minus c : Ascii.eqb c "-"%char = true ↔ c = "-"%char.
Proof. apply Ascii.eqb_eq. Qed.

(** C10: [expect_number] ends fatally (with code 80) exactly when
    [expect_positive] holds and the byte under the look-ahead after the white
    space is ['-']; otherwise it returns.  When that byte is neither ['-']
    nor a digit, it returns 0 and leaves the parser as [skip_white] left it,
    so [expect_number_literal] with literal 0 succeeds without a token: the
    header line ["p cnf 0 0"], without the closing ["0"], is read by
    [qbf_parse] without an error. *)
Theorem expect_number_lenient (p : Parser) (expect_positive : bool) :
  ∃ n0 p1,
    skip_white p = Ok (n0, p1) ∧
    (expect_number p expect_positive = Fatal EXIT_PARSING_FAILURE
     ↔ expect_positive = true ∧ la p1 = "-"%char) ∧
    (¬ (expect_positive = true ∧ la p1 = "-"%char) →
     ∃ num p', expect_number p expect_positive = Ok (num, p')) ∧
    (la p1 ≠ "-"%char → digit_of (la p1) = None →
     expect_number p expect_positive = Ok (0, p1) ∧
     expect_number_literal p 0 = Ok (0, p1) ∧
     expect_number p false = Ok (0, p1)) ∧
    (∃ parser qbf,
       qbf_parse 8 (String "p" (String " " (String "c" (String "n" (String "f"
         (String " " (String "0" (String " " (String "0"
           (String newline EmptyString)))))))))) qbf_new true
       = Ok (parser, qbf)).
Proof.
  destruct (skip_white_total p) as (n0 & p1 & Hskip & _).
  exists n0, p1. split; [done|].
  assert (Hnum : ∀ ep, la p1 ≠ "-"%char → digit_of (la p1) = None →
                       expect_number p ep = Ok (0, p1)).
  { intros ep Hm Hd. unfold expect_number. rewrite Hskip. simpl.
    destruct (Ascii.eqb_spec (la p1) "-"%char) as [|_]; [done|]. simpl.
    by rewrite expect_number_loop_no_digit. }
  split; [|split; [|split]].
  - unfold expect_number. rewrite Hskip. simpl.
    destruct (Ascii.eqb_spec (la p1) "-"%char) as [Hm|Hm].
    + destruct expect_positive; simpl.
      * split; auto.
      * destruct (expect_number_loop_total (reads_left (read_one_char p1))
                    (read_one_char p1) 0) as (n & p' & ->); [lia|]. simpl.
        split; [done|]. by intros [? _].
    + simpl.
      destruct (expect_number_loop_total (reads_left p1) p1 0) as (n & p' & ->); [lia|].
      simpl. split; [done|]. by intros [_ ?].
  - intros Hnot. unfold expect_number. rewrite Hskip. simpl.
    destruct (Ascii.eqb_spec (la p1) "-"%char) as [Hm|Hm].
    + destruct expect_positive; [by destruct Hnot|]. simpl.
      destruct (expect_number_loop_total (reads_left (read_one_char p1))
                  (read_one_char p1) 0) as (n & p' & ->); [lia|]. simpl. eauto.
    + simpl.
      destruct (expect_number_loop_total (reads_left p1) p1 0) as (n & p' & ->); [lia|].
      simpl. eauto.
  - intros Hm Hd. split; [by apply Hnum|]. split; [|by apply Hnum].
    unfold expect_number_literal. by rewrite (Hnum false Hm Hd).
  - eexists _, _. vm_compute. reflexivity.
Qed.

Lemma expect_number_lenient_witness :
  ∃ p1,
    la p1 ≠ "-"%char ∧ digit_of (la p1) = None ∧
    expect_number_literal (parser_init (String " " (String newline EmptyString)) true) 0
    = Ok (0, p1).
Proof.
  destruct (expect_number_lenient
              (parser_init (String " " (String newline EmptyString)) true) true)
    as (n0 & p1 & Hskip & _ & _ & Hlen & _).
  vm_compute in Hskip. injection Hskip as <- <-.
  eexists. split; [|split]; [| |apply Hlen]; vm_compute; congruence.
Defined.

(** ** The existential-literal test *)

Lemma exist_or_free_erase q1 q2 lit :
  erase_warned q1 = erase_warned q2 → exist_or_free q1 lit = exist_or_free q2 lit.
Proof.
  intros H. unfold exist_or_free. by rewrite (erase_warned_prefix_mapping _ _ H).
Qed.

Lemma num_exist_or_free_erase q1 q2 Q :
  erase_warned q1 = erase_warned q2 → num_exist_or_free q1 Q = num_exist_or_free q2 Q.
Proof.
  intros H. unfold num_exist_or_free. do 2 f_equal.
  apply list_filter_iff. intros lit. by rewrite (exist_or_free_erase _ _ lit H).
Qed.

Lemma num_exist_or_free_cons qbf lit Q :
  num_exist_or_free qbf (lit :: Q)
  = (if exist_or_free qbf lit then 1 else 0) + num_exist_or_free qbf Q.
Proof.
  unfold num_exist_or_free.
  destruct (exist_or_free qbf lit) eqn:Hl.
  - rewrite filter_cons_True by (simpl; by rewrite Hl). simpl length. lia.
  - rewrite filter_cons_False by (simpl; rewrite Hl; by intros []). lia.
Qed.

Lemma count_exist_loop_spec (Q : list Z) :
  ∀ qbf n,
    ∃ qbf', count_exist_loop Q qbf n = (n + num_exist_or_free qbf Q, qbf') ∧
            erase_warned qbf' = erase_warned qbf.
Proof.
  induction Q as [|lit Q IH]; intros qbf n.
  - exists qbf. split; [|done]. simpl. f_equal. unfold num_exist_or_free. simpl. lia.
  - simpl. rewrite num_exist_or_free_cons. unfold exist_or_free.
    destruct (prefix_mapping qbf !! LIT2VAR lit) as [quant|] eqn:Hq.
    + destruct (decide (type quant = QUANT_TYPE_EXISTENTIAL)) as [Ht|Ht].
      * rewrite bool_decide_true by done.
        destruct (IH qbf (n + 1)) as (qbf' & -> & He). exists qbf'.
        split; [f_equal; lia|done].
      * rewrite bool_decide_false by done.
        destruct (IH qbf n) as (qbf' & -> & He). exists qbf'.
        split; [f_equal; lia|done].
    + destruct (IH (qbf_warn_free qbf (LIT2VAR lit)) (n + 1)) as (qbf' & -> & He).
      exists qbf'. rewrite He, erase_warned_warn_free. split; [|done].
      f_equal. rewrite (num_exist_or_free_erase _ qbf); [lia|].
      apply erase_warned_warn_free.
Qed.

Lemma origin_lits_loop_mapped (E Q : list Z) expansion :
  all_mapped E expansion → origin_lits_loop E Q expansion = Ok (lits_found Q E expansion).
Proof.
  induction E as [|e E IH]; intros Hm; [done|].
  simpl. destruct (Hm e) as [m Hme]; [by left|]. rewrite Hme.
  destruct (existsb _ Q); [|done]. simpl. apply IH.
  intros e' He'. apply Hm. by right.
Qed.

(** The test on mapped literals, in closed form. *)
Lemma ferat_test_mapped (Q E : list Z) qbf expansion :
  all_mapped E expansion →
  ∃ qbf',
    ferat_test_expansion_origin_in_QBF Q E qbf expansion
    = Ok (lits_found Q E expansion
          && (Z.of_nat (length E) =? num_exist_or_free qbf Q), qbf') ∧
    erase_warned qbf' = erase_warned qbf.
Proof.
  intros Hm. unfold ferat_test_expansion_origin_in_QBF.
  rewrite origin_lits_loop_mapped by done. simpl.
  destruct (lits_found Q E expansion); simpl; [|eauto].
  destruct (count_exist_loop_spec Q qbf 0) as (qbf' & -> & He).
  exists qbf'. split; [|done]. by rewrite Z.add_0_l.
Qed.

Lemma lits_found_spec (Q E : list Z) expansion :
  lits_found Q E expansion = true ↔
  ∀ e, e ∈ E →
    ∃ m (j : nat), exp_var_mappings expansion !! LIT2VAR e = Some m ∧
                   Q !! j = Some (VAR2LIT (qbf_var m) (LITSIGNBIT e)).
Proof.
  unfold lits_found. rewrite forallb_forall. split.
  - intros H e He. specialize (H e). rewrite <- list_elem_of_In in H.
    specialize (H He).
    destruct (exp_var_mappings expansion !! LIT2VAR e) as [m|]; [|done].
    apply existsb_exists in H as (q & Hq & Heq). apply Z.eqb_eq in Heq. subst q.
    rewrite <- list_elem_of_In in Hq. apply list_elem_of_lookup in Hq as [j Hj].
    eauto.
  - intros H e He. rewrite <- list_elem_of_In in He.
    destruct (H e He) as (m & j & -> & Hj).
    apply existsb_exists. eexists. split; [|apply Z.eqb_refl].
    rewrite <- list_elem_of_In. apply list_elem_of_lookup. eauto.
Qed.

(** C1: on an expansion clause [E] all of whose literals have a mapping
    record, the existential-literal test returns, and it returns true exactly
    when (a) for every literal [e] of [E] the literal
    [VAR2LIT (qbf_var e) (LITSIGNBIT e)] is at some position of [Q], and (b)
    [E] has as many literals as [Q] has literals whose variable is
    existentially quantified or free.  Universal literals of [Q] do not
    enter the condition. *)
Theorem existential_test_iff (Q E : list Z) (qbf : QBF) (expansion : Expansion) :
  all_mapped E expansion →
  ∃ b qbf',
    ferat_test_expansion_origin_in_QBF Q E qbf expansion = Ok (b, qbf') ∧
    (b = true ↔
     (∀ e, e ∈ E →
        ∃ m (j : nat), exp_var_mappings expansion !! LIT2VAR e = Some m ∧
                       Q !! j = Some (VAR2LIT (qbf_var m) (LITSIGNBIT e))) ∧
     Z.of_nat (length E) = num_exist_or_free qbf Q).
Proof.
  intros Hm. destruct (ferat_test_mapped Q E qbf expansion Hm) as (qbf' & Heq & _).
  eexists _, qbf'. split; [exact Heq|].
  rewrite andb_true_iff, lits_found_spec, Z.eqb_eq. done.
Qed.

Lemma existential_test_iff_witness :
  ∃ b qbf',
    ferat_test_expansion_origin_in_QBF [4; 2] [2; 4] qbf_e12 exp_e12 = Ok (b, qbf') ∧
    (b = true ↔
     (∀ e, e ∈ [2; 4] →
        ∃ m (j : nat), exp_var_mappings exp_e12 !! LIT2VAR e = Some m ∧
                       [4; 2] !! j = Some (VAR2LIT (qbf_var m) (LITSIGNBIT e))) ∧
     Z.of_nat (length [2; 4]) = num_exist_or_free qbf_e12 [4; 2]).
Proof.
  apply (existential_test_iff [4; 2] [2; 4] qbf_e12 exp_e12).
  intros e He. apply list_elem_of_In in He. simpl in He.
  destruct He as [<-|[<-|[]]]; vm_compute; eauto.
Defined.

(** ** Sorted array lists *)

Lemma StronglySorted_lookup_le (l : list Z) (i j : nat) x y :
  StronglySorted Z.le l → (i ≤ j)%nat → l !! i = Some x → l !! j = Some y → x ≤ y.
Proof.
  intros Hs. revert i j. induction Hs as [|a l Hs IH Hall]; intros i j Hij Hx Hy.
  - by rewrite lookup_nil in Hx.
  - destruct i as [|i], j as [|j]; simpl in Hx, Hy; simplify_eq.
    + lia.
    + rewrite Forall_forall in Hall. apply Hall.
      apply list_elem_of_lookup. eauto.
    + lia.
    + apply (IH i j); auto. lia.
Qed.

Lemma StronglySorted_rd_le (l : list Z) (i j : Z) :
  StronglySorted Z.le l → 0 ≤ i → i ≤ j → j < Z.of_nat (length l) → rd l i ≤ rd l j.
Proof.
  intros Hs Hi Hij Hj.
  apply (StronglySorted_lookup_le l (Z.to_nat i) (Z.to_nat j)); auto; try lia;
    apply rd_lookup; lia.
Qed.

Lemma StronglySorted_delete (l : list Z) (i : nat) :
  StronglySorted Z.le l → StronglySorted Z.le (delete i l).
Proof.
  intros Hs. revert i. induction Hs as [|a l Hs IH Hall]; intros i.
  - destruct i; constructor.
  - destruct i as [|i]; simpl; [done|].
    constructor; [apply IH|]. by apply Forall_delete.
Qed.

(** *** Sorted insertion *)

Lemma insert_sorted_index_shift (al : list Z) x i :
  insert_sorted_index al x (i + 1) = insert_sorted_index al x i + 1.
Proof.
  revert i. induction al as [|y al IH]; intros i; simpl; [done|].
  destruct (y <? x); [apply IH|done].
Qed.

Lemma insert_sorted_index_nonneg (al : list Z) x i :
  0 ≤ i → 0 ≤ insert_sorted_index al x i.
Proof.
  revert i. induction al as [|y al IH]; intros i Hi; simpl; [done|].
  destruct (y <? x); [apply IH; lia|done].
Qed.

Lemma al_insert_sorted_nil x : al_insert_sorted [] x = [x].
Proof. done. Qed.

Lemma al_insert_sorted_cons y (al : list Z) x :
  al_insert_sorted (y :: al) x
  = if y <? x then y :: al_insert_sorted al x else x :: y :: al.
Proof.
  unfold al_insert_sorted, al_insert. simpl.
  destruct (y <? x); [|done].
  rewrite (insert_sorted_index_shift al x 0).
  pose proof (insert_sorted_index_nonneg al x 0).
  rewrite Z2Nat.inj_add by lia. rewrite Nat.add_1_r. done.
Qed.

Lemma al_insert_sorted_Permutation (al : list Z) x : al_insert_sorted al x ≡ₚ x :: al.
Proof.
  induction al as [|y al IH]; [done|].
  rewrite al_insert_sorted_cons. destruct (y <? x); [|done].
  rewrite IH. apply Permutation_swap.
Qed.

Lemma al_insert_sorted_sorted (al : list Z) x :
  StronglySorted Z.le al → StronglySorted Z.le (al_insert_sorted al x).
Proof.
  induction 1 as [|y al Hs IH Hall]; [repeat constructor|].
  rewrite al_insert_sorted_cons. destruct (Z.ltb_spec y x).
  - constructor; [done|].
    rewrite al_insert_sorted_Permutation. constructor; [lia|done].
  - constructor; [by constructor|]. constructor; [done|].
    eapply Forall_impl; [exact Hall|]. simpl. lia.
Qed.

Lemma al_insert_sorted_set (al : list Z) x :
  list_to_set (al_insert_sorted al x) =@{gset Z} {[x]} ∪ list_to_set al.
Proof. by rewrite al_insert_sorted_Permutation. Qed.

(** *** Binary search *)

Lemma binary_search_loop_spec (fuel : nat) :
  ∀ (al : list Z) x low high,
    0 ≤ low → high < Z.of_nat (length al) → high - low < Z.of_nat fuel →
    ∃ idx,
      binary_search_loop fuel al x low high = Ok idx ∧
      (idx = -1 ∨ (low ≤ idx ≤ high ∧ rd al idx = x)) ∧
      (StronglySorted Z.le al →
       (∀ k, 0 ≤ k < low → rd al k < x) →
       (∀ k, high < k < Z.of_nat (length al) → x < rd al k) →
       idx = -1 → x ∉ al).
Proof.
  induction fuel as [|fuel IH]; intros al x low high Hlow Hhigh Hfuel.
  - assert ((high <? low) = true) as Hlt by (apply Z.ltb_lt; lia).
    simpl. rewrite Hlt. exists (-1). split; [done|]. split; [by left|].
    intros Hs Hlo Hhi _ Hin. apply list_elem_of_lookup in Hin as [k Hk].
    pose proof (lookup_lt_Some _ _ _ Hk).
    assert (rd al (Z.of_nat k) = x).
    { unfold rd. by rewrite Nat2Z.id, nth_lookup, Hk. }
    destruct (decide (Z.of_nat k < low)).
    + specialize (Hlo (Z.of_nat k)). lia.
    + specialize (Hhi (Z.of_nat k)). lia.
  - simpl. destruct (Z.ltb_spec high low) as [Hlt|Hge].
    { exists (-1). split; [done|]. split; [by left|].
      intros Hs Hlo Hhi _ Hin. apply list_elem_of_lookup in Hin as [k Hk].
      pose proof (lookup_lt_Some _ _ _ Hk).
      assert (rd al (Z.of_nat k) = x).
      { unfold rd. by rewrite Nat2Z.id, nth_lookup, Hk. }
      destruct (decide (Z.of_nat k < low)).
      + specialize (Hlo (Z.of_nat k)). lia.
      + specialize (Hhi (Z.of_nat k)). lia. }
    set (mid := low + (high - low) / 2).
    assert (Hmid : low ≤ mid ≤ high).
    { subst mid. pose proof (Z.div_pos (high - low) 2).
      assert ((high - low) / 2 ≤ high - low); [|lia].
      apply Z.div_le_upper_bound; lia. }
    destruct (Z.eqb_spec x (rd al mid)) as [Heq|Hne].
    { exists mid. split; [done|]. split; [right; lia|]. lia. }
    destruct (Z.ltb_spec (rd al mid) x) as [Hlt|Hgt].
    + destruct (IH al x (mid + 1) high) as (idx & Heq & Hidx & Hnot); [lia|lia|lia|].
      exists idx. split; [done|]. split.
      * destruct Hidx as [?|[? ?]]; [by left|right; split; [lia|done]].
      * intros Hs Hlo Hhi Hm. apply Hnot; auto.
        intros k Hk. destruct (decide (k < low)); [apply Hlo; lia|].
        pose proof (StronglySorted_rd_le al k mid Hs). lia.
    + destruct (Z.eqb_spec mid 0) as [Hm0|Hm0].
      * exists (-1). split; [done|]. split; [by left|].
        intros Hs Hlo Hhi _ Hin. apply list_elem_of_lookup in Hin as [k Hk].
        pose proof (lookup_lt_Some _ _ _ Hk).
        assert (rd al (Z.of_nat k) = x).
        { unfold rd. by rewrite Nat2Z.id, nth_lookup, Hk. }
        pose proof (StronglySorted_rd_le al mid (Z.of_nat k) Hs). lia.
      * destruct (IH al x low (mid - 1)) as (idx & Heq & Hidx & Hnot); [lia|lia|lia|].
        exists idx. split; [done|]. split.
        -- destruct Hidx as [?|[? ?]]; [by left|right; split; [lia|done]].
        -- intros Hs Hlo Hhi Hm. apply Hnot; auto.
           intros k Hk. destruct (decide (high < k)); [apply Hhi; lia|].
           pose proof (StronglySorted_rd_le al mid k Hs). lia.
Qed.

Lemma al_binary_search_index_spec (al : list Z) x :
  ∃ idx,
    al_binary_search_index al x = Ok idx ∧
    (idx = -1 ∨ (0 ≤ idx < Z.of_nat (length al) ∧ rd al idx = x)) ∧
    (StronglySorted Z.le al → idx = -1 → x ∉ al).
Proof.
  unfold al_binary_search_index.
  destruct (Z.ltb_spec (Z.of_nat (length al)) 1) as [Hlt|Hge].
  - exists (-1). split; [done|]. split; [by left|].
    intros _ _. destruct al; [apply not_elem_of_nil|simpl in Hlt; lia].
  - destruct (binary_search_loop_spec (S (length al)) al x 0 (Z.of_nat (length al) - 1))
      as (idx & Heq & Hidx & Hnot); [lia|lia|lia|].
    exists idx. split; [done|]. split.
    + destruct Hidx as [?|[? ?]]; [by left|right; split; [lia|done]].
    + intros Hs. apply Hnot; auto; intros k Hk; lia.
Qed.

Lemma al_binary_search_contains_spec (al : list Z) x :
  ∃ b, al_binary_search_contains al x = Ok b ∧
       (StronglySorted Z.le al → b = bool_decide (x ∈ al)).
Proof.
  unfold al_binary_search_contains.
  destruct (al_binary_search_index_spec al x) as (idx & -> & Hidx & Hnot). simpl.
  eexists. split; [done|]. intros Hs.
  destruct Hidx as [->|[Hr Hx]].
  - simpl. by rewrite bool_decide_false by (by apply Hnot).
  - destruct (Z.eqb_spec idx (-1)); [lia|]. simpl.
    rewrite bool_decide_true; [done|].
    apply list_elem_of_lookup. exists (Z.to_nat idx). rewrite <- Hx. by apply rd_lookup.
Qed.

(** *** Removal *)

Lemma al_remove_delete (al : list Z) idx :
  0 ≤ idx < Z.of_nat (length al) → al_remove al idx = Ok (delete (Z.to_nat idx) al).
Proof.
  intros H. unfold al_remove.
  destruct (Z.ltb_spec idx (Z.of_nat (length al))); [|lia]. simpl.
  by rewrite delete_take_drop.
Qed.

Lemma filter_delete_ne (l : list Z) (i : nat) x :
  l !! i = Some x → filter (λ y, y ≠ x) (delete i l) = filter (λ y, y ≠ x) l.
Proof.
  revert i. induction l as [|a l IH]; intros i Hi; [done|].
  destruct i as [|i]; simpl in *.
  - simplify_eq. by rewrite filter_cons_False by (by intros ?).
  - rewrite !filter_cons. by rewrite (IH i Hi).
Qed.

Lemma remove_all_loop_spec (fuel : nat) :
  ∀ (V : list Z) x,
    (length V ≤ fuel)%nat →
    ∃ V', remove_all_loop fuel V x = Ok V' ∧
          (StronglySorted Z.le V →
           StronglySorted Z.le V' ∧ V' = filter (λ y, y ≠ x) V).
Proof.
  induction fuel as [|fuel IH]; intros V x Hlen.
  - destruct V; [|simpl in Hlen; lia]. exists []. split; [done|].
    intros _. split; [constructor|done].
  - simpl. destruct (al_binary_search_index_spec V x) as (idx & -> & Hidx & Hnot).
    simpl. destruct Hidx as [->|[Hr Hx]].
    + simpl. exists V. split; [done|]. intros Hs. split; [done|].
      symmetry. clear Hlen IH. specialize (Hnot Hs eq_refl).
      induction V as [|v V IHV]; [done|].
      rewrite filter_cons_True.
      * f_equal. apply IHV.
        -- intros Hin. apply Hnot. by right.
        -- by inversion Hs.
      * intros ->. apply Hnot. by left.
    + destruct (Z.leb_spec 0 idx); [|lia].
      rewrite al_remove_delete by done. simpl.
      destruct (IH (delete (Z.to_nat idx) V) x) as (V' & Heq & HV').
      { pose proof (length_delete V (Z.to_nat idx)) as Hd.
        rewrite Hd; [lia|]. apply lookup_lt_is_Some_2. lia. }
      exists V'. split; [done|]. intros Hs.
      destruct (HV' (StronglySorted_delete _ _ Hs)) as [Hs' ->].
      split; [done|]. apply filter_delete_ne. rewrite <- Hx. by apply rd_lookup.
Qed.

(** ** The annotation test *)

Lemma erase_warned_prefix q1 q2 :
  erase_warned q1 = erase_warned q2 → prefix q1 = prefix q2.
Proof. intros H. by apply (f_equal prefix) in H. Qed.

Lemma find_lits_on u (Q : list Z) :
  find (λ lit, u =? LIT2VAR lit) Q = head (lits_on u Q).
Proof.
  unfold lits_on. induction Q as [|a Q IH]; [done|].
  simpl. destruct (Z.eqb_spec u (LIT2VAR a)) as [Heq|Hne].
  - by rewrite filter_cons_True.
  - by rewrite filter_cons_False.
Qed.

Lemma quant_vars_loop_spec (Q vars : list Z) :
  ∀ U V num,
    ∃ U' V',
      quant_vars_loop vars Q U V num = (U', V', num + Z.of_nat (length vars)) ∧
      (StronglySorted Z.le U → StronglySorted Z.le U') ∧
      (StronglySorted Z.le V → StronglySorted Z.le V') ∧
      foldl (spec_add_var pick_first Q) (list_to_set U, list_to_set V) vars
      = (list_to_set U', list_to_set V').
Proof.
  induction vars as [|u vars IH]; intros U V num.
  - exists U, V. simpl. by rewrite Z.add_0_r.
  - cbn [quant_vars_loop foldl]. rewrite find_lits_on.
    unfold spec_add_var at 2. unfold pick_first.
    destruct (lits_on u Q) as [|L ls]; cbn [head take fmap list_fmap fst snd].
    + set (V1 := al_insert_sorted (al_insert_sorted V (VAR2LIT u 0)) (VAR2LIT u 1)).
      destruct (IH U V1 (num + 1)) as (U' & V' & Heq & HU & HV & Hset).
      exists U', V'. split; [rewrite Heq; f_equal; simpl length; lia|].
      split; [done|]. split.
      { intros Hs. apply HV. subst V1. by do 2 apply al_insert_sorted_sorted. }
      rewrite <- Hset. f_equal. f_equal. subst V1.
      rewrite !al_insert_sorted_set. set_solver.
    + destruct (IH (al_insert_sorted U (LIT_NEG L)) V (num + 1))
        as (U' & V' & Heq & HU & HV & Hset).
      exists U', V'. split; [rewrite Heq; f_equal; simpl length; lia|].
      split; [intros Hs; apply HU; by apply al_insert_sorted_sorted|].
      split; [done|].
      rewrite <- Hset. f_equal. f_equal.
      rewrite al_insert_sorted_set. simpl. set_solver.
Qed.

Lemma quant_blocks_loop_spec (Q : list Z) qbf (n : nat) :
  ∀ j U V num,
    0 ≤ j → j + Z.of_nat n ≤ Z.of_nat (length (prefix qbf)) →
    ∃ U' V',
      quant_blocks_loop n j qbf Q U V num
      = Ok (U', V',
            num + num_universal_vars (take n (drop (Z.to_nat j) (prefix qbf)))) ∧
      (StronglySorted Z.le U → StronglySorted Z.le U') ∧
      (StronglySorted Z.le V → StronglySorted Z.le V') ∧
      foldl (spec_add_block pick_first Q) (list_to_set U, list_to_set V)
        (take n (drop (Z.to_nat j) (prefix qbf)))
      = (list_to_set U', list_to_set V').
Proof.
  induction n as [|n IH]; intros j U V num Hj Hlen.
  - exists U, V. simpl. by rewrite Z.add_0_r.
  - destruct (lookup_lt_is_Some_2 (prefix qbf) (Z.to_nat j)) as [B HB]; [lia|].
    cbn [quant_blocks_loop]. unfold al_get. rewrite HB. simpl.
    rewrite (drop_S _ _ _ HB). cbn [take foldl].
    replace (S (Z.to_nat j)) with (Z.to_nat (j + 1)) by lia.
    unfold spec_add_block at 2. cbn [num_universal_vars foldr].
    fold (num_universal_vars (take n (drop (Z.to_nat (j + 1)) (prefix qbf)))).
    destruct (decide (type B = QUANT_TYPE_UNIVERSAL)) as [Hu|Hu].
    + destruct (quant_vars_loop_spec Q (variables B) U V num)
        as (U1 & V1 & Heq1 & HU1 & HV1 & Hset1).
      rewrite Heq1, Hset1.
      destruct (IH (j + 1) U1 V1 (num + Z.of_nat (length (variables B))))
        as (U' & V' & Heq & HU & HV & Hset); [lia|lia|].
      exists U', V'. rewrite Heq. split; [do 2 f_equal; lia|].
      split; [auto|]. split; [auto|]. done.
    + destruct (IH (j + 1) U V num) as (U' & V' & Heq & HU & HV & Hset); [lia|lia|].
      exists U', V'. rewrite Heq. split; [do 2 f_equal; lia|]. done.
Qed.

Lemma annotation_subset_loop_spec (ann U V : list Z) :
  ∃ b, annotation_subset_loop ann U V = Ok b ∧
       (StronglySorted Z.le U → StronglySorted Z.le V →
        b = forallb (λ a, bool_decide (a ∈ (list_to_set U ∪ list_to_set V : gset Z))) ann).
Proof.
  induction ann as [|a ann (b & Heq & Hb)]; [by exists true|].
  simpl.
  destruct (al_binary_search_contains_spec V a) as (bV & -> & HbV). simpl.
  destruct bV.
  - exists b. split; [done|]. intros HU HV.
    rewrite (Hb HU HV). specialize (HbV HV).
    rewrite bool_decide_true; [done|].
    symmetry in HbV. apply bool_decide_eq_true in HbV. set_solver.
  - destruct (al_binary_search_contains_spec U a) as (bU & -> & HbU). simpl.
    destruct bU.
    + exists b. split; [done|]. intros HU HV.
      rewrite (Hb HU HV). specialize (HbU HU).
      rewrite bool_decide_true; [done|].
      symmetry in HbU. apply bool_decide_eq_true in HbU. set_solver.
    + exists false. split; [done|]. intros HU HV.
      specialize (HbU HU). specialize (HbV HV).
      symmetry in HbU, HbV. apply bool_decide_eq_false in HbU, HbV.
      rewrite bool_decide_false; [done|]. set_solver.
Qed.

Lemma list_to_set_filter_ne (V : list Z) x :
  list_to_set (filter (λ y, y ≠ x) V) =@{gset Z} list_to_set V ∖ {[x]}.
Proof.
  apply set_eq. intros y.
  rewrite elem_of_difference, !elem_of_list_to_set, list_elem_of_filter. set_solver.
Qed.

Lemma annotation_remove_loop_spec (ann : list Z) :
  ∀ V,
    ∃ V', annotation_remove_loop ann V = Ok V' ∧
          (StronglySorted Z.le V →
           StronglySorted Z.le V' ∧
           list_to_set V' =@{gset Z} list_to_set V ∖ list_to_set (LIT_NEG <$> ann)).
Proof.
  induction ann as [|a ann IH]; intros V.
  - exists V. split; [done|]. intros Hs. split; [done|]. simpl. set_solver.
  - simpl. destruct (remove_all_loop_spec (length V) V (LIT_NEG a)) as (V1 & -> & HV1);
      [done|]. simpl.
    destruct (IH V1) as (V' & Heq & HV'). exists V'. split; [done|].
    intros Hs. destruct (HV1 Hs) as [Hs1 ->]. destruct (HV' Hs1) as [Hs' ->].
    split; [done|]. rewrite list_to_set_filter_ne. set_solver.
Qed.

Lemma num_universal_vars_app b1 b2 :
  num_universal_vars (b1 ++ b2) = num_universal_vars b1 + num_universal_vars b2.
Proof.
  unfold num_universal_vars. induction b1 as [|B b1 IH]; [done|].
  simpl. rewrite IH. lia.
Qed.

Lemma universals_before_split qbf last curr :
  0 ≤ last → last ≤ curr →
  universals_before qbf curr
  = universals_before qbf last + num_universal_vars (blocks_between qbf last curr).
Proof.
  intros H0 Hle. unfold universals_before, blocks_between.
  rewrite <- num_universal_vars_app, take_take_drop. do 2 f_equal. lia.
Qed.

Lemma annotation_spec_erase pick (E : list Z) :
  ∀ Q U V q1 q2 expansion last,
    erase_warned q1 = erase_warned q2 →
    annotation_spec pick E Q U V q1 expansion last
    = annotation_spec pick E Q U V q2 expansion last.
Proof.
  induction E as [|e E IH]; intros Q U V q1 q2 expansion last Hq; [done|].
  simpl. destruct (exp_var_mappings expansion !! LIT2VAR e) as [m|]; [|done].
  rewrite (erase_warned_prefix_mapping _ _ Hq).
  destruct (prefix_mapping q2 !! qbf_var m) as [quant|].
  - unfold blocks_between, universals_before. rewrite (erase_warned_prefix _ _ Hq).
    f_equal. by apply IH.
  - f_equal. by apply IH.
Qed.

(** The loop of the test against the specification, from any state the
    loop can be in: [U] and [V] sorted, [last] the position the blocks have
    been read up to, [num] the universal variables in them. *)
Lemma annotations_loop_spec (Q : list Z) expansion qbf0 (E : list Z) :
  ∀ U V q last,
    erase_warned q = erase_warned qbf0 →
    all_mapped E expansion →
    wf_prefix qbf0 →
    StronglySorted (λ e1 e2,
      exp_quant_ord qbf0 expansion e1 ≤ exp_quant_ord qbf0 expansion e2) E →
    (∀ e m quant, e ∈ E → exp_var_mappings expansion !! LIT2VAR e = Some m →
       prefix_mapping qbf0 !! qbf_var m = Some quant → last ≤ ordering quant) →
    0 ≤ last →
    StronglySorted Z.le U → StronglySorted Z.le V →
    ∃ U' V' q',
      annotations_loop E Q U V q expansion last (universals_before qbf0 last)
      = Ok (annotation_spec pick_first E Q (list_to_set U) (list_to_set V) qbf0
              expansion last, U', V', q') ∧
      erase_warned q' = erase_warned qbf0.
Proof.
  induction E as [|e E IH]; intros U V q last Hq Hm Hwf Hsorted Hlast H0 HU HV.
  - exists U, V, q. by split.
  - cbn [annotations_loop annotation_spec].
    destruct (Hm e) as [m Hme]; [by left|]. rewrite Hme.
    assert (HmE : all_mapped E expansion).
    { intros e' He'. apply Hm. by right. }
    apply StronglySorted_inv in Hsorted as [HsE Hall].
    rewrite (erase_warned_prefix_mapping _ _ Hq).
    destruct (prefix_mapping qbf0 !! qbf_var m) as [quant|] eqn:Hquant.
    + assert (Hord : last ≤ ordering quant) by (eapply Hlast; eauto; by left).
      pose proof (Hwf _ _ Hquant) as Hwfq.
      destruct (quant_blocks_loop_spec Q q (Z.to_nat (ordering quant - last)) last U V
                  (universals_before qbf0 last))
        as (U1 & V1 & Heq1 & HU1 & HV1 & Hset1); [lia| |].
      { rewrite (erase_warned_prefix _ _ Hq). lia. }
      rewrite Heq1. cbn [mbind Outcome_bind].
      rewrite (erase_warned_prefix _ _ Hq) in Heq1, Hset1 |- *.
      fold (blocks_between qbf0 last (ordering quant)) in Hset1 |- *.
      rewrite <- universals_before_split by lia.
      rewrite Hset1. cbn [fst snd].
      destruct (Z.eqb_spec (Z.of_nat (length (annotation m)))
                  (universals_before qbf0 (ordering quant))) as [Hlen|Hlen];
        cbn [negb andb]; [|by exists U1, V1, q].
      destruct (annotation_subset_loop_spec (annotation m) U1 V1) as (b & -> & Hb).
      cbn [mbind Outcome_bind]. rewrite <- (Hb (HU1 HU) (HV1 HV)).
      destruct b; cbn [negb andb]; [|by exists U1, V1, q].
      destruct (annotation_remove_loop_spec (annotation m) V1) as (V2 & -> & HV2).
      cbn [mbind Outcome_bind]. destruct (HV2 (HV1 HV)) as [HsV2 <-].
      apply (IH U1 V2 q (ordering quant)); auto; [|lia].
      intros e' m' quant' He' Hme' Hquant'.
      rewrite Forall_forall in Hall. specialize (Hall e' He').
      unfold exp_quant_ord in Hall. by rewrite Hme, Hquant, Hme', Hquant' in Hall.
    + destruct (annotation m) as [|a ann]; cbn [length negb Z.eqb Z.of_nat].
      * rewrite bool_decide_true by done. cbn [andb].
        apply (IH U V (qbf_warn_free q (qbf_var m)) last); auto.
        -- by rewrite erase_warned_warn_free.
        -- intros e' m' quant' He'. apply Hlast. by right.
      * rewrite bool_decide_false by done.
        exists U, V, (qbf_warn_free q (qbf_var m)).
        split; [done|]. by rewrite erase_warned_warn_free.
Qed.

Lemma wf_prefix_qbf_taut : wf_prefix qbf_taut.
Proof.
  intros v quant Hv. unfold qbf_taut in Hv. simpl in Hv.
  rewrite lookup_insert in Hv. destruct (decide (1 = v)).
  { simplify_eq/=. lia. }
  rewrite lookup_insert in Hv. destruct (decide (2 = v)).
  { simplify_eq/=. lia. }
  by rewrite lookup_empty in Hv.
Qed.

Lemma all_mapped_exp_taut : all_mapped [2] exp_taut.
Proof.
  intros e He. apply list_elem_of_singleton in He as ->. by eexists.
Qed.

(** C2, as stated, fails on a clause with two literals on one universal
    variable: in [∀ 1 ∃ 2 . (1 ∨ ¬1 ∨ 2)] the set [U] of the specification
    holds the negations of both literals on 1, so it accepts the annotation
    [1]; the code enters the negation of the first of them only and
    rejects. *)
Lemma annotation_each_literal_counterexample :
  all_mapped [2] exp_taut ∧ wf_prefix qbf_taut ∧
  Sorted (λ e1 e2,
    exp_quant_ord qbf_taut exp_taut e1 ≤ exp_quant_ord qbf_taut exp_taut e2) [2] ∧
  annotation_spec pick_each [2] [2; 3; 4] ∅ ∅ qbf_taut exp_taut 0 = true ∧
  ∃ U V qbf',
    ferat_check_annotations_against_expansion [2; 3; 4] [2] [] [] qbf_taut exp_taut
    = Ok (false, U, V, qbf').
Proof.
  split; [apply all_mapped_exp_taut|]. split; [apply wf_prefix_qbf_taut|].
  split; [repeat constructor|]. split; [by vm_compute|].
  eexists _, _, _. by vm_compute.
Qed.

(** C2, amended: for a clause [E] whose literals have mapping records and
    are sorted by the quantifier ordering of the variables they stand for,
    over a prefix in which the block of a bound variable is at the position
    of its ordering, the annotation test returns, and it returns what the
    specification computes when, for a universal variable that occurs in [Q],
    [U] takes the negation of the first literal of [Q] on that variable. *)
Theorem annotation_test_iff (Q E U0 V0 : list Z) (qbf : QBF) (expansion : Expansion) :
  all_mapped E expansion →
  wf_prefix qbf →
  Sorted (λ e1 e2,
    exp_quant_ord qbf expansion e1 ≤ exp_quant_ord qbf expansion e2) E →
  ∃ U V qbf',
    ferat_check_annotations_against_expansion Q E U0 V0 qbf expansion
    = Ok (annotation_spec pick_first E Q ∅ ∅ qbf expansion 0, U, V, qbf').
Proof.
  intros Hm Hwf Hsorted. unfold ferat_check_annotations_against_expansion.
  destruct (annotations_loop_spec Q expansion qbf E [] [] qbf 0)
    as (U & V & q' & Heq & _); auto; try (by constructor); try done.
  - apply Sorted_StronglySorted; [|done]. intros x y z. lia.
  - intros e m quant _ _ Hq. by apply (Hwf _ _ Hq).
  - by exists U, V, q'.
Qed.

Lemma annotation_test_iff_witness :
  ∃ U V qbf',
    ferat_check_annotations_against_expansion [2; 3; 4] [2] [] [] qbf_taut exp_taut
    = Ok (annotation_spec pick_first [2] [2; 3; 4] ∅ ∅ qbf_taut exp_taut 0, U, V, qbf').
Proof.
  apply (annotation_test_iff [2; 3; 4] [2] [] [] qbf_taut exp_taut).
  - apply all_mapped_exp_taut.
  - apply wf_prefix_qbf_taut.
  - repeat constructor.
Defined.

(** On a clause with at most one literal on each variable the two readings
    of [U] agree. *)
Lemma pick_first_each (Q : list Z) u :
  NoDup (LIT2VAR <$> Q) → pick_first u Q = pick_each u Q.
Proof.
  unfold pick_first, pick_each, lits_on.
  induction Q as [|a Q IH]; intros Hnd; [done|].
  apply NoDup_cons in Hnd as [Ha Hnd].
  destruct (decide (LIT2VAR a = u)) as [Heq|Hne].
  - rewrite filter_cons_True by done. simpl. f_equal.
    rewrite take_0. clear IH Hnd. induction Q as [|b Q IHQ]; [done|].
    rewrite filter_cons_False.
    + apply IHQ. intros Hin. apply Ha. by right.
    + intros Hbu. apply Ha. rewrite Heq, <- Hbu. by left.
  - rewrite filter_cons_False by done. by apply IH.
Qed.

(** ** Checking one clause *)












Lemma appends_failure_insert result kind idx :
  appends_failure result (ferat_insert_check_result result kind idx) kind idx.
Proof. done. Qed.

Lemma all_mapped_perm (l l' : list Z) e : l ≡ₚ l' → all_mapped l e → all_mapped l' e.
Proof. intros Hp Hm x Hx. apply Hm. by rewrite Hp. Qed.


Lemma num_results_insert result kind idx :
  num_results (ferat_insert_check_result result kind idx) = u32 (num_results result + 1).
Proof. done. Qed.

Lemma u32_range (x : Z) : 0 ≤ u32 x < 2 ^ 32.
Proof. unfold u32. apply Z.mod_pos_bound. lia. Qed.





Lemma all_mapped_exp_e12 : all_mapped [2; 4] exp_e12.
Proof.
  intros e He. apply list_elem_of_In in He. simpl in He.
  destruct He as [<-|[<-|[]]]; by eexists.
Qed.



(** ** Candidate selection with an origin list *)

Lemma al_get_Some {A} (al : list A) (i : Z) (x : A) :
  al !! Z.to_nat i = Some x → al_get al i = Ok x.
Proof. intros H. unfold al_get. by rewrite H. Qed.

Lemma al_get_None {A} (al : list A) (i : Z) :
  (length al ≤ Z.to_nat i)%nat → al_get al i = AssertFail.
Proof. intros H. unfold al_get. by rewrite lookup_ge_None_2. Qed.

Lemma matrix_loop_origin_candidate (n : nat) (E : list Z) idx U V expansion qbf
    origins m (Q : list Z) :
  clause_origins expansion = Some origins →
  origins ≠ [] →
  origins !! Z.to_nat idx = Some m →
  m < Z.of_nat (length (matrix qbf)) →
  matrix qbf !! Z.to_nat m = Some Q →
  matrix_loop (S n) 0 true false E idx U V expansion qbf
  = '(passed, qbf) ← ferat_test_expansion_origin_in_QBF Q E qbf expansion;
    if passed : bool then
      '(correct, U, V, qbf) ←
        ferat_check_annotations_against_expansion Q E U V qbf expansion;
      if correct : bool then Ok (true, true, U, V, expansion, qbf)
      else Ok (false, true, U, V, expansion, qbf)
    else Ok (false, false, U, V, expansion, qbf).
Proof.
  intros Ho Hne Hm Hlt HQ. cbn [matrix_loop]. unfold select_candidate. rewrite Ho.
  destruct origins as [|o origins]; [done|].
  replace (Z.of_nat (length (o :: origins)) <=? 0) with false
    by (symmetry; apply Z.leb_gt; simpl; lia).
  cbv iota. rewrite (al_get_Some _ _ _ Hm). cbn [mbind Outcome_bind].
  replace (Z.of_nat (length (matrix qbf)) <=? m) with false
    by (symmetry; apply Z.leb_gt; lia).
  cbv iota. rewrite (al_get_Some _ _ _ HQ). cbn [mbind Outcome_bind]. done.
Qed.

(** C4: the candidate of an expansion clause when the expansion has an
    origin list and the matrix is not empty.  If the list has an entry for
    the clause and it is below the size of the matrix, the matrix clause at
    that entry is the one candidate; if the entry is not below the size of
    the matrix, the check ends with exit code 80.  If the list is not empty
    and has no entry for the clause, the read of the entry fails its
    assertion: the test that guards the fallback compares the counter of the
    loop over the matrix, which is 0, with the size of the list, so the
    checker warns, drops the list and goes on with every matrix clause only
    when the list is empty. *)
Theorem origin_list_candidate (exp_clause U V : list Z) (exp_clause_index : Z)
    (expansion : Expansion) (qbf : QBF) (result : FERATCheckResult) (origins : list Z) :
  clause_origins expansion = Some origins →
  matrix qbf ≠ [] →
  0 ≤ exp_clause_index →
  (origins ≠ [] →
   ∀ m Q, origins !! Z.to_nat exp_clause_index = Some m →
     m < Z.of_nat (length (matrix qbf)) →
     matrix qbf !! Z.to_nat m = Some Q →
     ferat_check_expansion_clause exp_clause exp_clause_index U V expansion qbf result
     = check_sole_candidate Q exp_clause exp_clause_index U V expansion qbf result) ∧
  (origins ≠ [] →
   ∀ m, origins !! Z.to_nat exp_clause_index = Some m →
     Z.of_nat (length (matrix qbf)) ≤ m →
     ferat_check_expansion_clause exp_clause exp_clause_index U V expansion qbf result
     = Fatal EXIT_PARSING_FAILURE) ∧
  (origins ≠ [] →
   Z.of_nat (length origins) ≤ exp_clause_index →
   ferat_check_expansion_clause exp_clause exp_clause_index U V expansion qbf result
   = AssertFail) ∧
  (origins = [] →
   ferat_check_expansion_clause exp_clause exp_clause_index U V expansion qbf result
   = ferat_check_expansion_clause exp_clause exp_clause_index U V
       (drop_origins expansion (WarnOriginsShort 0 exp_clause_index)) qbf result).
Proof.
  intros Ho Hmat Hidx. unfold ferat_check_expansion_clause. rewrite Ho.
  destruct (matrix qbf) as [|Q0 mat] eqn:Hm; [done|]. clear Hmat.
  rewrite bool_decide_eq_true_2 by done.
  split; [|split; [|split]].
  - intros Hne m Q Hom Hlt HQ.
    change (length (Q0 :: mat)) with (S (length mat)).
    rewrite (matrix_loop_origin_candidate (length mat) exp_clause exp_clause_index U V
               expansion qbf origins m Q Ho Hne Hom); [|by rewrite Hm..].
    unfold check_sole_candidate.
    destruct (ferat_test_expansion_origin_in_QBF Q exp_clause qbf expansion)
      as [[[] q1]| | |]; cbn [mbind Outcome_bind]; try done.
    destruct (ferat_check_annotations_against_expansion Q exp_clause U V q1 expansion)
      as [[[[[] U1] V1] q2]| | |]; done.
  - intros Hne m Hom Hge. cbn [length matrix_loop]. unfold select_candidate.
    rewrite Ho. destruct origins as [|o origins]; [done|].
    replace (Z.of_nat (length (o :: origins)) <=? 0) with false
      by (symmetry; apply Z.leb_gt; simpl; lia).
    cbv iota. rewrite (al_get_Some _ _ _ Hom). cbn [mbind Outcome_bind].
    rewrite Hm. by rewrite (proj2 (Z.leb_le _ _) Hge).
  - intros Hne Hlen. cbn [length matrix_loop]. unfold select_candidate.
    rewrite Ho. destruct origins as [|o origins]; [done|].
    replace (Z.of_nat (length (o :: origins)) <=? 0) with false
      by (symmetry; apply Z.leb_gt; simpl; lia).
    cbv iota. rewrite al_get_None; [done|lia].
  - intros ->. cbn [length matrix_loop]. unfold select_candidate. rewrite Ho.
    cbn [length drop_origins clause_origins]. change (Z.of_nat 0 <=? 0) with true.
    cbv iota. rewrite Hm.
    rewrite bool_decide_eq_false_2 by (by intros []). done.
Qed.

Lemma origin_list_candidate_witness :
  ferat_check_expansion_clause [2; 4] 1 [] [] exp_e12_short_origins qbf_e12
    ferat_check_result_new = AssertFail
  ∧ ferat_check ferat_check_result_new qbf_e12 exp_e12_short_origins = AssertFail
  ∧ ∃ result qbf' expansion',
      ferat_check ferat_check_result_new qbf_e12 (without_origins exp_e12_short_origins)
      = Ok (true, result, qbf', expansion').
Proof.
  split; [|split].
  - apply (origin_list_candidate [2; 4] [] [] 1 exp_e12_short_origins qbf_e12
             ferat_check_result_new [0]); [reflexivity|done|lia|done|simpl; lia].
  - vm_compute. reflexivity.
  - vm_compute. eexists _, _, _. reflexivity.
Defined.

(** ** Quantifier lines with a bound variable *)

(** At a bound variable the loop stays at its index and counts [num_vars]
    down to 0. *)
Lemma quantifier_loop_bound (vars : list Z) qtype qordering i v written qbf :
  0 ≤ i → vars !! Z.to_nat i = Some v →
  is_Some (prefix_mapping qbf !! v) →
  ∀ (fuel : nat) num_vars parser,
    1 ≤ num_vars < 2 ^ 32 → (Z.to_nat num_vars ≤ fuel)%nat →
    ∃ parser',
      quantifier_loop fuel vars qtype qordering i num_vars written parser qbf
      = Ok (0, written, parser', qbf).
Proof.
  intros Hi Hv [quant Hq]. pose proof (lookup_lt_Some _ _ _ Hv) as Hlt.
  induction fuel as [|fuel IH]; intros num_vars parser Hnum Hfuel; [lia|].
  cbn [quantifier_loop].
  replace (i <? Z.of_nat (length vars)) with true by (symmetry; apply Z.ltb_lt; lia).
  cbn [negb]. unfold al_get. rewrite Hv. cbn [mbind Outcome_bind]. rewrite Hq.
  rewrite u32_small by lia.
  destruct (Z.eqb_spec (num_vars - 1) 0) as [->|Hne]; [by eexists|].
  apply IH; lia.
Qed.

(** The variables [pre] in front of the first bound one are entered in the
    table; then the loop counts [num_vars] down. *)
Lemma quantifier_loop_fresh (vars : list Z) qtype qordering v post :
  ∀ (pre done written : list Z) qbf (fuel : nat) num_vars parser,
    vars = done ++ pre ++ v :: post →
    NoDup pre →
    (∀ x, x ∈ pre → prefix_mapping qbf !! x = None) →
    v ∈ pre ∨ is_Some (prefix_mapping qbf !! v) →
    1 ≤ num_vars < 2 ^ 32 → (length pre + Z.to_nat num_vars ≤ fuel)%nat →
    ∃ parser' qbf',
      quantifier_loop fuel vars qtype qordering (Z.of_nat (length done)) num_vars
        written parser qbf
      = Ok (0, written ++ pre, parser', qbf') ∧
      prefix qbf' = prefix qbf ∧ matrix qbf' = matrix qbf ∧
      (∀ x, x ∈ pre →
        ∃ quant, prefix_mapping qbf' !! x = Some quant ∧
                 type quant = qtype ∧ ordering quant = qordering) ∧
      (∀ x, x ∉ pre → prefix_mapping qbf' !! x = prefix_mapping qbf !! x).
Proof.
  induction pre as [|x pre IH];
    intros done written qbf fuel num_vars parser Hvars Hnd Hfresh Hv Hnum Hfuel.
  - destruct Hv as [Hv|Hv]; [by apply elem_of_nil in Hv|].
    destruct (quantifier_loop_bound vars qtype qordering (Z.of_nat (length done)) v
                written qbf) with (fuel := fuel) (num_vars := num_vars)
                                  (parser := parser) as [parser' Heq];
      [lia| |done|done|simpl in Hfuel; lia|].
    { rewrite Nat2Z.id, Hvars. simpl. by apply list_lookup_middle. }
    exists parser', qbf. rewrite Heq, app_nil_r. do 3 (split; [done|]).
    split; [|done]. intros x Hx. by apply elem_of_nil in Hx.
  - destruct fuel as [|fuel]; [simpl in Hfuel; lia|]. cbn [quantifier_loop].
    assert (Hx : vars !! length done = Some x).
    { rewrite Hvars. simpl. by apply list_lookup_middle. }
    pose proof (lookup_lt_Some _ _ _ Hx) as Hlt.
    replace (Z.of_nat (length done) <? Z.of_nat (length vars)) with true
      by (symmetry; apply Z.ltb_lt; lia).
    cbn [negb]. unfold al_get. rewrite Nat2Z.id, Hx. cbn [mbind Outcome_bind].
    rewrite (Hfresh x) by apply list_elem_of_here.
    apply NoDup_cons in Hnd as [Hnx Hnd].
    set (qbf1 := mkQBF _ _ _ _ _ _).
    destruct (IH (done ++ [x]) (written ++ [x]) qbf1 fuel num_vars parser)
      as (parser' & qbf' & Heq & Hp & Hm & Hin & Hout).
    { by rewrite Hvars, <- app_assoc. }
    { done. }
    { intros y Hy. subst qbf1. simpl. rewrite lookup_insert_ne by set_solver.
      apply Hfresh. by apply list_elem_of_further. }
    { destruct (decide (v = x)) as [->|Hne].
      - right. subst qbf1. simpl. rewrite lookup_insert_eq. by eexists.
      - destruct Hv as [Hv|Hv].
        + left. set_solver.
        + right. subst qbf1. simpl. by rewrite lookup_insert_ne. }
    { done. }
    { simpl in Hfuel. lia. }
    rewrite length_app, Nat2Z.inj_add in Heq. change (Z.of_nat (length [x])) with 1 in Heq.
    exists parser', qbf'. rewrite Heq, <- app_assoc. split; [done|].
    split; [done|]. split; [done|]. split.
    + intros y Hy. apply elem_of_cons in Hy as [->|Hy]; [|by apply Hin].
      rewrite (Hout x Hnx). subst qbf1. simpl. rewrite lookup_insert_eq. by eexists.
    + intros y Hy. rewrite Hout by set_solver. subst qbf1. simpl.
      rewrite lookup_insert_ne; [done|set_solver].
Qed.

(** C6: a quantifier line whose variable list holds a variable that is
    bound already, by an earlier line or earlier in this list, adds no block
    to the prefix, whatever else the list holds: at such a variable the loop
    does not move on, it warns and counts [num_vars] down until it is 0, and
    the block is freed.  The variables of the list in front of that one stay
    in the table of bound variables with the type and the ordering of the
    freed block, the variables behind it are not looked at, and the index of
    the next block goes up all the same. *)
Theorem bound_variable_discards_block (pre post : list Z) (v : Z) (parser : Parser)
    (qbf : QBF) (st : QBFParse) :
  NoDup pre →
  (∀ x, x ∈ pre → prefix_mapping qbf !! x = None) →
  v ∈ pre ∨ is_Some (prefix_mapping qbf !! v) →
  Z.of_nat (length (pre ++ v :: post)) < 2 ^ 32 →
  ∃ parser' qbf' st',
    qbf_parse_quantifier (pre ++ v :: post) parser qbf st = Ok (parser', qbf', st') ∧
    prefix qbf' = prefix qbf ∧
    (∀ x, x ∈ pre →
      ∃ quant, prefix_mapping qbf' !! x = Some quant ∧
               ordering quant = quantifier_index st) ∧
    (∀ x, x ∉ pre → prefix_mapping qbf' !! x = prefix_mapping qbf !! x) ∧
    quantifier_index st' = u32 (quantifier_index st + 1).
Proof.
  intros Hnd Hfresh Hv Hlen. unfold qbf_parse_quantifier.
  set (vars := pre ++ v :: post) in *.
  assert (Hpos : (1 ≤ length vars)%nat).
  { subst vars. rewrite length_app. simpl. lia. }
  assert (Hpre : (length pre ≤ length vars)%nat).
  { subst vars. rewrite length_app. lia. }
  match goal with
  | |- context [quantifier_loop ?f vars ?qt ?qo 0 ?n [] parser qbf] =>
      destruct (quantifier_loop_fresh vars qt qo v post pre [] [] qbf f n parser)
        as (parser' & qbf' & Heq & Hp & _ & Hin & Hout); [done..|lia|lia|]
  end.
  change (Z.of_nat (length (@nil Z))) with 0 in Heq. rewrite Heq.
  cbn [mbind Outcome_bind]. change (0 =? 0) with true. cbv iota.
  eexists _, _, _. split; [done|]. split; [done|]. split; [|done].
  intros x Hx. destruct (Hin x Hx) as (quant & Hq & _ & Ho). by exists quant.
Qed.

Lemma bound_variable_discards_block_witness :
  (∃ parser' qbf' st',
     qbf_parse_quantifier [1; 2] (parser_init dup_input true) qbf_e1 st_a
     = Ok (parser', qbf', st') ∧
     prefix qbf' = prefix qbf_e1 ∧
     prefix_mapping qbf' !! 2 = None) ∧
  (∃ parser qbf,
     qbf_parse 20 dup_input qbf_new false = Ok (parser, qbf) ∧
     prefix qbf = [mkQuantifier QUANT_TYPE_EXISTENTIAL 0 [1]] ∧
     prefix_mapping qbf !! 2 = None ∧
     warnings parser = [WarnDuplicateVar 1; WarnDuplicateVar 1; WarnMaxVar 2 1]).
Proof.
  split.
  - destruct (bound_variable_discards_block [] [2] 1 (parser_init dup_input true)
                qbf_e1 st_a) as (parser' & qbf' & st' & Heq & Hp & _ & Hout & _).
    + constructor.
    + intros x Hx. by apply elem_of_nil in Hx.
    + right. vm_compute. by eexists.
    + simpl. lia.
    + exists parser', qbf', st'. split; [exact Heq|]. split; [exact Hp|].
      rewrite Hout; [reflexivity|]. apply not_elem_of_nil.
  - eexists _, _. split; [vm_compute; reflexivity|].
    split; [|split]; vm_compute; reflexivity.
Defined.

(** ** Expansion literals without a mapping record *)

(** The first loop of the existential-literal test stops at the first
    literal whose image is not in [Q]; when it gets as far as a literal
    without a record, the assertion on the lookup fails. *)
Lemma origin_lits_loop_unmapped (pre rest Q : list Z) (e : Z) expansion :
  all_mapped pre expansion →
  exp_var_mappings expansion !! LIT2VAR e = None →
  origin_lits_loop (pre ++ e :: rest) Q expansion
  = if lits_found Q pre expansion then AssertFail else Ok false.
Proof.
  intros Hm He. induction pre as [|x pre IH]; simpl.
  - by rewrite He.
  - destruct (Hm x) as [m Hx]; [apply list_elem_of_here|]. rewrite Hx.
    destruct (existsb _ Q); [|done]. simpl. apply IH.
    intros y Hy. apply Hm. by apply list_elem_of_further.
Qed.

Lemma ferat_test_unmapped (pre rest Q : list Z) (e : Z) qbf expansion :
  all_mapped pre expansion →
  exp_var_mappings expansion !! LIT2VAR e = None →
  ferat_test_expansion_origin_in_QBF Q (pre ++ e :: rest) qbf expansion
  = if lits_found Q pre expansion then AssertFail else Ok (false, qbf).
Proof.
  intros Hm He. unfold ferat_test_expansion_origin_in_QBF.
  rewrite (origin_lits_loop_unmapped pre rest Q e expansion Hm He).
  by destruct (lits_found Q pre expansion).
Qed.

Lemma matrix_loop_unmapped (pre rest : list Z) (e : Z) idx expansion qbf (n : nat) :
  all_mapped pre expansion →
  exp_var_mappings expansion !! LIT2VAR e = None →
  ∀ i found U V,
    0 ≤ i → (Z.to_nat i + n = length (matrix qbf))%nat →
    matrix_loop n i false found (pre ++ e :: rest) idx U V expansion qbf
    = if existsb (λ Q, lits_found Q pre expansion) (drop (Z.to_nat i) (matrix qbf))
      then AssertFail
      else Ok (false, found, U, V, expansion, qbf).
Proof.
  intros Hm He. induction n as [|n IH]; intros i found U V Hi Hlen.
  - by rewrite drop_ge by lia.
  - destruct (lookup_lt_is_Some_2 (matrix qbf) (Z.to_nat i)) as [Q HQ]; [lia|].
    rewrite (drop_S _ _ _ HQ). cbn [existsb matrix_loop].
    unfold select_candidate. rewrite (al_get_Some _ _ _ HQ). cbn [mbind Outcome_bind].
    rewrite (ferat_test_unmapped pre rest Q e qbf expansion Hm He).
    destruct (lits_found Q pre expansion); [done|]. cbn [mbind Outcome_bind orb].
    replace (S (Z.to_nat i)) with (Z.to_nat (i + 1)) by lia.
    apply IH; lia.
Qed.

(** Counterexample to C9: the clause [(3)] of an expansion whose table has
    records for the variables 1 and 2 only.  The lookup of the record of 3
    fails its assertion, for the clause alone and in [ferat_check]; no
    failure is recorded. *)
Lemma unmapped_literal_counterexample :
  exp_var_mappings exp_e12_unmapped !! LIT2VAR 6 = None ∧
  ferat_check_expansion_clause [6] 0 [] [] exp_e12_unmapped qbf_e12
    ferat_check_result_new = AssertFail ∧
  ferat_check ferat_check_result_new qbf_e12 exp_e12_unmapped = AssertFail ∧
  ¬ ∃ U V expansion qbf,
      ferat_check_expansion_clause [6] 0 [] [] exp_e12_unmapped qbf_e12
        ferat_check_result_new
      = Ok (U, V, expansion, qbf,
            ferat_insert_check_result ferat_check_result_new
              FERAT_CHECK_RESULT_INCORRECT_LITERALS 0).
Proof.
  split; [done|]. split; [vm_compute; reflexivity|]. split; [vm_compute; reflexivity|].
  intros (U & V & expansion & qbf & H). vm_compute in H. discriminate H.
Qed.

(** C9, amended: let the literals [pre] in front of the first literal [e]
    without a mapping record have records.  Against a candidate [Q] the
    existential-literal test fails its assertion when [Q] holds the images of
    all of [pre], and returns false otherwise.  So without an origin list the
    check of the clause fails its assertion when some matrix clause holds the
    images of all of [pre] (any matrix clause, when [e] is the first
    literal), and appends one failure [INCORRECT_LITERALS] otherwise; with
    the one candidate [Q] it is the same for [Q] alone.  The clause is never
    accepted, and [INCORRECT_ANNOTATION] is never recorded for it. *)
Theorem unmapped_literal_check (pre rest : list Z) (e : Z) (exp_clause_index : Z)
    (U V : list Z) (expansion : Expansion) (qbf : QBF) (result : FERATCheckResult) :
  all_mapped pre expansion →
  exp_var_mappings expansion !! LIT2VAR e = None →
  (∀ Q, ferat_test_expansion_origin_in_QBF Q (pre ++ e :: rest) qbf expansion
        = if lits_found Q pre expansion then AssertFail else Ok (false, qbf)) ∧
  (clause_origins expansion = None →
   ferat_check_expansion_clause (pre ++ e :: rest) exp_clause_index U V expansion qbf
     result
   = if existsb (λ Q, lits_found Q pre expansion) (matrix qbf)
     then AssertFail
     else Ok (U, V, expansion, qbf,
              ferat_insert_check_result result FERAT_CHECK_RESULT_INCORRECT_LITERALS
                exp_clause_index)) ∧
  (∀ Q, check_sole_candidate Q (pre ++ e :: rest) exp_clause_index U V expansion qbf
          result
        = if lits_found Q pre expansion
          then AssertFail
          else Ok (U, V, expansion, qbf,
                   ferat_insert_check_result result
                     FERAT_CHECK_RESULT_INCORRECT_LITERALS exp_clause_index)).
Proof.
  intros Hm He. split; [|split].
  - intros Q. by apply ferat_test_unmapped.
  - intros Ho. unfold ferat_check_expansion_clause. rewrite Ho.
    rewrite bool_decide_eq_false_2 by (by intros []).
    rewrite (matrix_loop_unmapped pre rest e exp_clause_index expansion qbf
               (length (matrix qbf)) Hm He 0 false U V); [|lia|simpl; lia].
    change (Z.to_nat 0) with 0%nat. rewrite drop_0.
    by destruct (existsb _ (matrix qbf)).
  - intros Q. unfold check_sole_candidate.
    rewrite (ferat_test_unmapped pre rest Q e qbf expansion Hm He).
    by destruct (lits_found Q pre expansion).
Qed.

Lemma unmapped_literal_check_witness :
  ferat_check_expansion_clause ([3] ++ 6 :: []) 0 [] [] exp_e12_unmapped qbf_e12
    ferat_check_result_new
  = Ok ([], [], exp_e12_unmapped, qbf_e12,
        ferat_insert_check_result ferat_check_result_new
          FERAT_CHECK_RESULT_INCORRECT_LITERALS 0).
Proof.
  destruct (unmapped_literal_check [3] [] 6 0 [] [] exp_e12_unmapped qbf_e12
              ferat_check_result_new) as (_ & H & _).
  - intros x Hx. apply list_elem_of_singleton in Hx as ->. by eexists.
  - reflexivity.
  - rewrite H by reflexivity. reflexivity.
Defined.

(** ** The verdict with and without an origin list *)













(** ** The literal encoding *)

Lemma land_1_mod (x : Z) : Z.land x 1 = x mod 2.
Proof. change 1 with (Z.ones 1). by rewrite Z.land_ones. Qed.

Lemma shiftr_1_div (x : Z) : Z.shiftr x 1 = x / 2.
Proof. by rewrite Z.shiftr_div_pow2. Qed.

Lemma shiftl_1_mul (x : Z) : Z.shiftl x 1 = 2 * x.
Proof. rewrite Z.shiftl_mul_pow2 by lia. lia. Qed.

Lemma lor_even_bit (x s : Z) : s = 0 ∨ s = 1 → Z.lor (2 * x) s = 2 * x + s.
Proof.
  intros Hs. symmetry. apply Z.add_nocarry_lor. destruct Hs as [->| ->].
  - apply Z.land_0_r.
  - rewrite land_1_mod. rewrite Z.mul_comm. apply Z.mod_mul. lia.
Qed.

Lemma lxor_1_flip (x : Z) : Z.lxor x 1 = x + 1 - 2 * (x mod 2).
Proof.
  pose proof (Z.div_mod x 2 ltac:(lia)) as Hx.
  pose proof (Z.mod_pos_bound x 2 ltac:(lia)) as Hr.
  assert (Hev : Z.lxor (2 * (x / 2)) 1 = 2 * (x / 2) + 1).
  { symmetry. apply Z.add_nocarry_lxor. rewrite land_1_mod, Z.mul_comm.
    apply Z.mod_mul. lia. }
  destruct (decide (x mod 2 = 0)) as [H0|H0].
  - rewrite H0 in *. replace x with (2 * (x / 2)) at 1 by lia. rewrite Hev. lia.
  - assert (H1 : x mod 2 = 1) by lia. rewrite H1 in *.
    replace x with (Z.lxor (2 * (x / 2)) 1) at 1 by (rewrite Hev; lia).
    rewrite Z.lxor_assoc, Z.lxor_nilpotent, Z.lxor_0_r. lia.
Qed.

Lemma VAR2LIT_arith (var signb : Z) :
  0 ≤ var ≤ VARIABLE_MAX → signb = 0 ∨ signb = 1 → VAR2LIT var signb = 2 * var + signb.
Proof.
  intros Hv Hs. unfold VAR2LIT, VARIABLE_MAX in *. rewrite shiftl_1_mul.
  rewrite u32_small by lia. by apply lor_even_bit.
Qed.

(** X1: a variable in [0 .. VARIABLE_MAX] and a sign bit are read back from
    the literal [VAR2LIT] makes of them, and the literal is a 32-bit value;
    a 32-bit literal is made again from its variable and its sign bit. *)
Theorem literal_round_trip (var signb lit : Z) :
  0 ≤ var ≤ VARIABLE_MAX → signb = 0 ∨ signb = 1 → 0 ≤ lit < 2 ^ 32 →
  (LIT2VAR (VAR2LIT var signb) = var ∧
   LITSIGNBIT (VAR2LIT var signb) = signb ∧
   0 ≤ VAR2LIT var signb < 2 ^ 32) ∧
  (VAR2LIT (LIT2VAR lit) (LITSIGNBIT lit) = lit ∧
   0 ≤ LIT2VAR lit ≤ VARIABLE_MAX ∧
   (LITSIGNBIT lit = 0 ∨ LITSIGNBIT lit = 1)).
Proof.
  intros Hv Hs Hl. split.
  - rewrite (VAR2LIT_arith var signb Hv Hs).
    unfold LIT2VAR, LITSIGNBIT, VARIABLE_MAX in *.
    rewrite shiftr_1_div, land_1_mod. split; [|split].
    + destruct Hs as [->| ->]; [rewrite Z.add_0_r, Z.mul_comm; apply Z.div_mul; lia|].
      rewrite Z.mul_comm, Z.div_add_l by lia. change (1 / 2) with 0. lia.
    + rewrite Z.add_comm, Z.mul_comm, Z.mod_add by lia.
      destruct Hs as [->| ->]; reflexivity.
    + destruct Hs as [->| ->]; lia.
  - pose proof (Z.div_mod lit 2 ltac:(lia)) as Hdm.
    pose proof (Z.mod_pos_bound lit 2 ltac:(lia)) as Hr.
    assert (Hq : 0 ≤ lit / 2 ≤ VARIABLE_MAX).
    { unfold VARIABLE_MAX. split; [apply Z.div_pos; lia|].
      assert (lit / 2 < 2 ^ 31); [|lia]. apply Z.div_lt_upper_bound; lia. }
    assert (Hsb : lit mod 2 = 0 ∨ lit mod 2 = 1) by lia.
    unfold LIT2VAR, LITSIGNBIT. rewrite shiftr_1_div, land_1_mod.
    split; [|done]. rewrite VAR2LIT_arith by done. lia.
Qed.

Lemma literal_round_trip_witness :
  LIT2VAR (VAR2LIT 5 1) = 5 ∧ LITSIGNBIT (VAR2LIT 5 1) = 1 ∧
  VAR2LIT (LIT2VAR 11) (LITSIGNBIT 11) = 11.
Proof.
  destruct (literal_round_trip 5 1 11) as [(H1 & H2 & _) (H3 & _)].
  - unfold VARIABLE_MAX. lia.
  - by right.
  - lia.
  - done.
Defined.

(** X2: [LIT_NEG] changes the sign bit of a 32-bit literal and nothing
    else: the variable stays, the result is another 32-bit literal, and
    negating twice gives the literal back. *)
Theorem literal_negation (lit : Z) :
  0 ≤ lit < 2 ^ 32 →
  LIT2VAR (LIT_NEG lit) = LIT2VAR lit ∧
  LITSIGNBIT (LIT_NEG lit) = 1 - LITSIGNBIT lit ∧
  LIT_NEG (LIT_NEG lit) = lit ∧
  LIT_NEG lit ≠ lit ∧
  0 ≤ LIT_NEG lit < 2 ^ 32.
Proof.
  intros Hl. unfold LIT_NEG, LIT2VAR, LITSIGNBIT.
  rewrite Z.lxor_assoc, Z.lxor_nilpotent, Z.lxor_0_r.
  rewrite !shiftr_1_div, !land_1_mod, lxor_1_flip.
  pose proof (Z.div_mod lit 2 ltac:(lia)) as Hdm.
  pose proof (Z.mod_pos_bound lit 2 ltac:(lia)) as Hr.
  assert (Hq : lit / 2 < 2 ^ 31) by (apply Z.div_lt_upper_bound; lia).
  assert (Hcase : lit mod 2 = 0 ∨ lit mod 2 = 1) by lia.
  destruct Hcase as [H0|H1].
  - rewrite H0 in *. replace (lit + 1 - 2 * 0) with (1 + lit / 2 * 2) by lia.
    rewrite Z.div_add, Z.mod_add by lia. change (1 / 2) with 0.
    change (1 mod 2) with 1. repeat split; lia.
  - rewrite H1 in *. replace (lit + 1 - 2 * 1) with (0 + lit / 2 * 2) by lia.
    rewrite Z.div_add, Z.mod_add by lia. change (0 / 2) with 0.
    change (0 mod 2) with 0. repeat split; lia.
Qed.

Lemma literal_negation_witness :
  LIT2VAR (LIT_NEG 10) = LIT2VAR 10 ∧ LIT_NEG (LIT_NEG 10) = 10.
Proof.
  destruct (literal_negation 10) as (H1 & _ & H3 & _); [lia|]. done.
Defined.

Lemma sign_bit_u32 (m : Z) :
  - (2 ^ 31 - 1) ≤ m ≤ 2 ^ 31 - 1 → Z.shiftr (u32 m) 31 = if m <? 0 then 1 else 0.
Proof.
  intros Hm. rewrite Z.shiftr_div_pow2 by lia. unfold u32.
  destruct (Z.ltb_spec m 0).
  - replace (m mod 2 ^ 32) with (m + 2 ^ 32).
    + symmetry. apply Z.div_unique with (r := m + 2 ^ 31); lia.
    + apply Z.mod_unique with (q := -1); lia.
  - rewrite Z.mod_small by lia. apply Z.div_small. lia.
Qed.

Lemma SIGNED_LIT2LIT_arith (m : Z) :
  - (2 ^ 31 - 1) ≤ m ≤ 2 ^ 31 - 1 →
  SIGNED_LIT2LIT m = 2 * Z.abs m + (if m <? 0 then 1 else 0).
Proof.
  intros Hm. unfold SIGNED_LIT2LIT. rewrite (sign_bit_u32 m Hm).
  apply VAR2LIT_arith; [unfold VARIABLE_MAX; lia|]. destruct (m <? 0); auto.
Qed.

Lemma LIT2VAR_SIGNED_LIT2LIT (m : Z) :
  - (2 ^ 31 - 1) ≤ m ≤ 2 ^ 31 - 1 → LIT2VAR (SIGNED_LIT2LIT m) = Z.abs m.
Proof.
  intros Hm. rewrite (SIGNED_LIT2LIT_arith m Hm). unfold LIT2VAR.
  rewrite shiftr_1_div, Z.add_comm, Z.mul_comm, Z.div_add by lia.
  by destruct (m <? 0).
Qed.

(** X3: [SIGNED_LIT2LIT] on a DIMACS integer [n] with [|n| <= VARIABLE_MAX]:
    the variable of the literal is [|n|], its sign bit is 1 exactly for a
    negative [n], the literal is 0 only for [n = 0], and the literal of [-n]
    is the negation of the literal of [n]. *)
Theorem signed_literal_encoding (n : Z) :
  - VARIABLE_MAX ≤ n ≤ VARIABLE_MAX →
  LIT2VAR (SIGNED_LIT2LIT n) = Z.abs n ∧
  LITSIGNBIT (SIGNED_LIT2LIT n) = (if n <? 0 then 1 else 0) ∧
  (SIGNED_LIT2LIT n = 0 ↔ n = 0) ∧
  (n ≠ 0 → SIGNED_LIT2LIT (- n) = LIT_NEG (SIGNED_LIT2LIT n)).
Proof.
  intros Hn. unfold VARIABLE_MAX in Hn.
  split; [by apply LIT2VAR_SIGNED_LIT2LIT|].
  rewrite (SIGNED_LIT2LIT_arith n Hn). unfold LITSIGNBIT, LIT_NEG.
  rewrite land_1_mod.
  assert (Hb : (if n <? 0 then 1 else 0) = 0 ∨ (if n <? 0 then 1 else 0) = 1)
    by (destruct (n <? 0); auto).
  split; [|split].
  - rewrite Z.add_comm, Z.mul_comm, Z.mod_add by lia.
    destruct Hb as [->| ->]; reflexivity.
  - destruct (Z.ltb_spec n 0); lia.
  - intros Hne. rewrite (SIGNED_LIT2LIT_arith (- n)) by lia. rewrite lxor_1_flip.
    rewrite (Z.add_comm (2 * Z.abs n)), (Z.mul_comm 2 (Z.abs n)), Z.mod_add by lia.
    destruct (Z.ltb_spec n 0), (Z.ltb_spec (- n) 0); try lia.
    + change (1 mod 2) with 1. lia.
    + change (0 mod 2) with 0. lia.
Qed.

Lemma signed_literal_encoding_witness :
  LIT2VAR (SIGNED_LIT2LIT (-3)) = 3 ∧ LITSIGNBIT (SIGNED_LIT2LIT (-3)) = 1.
Proof.
  destruct (signed_literal_encoding (-3)) as (H1 & H2 & _).
  - unfold VARIABLE_MAX. lia.
  - done.
Defined.

(** ** The hash of a key *)

Lemma lxor_bound (a b n : Z) :
  0 ≤ n → 0 ≤ a < 2 ^ n → 0 ≤ b < 2 ^ n → 0 ≤ Z.lxor a b < 2 ^ n.
Proof.
  intros Hn Ha Hb.
  assert (H0 : 0 ≤ Z.lxor a b) by (apply Z.lxor_nonneg; lia).
  split; [done|].
  destruct (decide (Z.lxor a b = 0)) as [->|Hne]; [lia|].
  assert (Hpos : 0 < n).
  { destruct (decide (n = 0)) as [->|]; [|lia].
    assert (a = 0) as -> by lia. assert (b = 0) as -> by lia. done. }
  apply Z.log2_lt_pow2; [lia|].
  eapply Z.le_lt_trans; [apply Z.log2_lxor; lia|].
  apply Z.max_lub_lt.
  - destruct (decide (a = 0)) as [->|]; [simpl; lia|]. apply Z.log2_lt_pow2; lia.
  - destruct (decide (b = 0)) as [->|]; [simpl; lia|]. apply Z.log2_lt_pow2; lia.
Qed.

(** X4: [hash_fnv1a] is injective on 64-bit words: two different
    variables never share a key of a hash table. *)
Theorem hash_fnv1a_injective (v w : Z) :
  0 ≤ v < 2 ^ 64 → 0 ≤ w < 2 ^ 64 → v ≠ w → hash_fnv1a v ≠ hash_fnv1a w.
Proof.
  intros Hv Hw Hne Heq. apply Hne. unfold hash_fnv1a, u64 in Heq.
  set (c := 0x811C9DC5) in *.
  assert (Hc : 0 ≤ c < 2 ^ 64) by (subst c; lia).
  pose proof (lxor_bound c v 64 ltac:(lia) Hc Hv) as Hxv.
  pose proof (lxor_bound c w 64 ltac:(lia) Hc Hw) as Hxw.
  assert (Hx : Z.lxor c v = Z.lxor c w).
  { set (inv := 9778875398352553115).
    assert (Hinv : ∀ x, 0 ≤ x < 2 ^ 64 → (x * 0x01000193) mod 2 ^ 64 * inv mod 2 ^ 64 = x).
    { intros x Hx. rewrite Z.mul_mod_idemp_l by lia. rewrite <- Z.mul_assoc.
      rewrite <- Z.mul_mod_idemp_r by lia.
      replace ((0x01000193 * inv) mod 2 ^ 64) with 1 by (subst inv; reflexivity).
      rewrite Z.mul_1_r. apply Z.mod_small. lia. }
    rewrite <- (Hinv _ Hxv), <- (Hinv _ Hxw). by rewrite Heq. }
  apply (f_equal (Z.lxor c)) in Hx.
  by rewrite <- !Z.lxor_assoc, Z.lxor_nilpotent, !Z.lxor_0_l in Hx.
Qed.

Lemma hash_fnv1a_injective_witness : hash_fnv1a 1 ≠ hash_fnv1a 2.
Proof. apply (hash_fnv1a_injective 1 2); lia. Defined.

(** ** Array lists: insertion, search and removal *)

Lemma al_insert_sorted_split (al : list Z) x :
  ∃ pre post,
    al = pre ++ post ∧ al_insert_sorted al x = pre ++ x :: post ∧
    Forall (λ y, y < x) pre ∧ (∀ y, head post = Some y → x ≤ y).
Proof.
  induction al as [|y al IH].
  - exists [], []. rewrite al_insert_sorted_nil. repeat split; [constructor|done].
  - rewrite al_insert_sorted_cons. destruct (Z.ltb_spec y x) as [Hlt|Hge].
    + destruct IH as (pre & post & -> & -> & Hpre & Hpost).
      exists (y :: pre), post. repeat split; [by constructor|done].
    + exists [], (y :: al). repeat split; [constructor|]. by intros ? [= <-].
Qed.

(** X5: [_insert_sorted] puts the element behind the longest run of
    smaller elements at the front of the list, before any equal one, and
    moves nothing else; on a list in ascending order the result is in
    ascending order again. *)
Theorem insert_sorted_keeps_order (al : list Z) (element : Z) :
  (∃ pre post,
     al = pre ++ post ∧ al_insert_sorted al element = pre ++ element :: post ∧
     Forall (λ y, y < element) pre ∧ (∀ y, head post = Some y → element ≤ y)) ∧
  (StronglySorted Z.le al → StronglySorted Z.le (al_insert_sorted al element)) ∧
  length (al_insert_sorted al element) = S (length al).
Proof.
  split; [apply al_insert_sorted_split|]. split.
  - apply al_insert_sorted_sorted.
  - destruct (al_insert_sorted_split al element) as (pre & post & -> & -> & _).
    rewrite !length_app. simpl. lia.
Qed.

Lemma al_index_loop_spec (al : list Z) x i :
  (al_index_loop al x i = -1 ∧ x ∉ al) ∨
  (∃ k : nat, al_index_loop al x i = i + Z.of_nat k ∧ al !! k = Some x ∧
              ∀ j : nat, (j < k)%nat → al !! j ≠ Some x).
Proof.
  revert i. induction al as [|y al IH]; intros i; simpl.
  - left. split; [done|]. apply not_elem_of_nil.
  - destruct (Z.eqb_spec x y) as [->|Hne].
    + right. exists 0%nat. split; [lia|]. split; [done|]. intros j Hj. lia.
    + destruct (IH (i + 1)) as [(Heq & Hnot)|(k & Heq & Hk & Hfirst)].
      * left. split; [done|].
        intros Hin. apply elem_of_cons in Hin as [->|Hin]; done.
      * right. exists (S k). split; [lia|]. split; [done|].
        intros [|j] Hj; simpl; [by intros [= ->]|]. apply Hfirst. lia.
Qed.

Lemma linear_search_first_aux (al : list Z) x :
  al_contains al x = bool_decide (x ∈ al).
Proof.
  unfold al_contains, al_index.
  destruct (al_index_loop_spec al x 0) as [(Heq & Hnot)|(k & Heq & Hk & _)].
  - rewrite Heq. by rewrite bool_decide_eq_false_2.
  - rewrite bool_decide_eq_true_2 by (by eapply list_elem_of_lookup_2).
    rewrite Heq. destruct (Z.eqb_spec (0 + Z.of_nat k) (-1)); [lia|done].
Qed.

(** X6: the linear search [_index] returns the first index that holds the
    element, and -1 exactly when the list does not hold it; [_contains] tells
    whether the list holds the element. *)
Theorem linear_search_first (al : list Z) (element : Z) :
  (al_index al element = -1 ↔ element ∉ al) ∧
  (al_index al element ≠ -1 →
   0 ≤ al_index al element < Z.of_nat (length al) ∧
   al !! Z.to_nat (al_index al element) = Some element ∧
   ∀ j : nat, Z.of_nat j < al_index al element → al !! j ≠ Some element) ∧
  al_contains al element = bool_decide (element ∈ al).
Proof.
  unfold al_contains, al_index.
  destruct (al_index_loop_spec al element 0) as [(Heq & Hnot)|(k & Heq & Hk & Hfirst)].
  - rewrite Heq. split; [done|]. split; [done|].
    by rewrite bool_decide_eq_false_2.
  - assert (Hin : element ∈ al) by (by eapply list_elem_of_lookup_2).
    pose proof (lookup_lt_Some _ _ _ Hk) as Hlt.
    rewrite Heq. split; [split; [lia|done]|]. split.
    + intros _. split; [lia|]. split.
      * by replace (Z.to_nat (0 + Z.of_nat k)) with k by lia.
      * intros j Hj. apply Hfirst. lia.
    + rewrite bool_decide_eq_true_2 by done.
      destruct (Z.eqb_spec (0 + Z.of_nat k) (-1)); [lia|done].
Qed.

(** X7: the binary search returns -1 or an index that holds the element,
    whatever the order of the list; on a list in ascending order it returns
    -1 only when the list does not hold the element, so there
    [_binary_search_contains] agrees with the linear [_contains]. *)
Theorem binary_search_finds_members (al : list Z) (element : Z) :
  ∃ idx,
    al_binary_search_index al element = Ok idx ∧
    (idx = -1 ∨ (0 ≤ idx < Z.of_nat (length al) ∧ al !! Z.to_nat idx = Some element)) ∧
    (al = [] → idx = -1) ∧
    (StronglySorted Z.le al →
     (idx = -1 ↔ element ∉ al) ∧
     al_binary_search_contains al element = Ok (al_contains al element)).
Proof.
  destruct (al_binary_search_index_spec al element) as (idx & Heq & Hsound & Hcompl).
  exists idx. split; [done|].
  assert (Hs : idx = -1 ∨
               (0 ≤ idx < Z.of_nat (length al) ∧ al !! Z.to_nat idx = Some element)).
  { destruct Hsound as [->|[Hr Hrd]]; [by left|right]. split; [done|].
    unfold rd in Hrd. destruct (lookup_lt_is_Some_2 al (Z.to_nat idx)) as [y Hy]; [lia|].
    rewrite Hy. f_equal. rewrite <- Hrd. symmetry. by apply nth_lookup_Some. }
  split; [done|]. split.
  - intros ->. destruct Hs as [->|[Hr _]]; [done|simpl in Hr; lia].
  - intros Hsorted.
    assert (Hiff : idx = -1 ↔ element ∉ al).
    { split; [by apply Hcompl|]. intros Hnot.
      destruct Hs as [->|[_ Hl]]; [done|].
      destruct Hnot. by eapply list_elem_of_lookup_2. }
    split; [done|]. unfold al_binary_search_contains. rewrite Heq. simpl. f_equal.
    rewrite (linear_search_first_aux al element).
    destruct (Z.eqb_spec idx (-1)) as [Hm|Hm]; simpl.
    + by rewrite bool_decide_eq_false_2 by (by apply Hiff).
    + rewrite bool_decide_eq_true_2; [done|].
      destruct (decide (element ∈ al)); [done|]. destruct Hm. by apply Hiff.
Qed.

(** X8: [_insert] at an index within the list or at its end puts the
    element at that index and moves the tail up by one; [_get] at the index
    reads it back, [_remove] at the index undoes the insertion, and [_pop]
    undoes [_append]. *)
Theorem insert_remove_round_trip (al : list Z) (element index : Z) :
  0 ≤ index ≤ Z.of_nat (length al) →
  al_get (al_insert al element index) index = Ok element ∧
  al_remove (al_insert al element index) index = Ok al ∧
  (∀ j, 0 ≤ j < index → al_get (al_insert al element index) j = al_get al j) ∧
  (∀ j, index ≤ j < Z.of_nat (length al) →
        al_get (al_insert al element index) (j + 1) = al_get al j) ∧
  al_insert al element (Z.of_nat (length al)) = al_append al element ∧
  al_pop (al_append al element) = Ok (element, al).
Proof.
  intros Hi. unfold al_insert, al_get.
  assert (Hlen : length (take (Z.to_nat index) al) = Z.to_nat index).
  { rewrite length_take. lia. }
  split; [|split; [|split; [|split; [|split]]]].
  - rewrite lookup_app_r by (rewrite Hlen; lia). rewrite Hlen, Nat.sub_diag. done.
  - unfold al_remove, assert.
    replace (index <? _) with true.
    2:{ symmetry. apply Z.ltb_lt. rewrite length_app. simpl. lia. }
    cbn [mbind Outcome_bind]. f_equal.
    rewrite take_app_length' by done.
    rewrite cons_middle, app_assoc.
    rewrite drop_app_length' by (rewrite length_app, Hlen; simpl; lia).
    apply take_drop.
  - intros j Hj. rewrite lookup_app_l by (rewrite Hlen; lia).
    rewrite lookup_take_lt by lia. done.
  - intros j Hj. rewrite lookup_app_r by (rewrite Hlen; lia). rewrite Hlen.
    replace (Z.to_nat (j + 1) - Z.to_nat index)%nat
      with (S (Z.to_nat j - Z.to_nat index)) by lia.
    simpl. rewrite lookup_drop.
    by replace (Z.to_nat index + (Z.to_nat j - Z.to_nat index))%nat
      with (Z.to_nat j) by lia.
  - rewrite Nat2Z.id, firstn_all, drop_all. done.
  - apply al_pop_append.
Qed.

Lemma insert_remove_round_trip_witness :
  al_get (al_insert [3; 5; 9] 7 2) 2 = Ok 7 ∧
  al_remove (al_insert [3; 5; 9] 7 2) 2 = Ok [3; 5; 9].
Proof.
  destruct (insert_remove_round_trip [3; 5; 9] 7 2) as (H1 & H2 & _).
  - simpl. lia.
  - done.
Defined.

(** ** The lexer on the text in front of it *)

Lemma pending_read_one_char p : pending (read_one_char p) = tail (pending p).
Proof.
  unfold pending, read_one_char. destruct (stream p) as [|c rest]; simpl.
  - by destruct (eof p).
  - by destruct (eof p).
Qed.

Lemma pending_reads (k : nat) p :
  pending (Nat.iter k read_one_char p) = drop k (pending p).
Proof.
  revert p. induction k as [|k IH]; intros p; [by rewrite drop_0|].
  rewrite Nat.iter_succ_r, IH, pending_read_one_char.
  destruct (pending p); [simpl; by rewrite drop_nil|done].
Qed.

Lemma pending_cons p c rest : pending p = c :: rest → eof p = false ∧ la p = c.
Proof. unfold pending. destruct (eof p); [done|]. by intros [= -> _]. Qed.

Lemma pending_nil p : pending p = [] → eof p = true.
Proof. unfold pending. by destruct (eof p). Qed.

Lemma pending_length p : (length (pending p) ≤ reads_left p)%nat.
Proof. unfold pending, reads_left. destruct (eof p); simpl; lia. Qed.

Lemma reads_keep (k : nat) p :
  warnings (Nat.iter k read_one_char p) = warnings p ∧
  silent (Nat.iter k read_one_char p) = silent p ∧
  state (Nat.iter k read_one_char p) = state p.
Proof.
  induction k as [|k IH]; [done|]. simpl. destruct IH as (<- & <- & <-).
  unfold read_one_char. by destruct (stream _).
Qed.

Lemma la_reads_end p (l : list ascii) w :
  pending p = l ++ [w] → la (Nat.iter (S (length l)) read_one_char p) = w.
Proof.
  intros Hp. simpl. set (p1 := Nat.iter (length l) read_one_char p).
  assert (Hp1 : pending p1 = [w]).
  { subst p1. by rewrite pending_reads, Hp, drop_app_length. }
  unfold pending in Hp1. destruct (eof p1); [done|].
  injection Hp1 as Hla Hs. unfold read_one_char. by rewrite Hs.
Qed.

Lemma skip_white_loop_pending (ws rest : list ascii) :
  Forall (λ c, is_white c = true) ws →
  (∀ c, head rest = Some c → is_white c = false) →
  ∀ (fuel : nat) p num_read,
    pending p = ws ++ rest → (length ws ≤ fuel)%nat →
    ∃ n, skip_white_loop fuel p num_read
         = Ok (n, Nat.iter (length ws) read_one_char p).
Proof.
  intros Hws Hrest. induction Hws as [|w ws Hw Hws IH]; intros fuel p num_read Hp Hfuel.
  - simpl in Hp. exists num_read. destruct rest as [|c rest].
    + apply pending_nil in Hp. destruct fuel; simpl; rewrite Hp; by destruct (is_white _).
    + destruct (pending_cons _ _ _ Hp) as [_ Hla].
      destruct fuel; simpl; by rewrite Hla, (Hrest c eq_refl).
  - destruct fuel as [|fuel]; [simpl in Hfuel; lia|].
    destruct (pending_cons _ _ _ Hp) as [He Hla].
    cbn [skip_white_loop]. rewrite Hla, Hw, He.
    destruct (IH fuel (read_one_char p) (u32 (num_read + 1))) as [n Hn].
    { rewrite pending_read_one_char, Hp. done. }
    { simpl in Hfuel. lia. }
    exists n. rewrite Hn. by rewrite <- Nat.iter_succ_r.
Qed.

Lemma skip_white_pending (ws rest : list ascii) p :
  Forall (λ c, is_white c = true) ws →
  (∀ c, head rest = Some c → is_white c = false) →
  pending p = ws ++ rest →
  ∃ n, skip_white p = Ok (n, Nat.iter (length ws) read_one_char p).
Proof.
  intros Hws Hrest Hp. apply (skip_white_loop_pending ws rest Hws Hrest); [done|].
  pose proof (pending_length p) as Hl. rewrite Hp, length_app in Hl. lia.
Qed.

Lemma expect_number_loop_pending (ds rest : list ascii) :
  Forall (λ c, is_digit c = true) ds →
  (∀ c, head rest = Some c → is_digit c = false) →
  ∀ (fuel : nat) p num,
    pending p = ds ++ rest → (length ds ≤ fuel)%nat →
    expect_number_loop fuel p num
    = Ok (fold_left (λ acc c, u32 (acc * 10 + default 0 (digit_of c))) ds num,
          Nat.iter (length ds) read_one_char p).
Proof.
  intros Hds Hrest. induction Hds as [|d ds Hd Hds IH]; intros fuel p num Hp Hfuel.
  - simpl in Hp. destruct rest as [|c rest].
    + apply pending_nil in Hp. destruct fuel; simpl; by rewrite Hp.
    + destruct (pending_cons _ _ _ Hp) as [He Hla].
      pose proof (Hrest c eq_refl) as Hc. unfold is_digit in Hc.
      destruct fuel; simpl; rewrite He, Hla; by destruct (digit_of c).
  - destruct fuel as [|fuel]; [simpl in Hfuel; lia|].
    destruct (pending_cons _ _ _ Hp) as [He Hla].
    cbn [expect_number_loop]. rewrite He, Hla. unfold is_digit in Hd.
    destruct (digit_of d) as [v|] eqn:Hv; [|done].
    rewrite IH; [|by rewrite pending_read_one_char, Hp|simpl in Hfuel; lia].
    simpl. rewrite Hv. simpl. by rewrite <- Nat.iter_succ_r.
Qed.

Lemma fold_u32_decimal (ds : list ascii) (a : Z) :
  fold_left (λ acc c, u32 (acc * 10 + default 0 (digit_of c))) ds (u32 a)
  = u32 (fold_left (λ acc c, acc * 10 + default 0 (digit_of c)) ds a).
Proof.
  revert a. induction ds as [|d ds IH]; intros a; simpl.
  - done.
  - rewrite <- IH. f_equal. unfold u32.
    rewrite Z.add_mod, Z.mul_mod_idemp_l, <- Z.add_mod by lia. done.
Qed.

Lemma is_white_not_digit c : is_digit c = true → is_white c = false.
Proof.
  unfold is_digit, digit_of.
  repeat match goal with
         | |- context [Ascii.eqb c ?d] =>
             destruct (Ascii.eqb_spec c d) as [->|?]; [by intros _|]
         end.
  done.
Qed.

Lemma minus_not_white : is_white "-"%char = false.
Proof. reflexivity. Qed.

(** [expect_number] in terms of the text in front of the parser. *)
Lemma expect_number_pending (p : Parser) (ws ds rest : list ascii)
    (expect_positive : bool) :
  eof p = false →
  Forall (λ c, is_white c = true) ws →
  Forall (λ c, is_digit c = true) ds →
  (∀ c, head rest = Some c → is_digit c = false) →
  (pending p = ws ++ ds ++ rest →
   (∀ c, head (ds ++ rest) = Some c → is_white c = false ∧ c ≠ "-"%char) →
   expect_number p expect_positive
   = Ok (u32 (decimal_value ds), Nat.iter (length ws + length ds) read_one_char p)) ∧
  (pending p = ws ++ "-"%char :: ds ++ rest →
   expect_number p false
   = Ok (- u32 (decimal_value ds),
         Nat.iter (length ws + 1 + length ds) read_one_char p)).
Proof.
  intros Heof Hws Hds Hrest. split.
  - intros Hp Hhead. unfold expect_number.
    destruct (skip_white_pending ws (ds ++ rest) p Hws) as [n ->]; [|done|].
    { intros c Hc. by apply Hhead. }
    cbn [mbind Outcome_bind]. set (p1 := Nat.iter (length ws) read_one_char p).
    assert (Hp1 : pending p1 = ds ++ rest).
    { subst p1. by rewrite pending_reads, Hp, drop_app_length. }
    assert (Hneg : Ascii.eqb (la p1) "-"%char = false).
    { destruct (ds ++ rest) as [|c l] eqn:Hl.
      - (* the input ends behind the blanks: the look-ahead byte is still
           the last of them *)
        rewrite app_nil_r in Hp.
        destruct (decide (ws = [])) as [->|Hne].
        { apply pending_nil in Hp. congruence. }
        destruct (exists_last Hne) as (ws' & w & ->).
        subst p1. rewrite length_app, Nat.add_comm. simpl length.
        change (1 + length ws')%nat with (S (length ws')).
        rewrite (la_reads_end p ws' w Hp).
        apply Forall_app in Hws as [_ Hw]. rewrite Forall_singleton in Hw.
        destruct (Ascii.eqb_spec w "-"%char) as [->|]; [by vm_compute in Hw|done].
      - destruct (pending_cons _ _ _ Hp1) as [_ ->].
        destruct (Hhead c eq_refl) as [_ Hne]. by apply Ascii.eqb_neq. }
    rewrite Hneg. cbn [mbind Outcome_bind].
    rewrite (expect_number_loop_pending ds rest Hds Hrest (reads_left p1) p1 0 Hp1).
    2:{ pose proof (pending_length p1) as Hl. rewrite Hp1, length_app in Hl. lia. }
    cbn [mbind Outcome_bind]. unfold decimal_value.
    rewrite <- fold_u32_decimal. change (u32 0) with 0.
    subst p1. by rewrite <- Nat.iter_add, (Nat.add_comm (length ds)).
  - intros Hp. unfold expect_number.
    destruct (skip_white_pending ws ("-"%char :: ds ++ rest) p Hws) as [n ->]; [|done|].
    { by intros c [= <-]. }
    cbn [mbind Outcome_bind]. set (p1 := Nat.iter (length ws) read_one_char p).
    assert (Hp1 : pending p1 = "-"%char :: ds ++ rest).
    { subst p1. by rewrite pending_reads, Hp, drop_app_length. }
    destruct (pending_cons _ _ _ Hp1) as [_ Hla]. rewrite Hla, Ascii.eqb_refl.
    cbv iota. cbn [mbind Outcome_bind].
    assert (Hp2 : pending (read_one_char p1) = ds ++ rest).
    { by rewrite pending_read_one_char, Hp1. }
    rewrite (expect_number_loop_pending ds rest Hds Hrest _ _ 0 Hp2).
    2:{ pose proof (pending_length (read_one_char p1)) as Hl.
        rewrite Hp2, length_app in Hl. lia. }
    cbn [mbind Outcome_bind]. unfold decimal_value.
    rewrite <- fold_u32_decimal. change (u32 0) with 0.
    subst p1. f_equal. f_equal.
    replace (length ws + 1 + length ds)%nat with (length ds + S (length ws))%nat by lia.
    by rewrite Nat.iter_add.
Qed.

Lemma drop_app_exact {A} (l1 l2 : list A) (k : nat) :
  k = length l1 → drop k (l1 ++ l2) = l2.
Proof. intros ->. apply drop_app_length. Qed.

(** X9: in front of a parser let there be blanks [ws], then a run of
    digits [ds], then text that does not go on with a digit, where the text
    behind the blanks does not start with a minus sign.  [expect_number]
    returns the value of the digits modulo 2^32 (the value 0 for no digit at
    all; a value of 2^32 or more wraps around, it is not refused) and has read
    the blanks and the digits and nothing more.  With a minus sign in front of
    the digits and [expect_positive] false it returns the negated wrapped
    value. *)
Theorem expect_number_value (p : Parser) (ws ds rest : list ascii)
    (expect_positive : bool) :
  eof p = false →
  Forall (λ c, is_white c = true) ws →
  Forall (λ c, is_digit c = true) ds →
  (∀ c, head rest = Some c → is_digit c = false) →
  (pending p = ws ++ ds ++ rest →
   (∀ c, head (ds ++ rest) = Some c → is_white c = false ∧ c ≠ "-"%char) →
   ∃ p', expect_number p expect_positive = Ok (u32 (decimal_value ds), p') ∧
         pending p' = rest ∧ warnings p' = warnings p ∧ state p' = state p) ∧
  (pending p = ws ++ "-"%char :: ds ++ rest →
   ∃ p', expect_number p false = Ok (- u32 (decimal_value ds), p') ∧
         pending p' = rest ∧ warnings p' = warnings p ∧ state p' = state p).
Proof.
  intros Heof Hws Hds Hrest.
  destruct (expect_number_pending p ws ds rest expect_positive Heof Hws Hds Hrest)
    as [Hpos Hneg].
  split.
  - intros Hp Hhead. eexists. split; [by apply Hpos|].
    destruct (reads_keep (length ws + length ds) p) as (Hw & _ & Hs).
    split; [|done]. rewrite pending_reads, Hp, app_assoc.
    apply drop_app_exact. by rewrite length_app.
  - intros Hp. eexists. split; [by apply Hneg|].
    destruct (reads_keep (length ws + 1 + length ds) p) as (Hw & _ & Hs).
    split; [|done]. rewrite pending_reads, Hp.
    replace (ws ++ "-"%char :: ds ++ rest) with ((ws ++ "-"%char :: ds) ++ rest)
      by (by rewrite <- app_assoc).
    apply drop_app_exact. rewrite !length_app. simpl. lia.
Qed.

Lemma expect_number_value_witness :
  ∃ p', expect_number (parser_init " 12x" false) true = Ok (u32 12, p') ∧
        pending p' = ["x"%char].
Proof.
  destruct (expect_number_value (parser_init " 12x" false) [" "%char]
              ["1"%char; "2"%char] ["x"%char] true) as [H _].
  - reflexivity.
  - by repeat constructor.
  - by repeat constructor.
  - by intros c [= <-].
  - destruct H as (p' & Heq & Hp & _); [reflexivity|by intros c [= <-]|].
    exists p'. split; [exact Heq|exact Hp].
Defined.

(** ** Lines of integers *)

Lemma token_head_digit (t : bool * list ascii) (rest : list ascii) c :
  token_ok t → head (t.2 ++ rest) = Some c → is_digit c = true.
Proof.
  intros (Hne & Hd & _) Hc. destruct (t.2) as [|d ds]; [done|].
  simpl in Hc. injection Hc as <-. by apply Forall_cons in Hd as [Hd _].
Qed.

Lemma digit_not_minus c : is_digit c = true → c ≠ "-"%char.
Proof. intros H ->. by vm_compute in H. Qed.

Lemma blank_not_digit : is_digit " "%char = false.
Proof. reflexivity. Qed.

(** [expect_number] on a token with a blank behind it. *)
Lemma expect_number_token p (ws rest : list ascii) (t : bool * list ascii) ep :
  Forall (λ c, is_white c = true) ws → token_ok t →
  pending p = ws ++ token_text t ++ " "%char :: rest →
  (t.1 = true → ep = false) →
  expect_number p ep
  = Ok (token_value t, Nat.iter (length ws + length (token_text t)) read_one_char p).
Proof.
  intros Hws Hok Hp Hep. pose proof Hok as (Hne & Hd & Hv).
  assert (Heof : eof p = false).
  { unfold pending in Hp. destruct (eof p); [|done].
    apply (f_equal length) in Hp. rewrite !length_app in Hp. simpl in Hp. lia. }
  assert (Hr : ∀ c, head (" "%char :: rest) = Some c → is_digit c = false)
    by (by intros c [= <-]).
  destruct (expect_number_pending p ws t.2 (" "%char :: rest) ep Heof Hws Hd Hr)
    as [Hpos Hneg].
  unfold token_text, token_value in *. unfold VARIABLE_MAX in Hv.
  destruct t as [[] ds]; simpl in *.
  - rewrite (Hep eq_refl). rewrite Hneg by done. rewrite u32_small by lia.
    do 2 f_equal. f_equal. lia.
  - rewrite Hpos; [by rewrite u32_small by lia|done|].
    intros c Hc. pose proof (token_head_digit (false, ds) _ c Hok Hc) as Hdc.
    split; [by apply is_white_not_digit|by apply digit_not_minus].
Qed.

Lemma token_text_head (t : bool * list ascii) (rest : list ascii) c :
  token_ok t → head (token_text t ++ rest) = Some c →
  is_white c = false ∧ c ≠ newline.
Proof.
  intros Hok Hc. unfold token_text in Hc. destruct t as [[] ds]; simpl in Hc.
  - injection Hc as <-. by split.
  - pose proof (token_head_digit (false, ds) rest c Hok Hc) as Hd.
    split; [by apply is_white_not_digit|]. intros ->. by vm_compute in Hd.
Qed.

Lemma white_not_newline c : is_white c = true → c ≠ newline.
Proof. intros H ->. by vm_compute in H. Qed.

(** The loop of the two list readers on a line of tokens, for an [item]
    that reads a token as [val] of it. *)
Lemma expect_list_loop_line (item : Parser → bool → Outcome (Z * Parser))
    (val : bool * list ascii → Z) (good : bool * list ascii → Prop) :
  (∀ t, good t → token_ok t) →
  (∀ p ws rest t,
     Forall (λ c, is_white c = true) ws → good t →
     pending p = ws ++ token_text t ++ " "%char :: rest →
     item p true
     = Ok (val t, Nat.iter (length ws + length (token_text t)) read_one_char p) ∧
     val t ≠ 0) →
  (∀ p ws rest,
     Forall (λ c, is_white c = true) ws →
     pending p = ws ++ "0"%char :: newline :: rest →
     item p true = Ok (0, Nat.iter (length ws + 1) read_one_char p)) →
  ∀ ts (fuel : nat) p ws al rest,
    Forall good ts → Forall (λ c, is_white c = true) ws →
    pending p
    = ws ++ flat_map (λ t, token_text t ++ [" "%char]) ts
         ++ "0"%char :: newline :: rest →
    (length ts < fuel)%nat →
    ∃ p', expect_list_loop item fuel p al = Ok (al ++ map val ts, true, p') ∧
          pending p' = newline :: rest ∧ warnings p' = warnings p ∧
          state p' = state p.
Proof.
  intros Hgood Htok Hzero. induction ts as [|t ts IH];
    intros fuel p ws al rest Hts Hws Hp Hfuel.
  - destruct fuel as [|fuel]; [lia|]. simpl in Hp. cbn [expect_list_loop].
    assert (Hstart : eof p || Ascii.eqb (la p) newline = false).
    { destruct ws as [|w ws].
      - destruct (pending_cons _ _ _ Hp) as [-> ->]. reflexivity.
      - destruct (pending_cons _ _ _ Hp) as [-> ->]. simpl.
        apply Forall_cons in Hws as [Hw _]. apply Ascii.eqb_neq.
        by apply white_not_newline. }
    rewrite Hstart, (Hzero p ws rest Hws Hp). cbn [mbind Outcome_bind].
    change (0 =? 0) with true. cbv iota. eexists. split; [by rewrite app_nil_r|].
    destruct (reads_keep (length ws + 1) p) as (Hw & _ & Hs).
    split; [|done]. rewrite pending_reads, Hp.
    replace (ws ++ "0"%char :: newline :: rest)
      with ((ws ++ ["0"%char]) ++ newline :: rest) by (by rewrite <- app_assoc).
    apply drop_app_exact. rewrite length_app. simpl. lia.
  - destruct fuel as [|fuel]; [simpl in Hfuel; lia|].
    apply Forall_cons in Hts as [Ht Hts]. simpl in Hp.
    rewrite <- !app_assoc in Hp. simpl in Hp.
    cbn [expect_list_loop].
    assert (Hstart : eof p || Ascii.eqb (la p) newline = false).
    { destruct ws as [|w ws].
      - simpl in Hp.
        destruct (token_text t ++ " "%char ::
                    flat_map (λ t, token_text t ++ [" "%char]) ts
                    ++ "0"%char :: newline :: rest) as [|c l] eqn:Hl.
        { apply (f_equal length) in Hl. rewrite length_app in Hl. simpl in Hl. lia. }
        destruct (pending_cons _ _ _ Hp) as [-> ->]. simpl.
        apply Ascii.eqb_neq.
        apply (token_text_head t (" "%char ::
                 flat_map (λ t, token_text t ++ [" "%char]) ts
                 ++ "0"%char :: newline :: rest) c (Hgood t Ht)).
        by rewrite Hl.
      - destruct (pending_cons _ _ _ Hp) as [-> ->]. simpl.
        apply Forall_cons in Hws as [Hw _]. apply Ascii.eqb_neq.
        by apply white_not_newline. }
    rewrite Hstart.
    destruct (Htok p ws _ t Hws Ht Hp) as [-> Hne]. cbn [mbind Outcome_bind].
    destruct (Z.eqb_spec (val t) 0) as [|_]; [done|].
    set (k := (length ws + length (token_text t))%nat).
    destruct (IH fuel (Nat.iter k read_one_char p) [" "%char] (al_append al (val t))
                rest Hts) as (p' & Heq & Hp' & Hw' & Hs').
    { by repeat constructor. }
    { rewrite pending_reads, Hp, app_assoc. subst k.
      apply drop_app_exact. by rewrite length_app. }
    { simpl in Hfuel. lia. }
    exists p'. rewrite Heq. unfold al_append. rewrite <- app_assoc. simpl.
    destruct (reads_keep k p) as (Hw & _ & Hs).
    split; [done|]. split; [done|]. split; congruence.
Qed.

Lemma expect_literal_token p (ws rest : list ascii) (t : bool * list ascii) :
  Forall (λ c, is_white c = true) ws → token_ok t →
  pending p = ws ++ token_text t ++ " "%char :: rest →
  expect_literal p true
  = Ok (SIGNED_LIT2LIT (token_value t),
        Nat.iter (length ws + length (token_text t)) read_one_char p) ∧
  SIGNED_LIT2LIT (token_value t) ≠ 0.
Proof.
  intros Hws Hok Hp. unfold expect_literal.
  rewrite (expect_number_token p ws rest t false Hws Hok Hp) by done.
  cbn [mbind Outcome_bind].
  destruct Hok as (_ & _ & Hv). unfold VARIABLE_MAX in Hv.
  assert (Hr : - (2 ^ 31 - 1) ≤ token_value t ≤ 2 ^ 31 - 1).
  { unfold token_value. destruct (t.1); lia. }
  assert (Habs : 1 ≤ Z.abs (token_value t) ≤ 2 ^ 31 - 1).
  { unfold token_value. destruct (t.1); lia. }
  unfold assert, INT32_MAX, INT32_MIN, VARIABLE_MIN, VARIABLE_MAX.
  rewrite (LIT2VAR_SIGNED_LIT2LIT _ Hr).
  replace (token_value t <=? 2 ^ 31 - 1) with true by (symmetry; apply Z.leb_le; lia).
  replace (- 2 ^ 31 <=? token_value t) with true by (symmetry; apply Z.leb_le; lia).
  replace (1 <=? Z.abs (token_value t)) with true by (symmetry; apply Z.leb_le; lia).
  replace (Z.abs (token_value t) <=? 2 ^ 31 - 1) with true
    by (symmetry; apply Z.leb_le; lia).
  cbn [mbind Outcome_bind orb]. split; [done|].
  rewrite (SIGNED_LIT2LIT_arith _ Hr). destruct (token_value t <? 0); lia.
Qed.

Lemma expect_number_zero p (ws rest : list ascii) ep :
  Forall (λ c, is_white c = true) ws →
  pending p = ws ++ "0"%char :: newline :: rest →
  expect_number p ep = Ok (0, Nat.iter (length ws + 1) read_one_char p).
Proof.
  intros Hws Hp.
  assert (Heof : eof p = false).
  { unfold pending in Hp. destruct (eof p); [|done].
    apply (f_equal length) in Hp. rewrite !length_app in Hp. simpl in Hp. lia. }
  destruct (expect_number_pending p ws ["0"%char] (newline :: rest) ep Heof Hws)
    as [Hpos _].
  - by repeat constructor.
  - by intros c [= <-].
  - rewrite Hpos; [done|done|]. by intros c [= <-].
Qed.

(** X10: in front of a parser let there be a line of integer tokens, each
    with a value in [1 .. VARIABLE_MAX] and a blank behind it, closed by a
    ["0"] and a newline.  [expect_literal_list] returns the literals of the
    tokens in order, [expect_variable_list] (on tokens without a minus sign)
    their values; both stop in front of the newline and print no warning. *)
Theorem token_line_is_read (p : Parser) (ts : list (bool * list ascii))
    (rest : list ascii) :
  pending p = token_line ts ++ rest →
  Forall token_ok ts →
  (∃ p', expect_literal_list p
         = Ok (map (λ t, SIGNED_LIT2LIT (token_value t)) ts, p') ∧
         pending p' = newline :: rest ∧ warnings p' = warnings p) ∧
  (Forall (λ t, t.1 = false) ts →
   ∃ p', expect_variable_list p = Ok (map (λ t, decimal_value t.2) ts, p') ∧
         pending p' = newline :: rest ∧ warnings p' = warnings p).
Proof.
  intros Hp Hts. unfold token_line in Hp. rewrite <- app_assoc in Hp. simpl in Hp.
  assert (Hfuel : (length ts < S (reads_left p))%nat).
  { pose proof (pending_length p) as Hl. rewrite Hp, length_app in Hl.
    assert (length ts ≤ length (flat_map (λ t, token_text t ++ [" "%char]) ts))%nat;
      [|lia].
    clear. induction ts as [|t ts IH]; simpl; [lia|].
    rewrite !length_app. simpl. lia. }
  split.
  - unfold expect_literal_list.
    destruct (expect_list_loop_line expect_literal
                (λ t, SIGNED_LIT2LIT (token_value t)) token_ok) with
      (ts := ts) (fuel := S (reads_left p)) (p := p) (ws := @nil ascii)
      (al := @nil Z) (rest := rest) as (p' & -> & Hp' & Hw & _); try done.
    + intros q ws r t Hws Ht Hq. by apply (expect_literal_token q ws r t).
    + intros q ws r Hws Hq. unfold expect_literal.
      rewrite (expect_number_zero q ws r false Hws Hq). reflexivity.
    + cbn [mbind Outcome_bind]. by exists p'.
  - intros Hpos. unfold expect_variable_list.
    destruct (expect_list_loop_line expect_variable (λ t, decimal_value t.2)
                (λ t, token_ok t ∧ t.1 = false)) with
      (ts := ts) (fuel := S (reads_left p)) (p := p) (ws := @nil ascii)
      (al := @nil Z) (rest := rest) as (p' & -> & Hp' & Hw & _); try done.
    + by intros t [Ht _].
    + intros q ws r t Hws [Ht Hsign] Hq. unfold expect_variable.
      rewrite (expect_number_token q ws r t true Hws Ht Hq) by (by rewrite Hsign).
      cbn [mbind Outcome_bind].
      destruct Ht as (_ & _ & Hv). unfold token_value. rewrite Hsign.
      unfold assert, VARIABLE_MIN. unfold VARIABLE_MAX in *.
      replace (1 <=? decimal_value t.2) with true by (symmetry; apply Z.leb_le; lia).
      replace (decimal_value t.2 <=? 2 ^ 31 - 1) with true
        by (symmetry; apply Z.leb_le; lia).
      cbn [mbind Outcome_bind orb]. rewrite u32_small by lia. split; [done|lia].
    + intros q ws r Hws Hq. unfold expect_variable.
      rewrite (expect_number_zero q ws r true Hws Hq). reflexivity.
    + apply Forall_forall. intros t Ht. split.
      * by apply (proj1 (Forall_forall _ _) Hts).
      * by apply (proj1 (Forall_forall _ _) Hpos).
    + cbn [mbind Outcome_bind]. by exists p'.
Qed.

Lemma token_line_is_read_witness :
  ∃ p', expect_literal_list (parser_init line_m1_20 false) = Ok ([3; 40], p') ∧
        pending p' = [newline] ∧ warnings p' = [].
Proof.
  destruct (token_line_is_read (parser_init line_m1_20 false)
              [(true, ["1"%char]); (false, ["2"%char; "0"%char])] [])
    as [(p' & Heq & Hp & Hw) _].
  - reflexivity.
  - repeat constructor; try done; vm_compute; done.
  - exists p'. split; [exact Heq|]. split; [exact Hp|exact Hw].
Defined.

(** ** The list readers on any text *)

Lemma read_one_char_reads_left p : (reads_left (read_one_char p) ≤ reads_left p)%nat.
Proof.
  unfold reads_left, read_one_char. destruct (stream p); simpl; destruct (eof p); simpl; lia.
Qed.

Lemma expect_number_loop_progress (fuel : nat) :
  ∀ p num,
    (reads_left p ≤ fuel)%nat → 0 ≤ num < 2 ^ 32 →
    ∃ n p', expect_number_loop fuel p num = Ok (n, p') ∧ 0 ≤ n < 2 ^ 32 ∧
            ((p' = p ∧ n = num) ∨ (reads_left p' < reads_left p)%nat).
Proof.
  induction fuel as [|fuel IH]; intros p num Hfuel Hnum.
  - simpl. destruct (eof p) eqn:He.
    { exists num, p. split; [done|]. split; [done|]. by left. }
    pose proof (reads_left_pos p He). lia.
  - simpl. destruct (eof p) eqn:He.
    { exists num, p. split; [done|]. split; [done|]. by left. }
    destruct (digit_of (la p)) as [d|].
    2:{ exists num, p. split; [done|]. split; [done|]. by left. }
    pose proof (reads_left_read_one_char p He) as Hr.
    destruct (IH (read_one_char p) (u32 (num * 10 + d))) as (n & p' & Heq & Hn & Hprog);
      [lia|apply u32_range|].
    exists n, p'. split; [done|]. split; [done|]. right.
    destruct Hprog as [[-> _]|Hlt]; lia.
Qed.

(** [expect_number] returns or ends with exit code 80; a result other
    than 0 has cost at least one byte of the input. *)
Lemma expect_number_progress p ep :
  expect_number p ep = Fatal EXIT_PARSING_FAILURE ∨
  ∃ num p', expect_number p ep = Ok (num, p') ∧
            (reads_left p' ≤ reads_left p)%nat ∧
            (num ≠ 0 → (reads_left p' < reads_left p)%nat) ∧
            - 2 ^ 32 < num < 2 ^ 32 ∧ (ep = true → 0 ≤ num).
Proof.
  unfold expect_number.
  destruct (skip_white_total p) as (n0 & p1 & -> & Hle). cbn [mbind Outcome_bind].
  destruct (Ascii.eqb (la p1) "-"%char) eqn:Hneg.
  - destruct ep; [by left|right]. cbn [mbind Outcome_bind].
    pose proof (read_one_char_reads_left p1) as Hr.
    destruct (expect_number_loop_progress (reads_left (read_one_char p1))
                (read_one_char p1) 0) as (n & p' & -> & Hn & Hprog); [lia|lia|].
    cbn [mbind Outcome_bind]. exists (- n), p'. split; [done|].
    destruct Hprog as [[-> ->]|Hlt]; repeat split; try lia.
  - right. cbn [mbind Outcome_bind].
    destruct (expect_number_loop_progress (reads_left p1) p1 0)
      as (n & p' & -> & Hn & Hprog); [lia|lia|].
    cbn [mbind Outcome_bind]. exists n, p'. split; [done|].
    destruct Hprog as [[-> ->]|Hlt]; repeat split; try lia.
Qed.

(** The loop of the list readers ends within its fuel, for an [item] that
    pays for a result other than 0 with a byte of the input. *)
Lemma expect_list_loop_ends (item : Parser → bool → Outcome (Z * Parser))
    (P : Z → Prop) :
  (∀ p, item p true ≠ Timeout ∧
        ∀ x p', item p true = Ok (x, p') →
          (reads_left p' ≤ reads_left p)%nat ∧
          (x ≠ 0 → (reads_left p' < reads_left p)%nat ∧ P x)) →
  ∀ (fuel : nat) p al,
    (reads_left p < fuel)%nat → Forall P al →
    expect_list_loop item fuel p al ≠ Timeout ∧
    ∀ al' b p', expect_list_loop item fuel p al = Ok (al', b, p') → Forall P al'.
Proof.
  intros Hitem. induction fuel as [|fuel IH]; intros p al Hfuel Hal; [lia|].
  cbn [expect_list_loop].
  destruct (eof p || Ascii.eqb (la p) newline).
  { split; [done|]. by intros al' b p' [= <- _ _]. }
  destruct (Hitem p) as [Hend Hok].
  destruct (item p true) as [[x p1]| | |]; cbn [mbind Outcome_bind]; try done.
  destruct (Hok x p1 eq_refl) as [Hle Hnz].
  destruct (Z.eqb_spec x 0) as [->|Hx].
  { split; [done|]. by intros al' b p' [= <- _ _]. }
  destruct (Hnz Hx) as [Hlt HP].
  apply IH; [lia|]. apply Forall_app. split; [done|]. by constructor.
Qed.

Lemma expect_variable_item p :
  expect_variable p true ≠ Timeout ∧
  ∀ x p', expect_variable p true = Ok (x, p') →
    (reads_left p' ≤ reads_left p)%nat ∧
    (x ≠ 0 → (reads_left p' < reads_left p)%nat ∧ 1 ≤ x ≤ VARIABLE_MAX).
Proof.
  unfold expect_variable.
  destruct (expect_number_progress p true)
    as [->|(num & p1 & -> & Hle & Hlt & Hr & Hpos)]; [done|].
  cbn [mbind Outcome_bind]. unfold assert, VARIABLE_MIN, VARIABLE_MAX.
  specialize (Hpos eq_refl).
  destruct ((1 <=? num) || ((num =? 0) && true)); cbn [mbind Outcome_bind]; [|done].
  destruct (Z.leb_spec num (2 ^ 31 - 1)) as [Hmax|]; cbn [mbind Outcome_bind]; [|done].
  split; [done|]. intros x p' [= <- <-]. rewrite u32_small by lia.
  split; [done|]. intros Hx. split; [by apply Hlt|lia].
Qed.

Lemma VAR2LIT_range (var signb : Z) :
  signb = 0 ∨ signb = 1 → 0 ≤ VAR2LIT var signb < 2 ^ 32.
Proof.
  intros Hs. unfold VAR2LIT. pose proof (u32_range (Z.shiftl var 1)) as Hu.
  assert (H0 : 0 ≤ Z.lor (u32 (var ≪ 1)) signb).
  { apply Z.lor_nonneg. destruct Hs as [->| ->]; lia. }
  split; [done|].
  destruct (decide (Z.lor (u32 (var ≪ 1)) signb = 0)) as [->|Hne]; [lia|].
  apply Z.log2_lt_pow2; [lia|]. rewrite Z.log2_lor by (destruct Hs as [->| ->]; lia).
  apply Z.max_lub_lt.
  - destruct (decide (u32 (var ≪ 1) = 0)) as [->|]; [simpl; lia|].
    apply Z.log2_lt_pow2; lia.
  - destruct Hs as [->| ->]; simpl; lia.
Qed.

Lemma expect_literal_item p :
  expect_literal p true ≠ Timeout ∧
  ∀ x p', expect_literal p true = Ok (x, p') →
    (reads_left p' ≤ reads_left p)%nat ∧
    (x ≠ 0 → (reads_left p' < reads_left p)%nat ∧ 0 < x < 2 ^ 32).
Proof.
  unfold expect_literal.
  destruct (expect_number_progress p false)
    as [->|(num & p1 & -> & Hle & Hlt & Hr & _)]; [done|].
  cbn [mbind Outcome_bind]. unfold assert.
  destruct (num <=? INT32_MAX) eqn:H1; cbn [mbind Outcome_bind]; [|done].
  destruct (INT32_MIN <=? num) eqn:H2; cbn [mbind Outcome_bind]; [|done].
  destruct ((VARIABLE_MIN <=? LIT2VAR (SIGNED_LIT2LIT num))
            || ((LIT2VAR (SIGNED_LIT2LIT num) =? 0) && true));
    cbn [mbind Outcome_bind]; [|done].
  destruct (LIT2VAR (SIGNED_LIT2LIT num) <=? VARIABLE_MAX);
    cbn [mbind Outcome_bind]; [|done].
  split; [done|]. intros x p' [= <- <-]. split; [done|]. intros Hx.
  assert (Hnum : num ≠ 0) by (by intros ->).
  split; [by apply Hlt|].
  assert (Hsb : Z.shiftr (u32 num) 31 = 0 ∨ Z.shiftr (u32 num) 31 = 1).
  { rewrite Z.shiftr_div_pow2 by lia. pose proof (u32_range num) as Hu.
    assert (0 ≤ u32 num / 2 ^ 31 < 2); [|lia].
    split; [apply Z.div_pos; lia|apply Z.div_lt_upper_bound; lia]. }
  pose proof (VAR2LIT_range (Z.abs num) _ Hsb) as Hrange.
  unfold SIGNED_LIT2LIT in *. lia.
Qed.

(** X11: on any text the two list readers end within the fuel of the
    model (they return, fail an assertion or end with an exit code: a token
    that is read as a value other than 0 costs a byte, and any other ends the
    list).  The variables [expect_variable_list] returns are in
    [1 .. VARIABLE_MAX], the literals [expect_literal_list] returns are 32-bit
    values other than 0. *)
Theorem list_readers_end_in_range (p : Parser) :
  expect_variable_list p ≠ Timeout ∧
  expect_literal_list p ≠ Timeout ∧
  (∀ al p', expect_variable_list p = Ok (al, p') →
            Forall (λ v, 1 ≤ v ≤ VARIABLE_MAX) al) ∧
  (∀ al p', expect_literal_list p = Ok (al, p') →
            Forall (λ lit, 0 < lit < 2 ^ 32) al).
Proof.
  destruct (expect_list_loop_ends expect_variable (λ v, 1 ≤ v ≤ VARIABLE_MAX)
              expect_variable_item (S (reads_left p)) p []) as [Hv1 Hv2];
    [lia|constructor|].
  destruct (expect_list_loop_ends expect_literal (λ lit, 0 < lit < 2 ^ 32)
              expect_literal_item (S (reads_left p)) p []) as [Hl1 Hl2];
    [lia|constructor|].
  unfold expect_variable_list, expect_literal_list.
  split; [|split; [|split]].
  - destruct (expect_list_loop expect_variable _ p []) as [[[al b] p1]| | |]; done.
  - destruct (expect_list_loop expect_literal _ p []) as [[[al b] p1]| | |]; done.
  - intros al p'.
    destruct (expect_list_loop expect_variable _ p []) as [[[al1 b] p1]| | |] eqn:Heq;
      try done.
    cbn [mbind Outcome_bind]. intros [= <- _]. by eapply Hv2.
  - intros al p'.
    destruct (expect_list_loop expect_literal _ p []) as [[[al1 b] p1]| | |] eqn:Heq;
      try done.
    cbn [mbind Outcome_bind]. intros [= <- _]. by eapply Hl2.
Qed.

(** ** Quantifier lines *)

Lemma fold_left_max_le (l : list Z) (m : Z) : m ≤ fold_left Z.max l m.
Proof.
  revert m. induction l as [|x l IH]; intros m; simpl; [lia|].
  specialize (IH (Z.max m x)). lia.
Qed.

(** The loop over the variables of a line on variables that are all new. *)
Lemma quantifier_loop_all_fresh (vars : list Z) qtype qordering :
  ∀ (todo done written : list Z) qbf (fuel : nat) num_vars parser,
    vars = done ++ todo →
    NoDup todo →
    (∀ x, x ∈ todo → prefix_mapping qbf !! x = None) →
    (length todo ≤ fuel)%nat →
    ∃ qbf',
      quantifier_loop fuel vars qtype qordering (Z.of_nat (length done)) num_vars
        written parser qbf
      = Ok (num_vars, written ++ todo, parser, qbf') ∧
      prefix qbf' = prefix qbf ∧ matrix qbf' = matrix qbf ∧
      num_alternations qbf' = num_alternations qbf ∧
      warned_free qbf' = warned_free qbf ∧
      max_var qbf' = fold_left Z.max todo (max_var qbf) ∧
      (∀ x, x ∈ todo →
        ∃ quant, prefix_mapping qbf' !! x = Some quant ∧
                 type quant = qtype ∧ ordering quant = qordering) ∧
      (∀ x, x ∉ todo → prefix_mapping qbf' !! x = prefix_mapping qbf !! x).
Proof.
  induction todo as [|x todo IH];
    intros done written qbf fuel num_vars parser Hvars Hnd Hfresh Hfuel.
  - exists qbf. rewrite app_nil_r in *. subst vars.
    assert (Hend : negb (Z.of_nat (length done) <? Z.of_nat (length done)) = true).
    { by rewrite Z.ltb_irrefl. }
    destruct fuel; simpl; rewrite Hend; repeat split; try done.
    all: by intros x Hx; apply elem_of_nil in Hx.
  - destruct fuel as [|fuel]; [simpl in Hfuel; lia|]. cbn [quantifier_loop].
    assert (Hx : vars !! length done = Some x).
    { rewrite Hvars. by apply list_lookup_middle. }
    pose proof (lookup_lt_Some _ _ _ Hx) as Hlt.
    replace (Z.of_nat (length done) <? Z.of_nat (length vars)) with true
      by (symmetry; apply Z.ltb_lt; lia).
    cbn [negb]. unfold al_get. rewrite Nat2Z.id, Hx. cbn [mbind Outcome_bind].
    rewrite (Hfresh x) by apply list_elem_of_here.
    apply NoDup_cons in Hnd as [Hnx Hnd].
    set (qbf1 := mkQBF _ _ _ _ _ _).
    destruct (IH (done ++ [x]) (written ++ [x]) qbf1 fuel num_vars parser)
      as (qbf' & Heq & Hp & Hm & Ha & Hwf & Hmax & Hin & Hout).
    { by rewrite Hvars, <- app_assoc. }
    { done. }
    { intros y Hy. subst qbf1. simpl. rewrite lookup_insert_ne by set_solver.
      apply Hfresh. by apply list_elem_of_further. }
    { simpl in Hfuel. lia. }
    rewrite length_app, Nat2Z.inj_add in Heq. change (Z.of_nat (length [x])) with 1 in Heq.
    exists qbf'. rewrite Heq, <- app_assoc.
    split; [done|]. split; [done|]. split; [done|]. split; [done|]. split; [done|].
    split; [|split].
    + rewrite Hmax. subst qbf1. simpl. f_equal.
      destruct (Z.ltb_spec (max_var qbf) x); lia.
    + intros y Hy. apply elem_of_cons in Hy as [->|Hy]; [|by apply Hin].
      rewrite (Hout x Hnx). subst qbf1. simpl. rewrite lookup_insert_eq. by eexists.
    + intros y Hy. rewrite Hout by set_solver. subst qbf1. simpl.
      rewrite lookup_insert_ne; [done|set_solver].
Qed.

(** X12: a quantifier line whose variables are new and pairwise different
    adds one block at the end of the prefix, with the type of the line, the
    running index as its ordering and the variables in the order of the line.
    Each of the variables is entered in the table of bound variables with
    that type and ordering, the entries of other variables stay, [max_var]
    goes up to the largest variable of the line, and the number of
    alternations goes up by one exactly when an earlier kept line had the
    other type. *)
Theorem fresh_quantifier_line (vars : list Z) (parser : Parser) (qbf : QBF)
    (st : QBFParse) :
  vars ≠ [] → NoDup vars →
  (∀ x, x ∈ vars → prefix_mapping qbf !! x = None) →
  Z.of_nat (length vars) < 2 ^ 32 →
  ∃ parser' qbf' st',
    qbf_parse_quantifier vars parser qbf st = Ok (parser', qbf', st') ∧
    prefix qbf'
    = prefix qbf
      ++ [mkQuantifier (quant_type_of (is_existential st)) (quantifier_index st) vars] ∧
    (∀ x, x ∈ vars →
      ∃ quant, prefix_mapping qbf' !! x = Some quant ∧
               type quant = quant_type_of (is_existential st) ∧
               ordering quant = quantifier_index st) ∧
    (∀ x, x ∉ vars → prefix_mapping qbf' !! x = prefix_mapping qbf !! x) ∧
    max_var qbf' = fold_left Z.max vars (max_var qbf) ∧
    num_alternations qbf'
    = (if saw_quantifier st
          && negb (Bool.eqb (last_is_existential st) (is_existential st))
       then u32 (num_alternations qbf + 1) else num_alternations qbf) ∧
    matrix qbf' = matrix qbf ∧
    quantifier_index st' = u32 (quantifier_index st + 1) ∧
    saw_quantifier st' = true ∧ last_is_existential st' = is_existential st ∧
    state parser' = PARSE_STATE_NONE.
Proof.
  intros Hne Hnd Hfresh Hlen. unfold qbf_parse_quantifier.
  match goal with
  | |- context [quantifier_loop ?f vars ?qt ?qo 0 ?n [] parser qbf] =>
      destruct (quantifier_loop_all_fresh vars qt qo vars [] [] qbf f n parser)
        as (qbf1 & Heq & Hp & Hm & Ha & _ & Hmax & Hin & Hout); [done..|lia|]
  end.
  change (Z.of_nat (length (@nil Z))) with 0 in Heq. rewrite Heq.
  cbn [mbind Outcome_bind].
  assert (Hpos : Z.of_nat (length vars) ≠ 0) by (destruct vars; [done|simpl; lia]).
  destruct (Z.eqb_spec (Z.of_nat (length vars)) 0) as [|_]; [done|].
  eexists _, _, _. split; [done|]. cbn.
  rewrite Hp, Hm, Ha, Hmax. unfold al_append, quant_type_of.
  split; [done|]. split; [done|]. split; [done|]. split; [done|]. split; [done|].
  split; [done|]. split; [done|]. split; [done|]. split; [done|].
  unfold set_state. simpl. done.
Qed.

Lemma fresh_quantifier_line_witness :
  ∃ parser' qbf' st',
    qbf_parse_quantifier [2; 3] (parser_init dup_input true) qbf_e1 st_a
    = Ok (parser', qbf', st') ∧
    prefix qbf' = prefix qbf_e1 ++ [mkQuantifier QUANT_TYPE_UNIVERSAL 1 [2; 3]] ∧
    max_var qbf' = 3 ∧ num_alternations qbf' = 1.
Proof.
  destruct (fresh_quantifier_line [2; 3] (parser_init dup_input true) qbf_e1 st_a)
    as (parser' & qbf' & st' & Heq & Hp & _ & _ & Hmax & Halt & _).
  - done.
  - repeat constructor; set_solver.
  - intros x Hx. apply list_elem_of_In in Hx. simpl in Hx.
    destruct Hx as [<-|[<-|[]]]; reflexivity.
  - simpl. lia.
  - exists parser', qbf', st'. split; [exact Heq|]. split; [exact Hp|].
    split; [exact Hmax|exact Halt].
Defined.








(** ** A stray byte *)

Lemma stray_facts c :
  stray c = true →
  is_white c = false ∧ Ascii.eqb c newline = false ∧ digit_of c = None ∧
  Ascii.eqb c "-"%char = false ∧ Ascii.eqb c "p"%char = false ∧
  Ascii.eqb c "c"%char = false ∧ Ascii.eqb c "e"%char = false ∧
  Ascii.eqb c "a"%char = false.
Proof.
  unfold stray, is_digit. intros H.
  repeat (apply andb_true_iff in H as [H ?]).
  destruct (digit_of c); [done|].
  repeat split; by apply negb_true_iff.
Qed.

(** At a stray byte [expect_literal_list] reads the empty list, without a
    warning and without a step in the input. *)
Lemma expect_literal_list_stray p :
  eof p = false → stray (la p) = true → expect_literal_list p = Ok ([], p).
Proof.
  intros He Hs. destruct (stray_facts _ Hs) as (Hw & Hn & Hd & Hm & _).
  unfold expect_literal_list. cbn [expect_list_loop]. rewrite He, Hn. cbn [orb].
  unfold expect_literal, expect_number, skip_white.
  assert (Hskip : ∀ fuel, skip_white_loop fuel p 0 = Ok (0, p)).
  { intros fuel. destruct fuel; simpl; by rewrite Hw. }
  rewrite Hskip. cbn [mbind Outcome_bind]. rewrite Hm. cbn [mbind Outcome_bind].
  rewrite expect_number_loop_no_digit by done. reflexivity.
Qed.

Lemma handle_newline_stray p :
  stray (la p) = true → handle_newline p = Ok (false, p).
Proof.
  intros Hs. destruct (stray_facts _ Hs) as (Hw & Hn & _).
  unfold handle_newline, skip_white.
  assert (Hskip : ∀ fuel, skip_white_loop fuel p 0 = Ok (0, p)).
  { intros fuel. destruct fuel; simpl; by rewrite Hw. }
  rewrite Hskip. cbn [mbind Outcome_bind]. by rewrite Hn.
Qed.

(** X14: when a line of a QBF file starts with a byte that is neither a
    blank, a newline, a digit, a minus sign nor one of [p], [c], [e], [a],
    the main loop of [qbf_parse] does not end: the byte is taken for the
    start of a clause, the list reader reads an empty clause in front of it
    and leaves it where it is, and the next round starts over.  Whatever the
    fuel, the model runs out of it. *)
Theorem stray_byte_never_ends (fuel : nat) (parser : Parser) (qbf : QBF)
    (st : QBFParse) :
  eof parser = false → stray (la parser) = true →
  state parser = PARSE_STATE_NONE ∨ state parser = PARSE_STATE_CLAUSE →
  qbf_parse_loop fuel parser qbf st = Timeout.
Proof.
  revert parser qbf st. induction fuel as [|fuel IH]; intros parser qbf st He Hs Hst.
  - simpl. by rewrite He.
  - cbn [qbf_parse_loop]. rewrite He. unfold qbf_parse_round.
    rewrite (handle_newline_stray parser Hs). cbn [mbind Outcome_bind].
    destruct (stray_facts _ Hs) as (_ & _ & _ & _ & Hp & Hc & He' & Ha).
    destruct Hst as [Hst|Hst]; rewrite Hst.
    + unfold qbf_parse_none. rewrite Hp, Hc, He', Ha. cbn [mbind Outcome_bind].
      apply IH; [done|done|by right].
    + rewrite (expect_literal_list_stray parser He Hs). cbn [mbind Outcome_bind].
      unfold qbf_parse_clause. apply IH; [done|done|by left].
Qed.

Lemma stray_byte_never_ends_witness :
  qbf_parse_loop 1000 (parser_init "?" false) qbf_new
    (mkQBFParse false false false false 0 0 0 0 "000"%char) = Timeout.
Proof. apply stray_byte_never_ends; [reflexivity|reflexivity|by left]. Defined.

(** ** The tests and the order of the literals *)

Lemma lits_found_perm (Q Q' E E' : list Z) expansion :
  Q ≡ₚ Q' → E ≡ₚ E' → lits_found Q E expansion = lits_found Q' E' expansion.
Proof.
  intros HQ HE. apply Bool.eq_iff_eq_true. rewrite !lits_found_spec.
  assert (Hpos : ∀ x, (∃ j : nat, Q !! j = Some x) ↔ (∃ j : nat, Q' !! j = Some x)).
  { intros x. rewrite <- !list_elem_of_lookup. by rewrite HQ. }
  split; intros H e He.
  - destruct (H e) as (m & j & Hm & Hj); [by rewrite HE|].
    destruct (proj1 (Hpos _) (ex_intro _ j Hj)) as [j' Hj']. by exists m, j'.
  - destruct (H e) as (m & j & Hm & Hj); [by rewrite <- HE|].
    destruct (proj2 (Hpos _) (ex_intro _ j Hj)) as [j' Hj']. by exists m, j'.
Qed.

Lemma num_exist_or_free_perm qbf (Q Q' : list Z) :
  Q ≡ₚ Q' → num_exist_or_free qbf Q = num_exist_or_free qbf Q'.
Proof. intros HQ. unfold num_exist_or_free. by rewrite HQ. Qed.

(** X15: the verdict of the existential-literal test does not depend on
    the order of the literals, of the matrix clause or of the expansion
    clause: on rearranged clauses it returns the same answer. *)
Theorem existential_test_any_order (Q Q' E E' : list Z) (qbf : QBF)
    (expansion : Expansion) :
  all_mapped E expansion → Q ≡ₚ Q' → E ≡ₚ E' →
  ∃ b qbf1 qbf2,
    ferat_test_expansion_origin_in_QBF Q E qbf expansion = Ok (b, qbf1) ∧
    ferat_test_expansion_origin_in_QBF Q' E' qbf expansion = Ok (b, qbf2).
Proof.
  intros Hm HQ HE.
  destruct (ferat_test_mapped Q E qbf expansion Hm) as (q1 & Heq1 & _).
  destruct (ferat_test_mapped Q' E' qbf expansion) as (q2 & Heq2 & _).
  { by apply (all_mapped_perm E E'). }
  eexists _, q1, q2. split; [exact Heq1|]. rewrite Heq2.
  rewrite (lits_found_perm Q Q' E E' expansion HQ HE).
  rewrite (num_exist_or_free_perm qbf Q Q' HQ). by rewrite HE.
Qed.

Lemma existential_test_any_order_witness :
  ∃ b qbf1 qbf2,
    ferat_test_expansion_origin_in_QBF [4; 2] [2; 4] qbf_e12 exp_e12 = Ok (b, qbf1) ∧
    ferat_test_expansion_origin_in_QBF [2; 4] [4; 2] qbf_e12 exp_e12 = Ok (b, qbf2).
Proof.
  apply (existential_test_any_order [4; 2] [2; 4] [2; 4] [4; 2] qbf_e12 exp_e12).
  - apply all_mapped_exp_e12.
  - apply Permutation_swap.
  - apply Permutation_swap.
Defined.

(** ** What the check of a clause leaves alone *)

Lemma ferat_test_frame (Q E : list Z) q e b q' :
  ferat_test_expansion_origin_in_QBF Q E q e = Ok (b, q') →
  erase_warned q' = erase_warned q.
Proof.
  unfold ferat_test_expansion_origin_in_QBF.
  destruct (origin_lits_loop E Q e) as [found| | |]; cbn [mbind Outcome_bind]; try done.
  destruct found; cbn [negb].
  - destruct (count_exist_loop_spec Q q 0) as (q1 & Heq & Hq1). rewrite Heq.
    by intros [= _ <-].
  - by intros [= _ <-].
Qed.

Lemma annotations_loop_frame (Q : list Z) e (E : list Z) :
  ∀ U V q last num b U' V' q',
    annotations_loop E Q U V q e last num = Ok (b, U', V', q') →
    erase_warned q' = erase_warned q.
Proof.
  induction E as [|x E IH]; intros U V q last num b U' V' q'; simpl.
  - by intros [= _ _ _ <-].
  - destruct (exp_var_mappings e !! LIT2VAR x) as [m|]; [|done].
    destruct (prefix_mapping q !! qbf_var m) as [quant|].
    + destruct (quant_blocks_loop _ _ _ _ _ _ _) as [[[U1 V1] num1]| | |];
        cbn [mbind Outcome_bind]; try done.
      destruct (negb _); [by intros [= _ _ _ <-]|].
      destruct (annotation_subset_loop _ _ _) as [sub| | |];
        cbn [mbind Outcome_bind]; try done.
      destruct (negb sub); [by intros [= _ _ _ <-]|].
      destruct (annotation_remove_loop _ _) as [V2| | |];
        cbn [mbind Outcome_bind]; try done.
      apply IH.
    + destruct (negb _).
      * intros [= _ _ _ <-]. apply erase_warned_warn_free.
      * intros H. rewrite (IH _ _ _ _ _ _ _ _ _ H). apply erase_warned_warn_free.
Qed.

Lemma select_candidate_frame i ho idx e q ho' e' (Qc : list Z) :
  select_candidate i ho idx e q = Ok (ho', e', Qc) →
  exp_var_mappings e' = exp_var_mappings e ∧ clauses e' = clauses e ∧
  (clause_origins e' = clause_origins e ∨ clause_origins e' = None).
Proof.
  unfold select_candidate. destruct ho.
  - destruct (clause_origins e) as [origins|] eqn:Ho; [|done].
    destruct (Z.of_nat (length origins) <=? i).
    + destruct (al_get (matrix q) i); cbn [mbind Outcome_bind]; try done.
      intros [= _ <- _]. simpl. auto.
    + destruct (al_get origins idx) as [m| | |]; cbn [mbind Outcome_bind]; try done.
      destruct (Z.of_nat (length (matrix q)) <=? m); [done|].
      destruct (al_get (matrix q) m); cbn [mbind Outcome_bind]; try done.
      intros [= _ <- _]. rewrite Ho. auto.
  - destruct (al_get (matrix q) i); cbn [mbind Outcome_bind]; try done.
    intros [= _ <- _]. auto.
Qed.

Lemma matrix_loop_frame (E : list Z) idx (n : nat) :
  ∀ i ho found U V e q ret found' U' V' e' q',
    matrix_loop n i ho found E idx U V e q = Ok (ret, found', U', V', e', q') →
    erase_warned q' = erase_warned q ∧
    exp_var_mappings e' = exp_var_mappings e ∧ clauses e' = clauses e ∧
    (clause_origins e' = clause_origins e ∨ clause_origins e' = None).
Proof.
  induction n as [|n IH]; intros i ho found U V e q ret found' U' V' e' q'.
  - simpl. intros [= _ _ _ _ <- <-]. auto.
  - cbn [matrix_loop].
    destruct (select_candidate i ho idx e q) as [[[ho1 e1] Qc]| | |] eqn:Hsel;
      cbn [mbind Outcome_bind]; try done.
    destruct (select_candidate_frame _ _ _ _ _ _ _ _ Hsel) as (Hm1 & Hc1 & Ho1).
    assert (Hcomb : ∀ e2 q2,
              erase_warned q' = erase_warned q2 ∧
              exp_var_mappings e' = exp_var_mappings e2 ∧ clauses e' = clauses e2 ∧
              (clause_origins e' = clause_origins e2 ∨ clause_origins e' = None) →
              e2 = e1 → erase_warned q2 = erase_warned q →
              erase_warned q' = erase_warned q ∧
              exp_var_mappings e' = exp_var_mappings e ∧ clauses e' = clauses e ∧
              (clause_origins e' = clause_origins e ∨ clause_origins e' = None)).
    { intros e2 q2 (H1 & H2 & H3 & H4) -> Hq2. split; [congruence|].
      split; [congruence|]. split; [congruence|].
      destruct H4 as [H4|H4], Ho1 as [Ho1|Ho1]; auto; left + right; congruence. }
    destruct (ferat_test_expansion_origin_in_QBF Qc E q e1) as [[passed q1]| | |] eqn:Ht;
      cbn [mbind Outcome_bind]; try done.
    pose proof (ferat_test_frame _ _ _ _ _ _ Ht) as Hq1.
    destruct passed.
    + destruct (ferat_check_annotations_against_expansion Qc E U V q1 e1)
        as [[[[correct U1] V1] q2]| | |] eqn:Ha; cbn [mbind Outcome_bind]; try done.
      pose proof (annotations_loop_frame _ _ _ _ _ _ _ _ _ _ _ _ Ha) as Hq2.
      destruct correct.
      * intros [= _ _ _ _ <- <-]. apply (Hcomb e1 q2); [auto|done|congruence].
      * destruct ho1.
        { intros [= _ _ _ _ <- <-]. apply (Hcomb e1 q2); [auto|done|congruence]. }
        intros H. apply (Hcomb e1 q2); [by eapply IH|done|congruence].
    + destruct ho1.
      * intros [= _ _ _ _ <- <-]. apply (Hcomb e1 q1); [auto|done|congruence].
      * intros H. apply (Hcomb e1 q1); [by eapply IH|done|congruence].
Qed.

(** X16: when the check of an expansion clause returns, with or without
    an origin list, it has left the result as it was or has appended one
    failure with the index of the clause, and nothing else; of the formula it
    has changed at most the record of the free variables warned about; of the
    expansion it has kept the mapping table and the clauses to come, and the
    origin list unless it has dropped it. *)
Theorem clause_check_frame (exp_clause U V U' V' : list Z) (exp_clause_index : Z)
    (expansion expansion' : Expansion) (qbf qbf' : QBF)
    (result result' : FERATCheckResult) :
  ferat_check_expansion_clause exp_clause exp_clause_index U V expansion qbf result
  = Ok (U', V', expansion', qbf', result') →
  (result' = result ∨
   appends_failure result result' FERAT_CHECK_RESULT_INCORRECT_LITERALS
     exp_clause_index ∨
   appends_failure result result' FERAT_CHECK_RESULT_INCORRECT_ANNOTATION
     exp_clause_index) ∧
  erase_warned qbf' = erase_warned qbf ∧
  exp_var_mappings expansion' = exp_var_mappings expansion ∧
  clauses expansion' = clauses expansion ∧
  (clause_origins expansion' = clause_origins expansion ∨
   clause_origins expansion' = None).
Proof.
  unfold ferat_check_expansion_clause.
  destruct (matrix_loop _ _ _ _ _ _ _ _ _ _)
    as [[[[[[ret found] U1] V1] e1] q1]| | |] eqn:Hloop; cbn [mbind Outcome_bind];
    try done.
  pose proof (matrix_loop_frame _ _ _ _ _ _ _ _ _ _ _ _ _ _ _ _ Hloop) as Hframe.
  destruct ret; [|destruct found]; intros [= _ _ <- <- <-]; (split; [|done]).
  - by left.
  - right. right. apply appends_failure_insert.
  - right. left. apply appends_failure_insert.
Qed.

Lemma clause_check_frame_witness :
  erase_warned qbf_e12 = erase_warned qbf_e12 ∧
  (ferat_insert_check_result ferat_check_result_new
     FERAT_CHECK_RESULT_INCORRECT_LITERALS 0 = ferat_check_result_new ∨
   appends_failure ferat_check_result_new
     (ferat_insert_check_result ferat_check_result_new
        FERAT_CHECK_RESULT_INCORRECT_LITERALS 0)
     FERAT_CHECK_RESULT_INCORRECT_LITERALS 0 ∨
   appends_failure ferat_check_result_new
     (ferat_insert_check_result ferat_check_result_new
        FERAT_CHECK_RESULT_INCORRECT_LITERALS 0)
     FERAT_CHECK_RESULT_INCORRECT_ANNOTATION 0).
Proof.
  destruct (clause_check_frame [3; 6] [] [] [] [] 0 exp_e12_unmapped exp_e12_unmapped
              qbf_e12 qbf_e12 ferat_check_result_new
              (ferat_insert_check_result ferat_check_result_new
                 FERAT_CHECK_RESULT_INCORRECT_LITERALS 0)) as (Hr & Hq & _).
  - vm_compute. reflexivity.
  - split; [exact Hq|exact Hr].
Defined.

(** ** The failures of a whole check *)





(** * The load factor of the hash table

    [HTLOADFACTOR(ht) >= HASHTABLE_LOAD_FACTOR_LIMIT] is a comparison of
    floating-point numbers.  What the table needs of it: a table without a
    free slot is over the limit, and a table that is at most half full is
    below it. *)

Section load_factor.
Import SpecFloat.

(** The number of binary digits of a positive number. *)
Lemma digits2_pos_bounds p :
  2 ^ (Zpos (digits2_pos p) - 1) ≤ Zpos p < 2 ^ Zpos (digits2_pos p).
Proof.
  induction p as [p IH|p IH|]; simpl digits2_pos.
  - rewrite Pos2Z.inj_succ.
    replace (Z.succ (Zpos (digits2_pos p)) - 1) with (Z.succ (Zpos (digits2_pos p) - 1)) by lia.
    rewrite !Z.pow_succ_r by lia. lia.
  - rewrite Pos2Z.inj_succ.
    replace (Z.succ (Zpos (digits2_pos p)) - 1) with (Z.succ (Zpos (digits2_pos p) - 1)) by lia.
    rewrite !Z.pow_succ_r by lia. lia.
  - simpl. lia.
Qed.

Lemma Zdigits2_unique m d :
  2 ^ (d - 1) ≤ m < 2 ^ d → 0 < d → Zdigits2 m = d.
Proof.
  intros Hm Hd. destruct m as [|p|p].
  - pose proof (Z.pow_pos_nonneg 2 (d - 1)). lia.
  - simpl. pose proof (digits2_pos_bounds p) as Hp.
    destruct (Z.lt_trichotomy (Zpos (digits2_pos p)) d) as [Hlt|[Heq|Hgt]]; [|done|].
    + assert (2 ^ Zpos (digits2_pos p) ≤ 2 ^ (d - 1)) by (apply Z.pow_le_mono_r; lia). lia.
    + assert (2 ^ d ≤ 2 ^ (Zpos (digits2_pos p) - 1)) by (apply Z.pow_le_mono_r; lia). lia.
  - pose proof (Z.pow_pos_nonneg 2 (d - 1)). lia.
Qed.

Lemma iter_pos_nat {A} (f : A → A) p x :
  iter_pos f p x = Nat.iter (Pos.to_nat p) f x.
Proof.
  revert x. induction p as [p IH|p IH|]; intros x; simpl iter_pos.
  - rewrite !IH, Pos2Nat.inj_xI.
    replace (S (2 * Pos.to_nat p))%nat with (Pos.to_nat p + S (Pos.to_nat p))%nat by lia.
    by rewrite Nat.iter_add, Nat.iter_succ_r.
  - rewrite !IH, Pos2Nat.inj_xO.
    replace (2 * Pos.to_nat p)%nat with (Pos.to_nat p + Pos.to_nat p)%nat by lia.
    by rewrite Nat.iter_add.
  - done.
Qed.

Lemma shr_1_spec m r s :
  0 ≤ m → shr_1 {| shr_m := m; shr_r := r; shr_s := s |}
          = {| shr_m := m / 2; shr_r := Z.odd m; shr_s := r || s |}.
Proof.
  intros Hm. destruct m as [|[p|p|]|p]; try lia; simpl shr_1; f_equal.
  - rewrite Pos2Z.inj_xI. apply Z.div_unique with 1; lia.
  - rewrite Pos2Z.inj_xO. apply Z.div_unique with 0; lia.
Qed.

Lemma shr_iter_spec n m r s :
  0 ≤ m →
  Nat.iter (S n) shr_1 {| shr_m := m; shr_r := r; shr_s := s |}
  = {| shr_m := m / 2 ^ Z.of_nat (S n);
       shr_r := Z.odd (m / 2 ^ Z.of_nat n);
       shr_s := r || s || negb (m mod 2 ^ Z.of_nat n =? 0) |}.
Proof.
  intros Hm. induction n as [|n IH].
  - change (Nat.iter 1 shr_1 ?x) with (shr_1 x). rewrite shr_1_spec by done.
    change (2 ^ Z.of_nat 0) with 1. change (2 ^ Z.of_nat 1) with 2.
    rewrite Z.div_1_r, Z.mod_1_r. simpl. by rewrite orb_false_r.
  - change (Nat.iter (S (S n)) shr_1 ?x) with (shr_1 (Nat.iter (S n) shr_1 x)).
    rewrite IH, shr_1_spec by (apply Z.div_pos; lia).
    assert (H2n : 0 < 2 ^ Z.of_nat n) by (apply Z.pow_pos_nonneg; lia).
    assert (HS : 2 ^ Z.of_nat (S n) = 2 ^ Z.of_nat n * 2)
      by (rewrite Nat2Z.inj_succ, Z.pow_succ_r by lia; lia).
    f_equal.
    + rewrite Z.div_div by lia.
      f_equal. rewrite (Nat2Z.inj_succ (S n)), Z.pow_succ_r by lia. lia.
    + rewrite HS.
      pose proof (Z.div_mod m (2 ^ Z.of_nat n) ltac:(lia)) as Hdm.
      pose proof (Z.mod_pos_bound m (2 ^ Z.of_nat n) ltac:(lia)) as Hb.
      pose proof (Z.div_pos m (2 ^ Z.of_nat n) Hm H2n) as Hq.
      set (q := m / 2 ^ Z.of_nat n) in *. set (t := m mod 2 ^ Z.of_nat n) in *.
      assert (Hmod : m mod (2 ^ Z.of_nat n * 2) = t + 2 ^ Z.of_nat n * (q mod 2)).
      { pose proof (Z.div_mod q 2 ltac:(lia)) as Hq2.
        pose proof (Z.mod_pos_bound q 2 ltac:(lia)) as Hqb.
        symmetry. apply Z.mod_unique with (q / 2); [nia|nia]. }
      rewrite Hmod, Zodd_mod.
      pose proof (Z.mod_pos_bound q 2 ltac:(lia)) as Hqb.
      destruct r, s; simpl; try done;
        destruct (Z.eqb_spec (q mod 2) 1), (Z.eqb_spec t 0),
          (Z.eqb_spec (t + 2 ^ Z.of_nat n * (q mod 2)) 0); simpl; try done; nia.
Qed.

Lemma loc_of_shr_record_of_loc m l :
  loc_of_shr_record (shr_record_of_loc m l) = l.
Proof. by destruct l as [|[]]. Qed.

Lemma shr_m_record_of_loc m l : shr_m (shr_record_of_loc m l) = m.
Proof. by destruct l as [|[]]. Qed.

Lemma round_nearest_even_bounds m l :
  m ≤ round_nearest_even m l ≤ m + 1.
Proof. destruct l as [|[]]; simpl; try lia. destruct (Z.even m); lia. Qed.

(** The second half of [binary_round_aux] for binary32: a mantissa of 24
    digits is kept, and [2 ^ 24] is brought back to 24 digits. *)
Lemma round_finish m e :
  8388608 ≤ m ≤ 16777216 → -149 ≤ e ≤ 103 →
  (let '(mrs, e') := shr_fexp 24 128 m e loc_Exact in
   match shr_m mrs with
   | 0 => S754_zero false
   | Zpos m => if e' <=? 128 - 24 then S754_finite false m e' else S754_infinity false
   | _ => S754_nan
   end)
  = if m =? 16777216 then S754_finite false 8388608 (e + 1)
    else S754_finite false (Z.to_pos m) e.
Proof.
  intros Hm He. unfold shr_fexp, fexp, emin.
  destruct (Z.eqb_spec m 16777216) as [->|Hne].
  - change (Zdigits2 16777216) with 25.
    rewrite Z.max_l by lia. replace (25 + e - 24 - e) with 1 by lia.
    simpl. case Z.leb_spec; [done|lia].
  - rewrite (Zdigits2_unique m 24) by lia.
    rewrite Z.max_l by lia. replace (24 + e - 24 - e) with 0 by lia.
    simpl. destruct m as [|p|p]; try lia.
    case Z.leb_spec; [done|lia].
Qed.

Lemma shr_m_iter k m l :
  0 ≤ m → shr_m (Nat.iter k shr_1 (shr_record_of_loc m l)) = m / 2 ^ Z.of_nat k.
Proof.
  intros Hm. destruct k as [|k].
  - simpl. by rewrite shr_m_record_of_loc, Z.div_1_r.
  - by destruct l as [|[]]; unfold shr_record_of_loc; rewrite shr_iter_spec.
Qed.

(** [binary_round_aux] for binary32 on a mantissa of [24 + k] digits: [k]
    digits are shifted out, the rest is rounded to nearest even and brought
    back to 24 digits. *)
Lemma binary_round_aux_24 (k : nat) mz ez l :
  2 ^ (23 + Z.of_nat k) ≤ mz < 2 ^ (24 + Z.of_nat k) →
  -149 ≤ ez → ez + Z.of_nat k ≤ 103 →
  binary_round_aux 24 128 false mz ez l =
    let mrs := Nat.iter k shr_1 (shr_record_of_loc mz l) in
    let m := round_nearest_even (shr_m mrs) (loc_of_shr_record mrs) in
    if m =? 16777216 then S754_finite false 8388608 (ez + Z.of_nat k + 1)
    else S754_finite false (Z.to_pos m) (ez + Z.of_nat k).
Proof.
  intros Hmz Hez1 Hez2.
  assert (H0 : 0 ≤ mz) by (pose proof (Z.pow_pos_nonneg 2 (23 + Z.of_nat k)); lia).
  unfold binary_round_aux.
  assert (Hfirst : shr_fexp 24 128 mz ez l
                   = (Nat.iter k shr_1 (shr_record_of_loc mz l), ez + Z.of_nat k)).
  { unfold shr_fexp, fexp, emin.
    assert (Hdig : Zdigits2 mz = 24 + Z.of_nat k).
    { apply Zdigits2_unique; [|lia].
      by replace (24 + Z.of_nat k - 1) with (23 + Z.of_nat k) by lia. }
    rewrite Hdig, Z.max_l by lia.
    replace (24 + Z.of_nat k + ez - 24 - ez) with (Z.of_nat k) by lia.
    destruct k as [|k]; [simpl; by rewrite Z.add_0_r|].
    unfold shr. rewrite (Zpos_P_of_succ_nat k : Z.of_nat (S k) = _) at 1.
    rewrite <- Zpos_P_of_succ_nat.
    by rewrite iter_pos_nat, SuccNat2Pos.id_succ. }
  rewrite Hfirst. cbv zeta.
  apply round_finish; [|lia].
  pose proof (round_nearest_even_bounds
    (shr_m (Nat.iter k shr_1 (shr_record_of_loc mz l)))
    (loc_of_shr_record (Nat.iter k shr_1 (shr_record_of_loc mz l)))) as Hr.
  rewrite shr_m_iter in Hr |- * by done.
  assert (H2k : 0 < 2 ^ Z.of_nat k) by (apply Z.pow_pos_nonneg; lia).
  assert (8388608 ≤ mz / 2 ^ Z.of_nat k < 16777216).
  { rewrite !Z.pow_add_r in Hmz by lia. change (2 ^ 23) with 8388608 in Hmz.
    change (2 ^ 24) with 16777216 in Hmz.
    split; [apply Z.div_le_lower_bound; lia|apply Z.div_lt_upper_bound; lia]. }
  lia.
Qed.

Lemma binary_round_aux_exact mz ez :
  8388608 ≤ mz < 16777216 → -149 ≤ ez ≤ 103 →
  binary_round_aux 24 128 false mz ez loc_Exact = S754_finite false (Z.to_pos mz) ez.
Proof.
  intros Hmz Hez. rewrite (binary_round_aux_24 0) by (simpl Z.of_nat; rewrite ?Z.add_0_r; lia).
  cbv zeta. simpl Nat.iter. unfold shr_record_of_loc, loc_of_shr_record, shr_m, round_nearest_even.
  simpl Z.of_nat. rewrite Z.add_0_r.
  destruct (Z.eqb_spec mz 16777216); [lia|done].
Qed.

Lemma pos_iter_xO p n : Zpos (Pos.iter xO p n) = Zpos p * 2 ^ Zpos n.
Proof.
  induction n as [|n IH] using Pos.peano_ind.
  - simpl. lia.
  - rewrite Pos.iter_succ, Pos2Z.inj_xO, IH, Pos2Z.inj_succ, Z.pow_succ_r by lia. lia.
Qed.

Lemma mod_pow2_succ m n :
  0 ≤ m → 0 ≤ n →
  m mod 2 ^ (n + 1) = m mod 2 ^ n + 2 ^ n * ((m / 2 ^ n) mod 2).
Proof.
  intros Hm Hn.
  assert (H2n : 0 < 2 ^ n) by (apply Z.pow_pos_nonneg; lia).
  rewrite Z.pow_add_r by lia. change (2 ^ 1) with 2.
  pose proof (Z.div_mod m (2 ^ n) ltac:(lia)) as Hdm.
  pose proof (Z.mod_pos_bound m (2 ^ n) ltac:(lia)) as Hb.
  pose proof (Z.div_pos m (2 ^ n) Hm H2n) as Hq.
  set (q := m / 2 ^ n) in *. set (t := m mod 2 ^ n) in *.
  pose proof (Z.div_mod q 2 ltac:(lia)) as Hq2.
  pose proof (Z.mod_pos_bound q 2 ltac:(lia)) as Hqb.
  symmetry. apply Z.mod_unique with (q / 2); [nia|nia].
Qed.

Lemma round_nearest_even_record q r st :
  round_nearest_even q (loc_of_shr_record {| shr_m := q; shr_r := r; shr_s := st |})
  = if r && (st || Z.odd q) then q + 1 else q.
Proof.
  destruct r, st; simpl; try done. rewrite <- Z.negb_odd. by destruct (Z.odd q).
Qed.

(** [(float)s] for a [size_t] that is not 0: a mantissa of 24 digits and an
    exponent, of the value [size_round s]. *)
Lemma float_of_size_spec s :
  0 < s < 2 ^ 64 →
  ∃ m e, float_of_size s = S754_finite false m e ∧
         8388608 ≤ Zpos m < 16777216 ∧ -23 ≤ e ≤ 41 ∧
         Zpos m * 2 ^ (e + 23) = size_round s * 8388608.
Proof.
  intros Hs. destruct s as [|p|p]; try lia.
  pose proof (digits2_pos_bounds p) as Hd.
  set (d := Zpos (digits2_pos p)) in *.
  assert (Hd0 : 0 < d) by done.
  assert (Hlog : Z.log2 (Zpos p) = d - 1).
  { apply Z.log2_unique; [lia|]. replace (Z.succ (d - 1)) with d by lia. done. }
  assert (Hd64 : d ≤ 64).
  { destruct (Z.le_gt_cases d 64) as [|Hgt]; [done|].
    assert (2 ^ 64 ≤ 2 ^ (d - 1)) by (apply Z.pow_le_mono_r; lia). lia. }
  unfold float_of_size, binary_normalize, binary_round, shl_align, fexp, emin.
  fold d. rewrite Z.add_0_r, Z.max_l, Z.sub_0_r by lia.
  unfold size_round. rewrite Hlog. replace (d - 1 - 23) with (d - 24) by lia.
  destruct (d - 24) as [|k|k] eqn:Hk.
  - (* 24 digits *)
    replace d with 24 in Hd by lia. change (2 ^ (24 - 1)) with 8388608 in Hd.
    change (2 ^ 24) with 16777216 in Hd.
    rewrite binary_round_aux_exact by lia. rewrite Z.leb_refl.
    eexists _, _. split; [done|]. simpl Z.to_pos. split; [lia|]. split; [lia|]. lia.
  - (* more than 24 digits *)
    assert (Hkn : Zpos k = Z.of_nat (Pos.to_nat k)) by lia.
    replace (Z.pos k <=? 0) with false by lia.
    assert (Hpk : 2 ^ (23 + Zpos k) ≤ Zpos p < 2 ^ (24 + Zpos k)).
    { replace (23 + Zpos k) with (d - 1) by lia. by replace (24 + Zpos k) with d by lia. }
    rewrite (binary_round_aux_24 (Pos.to_nat k)) by (rewrite <- ?Hkn; lia).
    destruct (Pos.to_nat k) as [|n] eqn:Hn; [lia|].
    cbv zeta. unfold shr_record_of_loc. rewrite shr_iter_spec by lia.
    unfold shr_m at 1 2. rewrite round_nearest_even_record.
    rewrite <- Hkn, !Z.add_0_l. simpl orb.
    assert (H2n : 0 < 2 ^ Z.of_nat n) by (apply Z.pow_pos_nonneg; lia).
    assert (Hk2 : 2 ^ Zpos k = 2 ^ Z.of_nat n * 2).
    { rewrite Hkn, Nat2Z.inj_succ, Z.pow_succ_r by lia. lia. }
    pose proof (mod_pow2_succ (Zpos p) (Z.of_nat n) ltac:(lia) ltac:(lia)) as Hmod.
    replace (Z.of_nat n + 1) with (Zpos k) in Hmod by lia.
    assert (Hq : 8388608 ≤ Zpos p / 2 ^ Zpos k < 16777216).
    { rewrite !Z.pow_add_r in Hpk by lia. change (2 ^ 23) with 8388608 in Hpk.
      change (2 ^ 24) with 16777216 in Hpk.
      assert (0 < 2 ^ Zpos k) by lia.
      split; [apply Z.div_le_lower_bound; lia|apply Z.div_lt_upper_bound; lia]. }
    assert (Hbit : (Zpos p / 2 ^ Z.of_nat n) mod 2 = Z.b2z (Z.odd (Zpos p / 2 ^ Z.of_nat n))).
    { rewrite Zodd_mod. pose proof (Z.mod_pos_bound (Zpos p / 2 ^ Z.of_nat n) 2 ltac:(lia)).
      destruct (Z.eqb_spec ((Zpos p / 2 ^ Z.of_nat n) mod 2) 1) as [->|]; simpl; lia. }
    pose proof (Z.mod_pos_bound (Zpos p) (2 ^ Z.of_nat n) ltac:(lia)) as Hlow.
    set (q := Zpos p / 2 ^ Zpos k) in *.
    set (low := Zpos p mod 2 ^ Z.of_nat n) in *.
    set (bit := Z.odd (Zpos p / 2 ^ Z.of_nat n)) in *.
    assert (Hup : (2 ^ Zpos k <? 2 * (Zpos p mod 2 ^ Zpos k))
                  || ((2 ^ Zpos k =? 2 * (Zpos p mod 2 ^ Zpos k)) && Z.odd q)
                  = bit && (negb (low =? 0) || Z.odd q)).
    { rewrite Hmod, Hbit, Hk2.
      destruct bit, (Z.odd q), (Z.eqb_spec low 0); simpl Z.b2z; simpl negb; simpl orb; simpl andb;
        repeat first [rewrite andb_true_r|rewrite andb_false_r|rewrite orb_false_r|rewrite orb_true_r];
        try done; try (case Z.ltb_spec; intros; try done; try nia);
        try (case Z.eqb_spec; intros; try done; try nia);
        try (case Z.ltb_spec; intros; try done; try nia). }
    rewrite Hup.
    destruct (bit && (negb (low =? 0) || Z.odd q)).
    + destruct (Z.eqb_spec (q + 1) 16777216) as [He|Hne].
      * eexists _, _. split; [done|]. split; [lia|]. split; [lia|].
        rewrite He. replace (Zpos k + 1 + 23) with (1 + (Zpos k + 23)) by lia.
        rewrite Z.pow_add_r, (Z.pow_add_r 2 (Zpos k)) by lia.
        change (2 ^ 1) with 2. change (2 ^ 23) with 8388608. lia.
      * eexists _, _. split; [done|]. rewrite Z2Pos.id by lia.
        split; [lia|]. split; [lia|].
        rewrite Z.pow_add_r by lia. change (2 ^ 23) with 8388608. ring.
    + destruct (Z.eqb_spec q 16777216) as [He|Hne]; [lia|].
      eexists _, _. split; [done|]. rewrite Z2Pos.id by lia.
      split; [lia|]. split; [lia|].
      rewrite Z.pow_add_r by lia. change (2 ^ 23) with 8388608. ring.
  - (* fewer than 24 digits *)
    assert (Hmz : Zpos (Pos.iter xO p k) = Zpos p * 2 ^ Zpos k) by apply pos_iter_xO.
    assert (Hpow : 2 ^ (d - 1) * 2 ^ Zpos k = 8388608).
    { rewrite <- Z.pow_add_r by lia. by replace (d - 1 + Zpos k) with 23 by lia. }
    assert (H2k : 0 < 2 ^ Zpos k) by (apply Z.pow_pos_nonneg; lia).
    assert (H2d : 0 < 2 ^ (d - 1)) by (apply Z.pow_pos_nonneg; lia).
    assert (Hpd : 2 ^ d = 2 ^ (d - 1) * 2).
    { replace d with (Z.succ (d - 1)) at 1 by lia. rewrite Z.pow_succ_r by lia. lia. }
    assert (Hb : 8388608 ≤ Zpos (Pos.iter xO p k) < 16777216).
    { rewrite Hmz. split.
      - rewrite <- Hpow. apply Z.mul_le_mono_nonneg_r; lia.
      - replace 16777216 with (2 ^ d * 2 ^ Zpos k) by (rewrite Hpd; lia).
        apply Z.mul_lt_mono_pos_r; lia. }
    change (PosDef.Pos.iter xO p k) with (Pos.iter xO p k).
    assert (Hek : -149 ≤ Z.neg k ≤ 103) by lia.
    rewrite binary_round_aux_exact by done.
    change (Z.neg k <=? 0) with true. cbv iota.
    eexists _, _. split; [done|]. simpl Z.to_pos. split; [lia|]. split; [lia|].
    rewrite Hmz. replace (Z.neg k + 23) with (d - 1) by lia.
    rewrite <- Hpow. ring.
Qed.

Lemma size_round_bounds s :
  0 < s → 2 ^ Z.log2 s ≤ size_round s ≤ 2 ^ (Z.log2 s + 1).
Proof.
  intros Hs. pose proof (Z.log2_spec s Hs) as Hlog.
  replace (Z.succ (Z.log2 s)) with (Z.log2 s + 1) in Hlog by lia.
  unfold size_round. case Z.leb_spec; intros Hk; [lia|].
  set (k := Z.log2 s - 23) in *.
  assert (H2k : 0 < 2 ^ k) by (apply Z.pow_pos_nonneg; lia).
  assert (Hl : 2 ^ Z.log2 s = 8388608 * 2 ^ k).
  { replace (Z.log2 s) with (23 + k) by lia. by rewrite Z.pow_add_r by lia. }
  assert (Hl' : 2 ^ (Z.log2 s + 1) = 16777216 * 2 ^ k).
  { replace (Z.log2 s + 1) with (24 + k) by lia. by rewrite Z.pow_add_r by lia. }
  assert (Hq : 8388608 ≤ s / 2 ^ k < 16777216).
  { split; [apply Z.div_le_lower_bound; lia|apply Z.div_lt_upper_bound; lia]. }
  rewrite Hl, Hl'.
  destruct (_ || _); nia.
Qed.

Lemma size_round_mono s t : 0 < s ≤ t → size_round s ≤ size_round t.
Proof.
  intros Hst.
  pose proof (Z.log2_le_mono s t ltac:(lia)) as Hlog.
  destruct (Z.eq_dec (Z.log2 s) (Z.log2 t)) as [Heq|Hne].
  - unfold size_round. rewrite <- Heq.
    case Z.leb_spec; intros Hk; [lia|].
    set (k := Z.log2 s - 23) in *.
    assert (H2k : 0 < 2 ^ k) by (apply Z.pow_pos_nonneg; lia).
    pose proof (Z.div_mod s (2 ^ k) ltac:(lia)) as Hs.
    pose proof (Z.div_mod t (2 ^ k) ltac:(lia)) as Ht.
    pose proof (Z.mod_pos_bound s (2 ^ k) ltac:(lia)) as Hrs.
    pose proof (Z.mod_pos_bound t (2 ^ k) ltac:(lia)) as Hrt.
    pose proof (Z.div_le_mono s t (2 ^ k) ltac:(lia) ltac:(lia)) as Hq.
    set (qs := s / 2 ^ k) in *. set (qt := t / 2 ^ k) in *.
    set (rs := s mod 2 ^ k) in *. set (rt := t mod 2 ^ k) in *.
    destruct (Z.eq_dec qs qt) as [Hqq|Hqq].
    + rewrite <- Hqq. assert (rs ≤ rt) by nia.
      destruct (Z.odd qs);
        repeat first [rewrite andb_true_r|rewrite andb_false_r|rewrite orb_false_r];
        repeat (first [case Z.ltb_spec|case Z.eqb_spec]; intros); simpl; nia.
    + assert (qs + 1 ≤ qt) by lia.
      destruct (_ || _), (_ || _); nia.
  - pose proof (size_round_bounds s ltac:(lia)) as Hbs.
    pose proof (size_round_bounds t ltac:(lia)) as Hbt.
    assert (2 ^ (Z.log2 s + 1) ≤ 2 ^ Z.log2 t)
      by (apply Z.pow_le_mono_r; [lia|]; pose proof (Z.log2_nonneg s); lia).
    lia.
Qed.

Lemma size_round_double s : 0 < s → size_round (2 * s) = 2 * size_round s.
Proof.
  intros Hs. unfold size_round. rewrite Z.log2_double by done.
  pose proof (Z.log2_nonneg s) as Hl0.
  replace (Z.succ (Z.log2 s) - 23) with (Z.log2 s - 23 + 1) by lia.
  set (k := Z.log2 s - 23).
  case (Z.leb_spec (k + 1) 0); intros Hk1.
  { case Z.leb_spec; intros; lia. }
  assert (H2k : 0 < 2 ^ k) by (apply Z.pow_pos_nonneg; lia).
  assert (Hpk : 2 ^ (k + 1) = 2 * 2 ^ k) by (rewrite Z.pow_add_r by lia; change (2 ^ 1) with 2; lia).
  rewrite Hpk, Z.mul_mod_distr_l, Z.div_mul_cancel_l by lia.
  case Z.leb_spec; intros Hk.
  - assert (k = 0) as -> by lia. change (2 ^ 0) with 1.
    rewrite Z.mod_1_r, Z.div_1_r. simpl. lia.
  - replace (2 * 2 ^ k <? 2 * (2 * (s mod 2 ^ k))) with (2 ^ k <? 2 * (s mod 2 ^ k))
      by (do 2 case Z.ltb_spec; intros; try done; lia).
    replace (2 * 2 ^ k =? 2 * (2 * (s mod 2 ^ k))) with (2 ^ k =? 2 * (s mod 2 ^ k))
      by (do 2 case Z.eqb_spec; intros; try done; lia).
    destruct (_ || _); ring.
Qed.

(** Two binary32 numbers of 24 digits compare as their exponents, then their
    mantissas. *)
Lemma canonical_le m1 e1 m2 e2 :
  8388608 ≤ m1 < 16777216 → 8388608 ≤ m2 < 16777216 →
  0 ≤ e1 → 0 ≤ e2 →
  m1 * 2 ^ e1 ≤ m2 * 2 ^ e2 → e1 < e2 ∨ (e1 = e2 ∧ m1 ≤ m2).
Proof.
  intros Hm1 Hm2 He1 He2 Hle.
  destruct (Z.lt_trichotomy e1 e2) as [?|[->|Hgt]]; [by left| |].
  - right. split; [done|].
    assert (0 < 2 ^ e2) by (apply Z.pow_pos_nonneg; lia). nia.
  - exfalso.
    assert (H2 : 0 < 2 ^ e2) by (apply Z.pow_pos_nonneg; lia).
    assert (2 ^ (e2 + 1) ≤ 2 ^ e1) by (apply Z.pow_le_mono_r; lia).
    rewrite Z.pow_add_r in * by lia. change (2 ^ 1) with 2 in *. nia.
Qed.

(** The quotient of two binary32 numbers of 24 digits. *)
Lemma SFdiv_canonical m1 e1 m2 e2 :
  8388608 ≤ Zpos m1 < 16777216 → 8388608 ≤ Zpos m2 < 16777216 →
  -23 ≤ e1 ≤ 41 → -23 ≤ e2 ≤ 41 →
  ∃ m e, SFdiv 24 128 (S754_finite false m1 e1) (S754_finite false m2 e2)
         = S754_finite false m e ∧
    8388608 ≤ Zpos m < 16777216 ∧
    e1 - e2 - 24 ≤ e ∧
    (Zpos m2 ≤ Zpos m1 → e1 - e2 - 23 ≤ e) ∧
    (Zpos m1 ≤ Zpos m2 → e ≤ e1 - e2 - 23 ∧ (e = e1 - e2 - 23 → Zpos m = 8388608)) ∧
    e ≤ e1 - e2 - 22 ∧ (e = e1 - e2 - 22 → Zpos m = 8388608).
Proof.
  intros Hm1 Hm2 He1 He2.
  unfold SFdiv, SFdiv_core_binary, fexp, emin.
  rewrite (Zdigits2_unique (Zpos m1) 24), (Zdigits2_unique (Zpos m2) 24) by lia.
  rewrite Z.max_l, Z.min_l by lia.
  replace (e1 - e2 - (24 + e1 - (24 + e2) - 24)) with 24 by lia.
  rewrite Z.shiftl_mul_pow2 by lia. change (2 ^ 24) with 16777216.
  pose proof (Z_div_mod (Zpos m1 * 16777216) (Zpos m2) ltac:(lia)) as Hdm.
  destruct (Z.div_eucl (Zpos m1 * 16777216) (Zpos m2)) as [q r].
  destruct Hdm as [Hdm Hr].
  replace (24 + e1 - (24 + e2) - 24) with (e1 - e2 - 24) by lia.
  set (l := new_location (Zpos m2) r).
  destruct (Z.le_gt_cases (Zpos m2) (Zpos m1)) as [Hge|Hlt].
  - (* a quotient of 25 digits *)
    assert (Hq : 16777216 ≤ q < 33554432) by nia.
    rewrite (binary_round_aux_24 1) by (simpl Z.of_nat; simpl Z.add; first [lia|done]).
    cbv zeta. simpl Z.of_nat.
    pose proof (round_nearest_even_bounds
      (shr_m (Nat.iter 1 shr_1 (shr_record_of_loc q l)))
      (loc_of_shr_record (Nat.iter 1 shr_1 (shr_record_of_loc q l)))) as Hrb.
    rewrite shr_m_iter in Hrb |- * by lia. change (2 ^ Z.of_nat 1) with 2 in *.
    assert (Hq2 : 8388608 ≤ q / 2 < 16777216).
    { split; [apply Z.div_le_lower_bound; lia|apply Z.div_lt_upper_bound; lia]. }
    destruct (Z.eq_dec (Zpos m1) (Zpos m2)) as [Heq|Hne].
    + (* equal mantissas: the quotient is exact *)
      assert (q = 16777216 ∧ r = 0) as [-> ->] by nia.
      subst l. unfold new_location, new_location_even, new_location_odd.
      destruct (Z.even (Zpos m2)); simpl;
        eexists _, _; (split; [done|]); lia.
    + set (m' := round_nearest_even (q / 2) _) in *.
      destruct (Z.eqb_spec m' 16777216) as [He|Hne'].
      * eexists _, _. split; [done|]. lia.
      * eexists _, _. split; [done|]. rewrite Z2Pos.id by lia. lia.
  - (* a quotient of 24 digits *)
    assert (Hq : 8388608 ≤ q < 16777216) by nia.
    rewrite (binary_round_aux_24 0) by (simpl Z.of_nat; simpl Z.add; first [lia|done]).
    cbv zeta. simpl Z.of_nat.
    pose proof (round_nearest_even_bounds
      (shr_m (Nat.iter 0 shr_1 (shr_record_of_loc q l)))
      (loc_of_shr_record (Nat.iter 0 shr_1 (shr_record_of_loc q l)))) as Hrb.
    rewrite shr_m_iter in Hrb |- * by lia. change (2 ^ Z.of_nat 0) with 1 in *.
    rewrite Z.div_1_r in *.
    set (m' := round_nearest_even q _) in *.
    destruct (Z.eqb_spec m' 16777216) as [He|Hne'].
    + eexists _, _. split; [done|]. lia.
    + eexists _, _. split; [done|]. rewrite Z2Pos.id by lia. lia.
Qed.

(** The promotion of a [float] of 24 digits to [double] is exact. *)
Lemma double_of_float_canonical m e :
  8388608 ≤ Zpos m < 16777216 → -200 ≤ e ≤ 200 →
  double_of_float (S754_finite false m e)
  = S754_finite false (Pos.iter xO m 29) (e - 29).
Proof.
  intros Hm He. unfold double_of_float, cond_Zopp, binary_normalize, binary_round.
  unfold shl_align, fexp, emin.
  assert (Hd : Zpos (digits2_pos m) = 24) by (apply (Zdigits2_unique (Zpos m) 24); lia).
  rewrite Hd, Z.max_l by lia.
  replace (24 + e - 53 - e) with (Z.neg 29) by lia. cbv iota beta.
  change (PosDef.Pos.iter xO m 29) with (Pos.iter xO m 29).
  pose proof (pos_iter_xO m 29) as Hmz. change (2 ^ 29) with 536870912 in Hmz.
  unfold binary_round_aux, shr_fexp, fexp, emin.
  rewrite (Zdigits2_unique (Zpos (Pos.iter xO m 29)) 53)
    by (change (2 ^ (53 - 1)) with 4503599627370496;
        change (2 ^ 53) with 9007199254740992; lia).
  rewrite Z.max_l by lia.
  replace (53 + (24 + e - 53) - 53 - (24 + e - 53)) with 0 by lia.
  unfold shr, shr_record_of_loc, loc_of_shr_record, shr_m, round_nearest_even.
  rewrite (Zdigits2_unique (Zpos (Pos.iter xO m 29)) 53)
    by (change (2 ^ (53 - 1)) with 4503599627370496;
        change (2 ^ 53) with 9007199254740992; lia).
  rewrite Z.max_l by lia.
  replace (53 + (24 + e - 53) - 53 - (24 + e - 53)) with 0 by lia.
  cbv iota beta. case Z.leb_spec; intros; [|lia].
  f_equal. lia.
Qed.

(** A full table is over the load limit, *)
Lemma load_limit_full stored slots :
  0 < slots ≤ stored → stored < 2 ^ 64 → load_limit stored slots = true.
Proof.
  intros Hs Hb. unfold load_limit.
  destruct (float_of_size_spec stored ltac:(lia)) as (m1 & e1 & -> & Hm1 & He1 & Hv1).
  destruct (float_of_size_spec slots ltac:(lia)) as (m2 & e2 & -> & Hm2 & He2 & Hv2).
  pose proof (size_round_mono slots stored ltac:(lia)) as Hmono.
  destruct (canonical_le (Zpos m2) (e2 + 23) (Zpos m1) (e1 + 23)) as [Hlt|[Heq Hle]];
    [lia..| | |].
  { rewrite Hv1, Hv2. lia. }
  all: destruct (SFdiv_canonical m1 e1 m2 e2) as (m & e & Hdiv & Hm & Hlo & Hge & _ & Hhi & _);
    [lia..|];
    rewrite Hdiv, double_of_float_canonical by lia;
    unfold SFleb, SFcompare, HASHTABLE_LOAD_FACTOR_LIMIT;
    assert (He : -53 < e - 29) by lia;
    apply Z.compare_lt_iff in He; by rewrite He.
Qed.

(** and a table that is at most half full is below it. *)
Lemma load_limit_half stored slots :
  0 ≤ stored → 2 * stored ≤ slots → 0 < slots < 2 ^ 64 →
  load_limit stored slots = false.
Proof.
  intros H0 Hs Hb.
  destruct (float_of_size_spec slots ltac:(lia)) as (m2 & e2 & Hf2 & Hm2 & He2 & Hv2).
  destruct (Z.eq_dec stored 0) as [->|Hne].
  { unfold load_limit. rewrite Hf2. done. }
  destruct (float_of_size_spec stored ltac:(lia)) as (m1 & e1 & Hf1 & Hm1 & He1 & Hv1).
  pose proof (size_round_mono (2 * stored) slots ltac:(lia)) as Hmono.
  rewrite size_round_double in Hmono by lia.
  destruct (canonical_le (Zpos m1) (e1 + 1 + 23) (Zpos m2) (e2 + 23)) as [Hlt|[Heq Hle]];
    [lia..| | |].
  { rewrite Hv2. replace (e1 + 1 + 23) with (e1 + 23 + 1) by lia.
    rewrite Z.pow_add_r by lia. change (2 ^ 1) with 2.
    replace (Zpos m1 * (2 ^ (e1 + 23) * 2)) with (2 * (Zpos m1 * 2 ^ (e1 + 23))) by ring.
    rewrite Hv1. lia. }
  all: destruct (SFdiv_canonical m1 e1 m2 e2) as (m & e & Hdiv & Hm & Hlo & _ & Hle' & Hhi & Hhi');
    [lia..|];
    unfold load_limit; rewrite Hf1, Hf2, Hdiv, double_of_float_canonical by lia;
    unfold SFleb, SFcompare, HASHTABLE_LOAD_FACTOR_LIMIT.
  - destruct (Z.eq_dec e (-24)) as [->|].
    + assert (Zpos m = 8388608) as Hm8 by lia. injection Hm8 as ->. done.
    + assert (He : e - 29 < -53) by lia.
      apply Z.compare_gt_iff in He. by rewrite He.
  - destruct (Hle' Hle) as [Hle1 Hle2].
    destruct (Z.eq_dec e (-24)) as [->|].
    + assert (Zpos m = 8388608) as Hm8 by lia. injection Hm8 as ->. done.
    + assert (He : e - 29 < -53) by lia.
      apply Z.compare_gt_iff in He. by rewrite He.
Qed.

End load_factor.

(** X23: the load test [HTLOADFACTOR(ht) >= HASHTABLE_LOAD_FACTOR_LIMIT],
    taken in floating-point arithmetic, holds for every table without a free
    slot and fails for every table that is at most half full, whatever the
    rounding of the two counts to [float] does. *)
Theorem load_test_brackets (stored slots : Z) :
  0 ≤ stored < 2 ^ 64 → 0 < slots < 2 ^ 64 →
  (slots ≤ stored → load_limit stored slots = true) ∧
  (2 * stored ≤ slots → load_limit stored slots = false).
Proof.
  intros Hst Hsl. split; intros H.
  - apply load_limit_full; lia.
  - apply load_limit_half; lia.
Qed.

Lemma load_test_brackets_witness :
  load_limit (2 ^ 64 - 1) (2 ^ 64 - 1) = true ∧ load_limit (2 ^ 63 - 1) (2 ^ 64 - 1) = false.
Proof.
  destruct (load_test_brackets (2 ^ 64 - 1) (2 ^ 64 - 1)) as [H1 _]; [lia|lia|].
  destruct (load_test_brackets (2 ^ 63 - 1) (2 ^ 64 - 1)) as [_ H2]; [lia|lia|].
  split; [apply H1; lia|apply H2; lia].
Defined.

(** * The hash table *)

Lemma u64_small (x : Z) : 0 ≤ x < 2 ^ 64 → u64 x = x.
Proof. intros H. unfold u64. by apply Z.mod_small. Qed.

Lemma KEY_small (idx : Z) : 0 ≤ idx < 2 ^ 63 → KEY idx = 2 * idx.
Proof. intros H. unfold KEY. rewrite shiftl_1_mul, u64_small; lia. Qed.

Lemma VAL_small (idx : Z) : 0 ≤ idx < 2 ^ 63 → VAL idx = 2 * idx + 1.
Proof. intros H. unfold VAL. rewrite KEY_small, u64_small; lia. Qed.

Lemma FLAGBIT_range (idx : Z) : 0 ≤ FLAGBIT idx < 32.
Proof. unfold FLAGBIT. apply Z.mod_pos_bound. lia. Qed.

Lemma flag_index_eq (idx idx' : Z) :
  FLAGWORD idx' = FLAGWORD idx → FLAGBIT idx' = FLAGBIT idx → idx' = idx.
Proof.
  unfold FLAGWORD, FLAGBIT. intros Hw Hb.
  rewrite (Z.div_mod idx 32), (Z.div_mod idx' 32) by lia. lia.
Qed.

Lemma OCCUPIED_testbit (flags : list Z) (idx : Z) :
  OCCUPIED_ flags idx = Z.testbit (rd flags (FLAGWORD idx)) (FLAGBIT idx).
Proof.
  unfold OCCUPIED_. pose proof (FLAGBIT_range idx) as Hb.
  rewrite land_1_mod, <- Z.bit0_mod, Z.shiftr_spec by lia. simpl.
  by destruct (Z.testbit _ _).
Qed.

Lemma rd_replicate (n : nat) (i : Z) : rd (replicate n 0) i = 0.
Proof.
  unfold rd. rewrite nth_lookup.
  destruct (replicate n 0 !! Z.to_nat i) as [x|] eqn:Hx; [|done].
  by apply lookup_replicate in Hx as [-> _].
Qed.

Lemma OCCUPIED_replicate (n : nat) (idx : Z) : OCCUPIED_ (replicate n 0) idx = false.
Proof. by rewrite OCCUPIED_testbit, rd_replicate, Z.bits_0. Qed.

Lemma OCCUPIED_zero_fill (n : Z) (flags : list Z) (idx : Z) :
  0 ≤ idx → FLAGWORD idx < n → OCCUPIED_ (zero_fill n flags) idx = false.
Proof.
  intros H0 Hn. rewrite OCCUPIED_testbit. unfold zero_fill, rd.
  assert (0 ≤ FLAGWORD idx) by (unfold FLAGWORD; apply Z.div_pos; lia).
  rewrite nth_lookup, lookup_app_l by (rewrite length_replicate; lia).
  rewrite lookup_replicate_2 by lia. apply Z.bits_0.
Qed.

Lemma OCCUPIED_MARK_OCCUPIED (flags : list Z) (idx idx' : Z) :
  0 ≤ idx → 0 ≤ idx' → FLAGWORD idx < Z.of_nat (length flags) →
  OCCUPIED_ (MARK_OCCUPIED flags idx) idx' = (idx' =? idx) || OCCUPIED_ flags idx'.
Proof.
  intros H0 H0' Hlen. rewrite !OCCUPIED_testbit. unfold MARK_OCCUPIED.
  pose proof (FLAGBIT_range idx) as Hb. pose proof (FLAGBIT_range idx') as Hb'.
  assert (Hw : 0 ≤ FLAGWORD idx) by (unfold FLAGWORD; apply Z.div_pos; lia).
  assert (Hw' : 0 ≤ FLAGWORD idx') by (unfold FLAGWORD; apply Z.div_pos; lia).
  assert (Hbit : u32 (Z.shiftl 1 (FLAGBIT idx)) = 2 ^ FLAGBIT idx).
  { rewrite Z.shiftl_mul_pow2, Z.mul_1_l by lia. apply u32_small.
    split; [apply Z.pow_nonneg; lia|apply Z.pow_lt_mono_r; lia]. }
  rewrite Hbit.
  destruct (Z.eq_dec (FLAGWORD idx') (FLAGWORD idx)) as [Heq|Hne].
  - rewrite Heq, rd_insert_eq by lia.
    rewrite Z.lor_spec, Z.pow2_bits_eqb by lia.
    destruct (Z.eqb_spec (FLAGBIT idx) (FLAGBIT idx')) as [Hbb|Hbb].
    + rewrite (flag_index_eq idx idx') by done. rewrite Z.eqb_refl. by rewrite orb_true_r.
    + destruct (Z.eqb_spec idx' idx) as [->|]; [done|]. by rewrite orb_false_r.
  - rewrite rd_insert_ne by lia.
    destruct (Z.eqb_spec idx' idx) as [->|]; [done|]. done.
Qed.


(** ** Slots *)

Lemma FLAGWORD_lt (idx n : Z) : 0 ≤ idx < n → 0 ≤ FLAGWORD idx < n.
Proof.
  intros H. unfold FLAGWORD. split; [apply Z.div_pos; lia|].
  apply Z.div_lt_upper_bound; lia.
Qed.

Lemma ht_slot_store (ht : HashTable) (idx key value i : Z) :
  ht_wf ht → 0 ≤ idx < num_slots ht → 0 ≤ i < num_slots ht →
  ht_slot (ht_store ht idx key value) i
  = if i =? idx then Some (key, value) else ht_slot ht i.
Proof.
  intros (Hn & Hbuf & Hfl & _) Hidx Hi. unfold ht_slot, ht_store, OCCUPIED. simpl.
  pose proof (FLAGWORD_lt idx (num_slots ht) Hidx).
  rewrite OCCUPIED_MARK_OCCUPIED by lia.
  rewrite !KEY_small, !VAL_small by lia.
  destruct (Z.eqb_spec i idx) as [->|Hne]; simpl.
  - rewrite rd_insert_ne, !rd_insert_eq by (rewrite ?length_insert; lia). done.
  - rewrite !rd_insert_ne by lia. done.
Qed.


Lemma omap_ext_elem {A B} (f g : A → option B) (l : list A) :
  (∀ x, x ∈ l → f x = g x) → omap f l = omap g l.
Proof.
  intros H. apply list_omap_ext, Forall2_same_length_lookup_2; [done|].
  intros i x y Hx Hy. assert (x = y) as -> by congruence.
  apply H. by eapply list_elem_of_lookup_2.
Qed.

(** The entries of two tables that differ in the slot [idx] only. *)
Lemma ht_entries_update (ht ht' : HashTable) (idx : Z) :
  num_slots ht' = num_slots ht → 0 ≤ idx < num_slots ht →
  (∀ i, 0 ≤ i < num_slots ht → i ≠ idx → ht_slot ht' i = ht_slot ht i) →
  ∃ l1 l2,
    ht_entries ht = l1 ++ option_list (ht_slot ht idx) ++ l2 ∧
    ht_entries ht' = l1 ++ option_list (ht_slot ht' idx) ++ l2.
Proof.
  intros Hn Hidx Hsame. unfold ht_entries. rewrite Hn.
  replace (num_slots ht) with (idx + (1 + (num_slots ht - idx - 1))) by lia.
  rewrite !seqZ_app by lia. rewrite Z.add_0_l.
  change (seqZ idx 1) with [idx].
  rewrite !omap_app.
  exists (omap (ht_slot ht) (seqZ 0 idx)),
         (omap (ht_slot ht) (seqZ (idx + 1) (num_slots ht - idx - 1))).
  split.
  - done.
  - f_equal; [|f_equal].
    + apply omap_ext_elem. intros i Hi%elem_of_seqZ. apply Hsame; lia.
    + apply omap_ext_elem. intros i Hi%elem_of_seqZ. apply Hsame; lia.
Qed.

Lemma ht_entries_elem (ht : HashTable) (key value : Z) :
  (key, value) ∈ ht_entries ht
  ↔ ∃ idx, 0 ≤ idx < num_slots ht ∧ ht_slot ht idx = Some (key, value).
Proof.
  unfold ht_entries. rewrite list_elem_of_omap. setoid_rewrite elem_of_seqZ.
  split; intros (idx & H1 & H2); exists idx; split; first [done|lia].
Qed.

Lemma ht_entries_length (ht : HashTable) :
  0 ≤ num_slots ht → Z.of_nat (length (ht_entries ht)) ≤ num_slots ht.
Proof.
  intros Hn. unfold ht_entries.
  pose proof (length_seqZ 0 (num_slots ht)) as Hl.
  assert (length (omap (ht_slot ht) (seqZ 0 (num_slots ht)))
          ≤ length (seqZ 0 (num_slots ht)))%nat; [|lia].
  generalize (seqZ 0 (num_slots ht)). intros l. clear.
  induction l as [|x l IH]; [done|]. csimpl. destruct (ht_slot ht x); simpl; lia.
Qed.

Lemma omap_length_lt {A B} (f : A → option B) (l : list A) :
  (length (omap f l) < length l)%nat → ∃ x, x ∈ l ∧ f x = None.
Proof.
  induction l as [|x l IH]; csimpl; [lia|].
  destruct (f x) as [y|] eqn:Hx.
  - simpl. intros Hlt. destruct IH as (z & Hz & Hfz); [lia|].
    exists z. split; [by right|done].
  - intros _. exists x. split; [by left|done].
Qed.

Lemma ht_free_slot (ht : HashTable) :
  ht_wf ht → num_stored ht < num_slots ht →
  ∃ idx, 0 ≤ idx < num_slots ht ∧ OCCUPIED ht idx = false.
Proof.
  intros (Hn & _ & _ & Hst) Hlt.
  destruct (omap_length_lt (ht_slot ht) (seqZ 0 (num_slots ht))) as (idx & Hidx & Hfree).
  { fold (ht_entries ht). rewrite length_seqZ. lia. }
  apply elem_of_seqZ in Hidx. exists idx. split; [lia|].
  unfold ht_slot in Hfree. by destruct (OCCUPIED ht idx).
Qed.

Lemma NoDup_omap_inj {A B} (g : A → option B) (l : list A) (x y : A) (k : B) :
  NoDup (omap g l) → x ∈ l → y ∈ l → NoDup l → g x = Some k → g y = Some k → x = y.
Proof.
  induction l as [|a l IH]; [by intros _ ?%elem_of_nil|].
  csimpl. intros Hnd Hx Hy Hl Hgx Hgy.
  apply NoDup_cons in Hl as [Ha Hl].
  apply elem_of_cons in Hx as [->|Hx]; apply elem_of_cons in Hy as [->|Hy]; [done| | |].
  - rewrite Hgx in Hnd. apply NoDup_cons in Hnd as [Hk _].
    exfalso. apply Hk. apply list_elem_of_omap. by exists y.
  - rewrite Hgy in Hnd. apply NoDup_cons in Hnd as [Hk _].
    exfalso. apply Hk. apply list_elem_of_omap. by exists x.
  - apply IH; try done. destruct (g a); [by apply NoDup_cons in Hnd as [_ ?]|done].
Qed.

(** In a table without a key in two slots, a key has one slot. *)
Lemma ht_slot_unique (ht : HashTable) (i i' key v v' : Z) :
  ht_ok ht → 0 ≤ i < num_slots ht → 0 ≤ i' < num_slots ht →
  ht_slot ht i = Some (key, v) → ht_slot ht i' = Some (key, v') → i = i'.
Proof.
  intros [_ Hnd] Hi Hi' Hs Hs'. unfold ht_entries in Hnd.
  rewrite list_fmap_omap in Hnd.
  eapply (NoDup_omap_inj _ _ i i' key Hnd).
  - apply elem_of_seqZ. lia.
  - apply elem_of_seqZ. lia.
  - apply NoDup_seqZ.
  - by rewrite Hs.
  - by rewrite Hs'.
Qed.

Lemma ht_map_lookup (ht : HashTable) (key value : Z) :
  ht_ok ht →
  ht_map ht !! key = Some value
  ↔ ∃ idx, 0 ≤ idx < num_slots ht ∧ ht_slot ht idx = Some (key, value).
Proof.
  intros [_ Hnd]. unfold ht_map.
  rewrite <- elem_of_list_to_map by done. apply ht_entries_elem.
Qed.

Lemma ht_map_lookup_None (ht : HashTable) (key : Z) :
  ht_map ht !! key = None
  ↔ ∀ idx value, 0 ≤ idx < num_slots ht → ht_slot ht idx ≠ Some (key, value).
Proof.
  unfold ht_map. rewrite <- not_elem_of_list_to_map, list_elem_of_fmap. split.
  - intros Hno idx value Hidx Hs. apply Hno. exists (key, value). split; [done|].
    apply ht_entries_elem. by exists idx.
  - intros Hno ([k v] & -> & (idx & Hidx & Hs)%ht_entries_elem). by eapply Hno.
Qed.

(** ** Probing *)

Lemma ht_probe_range (ht : HashTable) (key j : Z) :
  0 < num_slots ht → 0 ≤ ht_probe ht key j < num_slots ht.
Proof. intros Hn. unfold ht_probe, IDX. apply Z.mod_pos_bound. lia. Qed.

Lemma ht_probe_0 (ht : HashTable) (key : Z) :
  0 < num_slots ht → ht_probe ht key 0 = IDX ht key.
Proof. intros Hn. unfold ht_probe, IDX. by rewrite Z.add_0_r, Z.mod_mod by lia. Qed.

Lemma ht_probe_succ (ht : HashTable) (key j : Z) :
  0 < num_slots ht < 2 ^ 63 →
  IDX ht (u64 (ht_probe ht key j + 1)) = ht_probe ht key (j + 1).
Proof.
  intros Hn. pose proof (ht_probe_range ht key j ltac:(lia)) as Hr.
  rewrite u64_small by lia. unfold ht_probe, IDX.
  rewrite Zplus_mod_idemp_l. f_equal. lia.
Qed.

Lemma ht_probe_inj (ht : HashTable) (key j j' : Z) :
  0 ≤ j < num_slots ht → 0 ≤ j' < num_slots ht →
  ht_probe ht key j = ht_probe ht key j' → j = j'.
Proof.
  intros Hj Hj'. unfold ht_probe, IDX. intros Heq.
  set (n := num_slots ht) in *. set (h := key mod n) in *.
  pose proof (Z.div_mod (h + j) n ltac:(lia)) as H1.
  pose proof (Z.div_mod (h + j') n ltac:(lia)) as H2.
  rewrite Heq in H1.
  assert ((h + j) / n = (h + j') / n) by nia. nia.
Qed.

Lemma ht_probe_surj (ht : HashTable) (key idx : Z) :
  0 ≤ idx < num_slots ht →
  ∃ j, 0 ≤ j < num_slots ht ∧ ht_probe ht key j = idx.
Proof.
  intros Hidx. exists ((idx - IDX ht key) mod num_slots ht).
  split; [apply Z.mod_pos_bound; lia|].
  unfold ht_probe, IDX. rewrite Zplus_mod_idemp_r.
  replace (key mod num_slots ht + (idx - key mod num_slots ht)) with idx by lia.
  apply Z.mod_small. lia.
Qed.

Lemma least_nat (P : nat → bool) (m : nat) :
  P m = true → ∃ d, (d ≤ m)%nat ∧ P d = true ∧ ∀ j, (j < d)%nat → P j = false.
Proof.
  assert (H : ∀ m, (∃ d, (d ≤ m)%nat ∧ P d = true ∧ ∀ j, (j < d)%nat → P j = false)
                   ∨ ∀ j, (j ≤ m)%nat → P j = false).
  { clear m. intros m. induction m as [|m [(d & Hd & HP & Hmin)|Hno]].
    - destruct (P 0%nat) eqn:H0.
      + left. exists 0%nat. split; [done|]. split; [done|]. intros j Hj. lia.
      + right. intros j Hj. by replace j with 0%nat by lia.
    - left. exists d. split; [lia|done].
    - destruct (P (S m)) eqn:HS.
      + left. exists (S m). split; [done|]. split; [done|].
        intros j Hj. apply Hno. lia.
      + right. intros j Hj. destruct (decide (j = S m)) as [->|]; [done|].
        apply Hno. lia. }
  intros Hm. destruct (H m) as [?|Hno]; [done|].
  rewrite Hno in Hm by done. done.
Qed.

Lemma ht_insert_probe_spec (ht : HashTable) (key : Z) (d : nat) :
  ∀ (fuel : nat) (j : Z),
    0 < num_slots ht < 2 ^ 63 → 0 ≤ j →
    (∀ j', j ≤ j' < j + Z.of_nat d → OCCUPIED ht (ht_probe ht key j') = true) →
    OCCUPIED ht (ht_probe ht key (j + Z.of_nat d)) = false →
    (d < fuel)%nat →
    ht_insert_probe fuel ht (ht_probe ht key j)
    = Ok (ht_probe ht key (j + Z.of_nat d)).
Proof.
  induction d as [|d IH]; intros fuel j Hn Hj Hocc Hfree Hfuel;
    (destruct fuel as [|fuel]; [lia|]); simpl ht_insert_probe.
  - rewrite Z.add_0_r in Hfree |- *. by rewrite Hfree.
  - rewrite Hocc by lia. rewrite ht_probe_succ by done.
    rewrite IH; [|done|lia| | |lia].
    + f_equal. f_equal. lia.
    + intros j' Hj'. apply Hocc. lia.
    + by replace (j + 1 + Z.of_nat d) with (j + Z.of_nat (S d)) by lia.
Qed.

(** The first free slot behind the home slot of a key. *)
Lemma ht_first_free (ht : HashTable) (key : Z) :
  ht_wf ht → num_stored ht < num_slots ht →
  ∃ d : nat, Z.of_nat d < num_slots ht ∧
    OCCUPIED ht (ht_probe ht key (Z.of_nat d)) = false ∧
    ∀ j', 0 ≤ j' < Z.of_nat d → OCCUPIED ht (ht_probe ht key j') = true.
Proof.
  intros Hwf Hlt. destruct (ht_free_slot ht Hwf Hlt) as (idx & Hidx & Hfree).
  destruct (ht_probe_surj ht key idx Hidx) as (j & Hj & Hpj).
  destruct (least_nat (λ d, negb (OCCUPIED ht (ht_probe ht key (Z.of_nat d))))
              (Z.to_nat j)) as (d & Hd & HPd & Hmin).
  { rewrite Z2Nat.id by lia. by rewrite Hpj, Hfree. }
  exists d. split; [lia|]. split; [by apply negb_true_iff|].
  intros j' Hj'. specialize (Hmin (Z.to_nat j') ltac:(lia)).
  rewrite Z2Nat.id in Hmin by lia. by apply negb_false_iff.
Qed.

Lemma ht_probe_first_free (ht : HashTable) (key : Z) (fuel : nat) :
  ht_wf ht → num_stored ht < num_slots ht → num_slots ht ≤ Z.of_nat fuel →
  ∃ d : nat, Z.of_nat d < num_slots ht ∧
    OCCUPIED ht (ht_probe ht key (Z.of_nat d)) = false ∧
    (∀ j', 0 ≤ j' < Z.of_nat d → OCCUPIED ht (ht_probe ht key j') = true) ∧
    ht_insert_probe fuel ht (IDX ht key) = Ok (ht_probe ht key (Z.of_nat d)).
Proof.
  intros Hwf Hlt Hfuel. destruct (ht_first_free ht key Hwf Hlt) as (d & Hd & Hfree & Hocc).
  exists d. split; [done|]. split; [done|]. split; [done|].
  destruct Hwf as (Hn & _). rewrite <- ht_probe_0 by lia.
  rewrite (ht_insert_probe_spec ht key d fuel 0); rewrite ?Z.add_0_l; try done; try lia;
    try (intros j' Hj'; apply Hocc; lia).
Qed.

(** The loop of [hashidx_openaddr] from the slot probed [j] steps behind the
    home slot: it stops at the first slot that holds the key. *)
Lemma hashidx_openaddr_loop_spec (ht : HashTable) (key : Z) (i : nat) :
  ∀ j, 0 < num_slots ht < 2 ^ 63 → 0 ≤ j →
  match hashidx_openaddr_loop i ht key (ht_probe ht key j) with
  | (true, idx) =>
      ∃ d : nat, (d ≤ i)%nat ∧ idx = ht_probe ht key (j + Z.of_nat d) ∧
        ht_holds ht key idx = true ∧
        ∀ d', 0 ≤ d' < Z.of_nat d → ht_holds ht key (ht_probe ht key (j + d')) = false
  | (false, idx) =>
      idx = 0 ∧
      ∀ d, 0 ≤ d ≤ Z.of_nat i → ht_holds ht key (ht_probe ht key (j + d)) = false
  end.
Proof.
  induction i as [|i IH]; intros j Hn Hj; simpl hashidx_openaddr_loop;
    fold (ht_holds ht key (ht_probe ht key j));
    destruct (ht_holds ht key (ht_probe ht key j)) eqn:Hh.
  - exists 0%nat. rewrite Z.add_0_r. split; [done|]. split; [done|]. split; [done|]. lia.
  - split; [done|]. intros d Hd. by replace (j + d) with j by lia.
  - exists 0%nat. rewrite Z.add_0_r. split; [lia|]. split; [done|]. split; [done|]. lia.
  - rewrite ht_probe_succ by done. specialize (IH (j + 1) Hn ltac:(lia)).
    destruct (hashidx_openaddr_loop i ht key (ht_probe ht key (j + 1))) as [[|] idx].
    + destruct IH as (d & Hd & -> & Hholds & Hmin). exists (S d).
      split; [lia|]. split; [f_equal; lia|]. split; [done|].
      intros d' Hd'. destruct (Z.eq_dec d' 0) as [->|]; [by rewrite Z.add_0_r|].
      replace (j + d') with (j + 1 + (d' - 1)) by lia. apply Hmin. lia.
    + destruct IH as [-> Hno]. split; [done|]. intros d Hd.
      destruct (Z.eq_dec d 0) as [->|]; [by rewrite Z.add_0_r|].
      replace (j + d) with (j + 1 + (d - 1)) by lia. apply Hno. lia.
Qed.

Lemma ht_holds_slot (ht : HashTable) (key idx : Z) :
  ht_holds ht key idx = true
  ↔ ht_slot ht idx = Some (key, rd (buffer ht) (VAL idx)).
Proof.
  unfold ht_holds, ht_slot, cmp_identity. destruct (OCCUPIED ht idx); simpl; [|done].
  destruct (Z.eqb_spec (rd (buffer ht) (KEY idx)) key) as [->|Hne]; [done|].
  split; [done|]. intros [= ?]. done.
Qed.

Lemma ht_slot_holds (ht : HashTable) (key value idx : Z) :
  ht_slot ht idx = Some (key, value) → ht_holds ht key idx = true.
Proof.
  unfold ht_holds, ht_slot, cmp_identity. destruct (OCCUPIED ht idx); [|done].
  intros [= -> _]. by rewrite Z.eqb_refl.
Qed.

(** What [ht_get] returns on any table of the right shape: the value of the
    first slot behind the home slot that holds the key. *)
Lemma ht_get_first (ht : HashTable) (key : Z) :
  0 < num_slots ht < 2 ^ 63 →
  (∃ d : nat, Z.of_nat d ≤ num_slots ht ∧
     ht_slot ht (ht_probe ht key (Z.of_nat d))
       = Some (key, value (ht_get ht key)) ∧
     ok (ht_get ht key) = true ∧
     ∀ d', 0 ≤ d' < Z.of_nat d → ht_holds ht key (ht_probe ht key d') = false)
  ∨ (ht_get ht key = mkResult 0 false ∧
     ∀ idx, 0 ≤ idx < num_slots ht → ht_holds ht key idx = false).
Proof.
  intros Hn. unfold ht_get, hashidx_openaddr. rewrite <- ht_probe_0 by lia.
  pose proof (hashidx_openaddr_loop_spec ht key (Z.to_nat (num_slots ht)) 0 Hn ltac:(lia))
    as Hloop.
  destruct (hashidx_openaddr_loop _ ht key (ht_probe ht key 0)) as [[|] idx].
  - left. destruct Hloop as (d & Hd & -> & Hholds & Hmin). rewrite Z.add_0_l in *.
    exists d. split; [lia|].
    assert (Hocc : OCCUPIED ht (ht_probe ht key (Z.of_nat d)) = true).
    { unfold ht_holds in Hholds. by apply andb_true_iff in Hholds as [? _]. }
    rewrite Hocc. simpl. split; [by apply ht_holds_slot|]. split; [done|].
    intros d' Hd'. specialize (Hmin d' Hd'). by rewrite Z.add_0_l in Hmin.
  - right. destruct Hloop as [-> Hno]. simpl. split; [done|].
    intros idx Hidx. destruct (ht_probe_surj ht key idx Hidx) as (j & Hj & <-).
    specialize (Hno j ltac:(lia)). by rewrite Z.add_0_l in Hno.
Qed.

Lemma ht_get_spec (ht : HashTable) (key : Z) :
  ht_ok ht → ht_get ht key = result_of (ht_map ht !! key).
Proof.
  intros Hok. pose proof Hok as [(Hn & _) _].
  destruct (ht_get_first ht key Hn) as [(d & Hd & Hslot & Hok' & _)|[-> Hno]].
  - assert (Hm : ht_map ht !! key = Some (value (ht_get ht key))).
    { apply ht_map_lookup; [done|]. eexists. split; [|done].
      apply ht_probe_range. lia. }
    rewrite Hm. simpl. destruct (ht_get ht key) as [v o]. simpl in *. by subst.
  - assert (Hm : ht_map ht !! key = None).
    { apply ht_map_lookup_None. intros idx v Hidx Hs.
      apply ht_slot_holds in Hs. rewrite Hno in Hs by done. done. }
    by rewrite Hm.
Qed.

(** ** Storing and removing *)

Lemma OCCUPIED_slot (ht : HashTable) (idx : Z) :
  OCCUPIED ht idx = false ↔ ht_slot ht idx = None.
Proof. unfold ht_slot. by destruct (OCCUPIED ht idx). Qed.

Lemma ht_store_wf (ht : HashTable) (idx key value : Z) :
  ht_wf ht → 0 ≤ idx < num_slots ht → OCCUPIED ht idx = false →
  ht_wf (ht_store ht idx key value) ∧
  ht_entries (ht_store ht idx key value) ≡ₚ (key, value) :: ht_entries ht.
Proof.
  intros Hwf Hidx Hfree. pose proof Hwf as (Hn & Hbuf & Hfl & Hst).
  destruct (ht_entries_update ht (ht_store ht idx key value) idx) as (l1 & l2 & H1 & H2);
    [done|done| |].
  { intros i Hi Hne. rewrite ht_slot_store by done.
    by destruct (Z.eqb_spec i idx). }
  rewrite ht_slot_store, Z.eqb_refl in H2 by done.
  apply OCCUPIED_slot in Hfree. rewrite Hfree in H1. simpl in H1, H2.
  assert (Hperm : ht_entries (ht_store ht idx key value) ≡ₚ (key, value) :: ht_entries ht).
  { rewrite H1, H2. by rewrite Permutation_middle. }
  split; [|done]. split; [done|]. split; [|split].
  - simpl. rewrite !length_insert. done.
  - simpl. unfold MARK_OCCUPIED. by rewrite length_insert.
  - rewrite Hperm. simpl length. simpl num_stored.
    pose proof (ht_entries_length ht ltac:(lia)). rewrite u64_small; lia.
Qed.

Lemma OCCUPIED_store (ht : HashTable) (idx key value i : Z) :
  ht_wf ht → 0 ≤ idx < num_slots ht → 0 ≤ i →
  OCCUPIED (ht_store ht idx key value) i = (i =? idx) || OCCUPIED ht i.
Proof.
  intros (Hn & _ & Hfl & _) Hidx Hi. unfold OCCUPIED, ht_store. simpl.
  pose proof (FLAGWORD_lt idx (num_slots ht) Hidx).
  apply OCCUPIED_MARK_OCCUPIED; lia.
Qed.

Lemma ht_store_chained (ht : HashTable) (key value : Z) (d : Z) :
  ht_wf ht → ht_chained ht → 0 ≤ d < num_slots ht →
  (∀ j', 0 ≤ j' < d → OCCUPIED ht (ht_probe ht key j') = true) →
  ht_chained (ht_store ht (ht_probe ht key d) key value).
Proof.
  intros Hwf Hch Hd Hocc k v j Hj Hslot j' Hj'.
  pose proof Hwf as (Hn & _).
  change (ht_probe (ht_store ht (ht_probe ht key d) key value)) with (ht_probe ht) in *.
  simpl num_slots in Hj.
  pose proof (ht_probe_range ht key d ltac:(lia)).
  pose proof (ht_probe_range ht k j ltac:(lia)).
  pose proof (ht_probe_range ht k j' ltac:(lia)).
  rewrite OCCUPIED_store by (done || lia).
  rewrite ht_slot_store in Hslot by done.
  destruct (Z.eqb_spec (ht_probe ht k j) (ht_probe ht key d)) as [Heq|Hne].
  - injection Hslot as -> ->. apply ht_probe_inj in Heq as ->; [|lia..].
    rewrite Hocc by lia. apply orb_true_r.
  - rewrite (Hch k v j Hj Hslot j' Hj'). apply orb_true_r.
Qed.

Lemma ht_new_spec (n : Z) :
  0 < n < 2 ^ 63 →
  ht_wf (ht_new n) ∧ ht_entries (ht_new n) = [] ∧ ht_chained (ht_new n).
Proof.
  intros Hn.
  assert (Hfree : ∀ idx, ht_slot (ht_new n) idx = None).
  { intros idx. apply OCCUPIED_slot. apply OCCUPIED_replicate. }
  assert (Hnil : ht_entries (ht_new n) = []).
  { unfold ht_entries. generalize (seqZ 0 (num_slots (ht_new n))).
    intros l. induction l as [|x l IH]; [done|]. csimpl. by rewrite Hfree. }
  split; [|split; [done|]].
  - split; [done|]. simpl. rewrite !length_replicate, Hnil. simpl. lia.
  - intros k v j _ Hs. by rewrite Hfree in Hs.
Qed.

Lemma ht_clear_spec (ht : HashTable) :
  ht_wf ht → ht_wf (ht_clear ht) ∧ ht_entries (ht_clear ht) = [].
Proof.
  intros (Hn & Hbuf & Hfl & _).
  assert (Hfree : ∀ idx, 0 ≤ idx < num_slots ht → ht_slot (ht_clear ht) idx = None).
  { intros idx Hidx. apply OCCUPIED_slot. unfold OCCUPIED, ht_clear. simpl.
    apply OCCUPIED_zero_fill; [lia|]. unfold FLAG_WORDS, FLAGWORD.
    replace (0 <? num_slots ht) with true by lia.
    assert (idx / 32 ≤ (num_slots ht - 1) / 32) by (apply Z.div_le_mono; lia). lia. }
  assert (Hnil : ht_entries (ht_clear ht) = []).
  { unfold ht_entries. simpl num_slots.
    assert (Hl : ∀ i, i ∈ seqZ 0 (num_slots ht) → 0 ≤ i < num_slots ht)
      by (intros i Hi%elem_of_seqZ; lia).
    revert Hl. generalize (seqZ 0 (num_slots ht)).
    intros l Hl. induction l as [|x l IH]; [done|]. csimpl.
    rewrite Hfree by (apply Hl; by left). apply IH. intros i Hi. apply Hl. by right. }
  split; [|done]. split; [done|]. simpl. rewrite Hnil. simpl.
  unfold zero_fill. rewrite !length_app, !length_replicate, !length_drop.
  assert (0 ≤ FLAG_WORDS (num_slots ht) ≤ num_slots ht).
  { unfold FLAG_WORDS. replace (0 <? num_slots ht) with true by lia.
    assert (0 ≤ (num_slots ht - 1) / 32) by (apply Z.div_pos; lia).
    assert ((num_slots ht - 1) / 32 ≤ num_slots ht - 1)
      by (apply Z.div_le_upper_bound; lia). lia. }
  lia.
Qed.



(** ** Insertion *)

Lemma ht_stored_lt (ht : HashTable) :
  ht_wf ht → HTLOADFACTOR_limit ht = false → num_stored ht < num_slots ht.
Proof.
  intros (Hn & _ & _ & Hst) Hlimit.
  destruct (Z.lt_ge_cases (num_stored ht) (num_slots ht)) as [|Hge]; [done|].
  pose proof (ht_entries_length ht ltac:(lia)) as Hlen.
  unfold HTLOADFACTOR_limit in Hlimit. rewrite load_limit_full in Hlimit; [done|lia|lia].
Qed.

Lemma ht_insert_nogrow (ht : HashTable) (key value : Z) (fuel : nat) :
  ht_wf ht → HTLOADFACTOR_limit ht = false → num_slots ht < Z.of_nat fuel →
  ∃ d : nat, Z.of_nat d < num_slots ht ∧
    OCCUPIED ht (ht_probe ht key (Z.of_nat d)) = false ∧
    (∀ j', 0 ≤ j' < Z.of_nat d → OCCUPIED ht (ht_probe ht key j') = true) ∧
    ht_insert fuel ht key value
    = Ok (ht_store ht (ht_probe ht key (Z.of_nat d)) key value).
Proof.
  intros Hwf Hlimit Hfuel. destruct fuel as [|fuel]; [destruct Hwf; lia|].
  destruct (ht_probe_first_free ht key fuel Hwf (ht_stored_lt ht Hwf Hlimit) ltac:(lia))
    as (d & Hd & Hfree & Hocc & Hprobe).
  exists d. split; [done|]. split; [done|]. split; [done|].
  simpl ht_insert. rewrite Hlimit. simpl. by rewrite Hprobe.
Qed.

Lemma ht_entries_prefix (ht : HashTable) (i : Z) :
  0 ≤ i ≤ num_slots ht → NoDup (ht_entries ht).*1 →
  NoDup (omap (ht_slot ht) (seqZ 0 i)).*1 ∧
  Z.of_nat (length (omap (ht_slot ht) (seqZ 0 i))) ≤ i.
Proof.
  intros Hi Hnd. split.
  - unfold ht_entries in Hnd.
    replace (num_slots ht) with (i + (num_slots ht - i)) in Hnd by lia.
    rewrite seqZ_app, omap_app, fmap_app in Hnd by lia.
    by apply NoDup_app in Hnd as [? _].
  - pose proof (length_seqZ 0 i) as Hl.
    assert (length (omap (ht_slot ht) (seqZ 0 i)) ≤ length (seqZ 0 i))%nat; [|lia].
    generalize (seqZ 0 i). intros l. clear.
    induction l as [|x l IH]; [done|]. csimpl. destruct (ht_slot ht x); simpl; lia.
Qed.

Lemma seqZ_snoc (i : Z) : 0 ≤ i → seqZ 0 (i + 1) = seqZ 0 i ++ [i].
Proof. intros Hi. by rewrite seqZ_app by lia. Qed.

(** The loop of [chsize] re-enters the pairs of the old slots from [i] on;
    no insertion grows the new table again. *)
Lemma chsize_loop_spec (old : HashTable) (fuel : nat) (c : nat) :
  ∀ (i : Z) (T : HashTable),
    ht_ok old → 2 * num_slots old < 2 ^ 63 → 2 * num_slots old < Z.of_nat fuel →
    0 ≤ i → i + Z.of_nat c = num_slots old →
    ht_wf T → ht_chained T → num_slots T = 2 * num_slots old →
    ht_entries T ≡ₚ omap (ht_slot old) (seqZ 0 i) →
    ∃ T', chsize_loop (ht_insert fuel) (flags old) (buffer old) c i T = Ok T' ∧
      ht_wf T' ∧ ht_chained T' ∧ num_slots T' = 2 * num_slots old ∧
      ht_entries T' ≡ₚ ht_entries old.
Proof.
  induction c as [|c IH]; intros i T Hok Hb Hfuel Hi Hic HwfT Hch HnT Hperm.
  { exists T. split; [done|]. split; [done|]. split; [done|]. split; [done|].
    rewrite Hperm. unfold ht_entries. by replace i with (num_slots old) by lia. }
  pose proof Hok as [(Hn & _) Hnd].
  destruct (ht_entries_prefix old i ltac:(lia) Hnd) as [_ Hleni].
  destruct (ht_entries_prefix old (i + 1) ltac:(lia) Hnd) as [Hndi _].
  rewrite seqZ_snoc, omap_app in Hndi by lia.
  simpl chsize_loop. fold (OCCUPIED old i). rewrite (u64_small (i + 1)) by lia.
  destruct (OCCUPIED old i) eqn:Hocc.
  - assert (Hslot : ht_slot old i = Some (rd (buffer old) (KEY i), rd (buffer old) (VAL i)))
      by (unfold ht_slot; by rewrite Hocc).
    set (k := rd (buffer old) (KEY i)) in *. set (v := rd (buffer old) (VAL i)) in *.
    assert (Hlimit : HTLOADFACTOR_limit T = false).
    { unfold HTLOADFACTOR_limit. destruct HwfT as (_ & _ & _ & Hst).
      apply load_limit_half; rewrite ?Hst, ?Hperm; lia. }
    destruct (ht_insert_nogrow T k v fuel HwfT Hlimit ltac:(lia))
      as (d & Hd & Hfree & Hoccd & ->).
    simpl.
    pose proof (ht_probe_range T k (Z.of_nat d) ltac:(lia)) as Hr.
    destruct (ht_store_wf T (ht_probe T k (Z.of_nat d)) k v HwfT Hr Hfree) as [Hwf1 Hperm1].
    apply IH; try done; try lia.
    + apply ht_store_chained; [done|done|lia|done].
    + rewrite Hperm1, Hperm, seqZ_snoc, omap_app by lia. csimpl. rewrite Hslot.
      by rewrite Permutation_cons_append.
  - simpl. apply IH; try done; try lia.
    rewrite Hperm, seqZ_snoc, omap_app by lia. csimpl.
    apply OCCUPIED_slot in Hocc. rewrite Hocc. by rewrite app_nil_r.
Qed.

Lemma chsize_spec (ht : HashTable) (fuel : nat) :
  ht_ok ht → 2 * num_slots ht < 2 ^ 63 → 2 * num_slots ht < Z.of_nat fuel →
  ∃ T, chsize (ht_insert fuel) ht (u64 (num_slots ht * HASHTABLE_GROWTH_FACTOR)) = Ok T ∧
    ht_wf T ∧ ht_chained T ∧ num_slots T = 2 * num_slots ht ∧
    ht_entries T ≡ₚ ht_entries ht.
Proof.
  intros Hok Hb Hfuel. pose proof Hok as [(Hn & _) _].
  unfold chsize, HASHTABLE_GROWTH_FACTOR. rewrite u64_small by lia.
  replace (num_slots ht * 2) with (2 * num_slots ht) by lia.
  destruct (ht_new_spec (2 * num_slots ht) ltac:(lia)) as (Hwf0 & Hnil & Hch0).
  apply chsize_loop_spec; try done; try lia.
  by rewrite Hnil.
Qed.

(** [ht_insert] on a table without a key in two slots: the table is kept or
    rebuilt with twice the slots, and the pair goes to the first free slot
    behind the home slot of the key. *)
Lemma ht_insert_spec (ht : HashTable) (key value : Z) (fuel : nat) :
  ht_ok ht → 2 * num_slots ht < 2 ^ 63 → 2 * num_slots ht + 2 ≤ Z.of_nat fuel →
  ∃ (T : HashTable) (d : nat),
    ht_wf T ∧ ht_entries T ≡ₚ ht_entries ht ∧
    (ht_chained ht → ht_chained T) ∧
    num_slots T = (if HTLOADFACTOR_limit ht then 2 * num_slots ht else num_slots ht) ∧
    Z.of_nat d < num_slots T ∧
    OCCUPIED T (ht_probe T key (Z.of_nat d)) = false ∧
    (∀ j', 0 ≤ j' < Z.of_nat d → OCCUPIED T (ht_probe T key j') = true) ∧
    ht_insert fuel ht key value
    = Ok (ht_store T (ht_probe T key (Z.of_nat d)) key value).
Proof.
  intros Hok Hb Hfuel. pose proof Hok as [Hwf Hnd]. pose proof Hwf as (Hn & _ & _ & Hst).
  destruct (HTLOADFACTOR_limit ht) eqn:Hlimit.
  - destruct fuel as [|fuel]; [lia|].
    destruct (chsize_spec ht fuel Hok Hb ltac:(lia)) as (T & HT & HwfT & HchT & HnT & Hperm).
    assert (Hlt : num_stored T < num_slots T).
    { destruct HwfT as (_ & _ & _ & HstT). rewrite HstT, Hperm, HnT.
      pose proof (ht_entries_length ht ltac:(lia)). lia. }
    destruct (ht_probe_first_free T key fuel HwfT Hlt ltac:(lia))
      as (d & Hd & Hfree & Hocc & Hprobe).
    exists T, d. split; [done|]. split; [done|]. split; [done|]. split; [done|].
    split; [done|]. split; [done|]. split; [done|].
    simpl ht_insert. rewrite Hlimit, HT. simpl. by rewrite Hprobe.
  - destruct (ht_insert_nogrow ht key value fuel Hwf Hlimit ltac:(lia))
      as (d & Hd & Hfree & Hocc & Hins).
    exists ht, d. done.
Qed.

(** ** The table as a finite map *)

Lemma ht_get_slot (ht : HashTable) (key value idx : Z) :
  ht_ok ht → 0 ≤ idx < num_slots ht → ht_slot ht idx = Some (key, value) →
  ht_get ht key = mkResult value true.
Proof.
  intros Hok Hidx Hslot. rewrite ht_get_spec by done.
  assert (Hm : ht_map ht !! key = Some value)
    by (apply ht_map_lookup; [done|by exists idx]).
  by rewrite Hm.
Qed.

Lemma ht_ok_two : ht_ok ht_two.
Proof.
  split.
  - split; [by vm_compute|]. by vm_compute.
  - apply (bool_decide_unpack _). by vm_compute.
Qed.


(** X18: a table made by [ht_new], and a table emptied by [ht_clear], holds
    no key: no slot is occupied, and [ht_get] finds nothing. *)
Theorem ht_new_clear_empty (n : Z) (ht : HashTable) (key : Z) :
  0 < n < 2 ^ 63 → ht_wf ht →
  (ht_ok (ht_new n) ∧ ht_chained (ht_new n) ∧ ht_entries (ht_new n) = [] ∧
   num_slots (ht_new n) = n ∧ ht_get (ht_new n) key = mkResult 0 false) ∧
  (ht_ok (ht_clear ht) ∧ ht_entries (ht_clear ht) = [] ∧
   num_slots (ht_clear ht) = num_slots ht ∧
   ht_get (ht_clear ht) key = mkResult 0 false).
Proof.
  intros Hn Hwf.
  destruct (ht_new_spec n Hn) as (Hwf0 & Hnil0 & Hch0).
  destruct (ht_clear_spec ht Hwf) as (Hwf1 & Hnil1).
  assert (Hok0 : ht_ok (ht_new n)) by (split; [done|]; rewrite Hnil0; constructor).
  assert (Hok1 : ht_ok (ht_clear ht)) by (split; [done|]; rewrite Hnil1; constructor).
  split.
  - split; [done|]. split; [done|]. split; [done|]. split; [done|].
    rewrite ht_get_spec by done. unfold ht_map. by rewrite Hnil0.
  - split; [done|]. split; [done|]. split; [done|].
    rewrite ht_get_spec by done. unfold ht_map. by rewrite Hnil1.
Qed.

Lemma ht_new_clear_empty_witness :
  ht_entries (ht_new 4) = [] ∧ ht_get (ht_new 4) 5 = mkResult 0 false ∧
  ht_entries (ht_clear ht_two) = [] ∧ ht_get (ht_clear ht_two) 5 = mkResult 0 false.
Proof.
  destruct (ht_new_clear_empty 4 ht_two 5) as [(_ & _ & H1 & _ & H2) (_ & H3 & _ & H4)].
  - lia.
  - split; [by vm_compute|]. by vm_compute.
  - done.
Defined.

(** X19: in a table without a key in two slots, [ht_get] returns the value
    of the slot that holds the key, wherever that slot is, and reports a
    missing key when no occupied slot holds it. *)
Theorem ht_get_lookup (ht : HashTable) (key : Z) :
  ht_ok ht →
  ht_get ht key = result_of (ht_map ht !! key) ∧
  (∀ idx value, 0 ≤ idx < num_slots ht → ht_slot ht idx = Some (key, value) →
     ht_get ht key = mkResult value true) ∧
  ((∀ idx, 0 ≤ idx < num_slots ht → ht_holds ht key idx = false) →
     ht_get ht key = mkResult 0 false).
Proof.
  intros Hok. split; [by apply ht_get_spec|]. split.
  - intros idx v Hidx Hslot. by eapply ht_get_slot.
  - intros Hno. rewrite ht_get_spec by done.
    assert (Hm : ht_map ht !! key = None).
    { apply ht_map_lookup_None. intros idx v Hidx Hs.
      apply ht_slot_holds in Hs. by rewrite Hno in Hs. }
    by rewrite Hm.
Qed.

Lemma ht_get_lookup_witness :
  ht_get ht_two 9 = mkResult 90 true ∧ ht_get ht_two 13 = mkResult 0 false.
Proof.
  destruct (ht_get_lookup ht_two 9) as (_ & H1 & _); [apply ht_ok_two|].
  destruct (ht_get_lookup ht_two 13) as (_ & _ & H2); [apply ht_ok_two|].
  split.
  - apply (H1 2); [simpl; lia|done].
  - apply H2. intros idx Hidx. simpl in Hidx.
    assert (idx = 0 ∨ idx = 1 ∨ idx = 2 ∨ idx = 3) as [->|[->|[->| ->]]] by lia; done.
Defined.

(** X20: [ht_insert] of a key that no slot holds returns; afterwards
    [ht_get] finds the new value under the key and what it found before
    under every other key.  The table has grown to twice its slots exactly
    when the load test held, and it counts one element more. *)
Theorem ht_insert_fresh (ht : HashTable) (key value : Z) (fuel : nat) :
  ht_ok ht → 2 * num_slots ht < 2 ^ 63 → ht_map ht !! key = None →
  2 * num_slots ht + 2 ≤ Z.of_nat fuel →
  ∃ ht', ht_insert fuel ht key value = Ok ht' ∧
    ht_ok ht' ∧ (ht_chained ht → ht_chained ht') ∧
    ht_map ht' = <[key := value]> (ht_map ht) ∧
    ht_get ht' key = mkResult value true ∧
    (∀ k, k ≠ key → ht_get ht' k = ht_get ht k) ∧
    num_stored ht' = num_stored ht + 1 ∧
    num_slots ht'
    = if HTLOADFACTOR_limit ht then 2 * num_slots ht else num_slots ht.
Proof.
  intros Hok Hb Hfresh Hfuel.
  destruct (ht_insert_spec ht key value fuel Hok Hb Hfuel)
    as (T & d & HwfT & Hperm & HchT & HnT & Hd & Hfree & Hocc & ->).
  pose proof Hok as [Hwf Hnd]. pose proof HwfT as (HnT' & _).
  pose proof (ht_probe_range T key (Z.of_nat d) ltac:(lia)) as Hr.
  destruct (ht_store_wf T (ht_probe T key (Z.of_nat d)) key value HwfT Hr Hfree)
    as [Hwf' Hperm'].
  eexists. split; [done|].
  assert (Hnotin : key ∉ (ht_entries ht).*1) by (by apply not_elem_of_list_to_map).
  assert (Hnd' : NoDup (ht_entries
                          (ht_store T (ht_probe T key (Z.of_nat d)) key value)).*1).
  { rewrite Hperm', Hperm. simpl. by apply NoDup_cons. }
  assert (Hok' : ht_ok (ht_store T (ht_probe T key (Z.of_nat d)) key value)) by done.
  assert (Hmap : ht_map (ht_store T (ht_probe T key (Z.of_nat d)) key value)
                 = <[key := value]> (ht_map ht)).
  { unfold ht_map.
    rewrite (list_to_map_proper _ ((key, value) :: ht_entries ht) Hnd')
      by (by rewrite Hperm', Hperm).
    done. }
  split; [done|]. split.
  { intros Hch. apply ht_store_chained; [done|by apply HchT|lia|done]. }
  split; [done|]. split.
  { rewrite ht_get_spec, Hmap by done. by rewrite lookup_insert_eq. }
  split.
  { intros k Hk. rewrite !ht_get_spec, Hmap by done. by rewrite lookup_insert_ne. }
  split; [|done].
  destruct Hwf' as (_ & _ & _ & ->). destruct Hwf as (_ & _ & _ & ->).
  rewrite Hperm', Hperm. simpl length. lia.
Qed.

Lemma ht_insert_fresh_witness :
  ∃ ht', ht_insert 10 ht_two 13 130 = Ok ht' ∧
    ht_get ht' 13 = mkResult 130 true ∧ ht_get ht' 9 = ht_get ht_two 9 ∧
    num_stored ht' = 3.
Proof.
  destruct (ht_insert_fresh ht_two 13 130 10)
    as (ht' & Hins & _ & _ & _ & Hget & Hother & Hst & _).
  - apply ht_ok_two.
  - simpl. lia.
  - by vm_compute.
  - simpl. lia.
  - exists ht'. split; [exact Hins|]. split; [exact Hget|].
    split; [by apply Hother|exact Hst].
Defined.





(** * Whole files *)

(** ** What a parser shows *)

Lemma pending_set_state p s : pending (set_state p s) = pending p.
Proof. done. Qed.

Lemma pending_parser_init (input : string) (silent : bool) :
  pending (parser_init input silent) = list_ascii_of_string input.
Proof. unfold parser_init, read_one_char, pending. simpl. by destruct (list_ascii_of_string input). Qed.

Lemma state_parser_init (input : string) (silent : bool) :
  state (parser_init input silent) = PARSE_STATE_NONE.
Proof. unfold parser_init, read_one_char. simpl. by destruct (list_ascii_of_string input). Qed.

Lemma pending_eof p c rest : pending p = c :: rest → eof p = false.
Proof. intros H. by apply pending_cons in H as [? _]. Qed.

(** After [length l1] bytes are read, the rest is in front of the parser. *)
Lemma reads_obs (k : nat) p (l1 l2 : list ascii) :
  pending p = l1 ++ l2 → length l1 = k →
  pending (Nat.iter k read_one_char p) = l2 ∧
  state (Nat.iter k read_one_char p) = state p.
Proof.
  intros Hp Hk. split.
  - rewrite pending_reads, Hp, <- Hk. by rewrite drop_app_length.
  - apply reads_keep.
Qed.

Lemma skip_white_none p : is_white (la p) = false → skip_white p = Ok (0, p).
Proof. intros H. unfold skip_white. destruct (reads_left p); simpl; by rewrite H. Qed.

Lemma handle_newline_start p c rest :
  pending p = c :: rest → is_white c = false → c ≠ newline →
  handle_newline p = Ok (false, p).
Proof.
  intros Hp Hw Hnl. apply pending_cons in Hp as [_ Hla]. unfold handle_newline.
  rewrite skip_white_none by (by rewrite Hla). cbn [mbind Outcome_bind].
  rewrite Hla. by destruct (Ascii.eqb_spec c newline).
Qed.

Lemma handle_newline_blanks p (ws : list ascii) c rest :
  Forall (λ c, is_white c = true) ws →
  pending p = ws ++ c :: rest → is_white c = false → c ≠ newline →
  ∃ p', handle_newline p = Ok (false, p') ∧
        pending p' = c :: rest ∧ state p' = state p.
Proof.
  intros Hws Hp Hw Hnl. unfold handle_newline.
  destruct (skip_white_pending ws (c :: rest) p Hws) as [n Hsk]; [|done|].
  { by intros c' [= <-]. }
  rewrite Hsk. cbn [mbind Outcome_bind].
  destruct (reads_obs (length ws) p ws (c :: rest) Hp eq_refl) as [Hp' Hs'].
  apply pending_cons in Hp' as Hc. destruct Hc as [_ Hla]. rewrite Hla.
  destruct (Ascii.eqb_spec c newline); [done|]. simpl. by eexists.
Qed.

Lemma newline_not_white : is_white newline = false.
Proof. done. Qed.

Lemma handle_newline_nl p rest :
  pending p = newline :: rest →
  ∃ p', handle_newline p = Ok (true, p') ∧
        pending p' = rest ∧ state p' = PARSE_STATE_NONE.
Proof.
  intros Hp. pose proof (pending_cons _ _ _ Hp) as [_ Hla]. unfold handle_newline.
  rewrite skip_white_none by (by rewrite Hla). cbn [mbind Outcome_bind].
  rewrite Hla. simpl. eexists. split; [done|]. split; [|done].
  rewrite pending_set_state, pending_read_one_char, Hp. done.
Qed.

(** ** The rounds of [qbf_parse] *)

Lemma qbf_parse_loop_round (fuel : nat) p qbf st p' qbf' st' :
  eof p = false → qbf_parse_round p qbf st = Ok (p', qbf', st') →
  qbf_parse_loop (S fuel) p qbf st = qbf_parse_loop fuel p' qbf' st'.
Proof. intros He Hr. simpl. by rewrite He, Hr. Qed.

(** The round at the newline that ends a line. *)
Lemma round_newline p qbf st rest :
  pending p = newline :: rest →
  ∃ p', qbf_parse_round p qbf st = Ok (p', qbf, st) ∧
        pending p' = rest ∧ state p' = PARSE_STATE_NONE.
Proof.
  intros Hp. destruct (handle_newline_nl p rest Hp) as (p' & Hh & Hp' & Hs').
  exists p'. unfold qbf_parse_round. rewrite Hh. done.
Qed.

(** The round at the first byte of a header or of a quantifier line. *)
Lemma round_enter p qbf st c rest :
  pending p = c :: rest → state p = PARSE_STATE_NONE →
  c = "p"%char ∨ c = "e"%char ∨ c = "a"%char →
  ∃ p', qbf_parse_round p qbf st
        = Ok (p', qbf,
              if Ascii.eqb c "p"%char then st
              else mkQBFParse (parsed_problem st) (saw_quantifier st)
                     (last_is_existential st) (Ascii.eqb c "e"%char)
                     (qbf_p_max_var st) (qbf_p_num_clauses st) (quantifier_index st)
                     (num_clauses st) c) ∧
        pending p' = rest ∧
        state p' = if Ascii.eqb c "p"%char then PARSE_STATE_PROBLEM
                   else PARSE_STATE_QUANTIFIER.
Proof.
  intros Hp Hs Hc. pose proof (pending_cons _ _ _ Hp) as [_ Hla].
  unfold qbf_parse_round.
  rewrite (handle_newline_start p c rest Hp) by (by destruct Hc as [->|[->| ->]]).
  cbn [mbind Outcome_bind]. rewrite Hs. unfold qbf_parse_none. rewrite Hla.
  assert (Hsk : ∀ s, skip_white (set_state p s) = Ok (0, set_state p s)).
  { intros s. apply skip_white_none. simpl. rewrite Hla.
    by destruct Hc as [->|[->| ->]]. }
  assert (Hpr : ∀ s, pending (read_one_char (set_state p s)) = rest).
  { intros s. by rewrite pending_read_one_char, pending_set_state, Hp. }
  destruct Hc as [->|[->| ->]]; simpl; rewrite Hsk; cbn [mbind Outcome_bind];
    eexists; (split; [done|]); (split; [apply Hpr|]);
    unfold read_one_char; simpl; by destruct (stream p).
Qed.

Lemma stray_or_clause_start (t : bool * list ascii) (l rest : list ascii) c :
  token_text t ++ l = c :: rest → t.2 ≠ [] → Forall (λ c, is_digit c = true) t.2 →
  is_white c = false ∧ c ≠ newline ∧ Ascii.eqb c "p"%char = false ∧
  Ascii.eqb c "c"%char = false ∧ Ascii.eqb c "e"%char = false ∧
  Ascii.eqb c "a"%char = false.
Proof.
  intros Hc Hne Hd. unfold token_text in Hc. destruct t as [[|] ds]; simpl in *.
  - injection Hc as <- _. done.
  - destruct ds as [|d ds]; [done|]. injection Hc as <- _.
    apply Forall_cons in Hd as [Hd _]. unfold is_digit, digit_of in Hd.
    repeat match type of Hd with
           | context [Ascii.eqb d ?x] => destruct (Ascii.eqb_spec d x) as [->|]; [done|]
           end.
    done.
Qed.

(** The first byte of a clause line. *)
Lemma token_line_head (ts : list (bool * list ascii)) (rest : list ascii) :
  Forall token_ok ts →
  ∃ c l, token_line ts ++ rest = c :: l ∧
    is_white c = false ∧ c ≠ newline ∧ Ascii.eqb c "p"%char = false ∧
    Ascii.eqb c "c"%char = false ∧ Ascii.eqb c "e"%char = false ∧
    Ascii.eqb c "a"%char = false.
Proof.
  intros Hts. unfold token_line. destruct ts as [|t ts].
  - simpl. eexists _, _. split; [done|]. done.
  - apply Forall_cons in Hts as [(Hne & Hd & _) _]. simpl.
    destruct (token_text t) as [|c l] eqn:Ht.
    { unfold token_text in Ht. destruct t as [[|] ds]; simpl in *; [done|].
      by subst. }
    exists c. eexists. split; [simpl; reflexivity|].
    eapply (stray_or_clause_start t [] l); [|done|done].
    by rewrite app_nil_r.
Qed.

(** The round at the first byte of a clause line: nothing is read. *)
Lemma round_clause_start p qbf st c rest :
  pending p = c :: rest → state p = PARSE_STATE_NONE →
  is_white c = false → c ≠ newline → Ascii.eqb c "p"%char = false →
  Ascii.eqb c "c"%char = false → Ascii.eqb c "e"%char = false →
  Ascii.eqb c "a"%char = false →
  qbf_parse_round p qbf st = Ok (set_state p PARSE_STATE_CLAUSE, qbf, st).
Proof.
  intros Hp Hs Hw Hnl H1 H2 H3 H4. pose proof (pending_cons _ _ _ Hp) as [_ Hla].
  unfold qbf_parse_round. rewrite (handle_newline_start p c rest Hp Hw Hnl).
  cbn [mbind Outcome_bind]. rewrite Hs. unfold qbf_parse_none.
  rewrite Hla, H1, H2, H3, H4. done.
Qed.

Lemma expect_word_loop_pending (word : list ascii) :
  ∀ (al : list ascii) p (fuel : nat) w rest,
    Forall (λ c, is_white c = false ∧ c ≠ newline) word →
    pending p = word ++ w :: rest → is_white w = true ∨ w = newline →
    (length word ≤ fuel)%nat →
    expect_word_loop fuel p al
    = Ok (al ++ word, Nat.iter (length word) read_one_char p).
Proof.
  induction word as [|c word IH]; intros al p fuel w rest Hword Hp Hw Hfuel.
  - simpl in Hp. apply pending_cons in Hp as [_ Hla].
    rewrite app_nil_r. destruct fuel; simpl; rewrite Hla;
      (destruct Hw as [->| ->]; [by rewrite orb_true_l|by rewrite orb_true_r]).
  - apply Forall_cons in Hword as [[Hcw Hcn] Hword].
    pose proof (pending_cons _ _ _ Hp) as [Heof Hla].
    destruct fuel as [|fuel]; [simpl in Hfuel; lia|]. simpl expect_word_loop.
    rewrite Hla, Hcw, Heof. destruct (Ascii.eqb_spec c newline); [done|]. simpl orb.
    cbv iota. rewrite (IH _ _ _ w rest); [| done | | done | simpl in Hfuel; lia].
    + f_equal. f_equal.
      * unfold al_append. by rewrite <- (assoc_L (++)).
      * by rewrite <- Nat.iter_succ_r.
    + by rewrite pending_read_one_char, Hp.
Qed.

Lemma expect_word_cnf p rest :
  pending p = list_ascii_of_string "cnf" ++ " "%char :: rest →
  expect_word p
  = Ok (list_ascii_of_string "cnf", Nat.iter 3 read_one_char p).
Proof.
  intros Hp. unfold expect_word.
  rewrite skip_white_none by (apply pending_cons in Hp as [_ ->]; done).
  cbn [mbind Outcome_bind].
  rewrite (expect_word_loop_pending (list_ascii_of_string "cnf") [] p (reads_left p)
             " "%char rest); [done| |done|by left|].
  - by repeat constructor.
  - pose proof (pending_length p) as Hl. rewrite Hp in Hl. simpl in *. lia.
Qed.

Lemma digits_head (ds rest : list ascii) c :
  digits_ok ds → head (ds ++ rest) = Some c →
  is_digit c = true ∧ is_white c = false ∧ c ≠ "-"%char.
Proof.
  intros [Hne Hd] Hc. destruct ds as [|d ds]; [done|]. simpl in Hc.
  injection Hc as <-. apply Forall_cons in Hd as [Hd _].
  split; [done|]. split; [by apply is_white_not_digit|by apply digit_not_minus].
Qed.

Lemma u32_idemp (x : Z) : u32 (u32 x) = u32 x.
Proof. unfold u32. apply Z.mod_mod. lia. Qed.

Lemma white_blank : Forall (λ c, is_white c = true) [" "%char].
Proof. by repeat constructor. Qed.

(** The round that reads the header behind its [p]. *)
Lemma round_problem p qbf st (dv dc rest : list ascii) :
  pending p = list_ascii_of_string " cnf " ++ dv ++ " "%char :: dc ++ newline :: rest →
  state p = PARSE_STATE_PROBLEM → parsed_problem st = false →
  digits_ok dv → digits_ok dc →
  ∃ p', qbf_parse_round p qbf st
        = Ok (p', qbf,
              mkQBFParse true (saw_quantifier st) (last_is_existential st)
                (is_existential st) (u32 (decimal_value dv)) (u32 (decimal_value dc))
                (quantifier_index st) (num_clauses st) (not_exists_ch st)) ∧
        pending p' = newline :: rest ∧ state p' = PARSE_STATE_NONE.
Proof.
  intros Hp Hs Hpp Hdv Hdc. unfold qbf_parse_round.
  destruct (handle_newline_blanks p [" "%char] "c"%char
              (list_ascii_of_string "nf " ++ dv ++ " "%char :: dc ++ newline :: rest))
    as (p0 & -> & Hp0 & Hs0); [apply white_blank|done|done|done|].
  cbn [mbind Outcome_bind]. rewrite Hs0, Hs. unfold qbf_parse_problem. rewrite Hpp.
  rewrite (expect_word_cnf p0 (dv ++ " "%char :: dc ++ newline :: rest)) by done.
  cbn [mbind Outcome_bind]. rewrite bool_decide_true by done. cbn [negb].
  destruct (reads_obs 3 p0 (list_ascii_of_string "cnf")
              (" "%char :: dv ++ " "%char :: dc ++ newline :: rest) Hp0 eq_refl)
    as [Hp1 Hs1].
  set (p1 := Nat.iter 3 read_one_char p0) in *.
  (* the first number *)
  destruct (expect_number_pending p1 [" "%char] dv (" "%char :: dc ++ newline :: rest) true)
    as [Hn1 _]; [by eapply pending_eof|apply white_blank|apply Hdv|by intros c [= <-]|].
  rewrite Hn1; [|done|]; cycle 1.
  { intros c Hc. by destruct (digits_head dv _ c Hdv Hc) as (_ & ? & ?). }
  cbn [mbind Outcome_bind].
  destruct (reads_obs (length [" "%char] + length dv) p1 (" "%char :: dv)
              (" "%char :: dc ++ newline :: rest)) as [Hp2 Hs2];
    [by rewrite Hp1|done|].
  set (p2 := Nat.iter _ read_one_char p1) in *.
  (* the second number *)
  destruct (expect_number_pending p2 [" "%char] dc (newline :: rest) true)
    as [Hn2 _]; [by eapply pending_eof|apply white_blank|apply Hdc|by intros c [= <-]|].
  rewrite Hn2; [|done|]; cycle 1.
  { intros c Hc. by destruct (digits_head dc _ c Hdc Hc) as (_ & ? & ?). }
  cbn [mbind Outcome_bind].
  destruct (reads_obs (length [" "%char] + length dc) p2 (" "%char :: dc)
              (newline :: rest)) as [Hp3 Hs3];
    [by rewrite Hp2|done|].
  set (p3 := Nat.iter _ read_one_char p2) in *.
  (* the end of the line stands for 0 *)
  unfold expect_number_literal.
  destruct (expect_number_pending p3 [] [] (newline :: rest) false)
    as [Hn3 _]; [by eapply pending_eof|done|done|by intros c [= <-]|].
  rewrite Hn3; [|done|by intros c [= <-]].
  cbn [mbind Outcome_bind]. change (u32 (decimal_value [])) with 0. simpl.
  rewrite !u32_idemp.
  eexists. split; [reflexivity|]. rewrite pending_set_state. split; [done|done].
Qed.

(** Both list readers on a line of tokens. *)
Lemma token_line_read (p : Parser) (ts : list (bool * list ascii)) (rest : list ascii) :
  pending p = token_line ts ++ rest →
  Forall token_ok ts →
  (∃ p', expect_literal_list p = Ok (clause_lits ts, p') ∧
         pending p' = newline :: rest ∧ state p' = state p) ∧
  (Forall (λ t, t.1 = false) ts →
   ∃ p', expect_variable_list p = Ok (map (λ t, decimal_value t.2) ts, p') ∧
         pending p' = newline :: rest ∧ state p' = state p).
Proof.
  intros Hp Hts. unfold token_line in Hp. rewrite <- app_assoc in Hp. simpl in Hp.
  assert (Hfuel : (length ts < S (reads_left p))%nat).
  { pose proof (pending_length p) as Hl. rewrite Hp, length_app in Hl.
    assert (length ts ≤ length (flat_map (λ t, token_text t ++ [" "%char]) ts))%nat;
      [|lia].
    clear. induction ts as [|t ts IH]; simpl; [lia|].
    rewrite !length_app. simpl. lia. }
  split.
  - unfold expect_literal_list.
    destruct (expect_list_loop_line expect_literal
                (λ t, SIGNED_LIT2LIT (token_value t)) token_ok) with
      (ts := ts) (fuel := S (reads_left p)) (p := p) (ws := @nil ascii)
      (al := @nil Z) (rest := rest) as (p' & -> & Hp' & _ & Hs'); try done.
    + intros q ws r t Hws Ht Hq. by apply (expect_literal_token q ws r t).
    + intros q ws r Hws Hq. unfold expect_literal.
      rewrite (expect_number_zero q ws r false Hws Hq). reflexivity.
    + cbn [mbind Outcome_bind]. by exists p'.
  - intros Hpos. unfold expect_variable_list.
    destruct (expect_list_loop_line expect_variable (λ t, decimal_value t.2)
                (λ t, token_ok t ∧ t.1 = false)) with
      (ts := ts) (fuel := S (reads_left p)) (p := p) (ws := @nil ascii)
      (al := @nil Z) (rest := rest) as (p' & -> & Hp' & _ & Hs'); try done.
    + by intros t [Ht _].
    + intros q ws r t Hws [Ht Hsign] Hq. unfold expect_variable.
      rewrite (expect_number_token q ws r t true Hws Ht Hq) by (by rewrite Hsign).
      cbn [mbind Outcome_bind].
      destruct Ht as (_ & _ & Hv). unfold token_value. rewrite Hsign.
      unfold assert, VARIABLE_MIN. unfold VARIABLE_MAX in *.
      replace (1 <=? decimal_value t.2) with true by (symmetry; apply Z.leb_le; lia).
      replace (decimal_value t.2 <=? 2 ^ 31 - 1) with true
        by (symmetry; apply Z.leb_le; lia).
      cbn [mbind Outcome_bind orb]. rewrite u32_small by lia. split; [done|lia].
    + intros q ws r Hws Hq. unfold expect_variable.
      rewrite (expect_number_zero q ws r true Hws Hq). reflexivity.
    + apply Forall_forall. intros t Ht. split.
      * by apply (proj1 (Forall_forall _ _) Hts).
      * by apply (proj1 (Forall_forall _ _) Hpos).
    + cbn [mbind Outcome_bind]. by exists p'.
Qed.

Lemma pending_parse_warning p w : pending (parse_warning p w) = pending p.
Proof. unfold parse_warning. by destruct (silent p). Qed.

(** The block of a quantifier line on new variables, with all it changes. *)
Lemma quantifier_line_effect (vars : list Z) parser qbf st :
  vars ≠ [] → NoDup vars →
  (∀ x, x ∈ vars → prefix_mapping qbf !! x = None) →
  Z.of_nat (length vars) < 2 ^ 32 →
  ∃ parser' qbf',
    qbf_parse_quantifier vars parser qbf st
    = Ok (parser', qbf',
          mkQBFParse (parsed_problem st) true (is_existential st) (is_existential st)
            (qbf_p_max_var st) (qbf_p_num_clauses st) (u32 (quantifier_index st + 1))
            (num_clauses st) (not_exists_ch st)) ∧
    pending parser' = pending parser ∧ state parser' = PARSE_STATE_NONE ∧
    prefix qbf'
    = prefix qbf
      ++ [mkQuantifier (quant_type_of (is_existential st)) (quantifier_index st) vars] ∧
    (∀ x, x ∈ vars →
      ∃ quant, prefix_mapping qbf' !! x = Some quant ∧
               type quant = quant_type_of (is_existential st) ∧
               ordering quant = quantifier_index st) ∧
    (∀ x, x ∉ vars → prefix_mapping qbf' !! x = prefix_mapping qbf !! x) ∧
    max_var qbf' = fold_left Z.max vars (max_var qbf) ∧
    num_alternations qbf'
    = (if saw_quantifier st
          && negb (Bool.eqb (last_is_existential st) (is_existential st))
       then u32 (num_alternations qbf + 1) else num_alternations qbf) ∧
    matrix qbf' = matrix qbf.
Proof.
  intros Hne Hnd Hfresh Hlen. unfold qbf_parse_quantifier.
  match goal with
  | |- context [quantifier_loop ?f vars ?qt ?qo 0 ?n [] parser qbf] =>
      destruct (quantifier_loop_all_fresh vars qt qo vars [] [] qbf f n parser)
        as (qbf1 & Heq & Hp & Hm & Ha & _ & Hmax & Hin & Hout); [done..|lia|]
  end.
  change (Z.of_nat (length (@nil Z))) with 0 in Heq. rewrite Heq.
  cbn [mbind Outcome_bind].
  assert (Hpos : Z.of_nat (length vars) ≠ 0) by (destruct vars; [done|simpl; lia]).
  destruct (Z.eqb_spec (Z.of_nat (length vars)) 0) as [|_]; [done|].
  eexists _, _. split; [done|]. cbn.
  rewrite Hp, Hm, Ha, Hmax. unfold al_append, quant_type_of.
  split.
  { rewrite pending_set_state.
    destruct (saw_quantifier st && Bool.eqb (last_is_existential st) (is_existential st));
      by rewrite ?pending_parse_warning. }
  split; [done|]. split; [done|]. split; [done|]. split; [done|]. done.
Qed.

Lemma block_vars_facts (b : bool) (ts : list (bool * list ascii)) :
  block_ok (b, ts) →
  block_vars (b, ts) ≠ [] ∧ Forall token_ok ts ∧ Forall (λ t, t.1 = false) ts ∧
  Z.of_nat (length (block_vars (b, ts))) < 2 ^ 32.
Proof.
  intros (Hne & Hts & Hlen). simpl in *. unfold block_vars. simpl.
  split; [by destruct ts|]. split; [|split].
  - eapply Forall_impl; [done|]. by intros t [? _].
  - eapply Forall_impl; [done|]. by intros t [_ ?].
  - by rewrite length_map.
Qed.

(** The round that reads a quantifier line behind its [e] or [a]. *)
Lemma round_quantifier p qbf st (b : bool) (ts : list (bool * list ascii)) rest :
  pending p = " "%char :: token_line ts ++ rest →
  state p = PARSE_STATE_QUANTIFIER →
  is_existential st = b → not_exists_ch st = (if b then "e"%char else "a"%char) →
  block_ok (b, ts) → NoDup (block_vars (b, ts)) →
  (∀ x, x ∈ block_vars (b, ts) → prefix_mapping qbf !! x = None) →
  ∃ p' qbf',
    qbf_parse_round p qbf st
    = Ok (p', qbf',
          mkQBFParse (parsed_problem st) true b b
            (qbf_p_max_var st) (qbf_p_num_clauses st) (u32 (quantifier_index st + 1))
            (num_clauses st) (not_exists_ch st)) ∧
    pending p' = newline :: rest ∧ state p' = PARSE_STATE_NONE ∧
    prefix qbf'
    = prefix qbf
      ++ [mkQuantifier (quant_type_of b) (quantifier_index st) (block_vars (b, ts))] ∧
    (∀ x, x ∈ block_vars (b, ts) →
      ∃ quant, prefix_mapping qbf' !! x = Some quant ∧
               type quant = quant_type_of b ∧
               ordering quant = quantifier_index st) ∧
    (∀ x, x ∉ block_vars (b, ts) → prefix_mapping qbf' !! x = prefix_mapping qbf !! x) ∧
    max_var qbf' = fold_left Z.max (block_vars (b, ts)) (max_var qbf) ∧
    num_alternations qbf'
    = (if saw_quantifier st && negb (Bool.eqb (last_is_existential st) b)
       then u32 (num_alternations qbf + 1) else num_alternations qbf) ∧
    matrix qbf' = matrix qbf.
Proof.
  intros Hp Hs Hb Hch Hok Hnd Hfresh.
  destruct (block_vars_facts b ts Hok) as (Hne & Hts & Hpos & Hlen).
  destruct (token_line_head ts rest Hts) as (c & l & Hcl & Hw & Hnl & _).
  unfold qbf_parse_round.
  destruct (handle_newline_blanks p [" "%char] c l) as (p0 & -> & Hp0 & Hs0);
    [apply white_blank|by rewrite Hp, Hcl|done|done|].
  cbn [mbind Outcome_bind]. rewrite Hs0, Hs, Hb, Hch.
  replace (negb b && negb (Ascii.eqb (if b then "e"%char else "a"%char) "a"%char))
    with false by (by destruct b).
  rewrite <- Hcl in Hp0.
  destruct (token_line_read p0 ts rest Hp0 Hts) as [_ Hvar].
  destruct (Hvar Hpos) as (p1 & -> & Hp1 & Hs1).
  cbn [mbind Outcome_bind].
  destruct (quantifier_line_effect (block_vars (b, ts)) p1 qbf st Hne Hnd Hfresh Hlen)
    as (p2 & qbf' & Heq & Hp2 & Hs2 & Hpre & Hin & Hout & Hmax & Halt & Hmat).
  unfold block_vars in Heq at 1. simpl in Heq. rewrite Heq. rewrite Hb in *.
  exists p2, qbf'. split; [by rewrite Hch|]. split; [by rewrite Hp2|]. done.
Qed.

Lemma fold_left_max_LIT2VAR (lits : list Z) (m : Z) :
  fold_left (λ m lit, if m <? LIT2VAR lit then LIT2VAR lit else m) lits m
  = fold_left Z.max (map LIT2VAR lits) m.
Proof.
  revert m. induction lits as [|x lits IH]; intros m; simpl; [done|].
  rewrite IH. f_equal. destruct (Z.ltb_spec m (LIT2VAR x)); lia.
Qed.

(** The round that reads a clause line. *)
Lemma round_clause p qbf st (ts : list (bool * list ascii)) rest :
  pending p = token_line ts ++ rest → state p = PARSE_STATE_CLAUSE →
  Forall token_ok ts →
  ∃ p',
    qbf_parse_round p qbf st
    = Ok (p',
          mkQBF (fold_left Z.max (map LIT2VAR (clause_lits ts)) (max_var qbf))
            (num_alternations qbf) (prefix_mapping qbf) (warned_free qbf)
            (prefix qbf) (matrix qbf ++ [clause_lits ts]),
          mkQBFParse (parsed_problem st) (saw_quantifier st) (last_is_existential st)
            (is_existential st) (qbf_p_max_var st) (qbf_p_num_clauses st)
            (quantifier_index st) (u32 (num_clauses st + 1)) (not_exists_ch st)) ∧
    pending p' = newline :: rest ∧ state p' = PARSE_STATE_NONE.
Proof.
  intros Hp Hs Hts.
  destruct (token_line_head ts rest Hts) as (c & l & Hcl & Hw & Hnl & _).
  unfold qbf_parse_round.
  rewrite (handle_newline_start p c l) by (by rewrite ?Hp, ?Hcl).
  cbn [mbind Outcome_bind]. rewrite Hs.
  destruct (token_line_read p ts rest Hp Hts) as [(p1 & -> & Hp1 & Hs1) _].
  cbn [mbind Outcome_bind]. unfold qbf_parse_clause.
  rewrite fold_left_max_LIT2VAR. eexists. split; [done|].
  rewrite pending_set_state. done.
Qed.

(** ** Lines *)

Lemma header_line_parsed (fuel : nat) p qbf st (dv dc rest : list ascii) :
  pending p = header_line dv dc ++ rest → state p = PARSE_STATE_NONE →
  parsed_problem st = false → digits_ok dv → digits_ok dc →
  ∃ p',
    qbf_parse_loop (3 + fuel) p qbf st
    = qbf_parse_loop fuel p' qbf
        (mkQBFParse true (saw_quantifier st) (last_is_existential st)
           (is_existential st) (u32 (decimal_value dv)) (u32 (decimal_value dc))
           (quantifier_index st) (num_clauses st) (not_exists_ch st)) ∧
    pending p' = rest ∧ state p' = PARSE_STATE_NONE.
Proof.
  intros Hp Hs Hpp Hdv Hdc. unfold header_line in Hp.
  rewrite <- !app_assoc in Hp. simpl in Hp.
  destruct (round_enter p qbf st "p"%char _ Hp Hs ltac:(by left)) as (p1 & Hr1 & Hp1 & Hs1).
  simpl in Hr1, Hs1.
  destruct (round_problem p1 qbf st dv dc rest) as (p2 & Hr2 & Hp2 & Hs2); try done.
  { rewrite Hp1. simpl. by rewrite <- !app_assoc. }
  destruct (round_newline p2 qbf
              (mkQBFParse true (saw_quantifier st) (last_is_existential st)
                 (is_existential st) (u32 (decimal_value dv)) (u32 (decimal_value dc))
                 (quantifier_index st) (num_clauses st) (not_exists_ch st)) rest Hp2)
    as (p3 & Hr3 & Hp3 & Hs3).
  exists p3. split; [|done].
  change (3 + fuel)%nat with (S (S (S fuel))).
  rewrite (qbf_parse_loop_round _ _ _ _ _ _ _ (pending_eof _ _ _ Hp) Hr1).
  rewrite (qbf_parse_loop_round _ _ _ _ _ _ _ (pending_eof _ _ _ Hp1) Hr2).
  by rewrite (qbf_parse_loop_round _ _ _ _ _ _ _ (pending_eof _ _ _ Hp2) Hr3).
Qed.

Lemma quantifier_line_parsed (fuel : nat) p qbf st
    (b : bool * list (bool * list ascii)) rest :
  pending p = quantifier_line b ++ rest → state p = PARSE_STATE_NONE →
  block_ok b → NoDup (block_vars b) →
  (∀ x, x ∈ block_vars b → prefix_mapping qbf !! x = None) →
  ∃ p' qbf',
    qbf_parse_loop (3 + fuel) p qbf st
    = qbf_parse_loop fuel p' qbf'
        (mkQBFParse (parsed_problem st) true b.1 b.1
           (qbf_p_max_var st) (qbf_p_num_clauses st) (u32 (quantifier_index st + 1))
           (num_clauses st) (if b.1 then "e"%char else "a"%char)) ∧
    pending p' = rest ∧ state p' = PARSE_STATE_NONE ∧
    prefix qbf'
    = prefix qbf
      ++ [mkQuantifier (quant_type_of b.1) (quantifier_index st) (block_vars b)] ∧
    (∀ x, x ∈ block_vars b →
      ∃ quant, prefix_mapping qbf' !! x = Some quant ∧
               type quant = quant_type_of b.1 ∧
               ordering quant = quantifier_index st) ∧
    (∀ x, x ∉ block_vars b → prefix_mapping qbf' !! x = prefix_mapping qbf !! x) ∧
    max_var qbf' = fold_left Z.max (block_vars b) (max_var qbf) ∧
    num_alternations qbf'
    = (if saw_quantifier st && negb (Bool.eqb (last_is_existential st) b.1)
       then u32 (num_alternations qbf + 1) else num_alternations qbf) ∧
    matrix qbf' = matrix qbf.
Proof.
  intros Hp Hs Hok Hnd Hfresh. destruct b as [b ts]. unfold quantifier_line in Hp.
  simpl in Hp. simpl fst.
  destruct (round_enter p qbf st (if b then "e"%char else "a"%char) _ Hp Hs
              ltac:(destruct b; auto)) as (p1 & Hr1 & Hp1 & Hs1).
  replace (Ascii.eqb (if b then "e"%char else "a"%char) "p"%char) with false
    in Hr1, Hs1 by (by destruct b).
  replace (Ascii.eqb (if b then "e"%char else "a"%char) "e"%char) with b
    in Hr1 by (by destruct b).
  match type of Hr1 with
  | _ = Ok (_, _, ?s) =>
      destruct (round_quantifier p1 qbf s b ts rest Hp1 Hs1 eq_refl eq_refl Hok Hnd Hfresh)
        as (p2 & qbf' & Hr2 & Hp2 & Hs2 & Heff)
  end.
  simpl in Hr2, Heff.
  destruct (round_newline p2 qbf'
              (mkQBFParse (parsed_problem st) true b b
                 (qbf_p_max_var st) (qbf_p_num_clauses st)
                 (u32 (quantifier_index st + 1))
                 (num_clauses st) (if b then "e"%char else "a"%char)) rest Hp2)
    as (p3 & Hr3 & Hp3 & Hs3).
  exists p3, qbf'. split; [|done].
  change (3 + fuel)%nat with (S (S (S fuel))).
  rewrite (qbf_parse_loop_round _ _ _ _ _ _ _ (pending_eof _ _ _ Hp) Hr1).
  rewrite (qbf_parse_loop_round _ _ _ _ _ _ _ (pending_eof _ _ _ Hp1) Hr2).
  by rewrite (qbf_parse_loop_round _ _ _ _ _ _ _ (pending_eof _ _ _ Hp2) Hr3).
Qed.

Lemma clause_line_parsed (fuel : nat) p qbf st (ts : list (bool * list ascii)) rest :
  pending p = token_line ts ++ rest → state p = PARSE_STATE_NONE →
  Forall token_ok ts →
  ∃ p',
    qbf_parse_loop (3 + fuel) p qbf st
    = qbf_parse_loop fuel p'
        (mkQBF (fold_left Z.max (map LIT2VAR (clause_lits ts)) (max_var qbf))
           (num_alternations qbf) (prefix_mapping qbf) (warned_free qbf)
           (prefix qbf) (matrix qbf ++ [clause_lits ts]))
        (mkQBFParse (parsed_problem st) (saw_quantifier st) (last_is_existential st)
           (is_existential st) (qbf_p_max_var st) (qbf_p_num_clauses st)
           (quantifier_index st) (u32 (num_clauses st + 1)) (not_exists_ch st)) ∧
    pending p' = rest ∧ state p' = PARSE_STATE_NONE.
Proof.
  intros Hp Hs Hts.
  destruct (token_line_head ts rest Hts) as (c & l & Hcl & Hw & Hnl & H1 & H2 & H3 & H4).
  assert (Hp' : pending p = c :: l) by (by rewrite Hp, Hcl).
  pose proof (round_clause_start p qbf st c l Hp' Hs Hw Hnl H1 H2 H3 H4) as Hr1.
  destruct (round_clause (set_state p PARSE_STATE_CLAUSE) qbf st ts rest)
    as (p2 & Hr2 & Hp2 & Hs2); [by rewrite pending_set_state|done|done|].
  match type of Hr2 with
  | _ = Ok (_, ?q, ?s) =>
      destruct (round_newline p2 q s rest Hp2) as (p3 & Hr3 & Hp3 & Hs3)
  end.
  exists p3. split; [|done].
  change (3 + fuel)%nat with (S (S (S fuel))).
  rewrite (qbf_parse_loop_round _ _ _ _ _ _ _ (pending_eof _ _ _ Hp') Hr1).
  rewrite (qbf_parse_loop_round _ _ _ _ _ _ _
             (pending_eof (set_state p PARSE_STATE_CLAUSE) _ _ Hp') Hr2).
  by rewrite (qbf_parse_loop_round _ _ _ _ _ _ _ (pending_eof _ _ _ Hp2) Hr3).
Qed.

(** ** Files *)

Lemma alternations_step (saw last b : bool) (na : Z) :
  0 ≤ na < 2 ^ 32 - 1 →
  (if saw && negb (Bool.eqb last b) then u32 (na + 1) else na)
  = na + match (if saw then Some last else None) with
         | Some l => if Bool.eqb l b then 0 else 1
         | None => 0
         end.
Proof.
  intros Hna. destruct saw; simpl; [|lia].
  destruct (Bool.eqb last b); simpl; [lia|]. apply u32_small. lia.
Qed.

(** The quantifier lines of a file, on variables that are all new. *)
Lemma quantifier_lines_parsed (bs : list (bool * list (bool * list ascii))) :
  ∀ (fuel : nat) p qbf st rest,
    pending p = flat_map quantifier_line bs ++ rest → state p = PARSE_STATE_NONE →
    Forall block_ok bs → NoDup (flat_map block_vars bs) →
    (∀ x, x ∈ flat_map block_vars bs → prefix_mapping qbf !! x = None) →
    0 ≤ quantifier_index st → quantifier_index st + Z.of_nat (length bs) < 2 ^ 32 →
    0 ≤ num_alternations qbf → num_alternations qbf + Z.of_nat (length bs) < 2 ^ 32 →
    ∃ p' qbf' st',
      qbf_parse_loop (3 * length bs + fuel) p qbf st = qbf_parse_loop fuel p' qbf' st' ∧
      pending p' = rest ∧ state p' = PARSE_STATE_NONE ∧
      parsed_problem st' = parsed_problem st ∧
      qbf_p_max_var st' = qbf_p_max_var st ∧
      qbf_p_num_clauses st' = qbf_p_num_clauses st ∧
      prefix qbf'
      = prefix qbf
        ++ imap (λ i b, mkQuantifier (quant_type_of b.1)
                          (quantifier_index st + Z.of_nat i) (block_vars b)) bs ∧
      (∀ i b x, bs !! i = Some b → x ∈ block_vars b →
         ∃ quant, prefix_mapping qbf' !! x = Some quant ∧
                  type quant = quant_type_of b.1 ∧
                  ordering quant = quantifier_index st + Z.of_nat i) ∧
      (∀ x, x ∉ flat_map block_vars bs →
         prefix_mapping qbf' !! x = prefix_mapping qbf !! x) ∧
      max_var qbf' = fold_left Z.max (flat_map block_vars bs) (max_var qbf) ∧
      num_alternations qbf'
      = num_alternations qbf
        + alternations (if saw_quantifier st then Some (last_is_existential st) else None)
            (map fst bs) ∧
      matrix qbf' = matrix qbf.
Proof.
  induction bs as [|b bs IH];
    intros fuel p qbf st rest Hp Hs Hok Hnd Hfresh Hq0 Hq Ha0 Ha.
  { exists p, qbf, st. simpl. rewrite app_nil_r, Z.add_0_r.
    repeat split; try done; intros i b x Hi; by rewrite lookup_nil in Hi. }
  apply Forall_cons in Hok as [Hokb Hok].
  simpl in Hnd. apply NoDup_app in Hnd as (Hndb & Hdisj & Hnd).
  simpl in Hp. rewrite <- app_assoc in Hp.
  simpl length in *.
  destruct (quantifier_line_parsed (3 * length bs + fuel) p qbf st b _ Hp Hs Hokb Hndb)
    as (p1 & qbf1 & Hl1 & Hp1 & Hs1 & Hpre1 & Hin1 & Hout1 & Hmax1 & Halt1 & Hmat1).
  { intros x Hx. apply Hfresh. simpl. apply elem_of_app. by left. }
  match type of Hl1 with
  | _ = qbf_parse_loop _ _ _ ?s => set (st1 := s) in *
  end.
  destruct (IH fuel p1 qbf1 st1 rest Hp1 Hs1 Hok Hnd)
    as (p2 & qbf2 & st2 & Hl2 & Hp2 & Hs2 & Hpp2 & Hpm2 & Hpc2 & Hpre2 & Hin2 & Hout2
        & Hmax2 & Halt2 & Hmat2).
  { intros x Hx. rewrite Hout1 by (intros Hxb; by apply (Hdisj x)).
    apply Hfresh. simpl. apply elem_of_app. by right. }
  { simpl. pose proof (u32_range (quantifier_index st + 1)). lia. }
  { simpl. rewrite u32_small; lia. }
  { rewrite Halt1. destruct (_ && _); [|done].
    pose proof (u32_range (num_alternations qbf + 1)). lia. }
  { rewrite Halt1. destruct (_ && _); [|lia]. rewrite u32_small; lia. }
  simpl in Hpp2, Hpm2, Hpc2, Halt2, Hpre2, Hin2.
  rewrite (u32_small (quantifier_index st + 1)) in Hpre2, Hin2 by lia.
  exists p2, qbf2, st2. split.
  { replace (3 * S (length bs) + fuel)%nat with (3 + (3 * length bs + fuel))%nat by lia.
    by rewrite Hl1, Hl2. }
  split; [done|]. split; [done|]. split; [done|]. split; [done|]. split; [done|].
  split.
  { rewrite Hpre2, Hpre1, <- app_assoc. simpl. rewrite Z.add_0_r. do 2 f_equal.
    apply imap_ext. intros i x _. simpl. f_equal. lia. }
  split.
  { intros [|i] b' x Hi Hx; simpl in Hi.
    - injection Hi as <-. rewrite Z.add_0_r.
      rewrite Hout2 by (intros Hxr; by apply (Hdisj x)). by apply Hin1.
    - destruct (Hin2 i b' x Hi Hx) as (quant & Hq1 & Hq2 & Hq3).
      exists quant. split; [done|]. split; [done|]. lia. }
  split.
  { intros x Hx. simpl in Hx. rewrite not_elem_of_app in Hx. destruct Hx as [Hx1 Hx2].
    by rewrite Hout2, Hout1. }
  split.
  { simpl. by rewrite fold_left_app, Hmax2, Hmax1. }
  split; [|by rewrite Hmat2].
  rewrite Halt2, Halt1. simpl.
  rewrite alternations_step by lia. lia.
Qed.

(** The clause lines of a file. *)
Lemma clause_lines_parsed (cs : list (list (bool * list ascii))) :
  ∀ (fuel : nat) p qbf st rest,
    pending p = flat_map token_line cs ++ rest → state p = PARSE_STATE_NONE →
    Forall (Forall token_ok) cs →
    ∃ p' st',
      qbf_parse_loop (3 * length cs + fuel) p qbf st
      = qbf_parse_loop fuel p'
          (mkQBF
             (fold_left Z.max (map LIT2VAR (flat_map clause_lits cs)) (max_var qbf))
             (num_alternations qbf) (prefix_mapping qbf) (warned_free qbf)
             (prefix qbf) (matrix qbf ++ map clause_lits cs)) st' ∧
      pending p' = rest ∧ state p' = PARSE_STATE_NONE ∧
      parsed_problem st' = parsed_problem st ∧
      qbf_p_max_var st' = qbf_p_max_var st.
Proof.
  induction cs as [|c cs IH]; intros fuel p qbf st rest Hp Hs Hok.
  { exists p, st. simpl. rewrite app_nil_r. by destruct qbf. }
  apply Forall_cons in Hok as [Hokc Hok].
  simpl in Hp. rewrite <- app_assoc in Hp.
  destruct (clause_line_parsed (3 * length cs + fuel) p qbf st c _ Hp Hs Hokc)
    as (p1 & Hl1 & Hp1 & Hs1).
  match type of Hl1 with
  | _ = qbf_parse_loop _ _ ?q ?s =>
      destruct (IH fuel p1 q s rest Hp1 Hs1 Hok) as (p2 & st2 & Hl2 & Hp2 & Hs2 & Hpp & Hpm)
  end.
  exists p2, st2. split.
  { replace (3 * length (c :: cs) + fuel)%nat with (3 + (3 * length cs + fuel))%nat
      by (simpl; lia).
    rewrite Hl1, Hl2. simpl. f_equal. f_equal.
    - by rewrite map_app, fold_left_app.
    - by rewrite <- app_assoc. }
  done.
Qed.

Lemma fold_left_max_base (l : list Z) (p : Z) :
  0 ≤ p → Z.max (fold_left Z.max l 0) p = fold_left Z.max l p.
Proof.
  assert (H : ∀ a b, fold_left Z.max l (Z.max a b) = Z.max (fold_left Z.max l a) b).
  { induction l as [|x l IH]; intros a b; simpl; [done|].
    rewrite <- IH. f_equal. lia. }
  intros Hp. rewrite <- H. f_equal. lia.
Qed.

(** X24: [qbf_parse] reads a well-formed QDIMACS file.  For a header, then
    quantifier lines with at least one variable each and no variable twice,
    then clause lines, all numbers in [1 .. VARIABLE_MAX], the parser
    returns: the prefix has one block for each line, in order, with the type
    of the line, its position as ordering and its variables; every variable
    is entered with its block, no other variable is; the matrix has the
    clauses in order with their literals in the internal encoding;
    [max_var] is the largest of the header's number and the variables that
    occur; [num_alternations] counts the changes of type along the lines. *)
Theorem qbf_parse_reads_qdimacs (dv dc : list ascii)
    (bs : list (bool * list (bool * list ascii)))
    (cs : list (list (bool * list ascii))) (silent : bool) (fuel : nat) :
  digits_ok dv → digits_ok dc →
  Forall block_ok bs → NoDup (flat_map block_vars bs) →
  Forall (Forall token_ok) cs →
  Z.of_nat (length bs) < 2 ^ 32 →
  (3 * (1 + length bs + length cs) ≤ fuel)%nat →
  ∃ parser' qbf',
    qbf_parse fuel (string_of_list_ascii (qdimacs dv dc bs cs)) qbf_new silent
    = Ok (parser', qbf') ∧
    prefix qbf' = imap block_of bs ∧
    matrix qbf' = map clause_lits cs ∧
    (∀ i b x, bs !! i = Some b → x ∈ block_vars b →
       ∃ quant, prefix_mapping qbf' !! x = Some quant ∧
                type quant = quant_type_of b.1 ∧ ordering quant = Z.of_nat i) ∧
    (∀ x, x ∉ flat_map block_vars bs → prefix_mapping qbf' !! x = None) ∧
    max_var qbf'
    = fold_left Z.max
        (flat_map block_vars bs ++ map LIT2VAR (flat_map clause_lits cs))
        (u32 (decimal_value dv)) ∧
    num_alternations qbf' = alternations None (map fst bs).
Proof.
  intros Hdv Hdc Hbs Hnd Hcs Hlen Hfuel.
  unfold qbf_parse.
  set (p0 := parser_init (string_of_list_ascii (qdimacs dv dc bs cs)) silent).
  set (st0 := mkQBFParse false false false false 0 0 0 0 "000"%char).
  assert (Hp0 : pending p0
                = header_line dv dc
                  ++ (flat_map quantifier_line bs ++ (flat_map token_line cs ++ []))).
  { unfold p0. rewrite pending_parser_init, list_ascii_of_string_of_list_ascii.
    unfold qdimacs. by rewrite app_nil_r. }
  assert (Hs0 : state p0 = PARSE_STATE_NONE) by apply state_parser_init.
  replace fuel
    with (3 + (3 * length bs + (3 * length cs + (fuel - 3 * (1 + length bs + length cs)))))%nat
    by lia.
  set (r := (fuel - 3 * (1 + length bs + length cs))%nat).
  destruct (header_line_parsed (3 * length bs + (3 * length cs + r)) p0 qbf_new st0
              dv dc _ Hp0 Hs0 eq_refl Hdv Hdc) as (p1 & -> & Hp1 & Hs1).
  match goal with
  | |- context [qbf_parse_loop _ p1 qbf_new ?s] => set (st1 := s)
  end.
  destruct (quantifier_lines_parsed bs (3 * length cs + r) p1 qbf_new st1 _ Hp1 Hs1 Hbs Hnd)
    as (p2 & qbf2 & st2 & -> & Hp2 & Hs2 & Hpp2 & Hpm2 & _ & Hpre2 & Hin2 & Hout2
        & Hmax2 & Halt2 & Hmat2); try (simpl; lia).
  { intros x _. apply lookup_empty. }
  destruct (clause_lines_parsed cs r p2 qbf2 st2 [] Hp2 Hs2 Hcs)
    as (p3 & st3 & -> & Hp3 & Hs3 & Hpp3 & Hpm3).
  apply pending_nil in Hp3 as Heof.
  assert (Hend : ∀ q s, qbf_parse_loop r p3 q s = Ok (p3, q, s)).
  { intros q s. destruct r; simpl; by rewrite Heof. }
  rewrite Hend. cbn [mbind Outcome_bind].
  rewrite Hpp3, Hpp2. simpl negb. cbv iota.
  rewrite Hpm3, Hpm2. simpl qbf_p_max_var. simpl max_var.
  set (m := fold_left Z.max (map LIT2VAR (flat_map clause_lits cs)) (max_var qbf2)).
  assert (Hm : Z.max m (u32 (decimal_value dv))
               = fold_left Z.max
                   (flat_map block_vars bs ++ map LIT2VAR (flat_map clause_lits cs))
                   (u32 (decimal_value dv))).
  { unfold m. rewrite Hmax2. simpl max_var. rewrite <- fold_left_app.
    apply fold_left_max_base. pose proof (u32_range (decimal_value dv)). lia. }
  simpl in Hpre2, Hin2, Hout2, Halt2, Hmat2.
  assert (Hpre : prefix qbf2 = imap block_of bs).
  { rewrite Hpre2. apply imap_ext. intros i b _. unfold block_of. f_equal. }
  assert (Hmatrix : matrix qbf2 ++ map clause_lits cs = map clause_lits cs)
    by (by rewrite Hmat2).
  assert (Hin : ∀ i b x, bs !! i = Some b → x ∈ block_vars b →
            ∃ quant, prefix_mapping qbf2 !! x = Some quant ∧
                     type quant = quant_type_of b.1 ∧ ordering quant = Z.of_nat i).
  { intros i b x Hi Hx. destruct (Hin2 i b x Hi Hx) as (quant & ? & ? & ?).
    exists quant. split; [done|]. split; [done|]. lia. }
  assert (Hout : ∀ x, x ∉ flat_map block_vars bs → prefix_mapping qbf2 !! x = None).
  { intros x Hx. rewrite Hout2 by done. apply lookup_empty. }
  destruct (negb (m =? u32 (decimal_value dv))) eqn:Hcmp.
  - eexists _, _. split; [reflexivity|]. simpl.
    split; [done|]. split; [done|]. split; [done|]. split; [done|].
    split; [|lia]. rewrite <- Hm. destruct (Z.ltb_spec m (u32 (decimal_value dv))); lia.
  - eexists _, _. split; [reflexivity|]. simpl.
    split; [done|]. split; [done|]. split; [done|]. split; [done|].
    split; [|lia]. rewrite <- Hm. apply negb_false_iff, Z.eqb_eq in Hcmp. lia.
Qed.

Lemma qbf_parse_reads_qdimacs_witness :
  ∃ parser' qbf',
    qbf_parse 15 (string_of_list_ascii qdimacs_two) qbf_new true = Ok (parser', qbf') ∧
    prefix qbf'
    = [mkQuantifier QUANT_TYPE_EXISTENTIAL 0 [1; 2];
       mkQuantifier QUANT_TYPE_UNIVERSAL 1 [3]] ∧
    matrix qbf' = [[2; 7]; [5; 6]] ∧ max_var qbf' = 3 ∧ num_alternations qbf' = 1.
Proof.
  destruct (qbf_parse_reads_qdimacs (list_ascii_of_string "3") (list_ascii_of_string "2")
              [(true, [tok false "1"; tok false "2"]); (false, [tok false "3"])]
              [[tok false "1"; tok true "3"]; [tok true "2"; tok false "3"]] true 15)
    as (parser' & qbf' & Heq & Hpre & Hmat & _ & _ & Hmax & Halt).
  - split; [done|]. by repeat constructor.
  - split; [done|]. by repeat constructor.
  - repeat constructor; try done; vm_compute; done.
  - apply (bool_decide_unpack _). by vm_compute.
  - repeat constructor; try done; vm_compute; done.
  - simpl. lia.
  - simpl. lia.
  - exists parser', qbf'. split; [exact Heq|]. split; [exact Hpre|].
    split; [exact Hmat|]. split; [exact Hmax|exact Halt].
Defined.

(** X25: the header is looked for at the end of the input only, and a second
    one is refused where it stands.  A file of well-formed quantifier and
    clause lines without a header is read to its end, and then the parser
    exits with [EXIT_PARSING_FAILURE]; so does a file with a second line
    that starts with [p] and has more than blanks behind it, whatever
    follows. *)
Theorem qbf_parse_header_errors (dv dc : list ascii)
    (bs : list (bool * list (bool * list ascii)))
    (cs : list (list (bool * list ascii))) (c : ascii) (rest : list ascii)
    (silent : bool) (fuel : nat) :
  digits_ok dv → digits_ok dc →
  Forall block_ok bs → NoDup (flat_map block_vars bs) →
  Forall (Forall token_ok) cs →
  Z.of_nat (length bs) < 2 ^ 32 →
  is_white c = false → c ≠ newline →
  (3 * (length bs + length cs) ≤ fuel)%nat → (5 ≤ fuel)%nat →
  qbf_parse fuel
    (string_of_list_ascii (flat_map quantifier_line bs ++ flat_map token_line cs))
    qbf_new silent
  = Fatal EXIT_PARSING_FAILURE ∧
  qbf_parse fuel
    (string_of_list_ascii (header_line dv dc ++ "p"%char :: " "%char :: c :: rest))
    qbf_new silent
  = Fatal EXIT_PARSING_FAILURE.
Proof.
  intros Hdv Hdc Hbs Hnd Hcs Hlen Hw Hnl Hfuel Hfuel5. split.
  - unfold qbf_parse.
    set (p0 := parser_init _ silent).
    set (st0 := mkQBFParse false false false false 0 0 0 0 "000"%char).
    assert (Hp0 : pending p0
                  = flat_map quantifier_line bs ++ (flat_map token_line cs ++ [])).
    { unfold p0. rewrite pending_parser_init, list_ascii_of_string_of_list_ascii.
      by rewrite app_nil_r. }
    assert (Hs0 : state p0 = PARSE_STATE_NONE) by apply state_parser_init.
    replace fuel
      with (3 * length bs + (3 * length cs + (fuel - 3 * (length bs + length cs))))%nat
      by lia.
    set (r := (fuel - 3 * (length bs + length cs))%nat).
    destruct (quantifier_lines_parsed bs (3 * length cs + r) p0 qbf_new st0 _ Hp0 Hs0 Hbs Hnd)
      as (p2 & qbf2 & st2 & -> & Hp2 & Hs2 & Hpp2 & _); try (simpl; lia).
    { intros x _. apply lookup_empty. }
    destruct (clause_lines_parsed cs r p2 qbf2 st2 [] Hp2 Hs2 Hcs)
      as (p3 & st3 & -> & Hp3 & Hs3 & Hpp3 & _).
    apply pending_nil in Hp3 as Heof.
    assert (Hend : ∀ q s, qbf_parse_loop r p3 q s = Ok (p3, q, s)).
    { intros q s. destruct r; simpl; by rewrite Heof. }
    rewrite Hend. cbn [mbind Outcome_bind]. by rewrite Hpp3, Hpp2.
  - unfold qbf_parse.
    set (p0 := parser_init _ silent).
    set (st0 := mkQBFParse false false false false 0 0 0 0 "000"%char).
    assert (Hp0 : pending p0 = header_line dv dc ++ "p"%char :: " "%char :: c :: rest).
    { unfold p0. by rewrite pending_parser_init, list_ascii_of_string_of_list_ascii. }
    assert (Hs0 : state p0 = PARSE_STATE_NONE) by apply state_parser_init.
    replace fuel with (3 + S (S (fuel - 5)))%nat by lia.
    destruct (header_line_parsed (S (S (fuel - 5))) p0 qbf_new st0
                dv dc _ Hp0 Hs0 eq_refl Hdv Hdc) as (p1 & -> & Hp1 & Hs1).
    match goal with
    | |- context [qbf_parse_loop _ p1 qbf_new ?s] => set (st1 := s)
    end.
    destruct (round_enter p1 qbf_new st1 "p"%char _ Hp1 Hs1 ltac:(by left))
      as (p2 & Hr2 & Hp2 & Hs2).
    simpl in Hr2, Hs2.
    rewrite (qbf_parse_loop_round _ _ _ _ _ _ _ (pending_eof _ _ _ Hp1) Hr2).
    simpl qbf_parse_loop. rewrite (pending_eof _ _ _ Hp2).
    unfold qbf_parse_round.
    destruct (handle_newline_blanks p2 [" "%char] c rest) as (p3 & -> & Hp3 & Hs3);
      [apply white_blank|done|done|done|].
    cbn [mbind Outcome_bind]. rewrite Hs3, Hs2. unfold qbf_parse_problem. done.
Qed.

Lemma qbf_parse_header_errors_witness :
  qbf_parse 6 (lines ["e 1 0"; "1 0"]%string) qbf_new true = Fatal 80 ∧
  qbf_parse 6 (lines ["p cnf 1 1"; "p cnf 1 1"]%string) qbf_new true = Fatal 80.
Proof.
  apply (qbf_parse_header_errors (list_ascii_of_string "1") (list_ascii_of_string "1")
           [(true, [tok false "1"])] [[tok false "1"]] "c"%char
           (list_ascii_of_string (lines ["nf 1 1"]%string)) true 6).
  - split; [done|]. by repeat constructor.
  - split; [done|]. by repeat constructor.
  - repeat constructor; try done; vm_compute; done.
  - apply (bool_decide_unpack _). by vm_compute.
  - repeat constructor; try done; vm_compute; done.
  - simpl. lia.
  - done.
  - done.
  - simpl. lia.
  - lia.
Defined.

(** ** Comment lines *)

Lemma white_prefix (text : list ascii) :
  ∃ ws t, text = ws ++ t ∧ Forall (λ c, is_white c = true) ws ∧
          (t = [] ∨ ∃ c t', t = c :: t' ∧ is_white c = false).
Proof.
  induction text as [|c text (ws & t & -> & Hws & Ht)].
  - exists [], []. split; [done|]. split; [done|]. by left.
  - destruct (is_white c) eqn:Hc.
    + exists (c :: ws), t. split; [done|]. split; [by constructor|done].
    + exists [], (c :: ws ++ t). split; [done|]. split; [done|]. right. by eexists _, _.
Qed.

Lemma handle_newline_blanks_nl p (ws rest : list ascii) :
  Forall (λ c, is_white c = true) ws →
  pending p = ws ++ newline :: rest →
  ∃ p', handle_newline p = Ok (true, p') ∧
        pending p' = rest ∧ state p' = PARSE_STATE_NONE.
Proof.
  intros Hws Hp. unfold handle_newline.
  destruct (skip_white_pending ws (newline :: rest) p Hws) as [n Hsk]; [|done|].
  { by intros c [= <-]. }
  rewrite Hsk. cbn [mbind Outcome_bind].
  destruct (reads_obs (length ws) p ws (newline :: rest) Hp eq_refl) as [Hp' Hs'].
  pose proof (pending_cons _ _ _ Hp') as [_ Hla]. rewrite Hla. simpl.
  eexists. split; [done|]. split; [|done].
  by rewrite pending_set_state, pending_read_one_char, Hp'.
Qed.

(** The rounds of [qbf_parse] inside a comment, up to the end of its line. *)
Lemma comment_rounds (n : nat) qbf st (rest : list ascii) :
  ∀ (text : list ascii) p,
    (length text ≤ n)%nat →
    pending p = text ++ newline :: rest → state p = PARSE_STATE_COMMENT →
    newline ∉ text →
    ∃ (k : nat) p', (k ≤ length text + 1)%nat ∧
      (∀ fuel, qbf_parse_loop (k + fuel) p qbf st = qbf_parse_loop fuel p' qbf st) ∧
      pending p' = rest ∧ state p' = PARSE_STATE_NONE.
Proof.
  induction n as [|n IH]; intros text p Hn Hp Hs Hnl.
  - destruct text; [|simpl in Hn; lia]. simpl in Hp.
    destruct (round_newline p qbf st rest Hp) as (p' & Hr & Hp' & Hs').
    exists 1%nat, p'. split; [simpl; lia|]. split; [|done]. intros fuel.
    apply (qbf_parse_loop_round _ _ _ _ _ _ _ (pending_eof _ _ _ Hp) Hr).
  - destruct (white_prefix text) as (ws & t & -> & Hws & [->|(c & t' & -> & Hc)]).
    + rewrite app_nil_r in Hp.
      destruct (handle_newline_blanks_nl p ws rest Hws Hp) as (p' & Hh & Hp' & Hs').
      exists 1%nat, p'. split; [lia|]. split; [|done]. intros fuel.
      assert (He : eof p = false).
      { destruct ws; simpl in Hp; by eapply pending_eof. }
      apply (qbf_parse_loop_round _ _ _ _ _ _ _ He).
      unfold qbf_parse_round. by rewrite Hh.
    + assert (Hcn : c ≠ newline).
      { intros ->. apply Hnl. apply elem_of_app. right. by left. }
      rewrite <- app_assoc in Hp. simpl in Hp.
      destruct (handle_newline_blanks p ws c (t' ++ newline :: rest) Hws Hp Hc Hcn)
        as (p0 & Hh & Hp0 & Hs0).
      pose proof (pending_cons _ _ _ Hp0) as [_ Hla0].
      destruct (IH t' (read_one_char p0)) as (k & p' & Hk & Hloop & Hp' & Hs').
      { rewrite !length_app in Hn. simpl in Hn. lia. }
      { by rewrite pending_read_one_char, Hp0. }
      { rewrite <- Hs, <- Hs0. apply (reads_keep 1 p0). }
      { intros Hin. apply Hnl. apply elem_of_app. right. by right. }
      exists (S k), p'. split; [rewrite length_app; simpl; lia|]. split; [|done].
      intros fuel. simpl plus.
      assert (He : eof p = false).
      { destruct ws; simpl in Hp; by eapply pending_eof. }
      rewrite (qbf_parse_loop_round (k + fuel) p qbf st (read_one_char p0) qbf st He).
      * apply Hloop.
      * unfold qbf_parse_round. rewrite Hh. cbn [mbind Outcome_bind].
        rewrite Hs0, Hs. rewrite skip_white_none by (by rewrite Hla0). done.
Qed.

(** X29: [qbf_parse] skips a comment line.  At the start of a line that
    begins with [c], whatever bytes follow up to the end of the line, the
    loop comes to the start of the next line within one round for each byte
    of the line (blanks are skipped with the byte behind them), and neither
    the formula nor what the parser has seen of the header and the prefix
    has changed. *)
Theorem qbf_comment_line_skipped (text rest : list ascii) p qbf st :
  pending p = "c"%char :: text ++ newline :: rest →
  state p = PARSE_STATE_NONE → newline ∉ text →
  ∃ (k : nat) p', (k ≤ length text + 2)%nat ∧
    (∀ fuel, qbf_parse_loop (k + fuel) p qbf st = qbf_parse_loop fuel p' qbf st) ∧
    pending p' = rest ∧ state p' = PARSE_STATE_NONE.
Proof.
  intros Hp Hs Hnl. pose proof (pending_cons _ _ _ Hp) as [He Hla].
  assert (Hr : qbf_parse_round p qbf st
               = Ok (read_one_char (set_state p PARSE_STATE_COMMENT), qbf, st)).
  { unfold qbf_parse_round. rewrite (handle_newline_start p _ _ Hp) by done.
    cbn [mbind Outcome_bind]. rewrite Hs. unfold qbf_parse_none. rewrite Hla.
    simpl. rewrite skip_white_none by (simpl; by rewrite Hla). done. }
  destruct (comment_rounds (length text) qbf st rest text
              (read_one_char (set_state p PARSE_STATE_COMMENT)))
    as (k & p' & Hk & Hloop & Hp' & Hs'); [done| |apply (reads_keep 1)|done|].
  { by rewrite pending_read_one_char, pending_set_state, Hp. }
  exists (S k), p'. split; [lia|]. split; [|done]. intros fuel. simpl plus.
  rewrite (qbf_parse_loop_round _ _ _ _ _ _ _ He Hr). apply Hloop.
Qed.

Lemma qbf_comment_line_skipped_witness :
  ∃ (k : nat) p', (k ≤ 9)%nat ∧
    (∀ fuel, qbf_parse_loop (k + fuel)
               (parser_init (lines ["c a  b c"; "p cnf 1 0"]%string) true) qbf_new
               (mkQBFParse false false false false 0 0 0 0 "000"%char)
             = qbf_parse_loop fuel p' qbf_new
                 (mkQBFParse false false false false 0 0 0 0 "000"%char)) ∧
    pending p' = list_ascii_of_string (lines ["p cnf 1 0"]%string) ∧
    state p' = PARSE_STATE_NONE.
Proof.
  apply (qbf_comment_line_skipped (list_ascii_of_string " a  b c")
           (list_ascii_of_string (lines ["p cnf 1 0"]%string))).
  - reflexivity.
  - reflexivity.
  - apply (bool_decide_unpack _). by vm_compute.
Defined.

(** * Expansion files *)

(** ** Reading an expansion file *)

Lemma expect_number_zero_sep p (ws rest : list ascii) (w : ascii) ep :
  Forall (λ c, is_white c = true) ws → is_digit w = false →
  pending p = ws ++ "0"%char :: w :: rest →
  expect_number p ep = Ok (0, Nat.iter (length ws + 1) read_one_char p).
Proof.
  intros Hws Hw Hp.
  assert (Heof : eof p = false).
  { unfold pending in Hp. destruct (eof p); [|done].
    apply (f_equal length) in Hp. rewrite !length_app in Hp. simpl in Hp. lia. }
  destruct (expect_number_pending p ws ["0"%char] (w :: rest) ep Heof Hws)
    as [Hpos _].
  - by repeat constructor.
  - by intros c [= <-].
  - rewrite Hpos; [done|done|]. by intros c [= <-].
Qed.

(** A list of tokens up to its ["0"], with any byte but a digit behind it. *)
Lemma expect_list_loop_sep (item : Parser → bool → Outcome (Z * Parser))
    (val : bool * list ascii → Z) (good : bool * list ascii → Prop) (w : ascii) :
  (∀ t, good t → token_ok t) →
  (∀ p ws rest t,
     Forall (λ c, is_white c = true) ws → good t →
     pending p = ws ++ token_text t ++ " "%char :: rest →
     item p true
     = Ok (val t, Nat.iter (length ws + length (token_text t)) read_one_char p) ∧
     val t ≠ 0) →
  (∀ p ws rest,
     Forall (λ c, is_white c = true) ws →
     pending p = ws ++ "0"%char :: w :: rest →
     item p true = Ok (0, Nat.iter (length ws + 1) read_one_char p)) →
  ∀ ts (fuel : nat) p ws al rest,
    Forall good ts → Forall (λ c, is_white c = true) ws →
    pending p
    = ws ++ flat_map (λ t, token_text t ++ [" "%char]) ts
         ++ "0"%char :: w :: rest →
    (length ts < fuel)%nat →
    ∃ p', expect_list_loop item fuel p al = Ok (al ++ map val ts, true, p') ∧
          pending p' = w :: rest ∧ state p' = state p.
Proof.
  intros Hgood Htok Hzero. induction ts as [|t ts IH];
    intros fuel p ws al rest Hts Hws Hp Hfuel.
  - destruct fuel as [|fuel]; [lia|]. simpl in Hp. cbn [expect_list_loop].
    assert (Hstart : eof p || Ascii.eqb (la p) newline = false).
    { destruct ws as [|c ws].
      - destruct (pending_cons _ _ _ Hp) as [-> ->]. reflexivity.
      - destruct (pending_cons _ _ _ Hp) as [-> ->]. simpl.
        apply Forall_cons in Hws as [Hc _]. apply Ascii.eqb_neq.
        by apply white_not_newline. }
    rewrite Hstart, (Hzero p ws rest Hws Hp). cbn [mbind Outcome_bind].
    change (0 =? 0) with true. cbv iota. eexists. split; [by rewrite app_nil_r|].
    destruct (reads_keep (length ws + 1) p) as (_ & _ & Hs).
    split; [|done]. rewrite pending_reads, Hp.
    replace (ws ++ "0"%char :: w :: rest)
      with ((ws ++ ["0"%char]) ++ w :: rest) by (by rewrite <- app_assoc).
    apply drop_app_exact. rewrite length_app. simpl. lia.
  - destruct fuel as [|fuel]; [simpl in Hfuel; lia|].
    apply Forall_cons in Hts as [Ht Hts]. simpl in Hp.
    rewrite <- !app_assoc in Hp. simpl in Hp.
    cbn [expect_list_loop].
    assert (Hstart : eof p || Ascii.eqb (la p) newline = false).
    { destruct ws as [|c ws].
      - simpl in Hp.
        destruct (token_text t ++ " "%char ::
                    flat_map (λ t, token_text t ++ [" "%char]) ts
                    ++ "0"%char :: w :: rest) as [|c l] eqn:Hl.
        { apply (f_equal length) in Hl. rewrite length_app in Hl. simpl in Hl. lia. }
        destruct (pending_cons _ _ _ Hp) as [-> ->]. simpl.
        apply Ascii.eqb_neq.
        apply (token_text_head t (" "%char ::
                 flat_map (λ t, token_text t ++ [" "%char]) ts
                 ++ "0"%char :: w :: rest) c (Hgood t Ht)).
        by rewrite Hl.
      - destruct (pending_cons _ _ _ Hp) as [-> ->]. simpl.
        apply Forall_cons in Hws as [Hc _]. apply Ascii.eqb_neq.
        by apply white_not_newline. }
    rewrite Hstart.
    destruct (Htok p ws _ t Hws Ht Hp) as [-> Hne]. cbn [mbind Outcome_bind].
    destruct (Z.eqb_spec (val t) 0) as [|_]; [done|].
    set (k := (length ws + length (token_text t))%nat).
    destruct (IH fuel (Nat.iter k read_one_char p) [" "%char] (al_append al (val t))
                rest Hts) as (p' & Heq & Hp' & Hs').
    { by repeat constructor. }
    { rewrite pending_reads, Hp, app_assoc. subst k.
      apply drop_app_exact. by rewrite length_app. }
    { simpl in Hfuel. lia. }
    exists p'. rewrite Heq. unfold al_append. rewrite <- app_assoc. simpl.
    destruct (reads_keep k p) as (_ & _ & Hs).
    split; [done|]. split; congruence.
Qed.

Lemma list_text_fuel p (ws : list ascii) (ts : list (bool * list ascii)) rest :
  pending p = ws ++ flat_map (λ t, token_text t ++ [" "%char]) ts ++ rest →
  (length ts < S (reads_left p))%nat.
Proof.
  intros Hp. pose proof (pending_length p) as Hl. rewrite Hp, !length_app in Hl.
  assert (length ts ≤ length (flat_map (λ t, token_text t ++ [" "%char]) ts))%nat;
    [|lia].
  clear. induction ts as [|t ts IH]; simpl; [lia|].
  rewrite !length_app. simpl. lia.
Qed.

(** The two list readers on a list in the middle of a line. *)
Lemma list_text_read (p : Parser) (ws : list ascii) (ts : list (bool * list ascii))
    (w : ascii) (rest : list ascii) :
  Forall (λ c, is_white c = true) ws → is_digit w = false →
  pending p = ws ++ list_text ts ++ w :: rest →
  Forall token_ok ts →
  (∃ p', expect_literal_list p = Ok (clause_lits ts, p') ∧
         pending p' = w :: rest ∧ state p' = state p) ∧
  (Forall (λ t, t.1 = false) ts →
   ∃ p', expect_variable_list p = Ok (map (λ t, decimal_value t.2) ts, p') ∧
         pending p' = w :: rest ∧ state p' = state p).
Proof.
  intros Hws Hw Hp Hts. unfold list_text in Hp. rewrite <- app_assoc in Hp.
  simpl in Hp. pose proof (list_text_fuel p ws ts _ Hp) as Hfuel.
  split.
  - unfold expect_literal_list.
    destruct (expect_list_loop_sep expect_literal
                (λ t, SIGNED_LIT2LIT (token_value t)) token_ok w) with
      (ts := ts) (fuel := S (reads_left p)) (p := p) (ws := ws)
      (al := @nil Z) (rest := rest) as (p' & -> & Hp' & Hs'); try done.
    + intros q ws' r t Hws' Ht Hq. by apply (expect_literal_token q ws' r t).
    + intros q ws' r Hws' Hq. unfold expect_literal.
      rewrite (expect_number_zero_sep q ws' r w false Hws' Hw Hq). reflexivity.
    + cbn [mbind Outcome_bind]. by exists p'.
  - intros Hpos. unfold expect_variable_list.
    destruct (expect_list_loop_sep expect_variable (λ t, decimal_value t.2)
                (λ t, token_ok t ∧ t.1 = false) w) with
      (ts := ts) (fuel := S (reads_left p)) (p := p) (ws := ws)
      (al := @nil Z) (rest := rest) as (p' & -> & Hp' & Hs'); try done.
    + by intros t [Ht _].
    + intros q ws' r t Hws' [Ht Hsign] Hq. unfold expect_variable.
      rewrite (expect_number_token q ws' r t true Hws' Ht Hq) by (by rewrite Hsign).
      cbn [mbind Outcome_bind].
      destruct Ht as (_ & _ & Hv). unfold token_value. rewrite Hsign.
      unfold assert, VARIABLE_MIN. unfold VARIABLE_MAX in *.
      replace (1 <=? decimal_value t.2) with true by (symmetry; apply Z.leb_le; lia).
      replace (decimal_value t.2 <=? 2 ^ 31 - 1) with true
        by (symmetry; apply Z.leb_le; lia).
      cbn [mbind Outcome_bind orb]. rewrite u32_small by lia. split; [done|lia].
    + intros q ws' r Hws' Hq. unfold expect_variable.
      rewrite (expect_number_zero_sep q ws' r w true Hws' Hw Hq). reflexivity.
    + apply Forall_forall. intros t Ht. split.
      * by apply (proj1 (Forall_forall _ _) Hts).
      * by apply (proj1 (Forall_forall _ _) Hpos).
    + cbn [mbind Outcome_bind]. by exists p'.
Qed.
Lemma hash_fnv1a_inj (v w : Z) :
  0 ≤ v < 2 ^ 64 → 0 ≤ w < 2 ^ 64 → hash_fnv1a v = hash_fnv1a w → v = w.
Proof.
  intros Hv Hw Heq. unfold hash_fnv1a, u64 in Heq.
  set (c := 0x811C9DC5) in *.
  assert (Hc : 0 ≤ c < 2 ^ 64) by (subst c; lia).
  pose proof (lxor_bound c v 64 ltac:(lia) Hc Hv) as Hxv.
  pose proof (lxor_bound c w 64 ltac:(lia) Hc Hw) as Hxw.
  assert (Hx : Z.lxor c v = Z.lxor c w).
  { set (inv := 9778875398352553115).
    assert (Hinv : ∀ x, 0 ≤ x < 2 ^ 64 → (x * 0x01000193) mod 2 ^ 64 * inv mod 2 ^ 64 = x).
    { intros x Hx. rewrite Z.mul_mod_idemp_l by lia. rewrite <- Z.mul_assoc.
      rewrite <- Z.mul_mod_idemp_r by lia.
      replace ((0x01000193 * inv) mod 2 ^ 64) with 1 by (subst inv; reflexivity).
      rewrite Z.mul_1_r. apply Z.mod_small. lia. }
    rewrite <- (Hinv _ Hxv), <- (Hinv _ Hxw). by rewrite Heq. }
  apply (f_equal (Z.lxor c)) in Hx.
  by rewrite <- !Z.lxor_assoc, Z.lxor_nilpotent, !Z.lxor_0_l in Hx.
Qed.

(** [ht_insert] of a key that the table does not hold. *)
Lemma ht_insert_new_key (ht : HashTable) (key value : Z) (fuel : nat) :
  ht_ok ht → 2 * num_slots ht < 2 ^ 63 → ht_map ht !! key = None →
  2 * num_slots ht + 2 ≤ Z.of_nat fuel →
  ∃ ht', ht_insert fuel ht key value = Ok ht' ∧
    ht_ok ht' ∧
    ht_map ht' = <[key := value]> (ht_map ht) ∧
    num_stored ht' = num_stored ht + 1 ∧
    num_slots ht'
    = if HTLOADFACTOR_limit ht then 2 * num_slots ht else num_slots ht.
Proof.
  intros Hok Hb Hfresh Hfuel.
  destruct (ht_insert_spec ht key value fuel Hok Hb Hfuel)
    as (T & d & HwfT & Hperm & HchT & HnT & Hd & Hfree & Hocc & ->).
  pose proof Hok as [Hwf Hnd]. pose proof HwfT as (HnT' & _).
  pose proof (ht_probe_range T key (Z.of_nat d) ltac:(lia)) as Hr.
  destruct (ht_store_wf T (ht_probe T key (Z.of_nat d)) key value HwfT Hr Hfree)
    as [Hwf' Hperm'].
  eexists. split; [done|].
  assert (Hnotin : key ∉ (ht_entries ht).*1) by (by apply not_elem_of_list_to_map).
  assert (Hnd' : NoDup (ht_entries
                          (ht_store T (ht_probe T key (Z.of_nat d)) key value)).*1).
  { rewrite Hperm', Hperm. simpl. by apply NoDup_cons. }
  split; [done|]. split.
  { unfold ht_map.
    rewrite (list_to_map_proper _ ((key, value) :: ht_entries ht) Hnd')
      by (by rewrite Hperm', Hperm).
    done. }
  split; [|done].
  destruct Hwf' as (_ & _ & _ & ->). destruct Hwf as (_ & _ & _ & ->).
  rewrite Hperm', Hperm. simpl length. lia.
Qed.

Lemma fold_left_max_cons (l : list Z) (m v : Z) :
  fold_left Z.max l (if m <? v then v else m) = fold_left Z.max (v :: l) m.
Proof. simpl. f_equal. destruct (Z.ltb_spec m v); lia. Qed.

(** One insertion of the loop over a mapping comment. *)
Lemma exp_table_insert (e : ExpFile.Expansion) (ev qv : Z) (ann : list Z) (hf : nat) :
  exp_table_ok e → 0 ≤ ev < 2 ^ 64 → ev ∉ ExpFile.exp_var_mapping_keys e →
  Z.of_nat (length (ExpFile.heap e)) < 2 ^ 32 →
  8 * Z.of_nat (length (ExpFile.heap e)) + 514 ≤ Z.of_nat hf →
  ∃ ht, ht_insert hf (ExpFile.exp_var_mappings e) (hash_fnv1a ev)
          (Z.of_nat (length (ExpFile.heap e)) + 1) = Ok ht ∧
    exp_table_ok
      (ExpFile.mkExpansion (ExpFile.parser e) (ExpFile.p_max_var e)
         (ExpFile.p_num_clauses e) (ExpFile.num_clauses_yielded e)
         (ExpFile.clause_origins e) (al_append (ExpFile.exp_var_mapping_keys e) ev) ht
         (ExpFile.heap e ++ [mkExpVarMapping qv ev ann]) (ExpFile.printed e)).
Proof.
  intros (Hok & Hslots & Hstored & Hkeys & Hrange & Hin & Hout) Hev Hfresh Hlen Hfuel.
  set (T := ExpFile.exp_var_mappings e) in *.
  assert (Hnone : ht_map T !! hash_fnv1a ev = None).
  { apply Hout. intros mp Hmp Heq. apply Hfresh. rewrite Hkeys.
    assert (Hmk : exp_var mp ∈ ExpFile.exp_var_mapping_keys e).
    { rewrite Hkeys. by apply list_elem_of_fmap_2. }
    pose proof (proj1 (Forall_forall _ _) Hrange _ Hmk) as Hr.
    rewrite (hash_fnv1a_inj ev (exp_var mp) Hev Hr Heq). by rewrite <- Hkeys. }
  destruct (ht_insert_new_key T (hash_fnv1a ev)
              (Z.of_nat (length (ExpFile.heap e)) + 1) hf Hok ltac:(lia) Hnone
              ltac:(lia)) as (ht' & Hins & Hok' & Hmap & Hst' & Hsl').
  exists ht'. split; [done|]. unfold exp_table_ok. cbn.
  split; [done|]. split.
  { rewrite Hsl', Hst'. destruct (HTLOADFACTOR_limit T) eqn:Hlim; [|lia].
    unfold HTLOADFACTOR_limit in Hlim.
    destruct (Z_le_gt_dec (2 * num_stored T) (num_slots T)) as [Hle|Hgt]; [|lia].
    destruct Hok as [(Hn & _) _].
    rewrite load_limit_half in Hlim; [done|lia..]. }
  split; [rewrite Hst', length_app; simpl; lia|].
  split; [by rewrite fmap_app, Hkeys|].
  split.
  { unfold al_append. apply Forall_app. split; [done|]. by apply Forall_singleton. }
  split.
  - intros k mp Hk. rewrite Hmap. apply lookup_app_Some in Hk as [Hk|[Hge Hk]].
    + rewrite lookup_insert_ne; [by apply Hin|].
      intros Heq. apply Hfresh.
      assert (Hmk : exp_var mp ∈ ExpFile.exp_var_mapping_keys e).
      { rewrite Hkeys. apply list_elem_of_fmap_2. by eapply list_elem_of_lookup_2. }
      pose proof (proj1 (Forall_forall _ _) Hrange _ Hmk) as Hr.
      by rewrite (hash_fnv1a_inj ev (exp_var mp) Hev Hr Heq).
    + apply list_lookup_singleton_Some in Hk as [Hk0 <-]. simpl.
      rewrite lookup_insert_eq. f_equal. lia.
  - intros key Hkey. rewrite Hmap. rewrite lookup_insert_ne.
    + apply Hout. intros mp Hmp. apply Hkey. apply elem_of_app. by left.
    + intros <-. apply (Hkey (mkExpVarMapping qv ev ann)); [|done].
      apply elem_of_app. right. by apply list_elem_of_singleton.
Qed.

Lemma mapping_loop_spec (hf : nat) (evs qvs ann : list Z) :
  length evs = length qvs →
  ∀ (n k : nat) e mv,
    (k + n = length evs)%nat →
    exp_table_ok e →
    NoDup (ExpFile.exp_var_mapping_keys e ++ drop k evs) →
    Forall (λ v, 1 ≤ v ≤ VARIABLE_MAX) (drop k evs) →
    Z.of_nat (length (ExpFile.heap e)) + Z.of_nat n < 2 ^ 32 →
    8 * (Z.of_nat (length (ExpFile.heap e)) + Z.of_nat n) + 514 ≤ Z.of_nat hf →
    ∃ e', ExpFile.mapping_loop hf n (Z.of_nat k) evs qvs ann e mv
          = Ok (e', fold_left Z.max (drop k evs) mv) ∧
      exp_table_ok e' ∧
      ExpFile.heap e'
      = ExpFile.heap e
        ++ zip_with (λ ev qv, mkExpVarMapping qv ev ann) (drop k evs) (drop k qvs) ∧
      ExpFile.parser e' = ExpFile.parser e ∧
      ExpFile.p_max_var e' = ExpFile.p_max_var e ∧
      ExpFile.p_num_clauses e' = ExpFile.p_num_clauses e ∧
      ExpFile.num_clauses_yielded e' = ExpFile.num_clauses_yielded e ∧
      ExpFile.clause_origins e' = ExpFile.clause_origins e.
Proof.
  intros Hlen. induction n as [|n IH]; intros k e mv Hk Hinv Hnd Hr Hb Hfuel.
  - simpl. rewrite !drop_ge by lia. simpl. rewrite app_nil_r. by exists e.
  - destruct (lookup_lt_is_Some_2 evs k ltac:(lia)) as [ev Hev].
    destruct (lookup_lt_is_Some_2 qvs k ltac:(lia)) as [qv Hqv].
    rewrite (drop_S _ _ _ Hev) in Hnd, Hr |- *.
    rewrite (drop_S _ _ _ Hqv).
    apply Forall_cons in Hr as [Hevr Hr].
    cbn [ExpFile.mapping_loop]. unfold al_get. rewrite Nat2Z.id, Hev, Hqv.
    cbn [mbind Outcome_bind].
    assert (Hfresh : ev ∉ ExpFile.exp_var_mapping_keys e).
    { intros Hin. apply NoDup_app in Hnd as (_ & Hd & _).
      apply (Hd ev Hin). by left. }
    unfold VARIABLE_MAX in Hevr.
    destruct (exp_table_insert e ev qv ann hf Hinv ltac:(lia) Hfresh ltac:(lia)
                ltac:(lia)) as (ht & -> & Hinv').
    cbn [mbind Outcome_bind].
    replace (Z.of_nat k + 1) with (Z.of_nat (S k)) by lia.
    edestruct (IH (S k) _ (if mv <? ev then ev else mv) ltac:(lia) Hinv')
      as (e' & -> & Hinv'' & Hheap & Hrest).
    + cbn. unfold al_append. rewrite <- app_assoc. done.
    + done.
    + cbn. rewrite length_app. simpl. lia.
    + cbn. rewrite length_app. simpl. lia.
    + exists e'. rewrite fold_left_max_cons. split; [done|]. split; [done|].
      split; [|done]. rewrite Hheap. cbn. by rewrite <- app_assoc.
Qed.

(** ** The rounds of [expansion_parse_preamble] *)

Lemma preamble_loop_round (fuel hf : nat) e loc e' loc' :
  eof (ExpFile.parser e) = false →
  state (ExpFile.parser e) ≠ PARSE_STATE_CLAUSE →
  ExpFile.preamble_round hf e loc = Ok (e', loc') →
  ExpFile.preamble_loop (S fuel) hf e loc = ExpFile.preamble_loop fuel hf e' loc'.
Proof.
  intros He Hs Hr. simpl. rewrite He, Hr. unfold ExpFile.in_clause_state.
  by destruct (state (ExpFile.parser e)).
Qed.

Lemma preamble_loop_done (fuel hf : nat) e loc :
  eof (ExpFile.parser e) = true ∨ state (ExpFile.parser e) = PARSE_STATE_CLAUSE →
  ExpFile.preamble_loop fuel hf e loc = Ok (e, loc).
Proof.
  intros H. unfold ExpFile.in_clause_state.
  destruct fuel; simpl; unfold ExpFile.in_clause_state;
    (destruct H as [-> | ->]; [done|by rewrite orb_true_r]).
Qed.

(** The round at the newline that ends a line. *)
Lemma pround_newline (hf : nat) e loc rest :
  pending (ExpFile.parser e) = newline :: rest →
  ∃ p', ExpFile.preamble_round hf e loc = Ok (ExpFile.set_parser e p', loc) ∧
        pending p' = rest ∧ state p' = PARSE_STATE_NONE.
Proof.
  intros Hp. destruct (handle_newline_nl _ rest Hp) as (p' & Hh & Hp' & Hs').
  exists p'. unfold ExpFile.preamble_round. rewrite Hh. done.
Qed.

(** The round at the first byte of a header or of a comment. *)
Lemma pround_enter (hf : nat) e loc (c : ascii) rest :
  pending (ExpFile.parser e) = c :: rest →
  state (ExpFile.parser e) = PARSE_STATE_NONE →
  c = "c"%char ∨ c = "p"%char →
  ∃ p', ExpFile.preamble_round hf e loc = Ok (ExpFile.set_parser e p', loc) ∧
        pending p' = rest ∧
        state p' = if Ascii.eqb c "c"%char then PARSE_STATE_COMMENT
                   else PARSE_STATE_PROBLEM.
Proof.
  intros Hp Hs Hc. pose proof (pending_cons _ _ _ Hp) as [_ Hla].
  set (p := ExpFile.parser e) in *.
  unfold ExpFile.preamble_round. fold p.
  rewrite (handle_newline_start p c rest Hp) by (by destruct Hc as [->| ->]).
  cbn [mbind Outcome_bind]. rewrite Hs. unfold ExpFile.preamble_none. rewrite Hla.
  assert (Hsk : ∀ s, skip_white (set_state p s) = Ok (0, set_state p s)).
  { intros s. apply skip_white_none. simpl. rewrite Hla.
    by destruct Hc as [->| ->]. }
  assert (Hpr : ∀ s, pending (read_one_char (set_state p s)) = rest).
  { intros s. by rewrite pending_read_one_char, pending_set_state, Hp. }
  destruct Hc as [->| ->]; simpl; rewrite Hsk; cbn [mbind Outcome_bind];
    eexists; (split; [done|]); (split; [apply Hpr|]);
    unfold read_one_char; simpl; by destruct (stream p).
Qed.

(** The round at the first byte of a clause line: nothing is read. *)
Lemma pround_clause_start (hf : nat) e loc (c : ascii) rest :
  pending (ExpFile.parser e) = c :: rest →
  state (ExpFile.parser e) = PARSE_STATE_NONE →
  is_white c = false → c ≠ newline → Ascii.eqb c "p"%char = false →
  Ascii.eqb c "c"%char = false →
  ExpFile.preamble_round hf e loc
  = Ok (ExpFile.set_parser e (set_state (ExpFile.parser e) PARSE_STATE_CLAUSE), loc).
Proof.
  intros Hp Hs Hw Hnl H1 H2. pose proof (pending_cons _ _ _ Hp) as [_ Hla].
  unfold ExpFile.preamble_round. rewrite (handle_newline_start _ c rest Hp Hw Hnl).
  cbn [mbind Outcome_bind]. rewrite Hs. unfold ExpFile.preamble_none.
  rewrite Hla, H1, H2. done.
Qed.

(** The round that reads the [x] or the [o] of a comment. *)
Lemma pround_comment (hf : nat) e loc (x : bool) rest :
  pending (ExpFile.parser e)
  = " "%char :: (if x then "x"%char else "o"%char) :: " "%char :: rest →
  state (ExpFile.parser e) = PARSE_STATE_COMMENT →
  ∃ p', ExpFile.preamble_round hf e loc = Ok (ExpFile.set_parser e p', loc) ∧
        pending p' = " "%char :: rest ∧
        state p' = if x then PARSE_STATE_MAPPING_COMMENT
                   else PARSE_STATE_ORIGIN_COMMENT.
Proof.
  intros Hp Hs. set (c := if x then "x"%char else "o"%char) in *.
  assert (Hc : is_white c = false ∧ c ≠ newline) by (by destruct x).
  unfold ExpFile.preamble_round.
  destruct (handle_newline_blanks (ExpFile.parser e) [" "%char] c (" "%char :: rest))
    as (p0 & -> & Hp0 & Hs0); [apply white_blank|done|apply Hc|apply Hc|].
  cbn [mbind Outcome_bind]. rewrite Hs0, Hs. unfold ExpFile.preamble_comment, expect_word.
  rewrite skip_white_none by (apply pending_cons in Hp0 as [_ ->]; apply Hc).
  cbn [mbind Outcome_bind].
  rewrite (expect_word_loop_pending [c] [] p0 (reads_left p0) " "%char rest);
    [|by apply Forall_singleton|done|by left|]; cycle 1.
  { pose proof (pending_length p0) as Hl. rewrite Hp0 in Hl. simpl in *. lia. }
  cbn [mbind Outcome_bind].
  destruct (reads_obs 1 p0 [c] (" "%char :: rest) Hp0 eq_refl) as [Hp1 Hs1].
  eexists. split; [reflexivity|]. rewrite pending_set_state. split; [done|].
  subst c. by destruct x.
Qed.

(** The round that reads the header behind its [p]. *)
Lemma pround_problem (hf : nat) e loc (dv dc rest : list ascii) :
  pending (ExpFile.parser e)
  = list_ascii_of_string " cnf " ++ dv ++ " "%char :: dc ++ newline :: rest →
  state (ExpFile.parser e) = PARSE_STATE_PROBLEM →
  ExpFile.parsed_problem loc = false →
  digits_ok dv → digits_ok dc →
  ∃ p', ExpFile.preamble_round hf e loc
        = Ok (ExpFile.mkExpansion p' (u32 (decimal_value dv)) (u32 (decimal_value dc))
                (ExpFile.num_clauses_yielded e) (ExpFile.clause_origins e)
                (ExpFile.exp_var_mapping_keys e) (ExpFile.exp_var_mappings e)
                (ExpFile.heap e) (ExpFile.printed e),
              ExpFile.mkPreamble true (ExpFile.parsed_origin_mapping loc)
                (ExpFile.max_var loc)) ∧
        pending p' = newline :: rest ∧ state p' = PARSE_STATE_NONE.
Proof.
  intros Hp Hs Hpp Hdv Hdc. unfold ExpFile.preamble_round.
  destruct (handle_newline_blanks (ExpFile.parser e) [" "%char] "c"%char
              (list_ascii_of_string "nf " ++ dv ++ " "%char :: dc ++ newline :: rest))
    as (p0 & -> & Hp0 & Hs0); [apply white_blank|done|done|done|].
  cbn [mbind Outcome_bind]. rewrite Hs0, Hs. unfold ExpFile.preamble_problem.
  rewrite Hpp.
  rewrite (expect_word_cnf p0 (dv ++ " "%char :: dc ++ newline :: rest)) by done.
  cbn [mbind Outcome_bind]. rewrite bool_decide_true by done. cbn [negb].
  destruct (reads_obs 3 p0 (list_ascii_of_string "cnf")
              (" "%char :: dv ++ " "%char :: dc ++ newline :: rest) Hp0 eq_refl)
    as [Hp1 Hs1].
  set (p1 := Nat.iter 3 read_one_char p0) in *.
  destruct (expect_number_pending p1 [" "%char] dv (" "%char :: dc ++ newline :: rest) true)
    as [Hn1 _]; [by eapply pending_eof|apply white_blank|apply Hdv|by intros c [= <-]|].
  rewrite Hn1; [|done|]; cycle 1.
  { intros c Hc. by destruct (digits_head dv _ c Hdv Hc) as (_ & ? & ?). }
  cbn [mbind Outcome_bind].
  destruct (reads_obs (length [" "%char] + length dv) p1 (" "%char :: dv)
              (" "%char :: dc ++ newline :: rest)) as [Hp2 Hs2];
    [by rewrite Hp1|done|].
  set (p2 := Nat.iter _ read_one_char p1) in *.
  destruct (expect_number_pending p2 [" "%char] dc (newline :: rest) true)
    as [Hn2 _]; [by eapply pending_eof|apply white_blank|apply Hdc|by intros c [= <-]|].
  rewrite Hn2; [|done|]; cycle 1.
  { intros c Hc. by destruct (digits_head dc _ c Hdc Hc) as (_ & ? & ?). }
  cbn [mbind Outcome_bind].
  destruct (reads_obs (length [" "%char] + length dc) p2 (" "%char :: dc)
              (newline :: rest)) as [Hp3 Hs3];
    [by rewrite Hp2|done|].
  rewrite !u32_idemp.
  eexists. split; [reflexivity|]. rewrite pending_set_state. split; [done|done].
Qed.

Lemma list_text_head (ts : list (bool * list ascii)) (rest : list ascii) :
  Forall token_ok ts →
  ∃ c l, list_text ts ++ rest = c :: l ∧ is_white c = false ∧ c ≠ newline ∧
         Ascii.eqb c "p"%char = false ∧ Ascii.eqb c "c"%char = false.
Proof.
  intros Hts. destruct (token_line_head ts rest Hts) as (c & l & Hc & H1 & H2 & H3 & H4 & _).
  unfold token_line in Hc. unfold list_text.
  destruct (flat_map (λ t, token_text t ++ [" "%char]) ts) as [|c' l'].
  - simpl in *. injection Hc as <- _. by eexists _, _.
  - simpl in *. injection Hc as -> _. by eexists _, _.
Qed.

(** The loop over the origins of an origin comment. *)
Lemma origin_loop_line (os : list (bool * list ascii)) :
  ∀ (fuel : nat) p (ws : list ascii) (al : list Z) rest,
    unsigned_ok os → Forall (λ c, is_white c = true) ws →
    pending p
    = ws ++ flat_map (λ t, token_text t ++ [" "%char]) os
         ++ "0"%char :: newline :: rest →
    (length os < fuel)%nat →
    ∃ p', ExpFile.origin_loop fuel p al
          = Ok (al ++ map (λ t, decimal_value t.2 - 1) os, true, p') ∧
          pending p' = newline :: rest ∧ state p' = state p.
Proof.
  induction os as [|t ts IH]; intros fuel p ws al rest Hts Hws Hp Hfuel.
  - destruct fuel as [|fuel]; [lia|]. simpl in Hp. cbn [ExpFile.origin_loop].
    assert (Hstart : eof p || Ascii.eqb (la p) newline = false).
    { destruct ws as [|c ws].
      - destruct (pending_cons _ _ _ Hp) as [-> ->]. reflexivity.
      - destruct (pending_cons _ _ _ Hp) as [-> ->]. simpl.
        apply Forall_cons in Hws as [Hc _]. apply Ascii.eqb_neq.
        by apply white_not_newline. }
    rewrite Hstart, (expect_number_zero p ws rest true Hws Hp).
    cbn [mbind Outcome_bind]. simpl. eexists. split; [by rewrite app_nil_r|].
    destruct (reads_keep (length ws + 1) p) as (_ & _ & Hs).
    split; [|done]. rewrite pending_reads, Hp.
    replace (ws ++ "0"%char :: newline :: rest)
      with ((ws ++ ["0"%char]) ++ newline :: rest) by (by rewrite <- app_assoc).
    apply drop_app_exact. rewrite length_app. simpl. lia.
  - destruct fuel as [|fuel]; [simpl in Hfuel; lia|].
    apply Forall_cons in Hts as [[Ht Hsign] Hts]. simpl in Hp.
    rewrite <- !app_assoc in Hp. simpl in Hp.
    cbn [ExpFile.origin_loop].
    assert (Hstart : eof p || Ascii.eqb (la p) newline = false).
    { destruct ws as [|c ws].
      - simpl in Hp.
        destruct (token_text t ++ " "%char ::
                    flat_map (λ t, token_text t ++ [" "%char]) ts
                    ++ "0"%char :: newline :: rest) as [|c l] eqn:Hl.
        { apply (f_equal length) in Hl. rewrite length_app in Hl. simpl in Hl. lia. }
        destruct (pending_cons _ _ _ Hp) as [-> ->]. simpl.
        apply Ascii.eqb_neq.
        apply (token_text_head t (" "%char ::
                 flat_map (λ t, token_text t ++ [" "%char]) ts
                 ++ "0"%char :: newline :: rest) c Ht).
        by rewrite Hl.
      - destruct (pending_cons _ _ _ Hp) as [-> ->]. simpl.
        apply Forall_cons in Hws as [Hc _]. apply Ascii.eqb_neq.
        by apply white_not_newline. }
    rewrite Hstart.
    rewrite (expect_number_token p ws _ t true Hws Ht Hp) by (by rewrite Hsign).
    cbn [mbind Outcome_bind].
    pose proof Ht as (_ & _ & Hv). unfold VARIABLE_MAX in Hv.
    unfold token_value. rewrite Hsign. unfold assert, UINT32_MAX.
    replace (decimal_value t.2 <=? 2 ^ 32 - 1) with true
      by (symmetry; apply Z.leb_le; lia).
    cbn [mbind Outcome_bind]. rewrite (u32_small (decimal_value t.2)) by lia.
    destruct (Z.eqb_spec (decimal_value t.2) 0) as [|_]; [lia|].
    rewrite u32_small by lia.
    set (k := (length ws + length (token_text t))%nat).
    destruct (IH fuel (Nat.iter k read_one_char p) [" "%char]
                (al_append al (decimal_value t.2 - 1)) rest Hts)
      as (p' & Heq & Hp' & Hs').
    { by apply Forall_singleton. }
    { rewrite pending_reads, Hp, app_assoc. subst k.
      apply drop_app_exact. by rewrite length_app. }
    { simpl in Hfuel. lia. }
    exists p'. rewrite Heq. unfold al_append. rewrite <- app_assoc. simpl.
    destruct (reads_keep k p) as (_ & _ & Hs).
    split; [done|]. split; congruence.
Qed.

(** The round that reads the origins of an origin comment. *)
Lemma pround_origin (hf : nat) e loc (os : list (bool * list ascii)) rest :
  pending (ExpFile.parser e) = " "%char :: token_line os ++ rest →
  state (ExpFile.parser e) = PARSE_STATE_ORIGIN_COMMENT →
  unsigned_ok os →
  ∃ p', ExpFile.preamble_round hf e loc
        = Ok (ExpFile.mkExpansion p' (ExpFile.p_max_var e) (ExpFile.p_num_clauses e)
                (ExpFile.num_clauses_yielded e)
                (Some (default [] (ExpFile.clause_origins e)
                       ++ map (λ t, decimal_value t.2 - 1) os))
                (ExpFile.exp_var_mapping_keys e) (ExpFile.exp_var_mappings e)
                (ExpFile.heap e) (ExpFile.printed e),
              ExpFile.mkPreamble (ExpFile.parsed_problem loc) true
                (ExpFile.max_var loc)) ∧
        pending p' = newline :: rest ∧ state p' = PARSE_STATE_NONE.
Proof.
  intros Hp Hs Hos.
  assert (Htok : Forall token_ok os).
  { apply Forall_forall. intros t Ht. by apply (proj1 (Forall_forall _ _) Hos). }
  destruct (token_line_head os rest Htok) as (c & l & Hc & Hcw & Hcn & _).
  rewrite Hc in Hp. unfold ExpFile.preamble_round.
  destruct (handle_newline_blanks (ExpFile.parser e) [" "%char] c l)
    as (p0 & -> & Hp0 & Hs0); [apply white_blank|done|done|done|].
  cbn [mbind Outcome_bind]. rewrite Hs0, Hs. unfold ExpFile.preamble_origin.
  rewrite <- Hc in Hp0. unfold token_line in Hp0. rewrite <- app_assoc in Hp0.
  simpl in Hp0.
  destruct (origin_loop_line os (S (reads_left p0)) p0 []
              (default [] (ExpFile.clause_origins e)) rest Hos)
    as (p1 & -> & Hp1 & Hs1); [done|done|by apply (list_text_fuel p0 [] os _ Hp0)|].
  cbn [mbind Outcome_bind]. cbn.
  eexists. split; [reflexivity|]. by rewrite pending_set_state.
Qed.

Lemma mapping_vars_range (ts : list (bool * list ascii)) :
  unsigned_ok ts →
  Forall token_ok ts ∧ Forall (λ t, t.1 = false) ts ∧
  Forall (λ v, 1 ≤ v ≤ VARIABLE_MAX) (map (λ t, decimal_value t.2) ts).
Proof.
  intros H. split; [|split].
  - apply Forall_forall. intros t Ht. by apply (proj1 (Forall_forall _ _) H).
  - apply Forall_forall. intros t Ht. by apply (proj1 (Forall_forall _ _) H).
  - apply Forall_forall. intros v Hv. apply list_elem_of_fmap in Hv as (t & -> & Ht).
    by destruct (proj1 (Forall_forall _ _) H t Ht) as [(_ & _ & ?) _].
Qed.

Lemma token_line_list_text (ts : list (bool * list ascii)) (rest : list ascii) :
  token_line ts ++ rest = list_text ts ++ newline :: rest.
Proof. unfold token_line, list_text. by rewrite <- !app_assoc. Qed.

(** The round that reads the three lists of a mapping comment and enters
    its mappings. *)
Lemma pround_mapping (hf : nat) e loc
    (m : list (bool * list ascii) * list (bool * list ascii) * list (bool * list ascii))
    rest :
  pending (ExpFile.parser e)
  = " "%char :: list_text m.1.1 ++ " "%char :: list_text m.1.2
    ++ " "%char :: token_line m.2 ++ rest →
  state (ExpFile.parser e) = PARSE_STATE_MAPPING_COMMENT →
  mapping_ok m → exp_table_ok e →
  NoDup (ExpFile.exp_var_mapping_keys e ++ mapping_exp_vars m) →
  Z.of_nat (length (ExpFile.heap e)) + Z.of_nat (length (mapping_exp_vars m)) < 2 ^ 32 →
  8 * (Z.of_nat (length (ExpFile.heap e)) + Z.of_nat (length (mapping_exp_vars m)))
  + 514 ≤ Z.of_nat hf →
  ∃ e', ExpFile.preamble_round hf e loc
        = Ok (e', ExpFile.mkPreamble (ExpFile.parsed_problem loc)
                    (ExpFile.parsed_origin_mapping loc)
                    (fold_left Z.max (mapping_exp_vars m) (ExpFile.max_var loc))) ∧
    pending (ExpFile.parser e') = newline :: rest ∧
    state (ExpFile.parser e') = PARSE_STATE_NONE ∧
    exp_table_ok e' ∧
    ExpFile.heap e' = ExpFile.heap e ++ line_mappings m ∧
    ExpFile.p_max_var e' = ExpFile.p_max_var e ∧
    ExpFile.p_num_clauses e' = ExpFile.p_num_clauses e ∧
    ExpFile.num_clauses_yielded e' = ExpFile.num_clauses_yielded e ∧
    ExpFile.clause_origins e' = ExpFile.clause_origins e.
Proof.
  intros Hp Hs (Hev & Hqv & Hlen & Hann) Hinv Hnd Hb Hfuel.
  destruct (mapping_vars_range _ Hev) as (Hevt & Hevs & Hevr).
  destruct (mapping_vars_range _ Hqv) as (Hqvt & Hqvs & _).
  set (r1 := list_text m.1.2 ++ " "%char :: token_line m.2 ++ rest) in *.
  destruct (list_text_head m.1.1 (" "%char :: r1) Hevt) as (c & l & Hc & Hcw & Hcn & _).
  rewrite app_comm_cons in Hp. 
  assert (Hp' : pending (ExpFile.parser e) = [" "%char] ++ c :: l).
  { rewrite <- Hc. exact Hp. }
  unfold ExpFile.preamble_round.
  destruct (handle_newline_blanks (ExpFile.parser e) [" "%char] c l)
    as (p0 & -> & Hp0 & Hs0); [apply white_blank|done|done|done|].
  cbn [mbind Outcome_bind]. rewrite Hs0, Hs. unfold ExpFile.preamble_mapping.
  rewrite <- Hc in Hp0.
  (* the expansion variables *)
  destruct (list_text_read p0 [] m.1.1 " "%char r1) as [_ Hv1];
    [done|apply blank_not_digit|done|done|].
  destruct (Hv1 Hevs) as (p1 & -> & Hp1 & Hs1). cbn [mbind Outcome_bind].
  (* the QBF variables *)
  destruct (list_text_read p1 [" "%char] m.1.2 " "%char (token_line m.2 ++ rest))
    as [_ Hv2]; [apply white_blank|apply blank_not_digit|done|done|].
  destruct (Hv2 Hqvs) as (p2 & -> & Hp2 & Hs2). cbn [mbind Outcome_bind].
  rewrite bool_decide_true by (by rewrite !length_map). cbn [negb].
  (* the annotation *)
  rewrite token_line_list_text in Hp2.
  destruct (list_text_read p2 [" "%char] m.2 newline rest)
    as [(p3 & -> & Hp3 & Hs3) _]; [apply white_blank|done|done|done|].
  cbn [mbind Outcome_bind].
  (* the mappings *)
  fold (mapping_exp_vars m) (mapping_qbf_vars m).
  destruct (mapping_loop_spec hf (mapping_exp_vars m) (mapping_qbf_vars m)
              (clause_lits m.2)) with
    (n := length (mapping_qbf_vars m)) (k := 0%nat) (e := e) (mv := ExpFile.max_var loc)
    as (e' & Heq & Hinv' & Hheap & Hpar & Hrest).
  { unfold mapping_exp_vars, mapping_qbf_vars. by rewrite !length_map. }
  { unfold mapping_exp_vars, mapping_qbf_vars. rewrite !length_map. simpl. lia. }
  { done. }
  { done. }
  { done. }
  { replace (length (mapping_qbf_vars m)) with (length (mapping_exp_vars m)); [done|].
    unfold mapping_exp_vars, mapping_qbf_vars. by rewrite !length_map. }
  { replace (length (mapping_qbf_vars m)) with (length (mapping_exp_vars m)); [done|].
    unfold mapping_exp_vars, mapping_qbf_vars. by rewrite !length_map. }
  change (Z.of_nat 0) with 0 in Heq. rewrite Heq.
  cbn [mbind Outcome_bind]. eexists. split; [reflexivity|].
  cbn. rewrite pending_set_state. done.
Qed.

(** ** The lines of an expansion file *)

Lemma pheader_line_parsed (fuel hf : nat) e loc (dv dc rest : list ascii) :
  pending (ExpFile.parser e) = header_line dv dc ++ rest →
  state (ExpFile.parser e) = PARSE_STATE_NONE →
  ExpFile.parsed_problem loc = false →
  digits_ok dv → digits_ok dc →
  ∃ p', ExpFile.preamble_loop (3 + fuel) hf e loc
        = ExpFile.preamble_loop fuel hf
            (ExpFile.mkExpansion p' (u32 (decimal_value dv)) (u32 (decimal_value dc))
               (ExpFile.num_clauses_yielded e) (ExpFile.clause_origins e)
               (ExpFile.exp_var_mapping_keys e) (ExpFile.exp_var_mappings e)
               (ExpFile.heap e) (ExpFile.printed e))
            (ExpFile.mkPreamble true (ExpFile.parsed_origin_mapping loc)
               (ExpFile.max_var loc)) ∧
        pending p' = rest ∧ state p' = PARSE_STATE_NONE.
Proof.
  intros Hp Hs Hpp Hdv Hdc. unfold header_line in Hp. rewrite <- !app_assoc in Hp.
  simpl in Hp.
  destruct (pround_enter hf e loc "p"%char _ Hp Hs ltac:(by right))
    as (p1 & Hr1 & Hp1 & Hs1). simpl in Hs1.
  change (3 + fuel)%nat with (S (S (S fuel))).
  rewrite (fun He Hst => preamble_loop_round _ _ _ _ _ _ He Hst Hr1);
    [ | cbn; exact (pending_eof _ _ _ Hp) | cbn; rewrite Hs; discriminate ].
  destruct (pround_problem hf (ExpFile.set_parser e p1) loc dv dc rest)
    as (p2 & Hr2 & Hp2 & Hs2); [|done|done|done|done|].
  { cbn. rewrite Hp1. simpl. by rewrite <- ?app_assoc. }
  rewrite (fun He Hst => preamble_loop_round _ _ _ _ _ _ He Hst Hr2);
    [ | cbn; exact (pending_eof _ _ _ Hp1) | cbn; rewrite Hs1; discriminate ].
  cbn [ExpFile.set_parser ExpFile.num_clauses_yielded ExpFile.clause_origins
       ExpFile.exp_var_mapping_keys ExpFile.exp_var_mappings ExpFile.heap
       ExpFile.printed].
  match goal with
  | |- context [ExpFile.preamble_loop (S fuel) hf ?e1 ?l1] =>
      destruct (pround_newline hf e1 l1 rest Hp2) as (p3 & Hr3 & Hp3 & Hs3)
  end.
  rewrite (fun He Hst => preamble_loop_round _ _ _ _ _ _ He Hst Hr3);
    [ | cbn; exact (pending_eof _ _ _ Hp2) | cbn; rewrite Hs2; discriminate ].
  exists p3. done.
Qed.

Lemma mapping_line_parsed (fuel hf : nat) e loc
    (m : list (bool * list ascii) * list (bool * list ascii) * list (bool * list ascii))
    rest :
  pending (ExpFile.parser e) = mapping_line m ++ rest →
  state (ExpFile.parser e) = PARSE_STATE_NONE →
  mapping_ok m → exp_table_ok e →
  NoDup (ExpFile.exp_var_mapping_keys e ++ mapping_exp_vars m) →
  Z.of_nat (length (ExpFile.heap e)) + Z.of_nat (length (mapping_exp_vars m)) < 2 ^ 32 →
  8 * (Z.of_nat (length (ExpFile.heap e)) + Z.of_nat (length (mapping_exp_vars m)))
  + 514 ≤ Z.of_nat hf →
  ∃ e', ExpFile.preamble_loop (4 + fuel) hf e loc
        = ExpFile.preamble_loop fuel hf e'
            (ExpFile.mkPreamble (ExpFile.parsed_problem loc)
               (ExpFile.parsed_origin_mapping loc)
               (fold_left Z.max (mapping_exp_vars m) (ExpFile.max_var loc))) ∧
    pending (ExpFile.parser e') = rest ∧
    state (ExpFile.parser e') = PARSE_STATE_NONE ∧
    exp_table_ok e' ∧
    ExpFile.heap e' = ExpFile.heap e ++ line_mappings m ∧
    ExpFile.p_max_var e' = ExpFile.p_max_var e ∧
    ExpFile.p_num_clauses e' = ExpFile.p_num_clauses e ∧
    ExpFile.num_clauses_yielded e' = ExpFile.num_clauses_yielded e ∧
    ExpFile.clause_origins e' = ExpFile.clause_origins e.
Proof.
  intros Hp Hs Hm Hinv Hnd Hb Hfuel. unfold mapping_line in Hp.
  rewrite <- !app_assoc in Hp. simpl in Hp.
  destruct (pround_enter hf e loc "c"%char _ Hp Hs ltac:(by left))
    as (p1 & Hr1 & Hp1 & Hs1). simpl in Hs1.
  change (4 + fuel)%nat with (S (S (S (S fuel)))).
  rewrite (fun He Hst => preamble_loop_round _ _ _ _ _ _ He Hst Hr1);
    [ | cbn; exact (pending_eof _ _ _ Hp) | cbn; rewrite Hs; discriminate ].
  destruct (pround_comment hf (ExpFile.set_parser e p1) loc true _ Hp1 Hs1)
    as (p2 & Hr2 & Hp2 & Hs2).
  rewrite (fun He Hst => preamble_loop_round _ _ _ _ _ _ He Hst Hr2);
    [ | cbn; exact (pending_eof _ _ _ Hp1) | cbn; rewrite Hs1; discriminate ].
  destruct (pround_mapping hf (ExpFile.set_parser (ExpFile.set_parser e p1) p2) loc
              m rest) as (e3 & Hr3 & Hp3 & Hs3 & Hinv3 & Hrest3);
    [by rewrite <- !app_assoc in Hp2|done|done|done|done|done|done|].
  rewrite (fun He Hst => preamble_loop_round _ _ _ _ _ _ He Hst Hr3);
    [ | cbn; exact (pending_eof _ _ _ Hp2) | cbn; rewrite Hs2; discriminate ].
  match goal with
  | |- context [ExpFile.preamble_loop (S fuel) hf e3 ?l1] =>
      destruct (pround_newline hf e3 l1 rest Hp3) as (p4 & Hr4 & Hp4 & Hs4)
  end.
  rewrite (fun He Hst => preamble_loop_round _ _ _ _ _ _ He Hst Hr4);
    [ | cbn; exact (pending_eof _ _ _ Hp3) | cbn; rewrite Hs3; discriminate ].
  exists (ExpFile.set_parser e3 p4). done.
Qed.

Lemma origin_line_parsed (fuel hf : nat) e loc (os : list (bool * list ascii)) rest :
  pending (ExpFile.parser e) = origin_line os ++ rest →
  state (ExpFile.parser e) = PARSE_STATE_NONE →
  unsigned_ok os →
  ∃ p', ExpFile.preamble_loop (4 + fuel) hf e loc
        = ExpFile.preamble_loop fuel hf
            (ExpFile.mkExpansion p' (ExpFile.p_max_var e) (ExpFile.p_num_clauses e)
               (ExpFile.num_clauses_yielded e)
               (Some (default [] (ExpFile.clause_origins e)
                      ++ map (λ t, decimal_value t.2 - 1) os))
               (ExpFile.exp_var_mapping_keys e) (ExpFile.exp_var_mappings e)
               (ExpFile.heap e) (ExpFile.printed e))
            (ExpFile.mkPreamble (ExpFile.parsed_problem loc) true
               (ExpFile.max_var loc)) ∧
    pending p' = rest ∧ state p' = PARSE_STATE_NONE.
Proof.
  intros Hp Hs Hos. unfold origin_line in Hp.
  rewrite <- !app_assoc in Hp. simpl in Hp.
  destruct (pround_enter hf e loc "c"%char _ Hp Hs ltac:(by left))
    as (p1 & Hr1 & Hp1 & Hs1). simpl in Hs1.
  change (4 + fuel)%nat with (S (S (S (S fuel)))).
  rewrite (fun He Hst => preamble_loop_round _ _ _ _ _ _ He Hst Hr1);
    [ | cbn; exact (pending_eof _ _ _ Hp) | cbn; rewrite Hs; discriminate ].
  destruct (pround_comment hf (ExpFile.set_parser e p1) loc false _ Hp1 Hs1)
    as (p2 & Hr2 & Hp2 & Hs2).
  rewrite (fun He Hst => preamble_loop_round _ _ _ _ _ _ He Hst Hr2);
    [ | cbn; exact (pending_eof _ _ _ Hp1) | cbn; rewrite Hs1; discriminate ].
  destruct (pround_origin hf (ExpFile.set_parser (ExpFile.set_parser e p1) p2) loc
              os rest) as (p3 & Hr3 & Hp3 & Hs3); [done|done|done|].
  rewrite (fun He Hst => preamble_loop_round _ _ _ _ _ _ He Hst Hr3);
    [ | cbn; exact (pending_eof _ _ _ Hp2) | cbn; rewrite Hs2; discriminate ].
  cbn [ExpFile.set_parser ExpFile.num_clauses_yielded ExpFile.clause_origins
       ExpFile.exp_var_mapping_keys ExpFile.exp_var_mappings ExpFile.heap
       ExpFile.printed ExpFile.p_max_var ExpFile.p_num_clauses].
  match goal with
  | |- context [ExpFile.preamble_loop (S fuel) hf ?e1 ?l1] =>
      destruct (pround_newline hf e1 l1 rest Hp3) as (p4 & Hr4 & Hp4 & Hs4)
  end.
  rewrite (fun He Hst => preamble_loop_round _ _ _ _ _ _ He Hst Hr4);
    [ | cbn; exact (pending_eof _ _ _ Hp3) | cbn; rewrite Hs3; discriminate ].
  exists p4. done.
Qed.

Lemma line_mappings_keys
    (m : list (bool * list ascii) * list (bool * list ascii) * list (bool * list ascii)) :
  mapping_ok m → exp_var <$> line_mappings m = mapping_exp_vars m.
Proof.
  intros (_ & _ & Hlen & _). unfold line_mappings.
  assert (Hl : length (mapping_exp_vars m) = length (mapping_qbf_vars m)).
  { unfold mapping_exp_vars, mapping_qbf_vars. by rewrite !length_map. }
  revert Hl. generalize (mapping_qbf_vars m). generalize (clause_lits m.2).
  induction (mapping_exp_vars m) as [|v vs IH]; intros ann [|q qs] Hl; try done.
  simpl. f_equal. apply IH. simpl in Hl. lia.
Qed.

Lemma mapping_lines_parsed
    (ms : list (list (bool * list ascii) * list (bool * list ascii)
                * list (bool * list ascii))) :
  ∀ (fuel hf : nat) e loc rest,
    pending (ExpFile.parser e) = flat_map mapping_line ms ++ rest →
    state (ExpFile.parser e) = PARSE_STATE_NONE →
    Forall mapping_ok ms → exp_table_ok e →
    NoDup (ExpFile.exp_var_mapping_keys e ++ flat_map mapping_exp_vars ms) →
    Z.of_nat (length (ExpFile.heap e))
    + Z.of_nat (length (flat_map mapping_exp_vars ms)) < 2 ^ 32 →
    8 * (Z.of_nat (length (ExpFile.heap e))
         + Z.of_nat (length (flat_map mapping_exp_vars ms))) + 514 ≤ Z.of_nat hf →
    ∃ e', ExpFile.preamble_loop (4 * length ms + fuel) hf e loc
          = ExpFile.preamble_loop fuel hf e'
              (ExpFile.mkPreamble (ExpFile.parsed_problem loc)
                 (ExpFile.parsed_origin_mapping loc)
                 (fold_left Z.max (flat_map mapping_exp_vars ms)
                    (ExpFile.max_var loc))) ∧
      pending (ExpFile.parser e') = rest ∧
      state (ExpFile.parser e') = PARSE_STATE_NONE ∧
      exp_table_ok e' ∧
      ExpFile.heap e' = ExpFile.heap e ++ flat_map line_mappings ms ∧
      ExpFile.p_max_var e' = ExpFile.p_max_var e ∧
      ExpFile.p_num_clauses e' = ExpFile.p_num_clauses e ∧
      ExpFile.num_clauses_yielded e' = ExpFile.num_clauses_yielded e ∧
      ExpFile.clause_origins e' = ExpFile.clause_origins e.
Proof.
  induction ms as [|m ms IH]; intros fuel hf e loc rest Hp Hs Hms Hinv Hnd Hb Hfuel.
  - simpl. exists e. rewrite app_nil_r. by destruct loc.
  - apply Forall_cons in Hms as [Hm Hms]. simpl in Hp, Hnd, Hb, Hfuel.
    rewrite <- app_assoc in Hp. rewrite length_app in Hb, Hfuel.
    replace (4 * length (m :: ms) + fuel)%nat
      with (4 + (4 * length ms + fuel))%nat by (simpl; lia).
    destruct (mapping_line_parsed (4 * length ms + fuel) hf e loc m _ Hp Hs Hm Hinv)
      as (e1 & -> & Hp1 & Hs1 & Hinv1 & Hheap1 & Hmv1 & Hnc1 & Hy1 & Ho1).
    { rewrite app_assoc in Hnd. by apply NoDup_app in Hnd as (Hnd & _). }
    { lia. }
    { lia. }
    pose proof Hinv as (_ & _ & _ & Hkeys & _).
    pose proof Hinv1 as (_ & _ & _ & Hkeys1 & _).
    assert (Hk1 : ExpFile.exp_var_mapping_keys e1
                  = ExpFile.exp_var_mapping_keys e ++ mapping_exp_vars m).
    { by rewrite Hkeys1, Hheap1, fmap_app, <- Hkeys, line_mappings_keys. }
    assert (Hl1 : length (ExpFile.heap e1)
                  = (length (ExpFile.heap e) + length (mapping_exp_vars m))%nat).
    { rewrite Hheap1, length_app. f_equal.
      rewrite <- (line_mappings_keys m Hm). by rewrite length_fmap. }
    set (loc1 := ExpFile.mkPreamble _ _ _).
    destruct (IH fuel hf e1 loc1 rest Hp1 Hs1 Hms Hinv1)
      as (e2 & -> & Hp2 & Hs2 & Hinv2 & Hheap2 & Hmv2 & Hnc2 & Hy2 & Ho2).
    { by rewrite Hk1, <- app_assoc. }
    { rewrite Hl1. lia. }
    { rewrite Hl1. lia. }
    exists e2. cbn. rewrite fold_left_app. split; [done|].
    split; [done|]. split; [done|]. split; [done|].
    split; [by rewrite Hheap2, Hheap1, <- app_assoc|].
    repeat split; congruence.
Qed.

Lemma NoDup_range_length (l : list Z) (n : Z) :
  NoDup l → Forall (λ v, 1 ≤ v ≤ n) l → Z.of_nat (length l) ≤ Z.max 0 n.
Proof.
  intros Hnd Hr.
  assert (Hsub : l ⊆+ seqZ 1 n).
  { apply NoDup_submseteq; [done|]. intros x Hx. apply elem_of_seqZ.
    pose proof (proj1 (Forall_forall _ _) Hr x Hx) as Hx'. simpl in Hx'. lia. }
  apply submseteq_length in Hsub. rewrite length_seqZ in Hsub. lia.
Qed.

Lemma expansion_new_table_ok p mv nc : exp_table_ok (ExpFile.expansion_new p mv nc).
Proof.
  unfold exp_table_ok. cbn.
  destruct (ht_new_spec ExpFile.HASHTABLE_EXP_VAR_MAPPING_KEYS_DEFAULT_CAP)
    as (Hwf & Hent & _); [done|].
  split. { split; [done|]. rewrite Hent. constructor. }
  split; [done|]. split; [done|].
  split; [done|]. split; [done|].
  split; [by intros k mp Hk|].
  intros key _. unfold ht_map. by rewrite Hent.
Qed.

Lemma pending_string (l : list ascii) (silent : bool) :
  pending (parser_init (string_of_list_ascii l) silent) = l.
Proof. by rewrite pending_parser_init, list_ascii_of_string_of_list_ascii. Qed.

Lemma mapping_exp_vars_range
    (ms : list (list (bool * list ascii) * list (bool * list ascii)
                * list (bool * list ascii))) :
  Forall mapping_ok ms →
  Forall (λ v, 1 ≤ v ≤ VARIABLE_MAX) (flat_map mapping_exp_vars ms).
Proof.
  induction 1 as [|m ms (Hev & _) _ IH]; simpl; [done|].
  apply Forall_app. split; [|done]. by apply mapping_vars_range.
Qed.

(** The loop of [expansion_parse_preamble] on a file. *)
Lemma preamble_loop_text (dv dc : list ascii)
    (ms : list (list (bool * list ascii) * list (bool * list ascii)
                * list (bool * list ascii)))
    (os : option (list (bool * list ascii))) (cs : list (list (bool * list ascii)))
    (fuel hf : nat) (p p0 : Parser) (mv0 nc0 : Z) :
  pending p = expansion_text dv dc ms os cs → state p = PARSE_STATE_NONE →
  digits_ok dv → digits_ok dc →
  Forall mapping_ok ms → NoDup (flat_map mapping_exp_vars ms) →
  (∀ o, os = Some o → unsigned_ok o) →
  Forall (Forall token_ok) cs →
  (8 + 4 * length ms ≤ fuel)%nat →
  8 * Z.of_nat (length (flat_map mapping_exp_vars ms)) + 514 ≤ Z.of_nat hf →
  ∃ e, ExpFile.preamble_loop fuel hf
         (ExpFile.set_parser (ExpFile.expansion_new p0 mv0 nc0) p)
         (ExpFile.mkPreamble false false VARIABLE_MIN)
       = Ok (e, ExpFile.mkPreamble true (if os is Some _ then true else false)
                  (fold_left Z.max (flat_map mapping_exp_vars ms) VARIABLE_MIN)) ∧
    pending (ExpFile.parser e) = flat_map token_line cs ∧
    state (ExpFile.parser e)
    = (if cs is [] then PARSE_STATE_NONE else PARSE_STATE_CLAUSE) ∧
    exp_table_ok e ∧
    ExpFile.heap e = flat_map line_mappings ms ∧
    ExpFile.p_max_var e = u32 (decimal_value dv) ∧
    ExpFile.p_num_clauses e = u32 (decimal_value dc) ∧
    ExpFile.num_clauses_yielded e = 0 ∧
    ExpFile.clause_origins e
    = Some (from_option (map (λ t, decimal_value t.2 - 1)) [] os).
Proof.
  intros Hp Hs Hdv Hdc Hms Hnd Hos Hcs Hfuel Hhf. unfold expansion_text in Hp.
  pose proof (NoDup_range_length _ VARIABLE_MAX Hnd (mapping_exp_vars_range ms Hms))
    as Hcount. unfold VARIABLE_MAX in Hcount.
  (* the header *)
  replace fuel with (3 + (4 * length ms + (fuel - 3 - 4 * length ms)))%nat by lia.
  set (f1 := (fuel - 3 - 4 * length ms)%nat). assert (5 ≤ f1)%nat as Hf1 by lia.
  clearbody f1. clear Hfuel.
  destruct (pheader_line_parsed (4 * length ms + f1) hf
              (ExpFile.set_parser (ExpFile.expansion_new p0 mv0 nc0) p)
              (ExpFile.mkPreamble false false VARIABLE_MIN) dv dc _ Hp Hs)
    as (p1 & -> & Hp1 & Hs1); [done|done|done|].
  cbn [ExpFile.set_parser ExpFile.expansion_new ExpFile.num_clauses_yielded
       ExpFile.clause_origins ExpFile.exp_var_mapping_keys ExpFile.exp_var_mappings
       ExpFile.heap ExpFile.printed ExpFile.parsed_origin_mapping ExpFile.max_var].
  (* the mapping comments *)
  set (e1 := ExpFile.mkExpansion p1 _ _ _ _ _ _ _ _).
  set (loc1 := ExpFile.mkPreamble true false VARIABLE_MIN).
  destruct (mapping_lines_parsed ms f1 hf e1 loc1 _ Hp1 Hs1 Hms
              (expansion_new_table_ok p1 _ _))
    as (e2 & -> & Hp2 & Hs2 & Hinv2 & Hheap2 & Hmv2 & Hnc2 & Hy2 & Ho2);
    [done|simpl; lia|simpl; lia|].
  cbn [loc1 ExpFile.parsed_problem ExpFile.parsed_origin_mapping ExpFile.max_var].
  simpl in Hheap2, Hmv2, Hnc2, Hy2, Ho2.
  (* the origin comment *)
  assert (∃ e3 f3,
    ExpFile.preamble_loop f1 hf e2
      (ExpFile.mkPreamble true false
         (fold_left Z.max (flat_map mapping_exp_vars ms) VARIABLE_MIN))
    = ExpFile.preamble_loop f3 hf e3
        (ExpFile.mkPreamble true (if os is Some _ then true else false)
           (fold_left Z.max (flat_map mapping_exp_vars ms) VARIABLE_MIN)) ∧
    (1 ≤ f3)%nat ∧
    pending (ExpFile.parser e3) = flat_map token_line cs ∧
    state (ExpFile.parser e3) = PARSE_STATE_NONE ∧
    exp_table_ok e3 ∧ ExpFile.heap e3 = ExpFile.heap e2 ∧
    ExpFile.p_max_var e3 = ExpFile.p_max_var e2 ∧
    ExpFile.p_num_clauses e3 = ExpFile.p_num_clauses e2 ∧
    ExpFile.num_clauses_yielded e3 = ExpFile.num_clauses_yielded e2 ∧
    ExpFile.clause_origins e3
    = Some (from_option (map (λ t, decimal_value t.2 - 1)) [] os))
    as (e3 & f3 & -> & Hf3 & Hp3 & Hs3 & Hinv3 & Hheap3 & Hmv3 & Hnc3 & Hy3 & Ho3).
  { destruct os as [o|]; simpl in Hp2.
    - replace f1 with (4 + (f1 - 4))%nat by lia.
      destruct (origin_line_parsed (f1 - 4) hf e2
                  (ExpFile.mkPreamble true false
                     (fold_left Z.max (flat_map mapping_exp_vars ms) VARIABLE_MIN))
                  o _ Hp2 Hs2 (Hos o eq_refl)) as (p3 & -> & Hp3 & Hs3).
      eexists _, _. split; [reflexivity|]. split; [lia|].
      cbn. rewrite Ho2. done.
    - exists e2, f1. split; [done|]. split; [lia|]. by rewrite Ho2. }
  (* the first clause line, or the end of the file *)
  destruct f3 as [|f3]; [lia|].
  destruct cs as [|c cs].
  - simpl in Hp3. rewrite preamble_loop_done by (left; by apply pending_nil).
    exists e3. split; [done|]. split; [done|]. split; [done|]. split; [done|].
    split; [congruence|]. repeat split; congruence.
  - apply Forall_cons in Hcs as [Hc Hcs]. simpl in Hp3.
    destruct (token_line_head c (flat_map token_line cs) Hc)
      as (ch & l & Hch & Hw & Hnl & H1 & H2 & _).
    rewrite Hch in Hp3.
    pose proof (pround_clause_start hf e3
                  (ExpFile.mkPreamble true (if os is Some _ then true else false)
                     (fold_left Z.max (flat_map mapping_exp_vars ms) VARIABLE_MIN))
                  ch l Hp3 Hs3 Hw Hnl H1 H2) as Hr.
    rewrite (fun He Hst => preamble_loop_round _ _ _ _ _ _ He Hst Hr);
      [ | cbn; exact (pending_eof _ _ _ Hp3) | cbn; rewrite Hs3; discriminate ].
    rewrite preamble_loop_done by (by right).
    eexists. split; [reflexivity|]. cbn. rewrite pending_set_state, Hp3, Hch.
    split; [done|]. split; [done|]. split; [done|].
    split; [congruence|]. repeat split; congruence.
Qed.

Lemma flat_map_line_mappings_keys
    (ms : list (list (bool * list ascii) * list (bool * list ascii)
                * list (bool * list ascii))) :
  Forall mapping_ok ms →
  exp_var <$> flat_map line_mappings ms = flat_map mapping_exp_vars ms.
Proof.
  induction 1 as [|m ms Hm _ IH]; simpl; [done|].
  by rewrite fmap_app, IH, line_mappings_keys.
Qed.

Lemma preamble_warning_fields e w :
  ExpFile.parser (ExpFile.preamble_warning e w) = ExpFile.parser e ∧
  ExpFile.p_max_var (ExpFile.preamble_warning e w) = ExpFile.p_max_var e ∧
  ExpFile.p_num_clauses (ExpFile.preamble_warning e w) = ExpFile.p_num_clauses e ∧
  ExpFile.num_clauses_yielded (ExpFile.preamble_warning e w)
  = ExpFile.num_clauses_yielded e ∧
  ExpFile.clause_origins (ExpFile.preamble_warning e w) = ExpFile.clause_origins e ∧
  ExpFile.exp_var_mapping_keys (ExpFile.preamble_warning e w)
  = ExpFile.exp_var_mapping_keys e ∧
  ExpFile.exp_var_mappings (ExpFile.preamble_warning e w) = ExpFile.exp_var_mappings e ∧
  ExpFile.heap (ExpFile.preamble_warning e w) = ExpFile.heap e.
Proof. unfold ExpFile.preamble_warning. by destruct (silent (ExpFile.parser e)). Qed.

(** [expansion_parse_preamble] on a file, with what it keeps for the rest
    of the run. *)
Lemma preamble_text_parsed (dv dc : list ascii)
    (ms : list (list (bool * list ascii) * list (bool * list ascii)
                * list (bool * list ascii)))
    (os : option (list (bool * list ascii))) (cs : list (list (bool * list ascii)))
    (silent : bool) (fuel : nat) (p0 : Parser) (mv0 nc0 : Z) :
  digits_ok dv → digits_ok dc →
  Forall mapping_ok ms → NoDup (flat_map mapping_exp_vars ms) →
  (∀ o, os = Some o → unsigned_ok o) →
  Forall (Forall token_ok) cs →
  (8 + 4 * length ms ≤ fuel)%nat →
  8 * Z.of_nat (length (flat_map mapping_exp_vars ms)) + 514 ≤ Z.of_nat fuel →
  ∃ e, ExpFile.expansion_parse_preamble fuel
         (string_of_list_ascii (expansion_text dv dc ms os cs))
         (ExpFile.expansion_new p0 mv0 nc0) silent = Ok e ∧
    pending (ExpFile.parser e) = flat_map token_line cs ∧
    state (ExpFile.parser e)
    = (if cs is [] then PARSE_STATE_NONE else PARSE_STATE_CLAUSE) ∧
    exp_table_ok e ∧
    ExpFile.heap e = flat_map line_mappings ms ∧
    ExpFile.p_max_var e
    = Z.max (u32 (decimal_value dv))
        (fold_left Z.max (flat_map mapping_exp_vars ms) VARIABLE_MIN) ∧
    ExpFile.p_num_clauses e = u32 (decimal_value dc) ∧
    ExpFile.num_clauses_yielded e = 0 ∧
    ExpFile.clause_origins e = map (λ t, decimal_value t.2 - 1) <$> os.
Proof.
  intros Hdv Hdc Hms Hnd Hos Hcs Hfuel Hhf. unfold ExpFile.expansion_parse_preamble.
  change (ExpFile.clause_origins (ExpFile.expansion_new p0 mv0 nc0))
    with (Some (@nil Z)).
  rewrite bool_decide_true by (by eexists). cbn [assert mbind Outcome_bind].
  destruct (preamble_loop_text dv dc ms os cs fuel fuel
              (parser_init (string_of_list_ascii (expansion_text dv dc ms os cs)) silent)
              p0 mv0 nc0)
    as (e & Heq & Hp & Hs & Hinv & Hheap & Hmv & Hnc & Hy & Ho);
    [apply pending_string|apply state_parser_init|done..|].
  rewrite Heq. cbn [mbind Outcome_bind ExpFile.parsed_origin_mapping
                    ExpFile.parsed_problem ExpFile.max_var negb].
  set (mv := fold_left Z.max (flat_map mapping_exp_vars ms) VARIABLE_MIN).
  set (e1 := if negb (if os is Some _ then true else false)
             then _ else e).
  assert (Hp1 : ExpFile.parser e1 = ExpFile.parser e ∧
                ExpFile.p_max_var e1 = ExpFile.p_max_var e ∧
                ExpFile.p_num_clauses e1 = ExpFile.p_num_clauses e ∧
                ExpFile.num_clauses_yielded e1 = ExpFile.num_clauses_yielded e ∧
                ExpFile.exp_var_mapping_keys e1 = ExpFile.exp_var_mapping_keys e ∧
                ExpFile.exp_var_mappings e1 = ExpFile.exp_var_mappings e ∧
                ExpFile.heap e1 = ExpFile.heap e ∧
                ExpFile.clause_origins e1 = map (λ t, decimal_value t.2 - 1) <$> os).
  { subst e1. destruct os as [o|]; simpl; [by rewrite Ho|].
    by destruct (preamble_warning_fields e ExpFile.WarnNoOrigins)
      as (-> & -> & -> & -> & _ & -> & -> & ->). }
  clearbody e1. destruct Hp1 as (Hq1 & Hq2 & Hq3 & Hq4 & Hq5 & Hq6 & Hq7 & Hq8).
  assert (Hinv1 : ∀ e2, ExpFile.exp_var_mapping_keys e2 = ExpFile.exp_var_mapping_keys e1 →
                        ExpFile.exp_var_mappings e2 = ExpFile.exp_var_mappings e1 →
                        ExpFile.heap e2 = ExpFile.heap e1 → exp_table_ok e2).
  { intros e2 H1 H2 H3. unfold exp_table_ok. rewrite H1, H2, H3, Hq5, Hq6, Hq7.
    exact Hinv. }
  destruct (Z.eqb_spec mv (ExpFile.p_max_var e1)) as [Heqm|Hnem]; cbn [negb].
  - exists e1. split; [done|]. rewrite Hq1, Hq7, Hq3, Hq4, Hq2.
    split; [done|]. split; [done|]. split; [by apply Hinv1|].
    split; [done|]. split; [|done]. rewrite Hq2 in Heqm. lia.
  - eexists. split; [reflexivity|].
    destruct (preamble_warning_fields e1
                (ExpFile.WarnExpMaxVar (ExpFile.p_max_var e1) mv))
      as (Hw1 & Hw2 & Hw3 & Hw4 & Hw5 & Hw6 & Hw7 & Hw8).
    cbn. rewrite Hw1, Hw2, Hw3, Hw4, Hw5, Hw8, Hq1, Hq7, Hq3, Hq4, Hq2.
    split; [done|]. split; [done|]. split.
    { apply Hinv1; cbn; congruence. }
    split; [done|]. split; [|done].
    destruct (Z.ltb_spec (ExpFile.p_max_var e) mv); lia.
Qed.

(** X26: [expansion_parse_preamble] reads a well-formed expansion file up to
    its first clause line: a header, mapping comments over different
    expansion variables, an origin comment or none, and clause lines.  It
    allocates one mapping for each expansion variable in the order of the
    file, and afterwards [ht_get] finds under the hash of each of these
    variables the address of its mapping, and nothing under the hash of any
    other variable.  The origins are stored less one, and without an origin
    comment the list is [NULL]; the maximum variable is the larger of the one
    of the header and those of the mapping comments. *)
Theorem preamble_reads_expansion_file (dv dc : list ascii)
    (ms : list (list (bool * list ascii) * list (bool * list ascii)
                * list (bool * list ascii)))
    (os : option (list (bool * list ascii))) (cs : list (list (bool * list ascii)))
    (silent : bool) (fuel : nat) (p0 : Parser) (mv0 nc0 : Z) :
  digits_ok dv → digits_ok dc →
  Forall mapping_ok ms → NoDup (flat_map mapping_exp_vars ms) →
  (∀ o, os = Some o → unsigned_ok o) →
  Forall (Forall token_ok) cs →
  (8 + 4 * length ms ≤ fuel)%nat →
  8 * Z.of_nat (length (flat_map mapping_exp_vars ms)) + 514 ≤ Z.of_nat fuel →
  ∃ e, ExpFile.expansion_parse_preamble fuel
         (string_of_list_ascii (expansion_text dv dc ms os cs))
         (ExpFile.expansion_new p0 mv0 nc0) silent = Ok e ∧
    pending (ExpFile.parser e) = flat_map token_line cs ∧
    ExpFile.p_max_var e
    = Z.max (u32 (decimal_value dv))
        (fold_left Z.max (flat_map mapping_exp_vars ms) VARIABLE_MIN) ∧
    ExpFile.p_num_clauses e = u32 (decimal_value dc) ∧
    ExpFile.num_clauses_yielded e = 0 ∧
    ExpFile.clause_origins e = map (λ t, decimal_value t.2 - 1) <$> os ∧
    ExpFile.exp_var_mapping_keys e = flat_map mapping_exp_vars ms ∧
    ExpFile.heap e = flat_map line_mappings ms ∧
    (∀ (k : nat) mp, flat_map line_mappings ms !! k = Some mp →
       ht_get (ExpFile.exp_var_mappings e) (hash_fnv1a (exp_var mp))
       = mkResult (Z.of_nat k + 1) true) ∧
    (∀ v, 0 ≤ v < 2 ^ 64 → v ∉ flat_map mapping_exp_vars ms →
       ht_get (ExpFile.exp_var_mappings e) (hash_fnv1a v) = mkResult 0 false).
Proof.
  intros Hdv Hdc Hms Hnd Hos Hcs Hfuel Hhf.
  destruct (preamble_text_parsed dv dc ms os cs silent fuel p0 mv0 nc0)
    as (e & Heq & Hp & _ & Hinv & Hheap & Hmv & Hnc & Hy & Ho); try done.
  destruct Hinv as (Hok & _ & _ & Hkeys & Hrange & Hin & Hout).
  rewrite Hheap, flat_map_line_mappings_keys in Hkeys by done.
  exists e. split; [done|]. split; [done|]. split; [done|]. split; [done|].
  split; [done|]. split; [done|]. split; [done|]. split; [done|]. split.
  - intros k mp Hk. rewrite ht_get_spec by done. rewrite <- Hheap in Hk.
    by rewrite (Hin k mp Hk).
  - intros v Hv Hnot. rewrite ht_get_spec by done. rewrite Hout; [done|].
    intros mp Hmp Heqh. apply Hnot.
    assert (Hmk : exp_var mp ∈ flat_map mapping_exp_vars ms).
    { rewrite <- flat_map_line_mappings_keys, <- Hheap by done.
      by apply list_elem_of_fmap_2. }
    rewrite Hkeys in Hrange.
    pose proof (proj1 (Forall_forall _ _) Hrange _ Hmk) as Hr.
    by rewrite (hash_fnv1a_inj v (exp_var mp) Hv Hr Heqh).
Qed.

Lemma preamble_reads_expansion_file_witness :
  ∃ e, ExpFile.expansion_parse_preamble 530 (string_of_list_ascii expansion_two)
         (ExpFile.expansion_new (parser_init EmptyString true) 0 0) true = Ok e ∧
    ExpFile.p_max_var e = 4 ∧ ExpFile.p_num_clauses e = 2 ∧
    ExpFile.clause_origins e = Some [0; 0] ∧
    ExpFile.exp_var_mapping_keys e = [3; 4] ∧
    ExpFile.heap e = [mkExpVarMapping 1 3 [5]; mkExpVarMapping 1 4 [4]] ∧
    ht_get (ExpFile.exp_var_mappings e) (hash_fnv1a 3) = mkResult 1 true ∧
    ht_get (ExpFile.exp_var_mappings e) (hash_fnv1a 4) = mkResult 2 true ∧
    ht_get (ExpFile.exp_var_mappings e) (hash_fnv1a 5) = mkResult 0 false.
Proof.
  destruct (preamble_reads_expansion_file
              (list_ascii_of_string "4") (list_ascii_of_string "2")
              [([tok false "3"], [tok false "1"], [tok true "2"]);
               ([tok false "4"], [tok false "1"], [tok false "2"])]
              (Some [tok false "1"; tok false "1"])
              [[tok false "3"]; [tok false "4"]] true 530 (parser_init EmptyString true) 0 0)
    as (e & Heq & _ & Hmv & Hnc & _ & Ho & Hkeys & Hheap & Hin & Hout).
  - split; [done|]. by repeat constructor.
  - split; [done|]. by repeat constructor.
  - repeat constructor; try done; vm_compute; done.
  - apply (bool_decide_unpack _). by vm_compute.
  - intros o [= <-]. repeat constructor; try done; vm_compute; done.
  - repeat constructor; try done; vm_compute; done.
  - simpl. lia.
  - simpl. lia.
  - exists e. split; [exact Heq|]. split; [exact Hmv|]. split; [exact Hnc|].
    split; [exact Ho|]. split; [exact Hkeys|]. split; [exact Hheap|].
    split; [exact (Hin 0%nat _ eq_refl)|]. split; [exact (Hin 1%nat _ eq_refl)|].
    apply Hout; [lia|]. apply (bool_decide_unpack _). by vm_compute.
Defined.

(** ** The clauses of an expansion file *)

(** The loop of [expansion_yield_clause] over the ends of lines. *)
Lemma yield_newlines_spec (k : nat) :
  ∀ (fuel : nat) p (rest : list ascii),
    pending p = replicate k newline ++ rest → (k < fuel)%nat →
    rest = [] ∨ (∃ c l, rest = c :: l ∧ is_white c = false ∧ c ≠ newline) →
    ∃ p', ExpFile.yield_newlines fuel p
          = Ok (if rest is [] then false else true, p') ∧
          pending p' = rest.
Proof.
  induction k as [|k IH]; intros fuel p rest Hp Hfuel Hrest.
  - simpl in Hp. destruct Hrest as [->|(c & l & -> & Hw & Hnl)].
    + exists p. split; [|done]. apply pending_nil in Hp.
      destruct fuel; simpl; by rewrite Hp.
    + exists p. split; [|done]. destruct fuel as [|fuel]; [lia|]. simpl.
      rewrite (pending_eof _ _ _ Hp), (handle_newline_start p c l Hp Hw Hnl). done.
  - simpl in Hp. destruct fuel as [|fuel]; [lia|]. simpl.
    rewrite (pending_eof _ _ _ Hp).
    destruct (handle_newline_nl p _ Hp) as (p1 & -> & Hp1 & _).
    cbn [mbind Outcome_bind].
    apply (IH fuel p1 rest Hp1 ltac:(lia) Hrest).
Qed.

(** X27: [expansion_yield_clause] reads the clause lines one by one.  With
    the parser in front of the clause lines that are left, behind the
    preamble or behind the clause before with empty lines between, a
    call returns the literals of the first of them, counts it, and stops in
    front of the newline that ends it; with no line left it returns [NULL]
    and counts nothing. *)
Theorem yield_reads_clause_lines (e : ExpFile.Expansion) (k : nat)
    (cs : list (list (bool * list ascii))) :
  state (ExpFile.parser e) = PARSE_STATE_CLAUSE →
  pending (ExpFile.parser e) = replicate k newline ++ flat_map token_line cs →
  Forall (Forall token_ok) cs →
  ∃ p', ExpFile.expansion_yield_clause e
        = Ok (clause_lits <$> head cs,
              ExpFile.mkExpansion p' (ExpFile.p_max_var e) (ExpFile.p_num_clauses e)
                (if cs is [] then ExpFile.num_clauses_yielded e
                 else u32 (ExpFile.num_clauses_yielded e + 1))
                (ExpFile.clause_origins e) (ExpFile.exp_var_mapping_keys e)
                (ExpFile.exp_var_mappings e) (ExpFile.heap e) (ExpFile.printed e)) ∧
    pending p' = (if cs is [] then [] else newline :: flat_map token_line (tail cs)) ∧
    (cs ≠ [] → state p' = PARSE_STATE_CLAUSE).
Proof.
  intros Hs Hp Hcs. unfold ExpFile.expansion_yield_clause, ExpFile.in_clause_state.
  rewrite Hs. cbn [assert mbind Outcome_bind].
  assert (Hfuel : (k < S (reads_left (ExpFile.parser e)))%nat).
  { pose proof (pending_length (ExpFile.parser e)) as Hl.
    rewrite Hp, length_app, length_replicate in Hl. lia. }
  destruct cs as [|c cs].
  - destruct (yield_newlines_spec k _ _ [] Hp Hfuel ltac:(by left)) as (p1 & -> & Hp1).
    cbn [mbind Outcome_bind negb]. exists p1. done.
  - apply Forall_cons in Hcs as [Hc Hcs]. simpl in Hp.
    destruct (token_line_head c (flat_map token_line cs) Hc)
      as (ch & l & Hch & Hw & Hnl & _).
    rewrite Hch in Hp.
    destruct (yield_newlines_spec k _ _ (ch :: l) Hp Hfuel) as (p1 & -> & Hp1).
    { right. by exists ch, l. }
    cbn [mbind Outcome_bind negb]. rewrite <- Hch in Hp1.
    destruct (token_line_read (set_state p1 PARSE_STATE_CLAUSE) c
                (flat_map token_line cs)) as [(p2 & -> & Hp2 & Hs2) _];
      [by rewrite pending_set_state|done|].
    cbn [mbind Outcome_bind]. exists p2. done.
Qed.

Lemma yield_reads_clause_lines_witness :
  ∃ e1 e2 e3,
    ExpFile.expansion_yield_clause
      (ExpFile.expansion_new
         (set_state (parser_init (lines ["3 0"; "4 0"]%string) true) PARSE_STATE_CLAUSE) 0 0)
    = Ok (Some [6], e1) ∧
    ExpFile.expansion_yield_clause e1 = Ok (Some [8], e2) ∧
    ExpFile.expansion_yield_clause e2 = Ok (None, e3) ∧
    ExpFile.num_clauses_yielded e3 = 2.
Proof.
  set (cs := [[tok false "3"]; [tok false "4"]]).
  assert (Hcs : Forall (Forall token_ok) cs).
  { repeat constructor; try done; vm_compute; done. }
  destruct (yield_reads_clause_lines
              (ExpFile.expansion_new
                 (set_state (parser_init (lines ["3 0"; "4 0"]%string) true)
                    PARSE_STATE_CLAUSE) 0 0) 0 cs eq_refl eq_refl Hcs)
    as (p1 & H1 & Hp1 & Hs1).
  destruct (yield_reads_clause_lines
              (ExpFile.mkExpansion p1 0 0 1 (Some []) []
                 (ht_new ExpFile.HASHTABLE_EXP_VAR_MAPPING_KEYS_DEFAULT_CAP) [] [])
              1 (tail cs) (Hs1 ltac:(done)) Hp1)
    as (p2 & H2 & Hp2 & Hs2).
  { repeat constructor; try done; vm_compute; done. }
  destruct (yield_reads_clause_lines
              (ExpFile.mkExpansion p2 0 0 2 (Some []) []
                 (ht_new ExpFile.HASHTABLE_EXP_VAR_MAPPING_KEYS_DEFAULT_CAP) [] [])
              1 [] (Hs2 ltac:(done)) Hp2)
    as (p3 & H3 & Hp3 & Hs3); [done|].
  eexists _, _, _. split; [exact H1|]. split; [exact H2|]. split; [exact H3|].
  reflexivity.
Defined.

(** X28: an expansion file without a clause line stops the checker.
    [expansion_parse_preamble] reads such a file to its end and leaves the
    parser in the state [PARSE_STATE_NONE]; the first call of
    [expansion_yield_clause], which [ferat_check] makes next, then fails
    its assertion on the state of the parser. *)
Theorem expansion_without_clauses_asserts (dv dc : list ascii)
    (ms : list (list (bool * list ascii) * list (bool * list ascii)
                * list (bool * list ascii)))
    (os : option (list (bool * list ascii)))
    (silent : bool) (fuel : nat) (p0 : Parser) (mv0 nc0 : Z) :
  digits_ok dv → digits_ok dc →
  Forall mapping_ok ms → NoDup (flat_map mapping_exp_vars ms) →
  (∀ o, os = Some o → unsigned_ok o) →
  (8 + 4 * length ms ≤ fuel)%nat →
  8 * Z.of_nat (length (flat_map mapping_exp_vars ms)) + 514 ≤ Z.of_nat fuel →
  ∃ e, ExpFile.expansion_parse_preamble fuel
         (string_of_list_ascii (expansion_text dv dc ms os []))
         (ExpFile.expansion_new p0 mv0 nc0) silent = Ok e ∧
    eof (ExpFile.parser e) = true ∧
    ExpFile.expansion_yield_clause e = AssertFail.
Proof.
  intros Hdv Hdc Hms Hnd Hos Hfuel Hhf.
  destruct (preamble_text_parsed dv dc ms os [] silent fuel p0 mv0 nc0)
    as (e & Heq & Hp & Hs & _); try done.
  exists e. split; [done|]. split; [by apply pending_nil|].
  unfold ExpFile.expansion_yield_clause, ExpFile.in_clause_state. by rewrite Hs.
Qed.

Lemma expansion_without_clauses_asserts_witness :
  ∃ e, ExpFile.expansion_parse_preamble 514 (lines ["p cnf 0 0"]%string)
         (ExpFile.expansion_new (parser_init EmptyString true) 0 0) true = Ok e ∧
    eof (ExpFile.parser e) = true ∧
    ExpFile.expansion_yield_clause e = AssertFail.
Proof.
  apply (expansion_without_clauses_asserts
           (list_ascii_of_string "0") (list_ascii_of_string "0") [] None true 514
           (parser_init EmptyString true) 0 0).
  - split; [done|]. by repeat constructor.
  - split; [done|]. by repeat constructor.
  - constructor.
  - constructor.
  - by intros o [=].
  - simpl. lia.
  - simpl. lia.
Defined.

(** ** Expansion files that are refused *)

Lemma preamble_loop_fatal (fuel hf : nat) e loc (code : Z) :
  eof (ExpFile.parser e) = false →
  state (ExpFile.parser e) ≠ PARSE_STATE_CLAUSE →
  ExpFile.preamble_round hf e loc = Fatal code →
  ExpFile.preamble_loop (S fuel) hf e loc = Fatal code.
Proof.
  intros He Hs Hr. simpl. rewrite He, Hr. unfold ExpFile.in_clause_state.
  by destruct (state (ExpFile.parser e)).
Qed.

(** The header and the mapping comments in front of the rest of a file. *)
Lemma preamble_loop_prefix (dv dc : list ascii)
    (ms : list (list (bool * list ascii) * list (bool * list ascii)
                * list (bool * list ascii)))
    (rest : list ascii) (fuel hf : nat) (p p0 : Parser) (mv0 nc0 : Z) :
  pending p = header_line dv dc ++ flat_map mapping_line ms ++ rest →
  state p = PARSE_STATE_NONE →
  digits_ok dv → digits_ok dc →
  Forall mapping_ok ms → NoDup (flat_map mapping_exp_vars ms) →
  8 * Z.of_nat (length (flat_map mapping_exp_vars ms)) + 514 ≤ Z.of_nat hf →
  ∃ e mv, ExpFile.preamble_loop (3 + (4 * length ms + fuel)) hf
            (ExpFile.set_parser (ExpFile.expansion_new p0 mv0 nc0) p)
            (ExpFile.mkPreamble false false VARIABLE_MIN)
          = ExpFile.preamble_loop fuel hf e (ExpFile.mkPreamble true false mv) ∧
    pending (ExpFile.parser e) = rest ∧
    state (ExpFile.parser e) = PARSE_STATE_NONE.
Proof.
  intros Hp Hs Hdv Hdc Hms Hnd Hhf.
  pose proof (NoDup_range_length _ VARIABLE_MAX Hnd (mapping_exp_vars_range ms Hms))
    as Hcount. unfold VARIABLE_MAX in Hcount.
  destruct (pheader_line_parsed (4 * length ms + fuel) hf
              (ExpFile.set_parser (ExpFile.expansion_new p0 mv0 nc0) p)
              (ExpFile.mkPreamble false false VARIABLE_MIN) dv dc _ Hp Hs)
    as (p1 & -> & Hp1 & Hs1); [done|done|done|].
  cbn [ExpFile.set_parser ExpFile.expansion_new ExpFile.num_clauses_yielded
       ExpFile.clause_origins ExpFile.exp_var_mapping_keys ExpFile.exp_var_mappings
       ExpFile.heap ExpFile.printed ExpFile.parsed_origin_mapping ExpFile.max_var].
  set (e1 := ExpFile.mkExpansion p1 _ _ _ _ _ _ _ _).
  set (loc1 := ExpFile.mkPreamble true false VARIABLE_MIN).
  destruct (mapping_lines_parsed ms fuel hf e1 loc1 _ Hp1 Hs1 Hms
              (expansion_new_table_ok p1 _ _))
    as (e2 & -> & Hp2 & Hs2 & _); [done|simpl; lia|simpl; lia|].
  by eexists _, _.
Qed.

(** The round at a mapping comment with lists of two lengths. *)
Lemma pround_mapping_unequal (hf : nat) e loc (evs qvs : list (bool * list ascii))
    (w : ascii) rest :
  pending (ExpFile.parser e)
  = " "%char :: list_text evs ++ " "%char :: list_text qvs ++ w :: rest →
  state (ExpFile.parser e) = PARSE_STATE_MAPPING_COMMENT →
  unsigned_ok evs → unsigned_ok qvs → length evs ≠ length qvs →
  is_digit w = false →
  ExpFile.preamble_round hf e loc = Fatal EXIT_PARSING_FAILURE.
Proof.
  intros Hp Hs Hev Hqv Hlen Hw.
  destruct (mapping_vars_range _ Hev) as (Hevt & Hevs & _).
  destruct (mapping_vars_range _ Hqv) as (Hqvt & Hqvs & _).
  set (r1 := list_text qvs ++ w :: rest) in *.
  destruct (list_text_head evs (" "%char :: r1) Hevt) as (c & l & Hc & Hcw & Hcn & _).
  assert (Hp' : pending (ExpFile.parser e) = [" "%char] ++ c :: l).
  { rewrite <- Hc. exact Hp. }
  unfold ExpFile.preamble_round.
  destruct (handle_newline_blanks (ExpFile.parser e) [" "%char] c l)
    as (p0 & -> & Hp0 & Hs0); [apply white_blank|done|done|done|].
  cbn [mbind Outcome_bind]. rewrite Hs0, Hs. unfold ExpFile.preamble_mapping.
  rewrite <- Hc in Hp0.
  destruct (list_text_read p0 [] evs " "%char r1) as [_ Hv1];
    [done|apply blank_not_digit|done|done|].
  destruct (Hv1 Hevs) as (p1 & -> & Hp1 & Hs1). cbn [mbind Outcome_bind].
  destruct (list_text_read p1 [" "%char] qvs w rest)
    as [_ Hv2]; [apply white_blank|done|done|done|].
  destruct (Hv2 Hqvs) as (p2 & -> & Hp2 & Hs2). cbn [mbind Outcome_bind].
  rewrite bool_decide_false; [done|]. rewrite !length_map. congruence.
Qed.

Lemma preamble_fatal_of_loop (fuel : nat) (input : string) (silent : bool)
    (p0 : Parser) (mv0 nc0 : Z) (code : Z) :
  ExpFile.preamble_loop fuel fuel
    (ExpFile.set_parser (ExpFile.expansion_new p0 mv0 nc0) (parser_init input silent))
    (ExpFile.mkPreamble false false VARIABLE_MIN) = Fatal code →
  ExpFile.expansion_parse_preamble fuel input (ExpFile.expansion_new p0 mv0 nc0) silent
  = Fatal code.
Proof.
  intros Hl. unfold ExpFile.expansion_parse_preamble.
  change (ExpFile.clause_origins (ExpFile.expansion_new p0 mv0 nc0))
    with (Some (@nil Z)).
  rewrite bool_decide_true by (by eexists). cbn [assert mbind Outcome_bind].
  by rewrite Hl.
Qed.

(** X30: what [expansion_parse_preamble] refuses behind a header and
    well-formed mapping comments.  A mapping comment whose list of QBF
    variables has another length than its list of expansion variables, and
    a second line that starts with [p] and has more than blanks behind it,
    both make it exit with [EXIT_PARSING_FAILURE], whatever follows in the
    file. *)
Theorem preamble_refuses (dv dc : list ascii)
    (ms : list (list (bool * list ascii) * list (bool * list ascii)
                * list (bool * list ascii)))
    (evs qvs : list (bool * list ascii)) (w c : ascii) (rest : list ascii)
    (silent : bool) (fuel : nat) (p0 : Parser) (mv0 nc0 : Z) :
  digits_ok dv → digits_ok dc →
  Forall mapping_ok ms → NoDup (flat_map mapping_exp_vars ms) →
  unsigned_ok evs → unsigned_ok qvs → length evs ≠ length qvs →
  is_digit w = false → is_white c = false → c ≠ newline →
  (6 + 4 * length ms ≤ fuel)%nat →
  8 * Z.of_nat (length (flat_map mapping_exp_vars ms)) + 514 ≤ Z.of_nat fuel →
  ExpFile.expansion_parse_preamble fuel
    (string_of_list_ascii
       (header_line dv dc ++ flat_map mapping_line ms
        ++ list_ascii_of_string "c x " ++ list_text evs ++ " "%char :: list_text qvs
        ++ w :: rest))
    (ExpFile.expansion_new p0 mv0 nc0) silent = Fatal EXIT_PARSING_FAILURE ∧
  ExpFile.expansion_parse_preamble fuel
    (string_of_list_ascii
       (header_line dv dc ++ flat_map mapping_line ms
        ++ "p"%char :: " "%char :: c :: rest))
    (ExpFile.expansion_new p0 mv0 nc0) silent = Fatal EXIT_PARSING_FAILURE.
Proof.
  intros Hdv Hdc Hms Hnd Hev Hqv Hlen Hw Hcw Hcn Hfuel Hhf.
  replace fuel with (3 + (4 * length ms + S (S (S (fuel - 6 - 4 * length ms)))))%nat
    in * by lia.
  set (f := (fuel - 6 - 4 * length ms)%nat) in *. clearbody f.
  set (F := (3 + (4 * length ms + S (S (S f))))%nat) in *.
  split.
  - match goal with
    | |- ExpFile.expansion_parse_preamble _ (string_of_list_ascii ?t) _ _ = _ =>
        set (text := t)
    end.
    assert (Hl : ExpFile.preamble_loop F F
                   (ExpFile.set_parser (ExpFile.expansion_new p0 mv0 nc0)
                      (parser_init (string_of_list_ascii text) silent))
                   (ExpFile.mkPreamble false false VARIABLE_MIN)
                 = Fatal EXIT_PARSING_FAILURE).
    { unfold F at 1.
      destruct (preamble_loop_prefix dv dc ms
                  (list_ascii_of_string "c x " ++ list_text evs ++ " "%char
                   :: list_text qvs ++ w :: rest) (S (S (S f))) F
                  (parser_init (string_of_list_ascii text) silent) p0 mv0 nc0)
        as (e & mv & -> & Hp & Hs); [apply pending_string|done..|].
      simpl in Hp.
      destruct (pround_enter F e (ExpFile.mkPreamble true false mv) "c"%char _ Hp Hs
                  ltac:(by left)) as (p1 & Hr1 & Hp1 & Hs1). simpl in Hs1.
      rewrite (fun He Hst => preamble_loop_round _ _ _ _ _ _ He Hst Hr1);
        [ | cbn; exact (pending_eof _ _ _ Hp) | cbn; rewrite Hs; discriminate ].
      destruct (pround_comment F (ExpFile.set_parser e p1)
                  (ExpFile.mkPreamble true false mv) true _ Hp1 Hs1)
        as (p2 & Hr2 & Hp2 & Hs2).
      rewrite (fun He Hst => preamble_loop_round _ _ _ _ _ _ He Hst Hr2);
        [ | cbn; exact (pending_eof _ _ _ Hp1) | cbn; rewrite Hs1; discriminate ].
      apply preamble_loop_fatal;
        [cbn; exact (pending_eof _ _ _ Hp2)|cbn; rewrite Hs2; discriminate|].
      by apply (pround_mapping_unequal F _ _ evs qvs w rest). }
    by apply preamble_fatal_of_loop.
  - match goal with
    | |- ExpFile.expansion_parse_preamble _ (string_of_list_ascii ?t) _ _ = _ =>
        set (text := t)
    end.
    assert (Hl : ExpFile.preamble_loop F F
                   (ExpFile.set_parser (ExpFile.expansion_new p0 mv0 nc0)
                      (parser_init (string_of_list_ascii text) silent))
                   (ExpFile.mkPreamble false false VARIABLE_MIN)
                 = Fatal EXIT_PARSING_FAILURE).
    { unfold F at 1.
      destruct (preamble_loop_prefix dv dc ms ("p"%char :: " "%char :: c :: rest)
                  (S (S (S f))) F
                  (parser_init (string_of_list_ascii text) silent) p0 mv0 nc0)
        as (e & mv & -> & Hp & Hs); [apply pending_string|done..|].
      destruct (pround_enter F e (ExpFile.mkPreamble true false mv) "p"%char _ Hp Hs
                  ltac:(by right)) as (p1 & Hr1 & Hp1 & Hs1). simpl in Hs1.
      rewrite (fun He Hst => preamble_loop_round _ _ _ _ _ _ He Hst Hr1);
        [ | cbn; exact (pending_eof _ _ _ Hp) | cbn; rewrite Hs; discriminate ].
      apply preamble_loop_fatal;
        [cbn; exact (pending_eof _ _ _ Hp1)|cbn; rewrite Hs1; discriminate|].
      unfold ExpFile.preamble_round. cbn [ExpFile.set_parser ExpFile.parser].
      destruct (handle_newline_blanks p1 [" "%char] c rest)
        as (p2 & -> & Hp2 & Hs2); [apply white_blank|done|done|done|].
      cbn [mbind Outcome_bind]. by rewrite Hs2, Hs1. }
    by apply preamble_fatal_of_loop.
Qed.

Lemma preamble_refuses_witness :
  ExpFile.expansion_parse_preamble 514
    (lines ["p cnf 2 0"; "c x 1 2 0 1 0 0"]%string)
    (ExpFile.expansion_new (parser_init EmptyString true) 0 0) true = Fatal 80 ∧
  ExpFile.expansion_parse_preamble 514
    (lines ["p cnf 2 0"; "p cnf 2 0"]%string)
    (ExpFile.expansion_new (parser_init EmptyString true) 0 0) true = Fatal 80.
Proof.
  apply (preamble_refuses (list_ascii_of_string "2") (list_ascii_of_string "0") []
           [tok false "1"; tok false "2"] [tok false "1"] " "%char "c"%char
           (list_ascii_of_string (lines ["0"]%string) ++ [])
           true 514 (parser_init EmptyString true) 0 0).
  - split; [done|]. by repeat constructor.
  - split; [done|]. by repeat constructor.
  - constructor.
  - constructor.
  - repeat constructor; try done; vm_compute; done.
  - repeat constructor; try done; vm_compute; done.
  - simpl. lia.
  - reflexivity.
  - reflexivity.
  - done.
  - simpl. lia.
  - simpl. lia.
Defined.
